(** * The autonomous agent orchestrator of bubbleAI, embedded in Rocq

    Source: [src/unnamed/part_002] ([runAutonomousAgent], its retry
    controller [generateContentStreamWithRetry] and the relay adapter
    [streamOpenRouter]).

    Conventions of the embedding.
    - A JavaScript string is a [string]: a sequence of code units, here
      restricted to the range U+0000..U+00FF (one [ascii] per code unit).
    - Every collaborator that the source awaits is a field of the record
      [env]; it receives the logical time of the call, so that two calls with
      the same arguments may answer differently.
    - The mutable locals of [runAutonomousAgent] live in the record [state],
      threaded by the monad [M]; an exception is the outcome [Throw]. *)

From Stdlib Require Import String Ascii List ZArith Lia Bool Arith.
From Stdlib Require Import DecimalString.

#[local] Set Warnings "-abstract-large-number".
Import ListNotations.
Open Scope list_scope.
Open Scope string_scope.

Set Implicit Arguments.

(** ** Strings as the source uses them *)

Module Str.

Definition chr (n : nat) : string := String (ascii_of_nat n) EmptyString.

(** The characters that cannot be written inside a string literal. *)
Definition nl : string := chr 10.
Definition dq : string := chr 34.

Definition of_nat (n : nat) : string := NilEmpty.string_of_uint (Nat.to_uint n).

(** [s.startsWith(p)] *)
Fixpoint startsWith (s p : string) : bool :=
  match p, s with
  | EmptyString, _ => true
  | String _ _, EmptyString => false
  | String a p', String b s' => Ascii.eqb a b && startsWith s' p'
  end.

(** [s.includes(p)] *)
Fixpoint includes (s p : string) : bool :=
  startsWith s p ||
  match s with
  | EmptyString => false
  | String _ s' => includes s' p
  end.

Definition endsWith (s p : string) : bool :=
  (String.length p <=? String.length s)%nat &&
  String.eqb (substring (String.length s - String.length p) (String.length p) s) p.

(** ECMAScript WhiteSpace and LineTerminator code units below U+0100:
    TAB, LF, VT, FF, CR, SP and NBSP.  This is the set of [\s] and of
    [String.prototype.trim]. *)
Definition isSpace (c : ascii) : bool :=
  let n := nat_of_ascii c in
  (((9 <=? n) && (n <=? 13)) || (n =? 32) || (n =? 160))%nat.

(** LineTerminator code units below U+0100: LF and CR ([.] excludes them). *)
Definition isLineTerminator (c : ascii) : bool :=
  let n := nat_of_ascii c in ((n =? 10) || (n =? 13))%nat.

Fixpoint trimStart (s : string) : string :=
  match s with
  | EmptyString => EmptyString
  | String c s' => if isSpace c then trimStart s' else s
  end.

(** Drops the trailing white space: a character is kept when something
    that is kept follows it, or when it is not white space. *)
Fixpoint trimEnd (s : string) : string :=
  match s with
  | EmptyString => EmptyString
  | String c s' =>
      match trimEnd s' with
      | EmptyString => if isSpace c then EmptyString else String c EmptyString
      | t => String c t
      end
  end.

(** [s.trim()] *)
Definition trim (s : string) : string := trimEnd (trimStart s).

(** JavaScript truthiness of a string. *)
Definition truthy (s : string) : bool :=
  match s with EmptyString => false | _ => true end.

(** [a || b] on strings. *)
Definition orElse (a b : string) : string := if truthy a then a else b.

(** [s.split(sep)] for a one-character separator: the result is never
    empty, and its last element is the text after the last separator. *)
Fixpoint split (sep : ascii) (s : string) : list string :=
  match s with
  | EmptyString => [EmptyString]
  | String c s' =>
      if Ascii.eqb c sep then EmptyString :: split sep s'
      else match split sep s' with
           | [] => [String c EmptyString]
           | x :: xs => String c x :: xs
           end
  end.

(** [s.replace(p, r)] for a string pattern: only the first occurrence. *)
Fixpoint replaceFirst (s p r : string) : string :=
  if startsWith s p then r ++ substring (String.length p) (String.length s) s
  else match s with
       | EmptyString => EmptyString
       | String c s' => String c (replaceFirst s' p r)
       end.

Definition toUpper (c : ascii) : ascii :=
  let n := nat_of_ascii c in
  if ((97 <=? n) && (n <=? 122))%nat then ascii_of_nat (n - 32) else c.

End Str.

(** ** Regular expressions

    A backtracking matcher with the priorities of ECMAScript: alternatives
    left to right, greedy quantifiers longest first, lazy ones shortest
    first; an iteration of a quantifier that consumes nothing is rejected;
    [exec] tries the start positions from left to right. *)

Module Re.

Inductive regex : Type :=
| Eps
| Chr (c : ascii)
| Set_ (negated : bool) (members : list ascii) (withSpace : bool)
| Dot
| Seq (r1 r2 : regex)
| Alt (r1 r2 : regex)
| Star (greedy : bool) (r : regex)
| Group (n : nat) (r : regex).

Definition captures := list (nat * string).

Fixpoint capture (n : nat) (c : captures) : option string :=
  match c with
  | [] => None
  | (m, s) :: c' => if Nat.eqb m n then Some s else capture n c'
  end.

Definition consumed (s rest : string) : string :=
  substring 0 (String.length s - String.length rest) s.

Section Matcher.
(** [ci] is the flag [i]. *)
Variable ci : bool.
Variable R : Type.

Definition chrEq (a b : ascii) : bool :=
  if ci then Ascii.eqb (Str.toUpper a) (Str.toUpper b) else Ascii.eqb a b.

Definition inSet (negated : bool) (members : list ascii) (withSpace : bool)
    (a : ascii) : bool :=
  xorb negated (existsb (chrEq a) members || (withSpace && Str.isSpace a)).

(** The iterations of a quantified pattern, whose one step is [step]: at
    most [fuel] of them, each consuming at least one character. *)
Fixpoint starLoop
    (step : string -> captures -> (string -> captures -> option R) -> option R)
    (greedy : bool) (k : string -> captures -> option R)
    (fuel : nat) (s : string) (c : captures) {struct fuel} : option R :=
  match fuel with
  | O => k s c
  | S fuel' =>
      let more (_ : unit) :=
        step s c (fun s' c' =>
          if (String.length s' <? String.length s)%nat
          then starLoop step greedy k fuel' s' c' else None) in
      if greedy then
        match more tt with Some x => Some x | None => k s c end
      else
        match k s c with Some x => Some x | None => more tt end
  end.

Fixpoint run (r : regex) (s : string) (c : captures)
    (k : string -> captures -> option R) {struct r} : option R :=
  match r with
  | Eps => k s c
  | Chr a =>
      match s with
      | String b s' => if chrEq a b then k s' c else None
      | EmptyString => None
      end
  | Set_ neg ms ws =>
      match s with
      | String b s' => if inSet neg ms ws b then k s' c else None
      | EmptyString => None
      end
  | Dot =>
      match s with
      | String b s' => if Str.isLineTerminator b then None else k s' c
      | EmptyString => None
      end
  | Seq r1 r2 => run r1 s c (fun s' c' => run r2 s' c' k)
  | Alt r1 r2 =>
      match run r1 s c k with
      | Some x => Some x
      | None => run r2 s c k
      end
  | Star greedy r' =>
      starLoop (run r') greedy k (S (String.length s)) s c
  | Group n r' =>
      run r' s c (fun s' c' => k s' ((n, consumed s s') :: c'))
  end.
End Matcher.

(** The result of [String.prototype.match] without the flag [g]:
    [m_all] is element 0, [m_groups] gives the numbered groups. *)
Record matchResult := { m_all : string; m_groups : captures }.

Definition group (n : nat) (m : matchResult) : option string :=
  capture n (m_groups m).

Definition matchHere (ci : bool) (r : regex) (s : string) : option matchResult :=
  run ci r s [] (fun rest c => Some {| m_all := consumed s rest; m_groups := c |}).

Fixpoint exec (ci : bool) (r : regex) (s : string) : option matchResult :=
  match matchHere ci r s with
  | Some m => Some m
  | None =>
      match s with
      | EmptyString => None
      | String _ s' => exec ci r s'
      end
  end.

(** Builders for the syntax the source uses. *)
Fixpoint lit (s : string) : regex :=
  match s with
  | EmptyString => Eps
  | String c EmptyString => Chr c
  | String c s' => Seq (Chr c) (lit s')
  end.

Definition plus (greedy : bool) (r : regex) : regex := Seq r (Star greedy r).
Definition opt (r : regex) : regex := Alt r Eps.
Fixpoint rep (n : nat) (r : regex) : regex :=
  match n with
  | O => Eps
  | S O => r
  | S n' => Seq r (rep n' r)
  end.

End Re.

(** ** The patterns of the source *)

Module Pat.
Import Re.

(** [/<TAG>(.*?)<\/TAG>/] *)
Definition tag (name : string) : regex :=
  Seq (lit ("<" ++ name ++ ">"))
      (Seq (Group 1 (Star false Dot)) (lit ("</" ++ name ++ ">"))).

Definition space : regex := Set_ false [] true.

Definition searchRe : regex := tag "SEARCH".
Definition deepRe : regex := tag "DEEP".
(** [/<SEARCH>deep\s+(.*?)<\/SEARCH>/i] *)
Definition deepSearchRe : regex :=
  Seq (lit "<SEARCH>deep")
      (Seq (plus true space)
           (Seq (Group 1 (Star false Dot)) (lit "</SEARCH>"))).
Definition thinkRe : regex := tag "THINK".
(** [/<THINK>/] *)
Definition thinkOpenRe : regex := lit "<THINK>".
Definition imageRe : regex := tag "IMAGE".
Definition projectRe : regex := tag "PROJECT".
Definition canvasRe : regex := tag "CANVAS".
Definition studyRe : regex := tag "STUDY".

(** The negated class of the video identifier: anything but the double
    quote, [&], [?], [/] and white space. *)
Definition idChar : regex :=
  Set_ true [ascii_of_nat 34; "&"%char; "?"%char; "/"%char] true.

(** [/(?:youtube\.com\/(?:[^\/]+\/.+\/|(?:v|e(?:mbed)?)\/|.*[?&]v=)|youtu\.be\/)(ID{11})/]
    where [ID] is the class [idChar]. *)
Definition youtubeRe : regex :=
  Seq (Alt (Seq (lit "youtube.com/")
                (Alt (Seq (plus true (Set_ true ["/"%char] false))
                          (Seq (Chr "/") (Seq (plus true Dot) (Chr "/"))))
                     (Alt (Seq (Alt (Chr "v") (Seq (Chr "e") (opt (lit "mbed"))))
                               (Chr "/"))
                          (Seq (Star true Dot)
                               (Seq (Set_ false ["?"%char; "&"%char] false)
                                    (lit "v="))))))
           (lit "youtu.be/"))
      (Group 1 (rep 11 idChar)).

(** [/youtube\.com\/shorts\/(ID{11})/] *)
Definition youtubeShortRe : regex :=
  Seq (lit "youtube.com/shorts/") (Group 1 (rep 11 idChar)).

End Pat.

(** ** Data of the orchestrator *)

(** A thrown value: [name], [message] (empty when absent) and [status]. *)
Record jsError := { e_name : string; e_message : string; e_status : option Z }.

(** [new Error(msg)] *)
Definition newError (msg : string) : jsError :=
  {| e_name := "Error"; e_message := msg; e_status := None |}.

(** A promise that has settled. *)
Inductive settled (A : Type) : Type :=
| Resolved (a : A)
| Rejected (e : jsError).
Arguments Resolved {A} a.
Arguments Rejected {A} e.

Inductive RouterAction : Set :=
| SIMPLE | SEARCH | DEEP_SEARCH | THINK | IMAGE | PROJECT | STUDY | CANVAS
| OTHER.

Inductive ThinkingMode : Set := Fast | Think | Deep | Instant.

Record Message := { sender : string; text : string }.

(** An attachment: [f_text] is what [readAsText] gives, [f_dataURL] what
    [readAsDataURL] gives. *)
Record File := {
  f_name : string;
  f_type : string;
  f_text : settled string;
  f_dataURL : settled string
}.

(** Absent settings are empty strings (both are falsy). *)
Record Profile := {
  preferred_deep_model : string;
  openrouter_api_key : string;
  preferred_image_model : string
}.

Record AgentInput := {
  prompt : string;
  files : list File;
  apiKey : string;
  project_id : string;
  chat_id : string;
  history : list Message;
  user_id : string;
  profile : option Profile;
  model : string;
  thinkingMode : ThinkingMode
}.

(** One citation record, [{ web: { uri, title } }]. *)
Record Grounding := { uri : string; title : string }.

(** The outbound message.  [groundingMetadata] is the only key that
    [metadataPayload] ever holds, so spreading the payload sets this field. *)
Record Turn := {
  t_project_id : string;
  t_chat_id : string;
  t_sender : string;
  t_text : string;
  t_image_base64 : option string;
  t_groundingMetadata : option (list Grounding)
}.

Record AgentExecutionResult := { messages : list Turn }.

Record RoutingDecision := {
  action : RouterAction;
  parameters : list (string * string)
}.

Fixpoint lookup (k : string) (m : list (string * string)) : option string :=
  match m with
  | [] => None
  | (k', v) :: m' => if String.eqb k' k then Some v else lookup k m'
  end.

(** A chunk of a provider stream: its text (empty when absent) and
    [candidates?.[0]?.groundingMetadata?.groundingChunks]. *)
Record Chunk := { c_text : string; c_grounding : option (list Grounding) }.

(** A finite stream: the chunks, then the end or an exception. *)
Record Stream := { s_chunks : list Chunk; s_failure : option jsError }.

Inductive Part : Type :=
| TextPart (s : string)
| InlineData (data : option string) (mimeType : string).

Record Content := { role : string; parts : list Part }.

Inductive Contents : Type :=
| Turns (l : list Content)
| Plain (s : string).

(** The parameters of [ai.models.generateContentStream]. *)
Record StreamParams := {
  p_model : string;
  p_contents : Contents;
  p_systemInstruction : option string;
  p_googleSearch : bool;
  p_thinkingBudget : option nat
}.

Record ChatMessage := { cm_role : string; cm_content : string }.

Record ResearchResult := { answer : string; sources : list string }.

(** [deepResearch] reports progress through its callback, then settles. *)
Record Research := { r_progress : list string; r_result : settled ResearchResult }.

(** The body of an error response of the relay: [error.message], [error.code]. *)
Record ErrorData := { ed_message : option string; ed_code : option Z }.

(** What [fetch] gives: a rejection, or a response with its status, what
    [json()] and [text()] settle to, and the reads of the body (absent body:
    [None]); each read carries the decoded text. *)
Record Response := {
  status : nat;
  r_json : settled ErrorData;
  r_text : settled string;
  r_body : option (list (settled string))
}.

(** [generateFreeCompletion] streams to the sink, then settles. *)
Record FreeCompletion := { fc_streamed : list string; fc_result : settled string }.

(** The requests that the orchestrator issues. *)
Inductive call : Type :=
| CallRoute (p : string)
| CallMemory
| CallResearch (p : string)
| CallThinkingCount
| CallStream (p : StreamParams)
| CallGenerate (contents : string)
| CallImage (p : string)
| CallCanvas (p : string)
| CallFetch (model : string) (msgs : list ChatMessage)
| CallFree (msgs : list ChatMessage).

(** What an observer of one invocation sees: what the sink receives, the
    requests, the reads of the relay body, the waits of the retry
    controller and the lines of the console.  [AbortSeen] and [Iteration]
    are ghost records: the first keeps the value of [finalResponseText] at
    the moment a check of [signal.aborted] at the top of the loop, in a
    chunk loop or in the relay reader gave [true]; the second keeps the
    counter, action and prompt with which an iteration starts. *)
Inductive event : Type :=
| Sink (s : string)
| Call (c : call)
| Read
| Wait (ms : nat)
| Console (line : string)
| AbortSeen (soFar : string)
| Iteration (n : nat) (a : RouterAction) (p : string).

(** The collaborators.  Each answer may depend on the logical time.
    [aborted] is [signal?.aborted] (constantly [false] without a signal);
    [hostname] is [new URL(url).hostname], [None] when the constructor
    throws; [sseContent] is [JSON.parse(line.substring(6))] followed by
    [choices[0]?.delta?.content], [None] when either throws or the content
    is absent; [systemInstruction model budget] is the instruction template
    with the model identity block of lines 271-282 filled in; [jsonString] is
    [JSON.stringify] of a string. *)
Record env := {
  aborted : nat -> bool;
  route : nat -> string -> string -> string -> nat -> settled RoutingDecision;
  getContext : nat -> settled string;
  deepResearch : nat -> string -> string -> Research;
  incrementThinkingCount : nat -> string -> settled unit;
  generateContentStream : nat -> StreamParams -> settled Stream;
  generateContent : nat -> string -> settled string;
  generateImage : nat -> string -> string -> string -> settled string;
  runCanvasAgent : nat -> AgentInput -> settled (list Message);
  fetch : nat -> string -> string -> list ChatMessage -> settled Response;
  generateFreeCompletion : nat -> list ChatMessage -> FreeCompletion;
  getUserFriendlyError : jsError -> string;
  hostname : string -> option string;
  sseContent : string -> option string;
  systemInstruction : string -> nat -> string;
  formatTimestamp : nat -> string;
  jsonString : string -> string
}.

(** The signal never goes back from aborted to not aborted. *)
Definition monotone (f : nat -> bool) : Prop :=
  forall t t', t <= t' -> f t = true -> f t' = true.

(** ** The state of one invocation and its monad *)

(** The clock, the observable trace (latest event first) and the mutable
    locals of [runAutonomousAgent]. *)
Record state := {
  now : nat;
  trace : list event;
  promptVar : string;
  modelVar : string;
  finalResponseText : string;
  metadataPayload : option (list Grounding);
  fallbackSearchContext : string;
  currentAction : RouterAction;
  currentPrompt : string;
  loopCount : nat;
  routingParameters : list (string * string)
}.

Definition set_now (v : nat) (s : state) : state :=
  {| now := v; trace := trace s; promptVar := promptVar s;
     modelVar := modelVar s; finalResponseText := finalResponseText s;
     metadataPayload := metadataPayload s;
     fallbackSearchContext := fallbackSearchContext s;
     currentAction := currentAction s; currentPrompt := currentPrompt s;
     loopCount := loopCount s; routingParameters := routingParameters s |}.

Definition set_trace (v : list event) (s : state) : state :=
  {| now := now s; trace := v; promptVar := promptVar s;
     modelVar := modelVar s; finalResponseText := finalResponseText s;
     metadataPayload := metadataPayload s;
     fallbackSearchContext := fallbackSearchContext s;
     currentAction := currentAction s; currentPrompt := currentPrompt s;
     loopCount := loopCount s; routingParameters := routingParameters s |}.

Definition set_promptVar (v : string) (s : state) : state :=
  {| now := now s; trace := trace s; promptVar := v;
     modelVar := modelVar s; finalResponseText := finalResponseText s;
     metadataPayload := metadataPayload s;
     fallbackSearchContext := fallbackSearchContext s;
     currentAction := currentAction s; currentPrompt := currentPrompt s;
     loopCount := loopCount s; routingParameters := routingParameters s |}.

Definition set_modelVar (v : string) (s : state) : state :=
  {| now := now s; trace := trace s; promptVar := promptVar s;
     modelVar := v; finalResponseText := finalResponseText s;
     metadataPayload := metadataPayload s;
     fallbackSearchContext := fallbackSearchContext s;
     currentAction := currentAction s; currentPrompt := currentPrompt s;
     loopCount := loopCount s; routingParameters := routingParameters s |}.

Definition set_finalResponseText (v : string) (s : state) : state :=
  {| now := now s; trace := trace s; promptVar := promptVar s;
     modelVar := modelVar s; finalResponseText := v;
     metadataPayload := metadataPayload s;
     fallbackSearchContext := fallbackSearchContext s;
     currentAction := currentAction s; currentPrompt := currentPrompt s;
     loopCount := loopCount s; routingParameters := routingParameters s |}.

Definition set_metadataPayload (v : option (list Grounding)) (s : state) : state :=
  {| now := now s; trace := trace s; promptVar := promptVar s;
     modelVar := modelVar s; finalResponseText := finalResponseText s;
     metadataPayload := v;
     fallbackSearchContext := fallbackSearchContext s;
     currentAction := currentAction s; currentPrompt := currentPrompt s;
     loopCount := loopCount s; routingParameters := routingParameters s |}.

Definition set_fallbackSearchContext (v : string) (s : state) : state :=
  {| now := now s; trace := trace s; promptVar := promptVar s;
     modelVar := modelVar s; finalResponseText := finalResponseText s;
     metadataPayload := metadataPayload s;
     fallbackSearchContext := v;
     currentAction := currentAction s; currentPrompt := currentPrompt s;
     loopCount := loopCount s; routingParameters := routingParameters s |}.

Definition set_currentAction (v : RouterAction) (s : state) : state :=
  {| now := now s; trace := trace s; promptVar := promptVar s;
     modelVar := modelVar s; finalResponseText := finalResponseText s;
     metadataPayload := metadataPayload s;
     fallbackSearchContext := fallbackSearchContext s;
     currentAction := v; currentPrompt := currentPrompt s;
     loopCount := loopCount s; routingParameters := routingParameters s |}.

Definition set_currentPrompt (v : string) (s : state) : state :=
  {| now := now s; trace := trace s; promptVar := promptVar s;
     modelVar := modelVar s; finalResponseText := finalResponseText s;
     metadataPayload := metadataPayload s;
     fallbackSearchContext := fallbackSearchContext s;
     currentAction := currentAction s; currentPrompt := v;
     loopCount := loopCount s; routingParameters := routingParameters s |}.

Definition set_loopCount (v : nat) (s : state) : state :=
  {| now := now s; trace := trace s; promptVar := promptVar s;
     modelVar := modelVar s; finalResponseText := finalResponseText s;
     metadataPayload := metadataPayload s;
     fallbackSearchContext := fallbackSearchContext s;
     currentAction := currentAction s; currentPrompt := currentPrompt s;
     loopCount := v; routingParameters := routingParameters s |}.

Definition set_routingParameters (v : list (string * string)) (s : state) : state :=
  {| now := now s; trace := trace s; promptVar := promptVar s;
     modelVar := modelVar s; finalResponseText := finalResponseText s;
     metadataPayload := metadataPayload s;
     fallbackSearchContext := fallbackSearchContext s;
     currentAction := currentAction s; currentPrompt := currentPrompt s;
     loopCount := loopCount s; routingParameters := v |}.

(** How a computation ends: with a value, with an exception, or because the
    fuel of a loop of the model ran out (which the theorems exclude). *)
Inductive outcome (A : Type) : Type :=
| Ok (a : A)
| Throw (e : jsError)
| OutOfFuel.
Arguments Ok {A} a.
Arguments Throw {A} e.
Arguments OutOfFuel {A}.

Definition M (A : Type) : Type := state -> outcome A * state.

Definition ret {A} (a : A) : M A := fun s => (Ok a, s).

Definition bind {A B} (m : M A) (f : A -> M B) : M B :=
  fun s =>
    match m s with
    | (Ok a, s') => f a s'
    | (Throw e, s') => (Throw e, s')
    | (OutOfFuel, s') => (OutOfFuel, s')
    end.

Definition throw {A} (e : jsError) : M A := fun s => (Throw e, s).

Definition outOfFuel {A} : M A := fun s => (OutOfFuel, s).

(** [try { m } catch (e) { h e }] *)
Definition tryCatch {A} (m : M A) (h : jsError -> M A) : M A :=
  fun s =>
    match m s with
    | (Throw e, s') => h e s'
    | r => r
    end.

Definition get : M state := fun s => (Ok s, s).
Definition modify (f : state -> state) : M unit := fun s => (Ok tt, f s).

Declare Scope agent_scope.
Delimit Scope agent_scope with agent.
Notation "x <- m ;; k" := (bind m (fun x => k))
  (at level 61, m at next level, right associativity) : agent_scope.
Notation "m ;; k" := (bind m (fun _ => k))
  (at level 61, right associativity) : agent_scope.
Open Scope agent_scope.

Definition emit (ev : event) : M unit :=
  modify (fun s => set_trace (ev :: trace s) s).

(** [onStreamChunk?.(s)] *)
Definition sink (s : string) : M unit := emit (Sink s).

(** One suspension: time passes. *)
Definition tick : M unit := modify (fun s => set_now (S (now s)) s).

(** [await] of a request to a collaborator. *)
Definition await {A} (c : call) (answer : nat -> settled A) : M A :=
  s <- get ;;
  emit (Call c) ;;
  tick ;;
  match answer (now s) with
  | Resolved a => ret a
  | Rejected e => throw e
  end.

(** [await] of something that is no request (a file read, a stream read). *)
Definition settle {A} (p : settled A) : M A :=
  tick ;;
  match p with
  | Resolved a => ret a
  | Rejected e => throw e
  end.

(** ** The orchestrator *)

Section Orchestrator.

Variable E : env.

(** [signal?.aborted] at a point where the orchestrator stops on it. *)
Definition signalAborted : M bool :=
  s <- get ;;
  if aborted E (now s)
  then emit (AbortSeen (finalResponseText s)) ;; ret true
  else ret false.

(** [signal?.aborted] in the progress callback, where it only gates a
    notice. *)
Definition signalAbortedInCallback : M bool :=
  s <- get ;;
  ret (aborted E (now s)).

Definition console (line : string) : M unit := emit (Console line).

Definition isGoogleModel (model : string) : bool :=
  if negb (Str.truthy model) then true
  else Str.startsWith model "gemini" || Str.startsWith model "veo"
       || Str.includes model "google".

(** *** generateContentStreamWithRetry *)

Definition isQuotaError (error : jsError) : bool :=
  match e_status error with Some n => Z.eqb n 429 | None => false end
  || (Str.truthy (e_message error) && Str.includes (e_message error) "429")
  || (Str.truthy (e_message error) && Str.includes (e_message error) "quota").

(** [Math.pow(2, attempt) * 2000 + 1000] *)
Definition backoff (attempt : nat) : nat := 2 ^ attempt * 2000 + 1000.

(** [Math.round(delay / 1000)] on a natural number of milliseconds. *)
Definition roundSeconds (delay : nat) : nat := (delay + 500) / 1000.

Definition withDefaultModel (params : StreamParams) : StreamParams :=
  if negb (Str.truthy (p_model params))
  then {| p_model := "gemini-2.5-flash";
          p_contents := p_contents params;
          p_systemInstruction := p_systemInstruction params;
          p_googleSearch := p_googleSearch params;
          p_thinkingBudget := p_thinkingBudget params |}
  else params.

(** The loop [for (let attempt = 0; attempt <= retries; attempt++)], from
    the value [attempt] on. *)
Fixpoint attemptsFrom (fuel : nat) (params : StreamParams) (retries : nat)
    (onRetry : option (string -> M unit)) (attempt : nat) : M Stream :=
  match fuel with
  | O => outOfFuel
  | S fuel' =>
      if (attempt <=? retries)%nat then
        tryCatch
          (await (CallStream params) (fun t => generateContentStream E t params))
          (fun error =>
             if isQuotaError error && (attempt <? retries)%nat then
               let delay := backoff attempt in
               console ("Quota limit hit. Retrying in " ++ Str.of_nat delay
                        ++ "ms...") ;;
               match onRetry with
               | Some f =>
                   f ("(Rate limit hit. Retrying in "
                        ++ Str.of_nat (roundSeconds delay) ++ "s...)")
               | None => ret tt
               end ;;
               emit (Wait delay) ;;
               tick ;;
               attemptsFrom fuel' params retries onRetry (S attempt)
             else throw error)
      else throw (newError "Max retries exceeded")
  end.

Definition generateContentStreamWithRetry (params : StreamParams)
    (retries : nat) (onRetry : option (string -> M unit)) : M Stream :=
  (if negb (Str.truthy (p_model params))
   then console "Model undefined in generateContent call, defaulting to gemini-2.5-flash"
   else ret tt) ;;
  attemptsFrom (S (S retries)) (withDefaultModel params) retries onRetry 0.

(** *** Streams and their consumption *)

Inductive flow (A : Type) : Type :=
| Next (a : A)
| Break (a : A).
Arguments Next {A} a.
Arguments Break {A} a.

(** What [streamOpenRouter] and [generateContentStreamWithRetry] hand to
    [for await]. *)
Inductive generator : Type :=
| NativeGen (s : Stream)
| RelayGen (apiKey model : string) (msgs : list ChatMessage) (sys : string).

(** Calling an async generator function runs none of its body: the call
    only builds the generator object. *)
Definition streamOpenRouter (apiKey model : string) (msgs : list ChatMessage)
    (sys : string) : generator :=
  RelayGen apiKey model msgs sys.

Section ForAwait.
Variable A : Type.
(** The body of the [for await] loop: [Break] is [break], after which the
    loop awaits the [return()] of the iterator. *)
Variable body : A -> Chunk -> M (flow A).

Fixpoint overChunks (cs : list Chunk) (failure : option jsError) (acc : A)
    : M A :=
  match cs with
  | [] =>
      tick ;;
      match failure with
      | None => ret acc
      | Some e => throw e
      end
  | c :: cs' =>
      tick ;;
      r <- body acc c ;;
      match r with
      | Break a => tick ;; ret a
      | Next a => overChunks cs' failure a
      end
  end.

(** The catch of the generator: [if (error.name === 'AbortError') return;
    throw error].  [None] is the silent return. *)
Definition silentOnAbort {B} (m : M B) : M (option B) :=
  tryCatch (x <- m ;; ret (Some x))
    (fun error =>
       if String.eqb (e_name error) "AbortError" then ret None
       else throw error).

(** [for (const line of lines)] with its [yield]. *)
Fixpoint overLines (lines : list string) (acc : A) : M (flow A) :=
  match lines with
  | [] => ret (Next acc)
  | line :: lines' =>
      if Str.startsWith line "data: " && negb (String.eqb line "data: [DONE]")
      then
        match sseContent E (substring 6 (String.length line) line) with
        | Some content =>
            if Str.truthy content then
              tick ;;
              r <- body acc {| c_text := content; c_grounding := None |} ;;
              match r with
              | Break a => tick ;; ret (Break a)
              | Next a => overLines lines' a
              end
            else overLines lines' acc
        | None => overLines lines' acc
        end
      else overLines lines' acc
  end.

(** [while (true)] of the relay reader. *)
Fixpoint overReads (reads : list (settled string)) (buffer : string)
    (acc : A) : M A :=
  b <- signalAborted ;;
  if b then ret acc
  else
    emit Read ;;
    match reads with
    | [] => tick ;; ret acc
    | read :: reads' =>
        v <- silentOnAbort (settle read) ;;
        match v with
        | None => ret acc
        | Some value =>
            let lines := Str.split (ascii_of_nat 10) (buffer ++ value) in
            let buffer' := Str.orElse (last lines EmptyString) EmptyString in
            r <- overLines (removelast lines) acc ;;
            match r with
            | Break a => ret a
            | Next a => overReads reads' buffer' a
            end
        end
    end.
End ForAwait.

(** *** The body of streamOpenRouter, run by the first pull *)

Definition responseOk (r : Response) : bool :=
  ((200 <=? status r) && (status r <=? 299))%nat.

Definition unavailableMessage (model : string) : string :=
  "The model " ++ Str.dq ++ model ++ Str.dq
  ++ " is currently unavailable via OpenRouter (No providers). Please select a different model.".

(** The branch [if (!response.ok)]: it always throws. *)
Definition relayFailure (model : string) (r : Response)
    : M (list (settled string)) :=
  let errorMsg := "OpenRouter Error (" ++ Str.of_nat (status r) ++ ")" in
  msg <- tryCatch
    (errorData <- settle (r_json r) ;;
     if (status r =? 404)%nat
        && (match ed_message errorData with
            | Some m => Str.includes m "No allowed providers"
            | None => false
            end
            || match ed_code errorData with
               | Some n => Z.eqb n 404
               | None => false
               end)
     then throw (newError (unavailableMessage model))
     else
       match ed_message errorData with
       | Some m => if Str.truthy m then ret m else ret errorMsg
       | None => ret errorMsg
       end)
    (fun e =>
       if Str.includes (e_message e) "currently unavailable" then throw e
       else
         tick ;;
         let textError :=
           match r_text r with
           | Resolved t => t
           | Rejected _ => EmptyString
           end in
         if Str.truthy textError then ret (errorMsg ++ ": " ++ textError)
         else ret errorMsg) ;;
  throw (newError msg).

(** From the [fetch] to the reader of the body. *)
Definition relayOpen (apiKey model : string) (msgs : list ChatMessage)
    (sys : string) : M (list (settled string)) :=
  let body := {| cm_role := "system"; cm_content := sys |} :: msgs in
  response <- await (CallFetch model body)
                (fun t => fetch E t apiKey model body) ;;
  if negb (responseOk response) then relayFailure model response
  else
    match r_body response with
    | None => throw (newError "No response body from OpenRouter")
    | Some reads => ret reads
    end.

(** [for await (const chunk of generator) body] *)
Definition forAwait {A} (body : A -> Chunk -> M (flow A)) (g : generator)
    (acc : A) : M A :=
  match g with
  | NativeGen s => overChunks body (s_chunks s) (s_failure s) acc
  | RelayGen apiKey model msgs sys =>
      opened <- silentOnAbort (relayOpen apiKey model msgs sys) ;;
      match opened with
      | None => ret acc
      | Some reads => overReads body reads EmptyString acc
      end
  end.

(** *** The pieces shared by the handlers *)

Section Handlers.

Variable input : AgentInput.

(** The values fixed before the loop starts. *)
Record context := {
  isNative : bool;
  openRouterKey : string;
  thinkingBudget : nat;
  baseSystemInstruction : string;
  memoryJSON : string;
  dateTimeContext : string
}.

Variable ctx : context.

Inductive step : Type :=
| Continue
| Return (r : AgentExecutionResult).

Definition mkTurn (txt : string) (image : option string)
    (meta : option (list Grounding)) : Turn :=
  {| t_project_id := project_id input;
     t_chat_id := chat_id input;
     t_sender := "ai";
     t_text := txt;
     t_image_base64 := image;
     t_groundingMetadata := meta |}.

Definition single (t : Turn) : AgentExecutionResult := {| messages := [t] |}.

(** [{ ..., text: finalResponseText, ...metadataPayload }] *)
Definition currentTurn : M AgentExecutionResult :=
  s <- get ;;
  ret (single (mkTurn (finalResponseText s) None (metadataPayload s))).

Definition onRetry : option (string -> M unit) := Some sink.

(** The body of the chunk loops of THINK and STUDY. *)
Definition appendChunk (_ : unit) (chunk : Chunk) : M (flow unit) :=
  b <- signalAborted ;;
  if b then ret (Break tt)
  else
    (if Str.truthy (c_text chunk) then
       modify (fun s => set_finalResponseText
                          (finalResponseText s ++ c_text chunk) s) ;;
       sink (c_text chunk)
     else ret tt) ;;
    ret (Next tt).

Definition geminiRole (m : Message) : string :=
  if String.eqb (sender m) "user" then "user" else "model".

Definition nonBlank (s : string) : bool :=
  negb (String.eqb (Str.trim s) EmptyString).

(** *** SEARCH and DEEP_SEARCH *)

Definition toGrounding (url : string) : Grounding :=
  {| uri := url;
     title := match hostname E url with
              | Some h => Str.replaceFirst h "www." EmptyString
              | None => "Source"
              end |}.

(** The progress callback, called while the research runs. *)
Fixpoint reportProgress (msgs : list string) : M unit :=
  match msgs with
  | [] => ret tt
  | msg :: msgs' =>
      tick ;;
      b <- signalAbortedInCallback ;;
      (if b then ret tt else sink (Str.nl ++ "*" ++ msg ++ "*")) ;;
      reportProgress msgs'
  end.

Definition synthesisPrompt (query context : string) : string :=
  "USER QUERY: " ++ query ++ Str.nl ++ Str.nl
  ++ "SEARCH CONTEXT:" ++ Str.nl ++ context ++ Str.nl ++ Str.nl
  ++ "INSTRUCTIONS: Synthesize a comprehensive answer to the user's query based ONLY on the provided search context. Cite sources using [1], [2] format where appropriate.".

Definition searchHandler : M step :=
  sink (Str.nl ++ "Searching sources..." ++ Str.nl) ;;
  s <- get ;;
  emit (Call (CallResearch (currentPrompt s))) ;;
  let research := deepResearch E (now s) (currentPrompt s) (apiKey input) in
  reportProgress (r_progress research) ;;
  result <- settle (r_result research) ;;
  match sources result with
  | [] => ret tt
  | _ :: _ =>
      modify (set_metadataPayload (Some (map toGrounding (sources result))))
  end ;;
  modify (set_fallbackSearchContext (answer result)) ;;
  modify (set_currentPrompt (synthesisPrompt (currentPrompt s) (answer result))) ;;
  modify (set_currentAction SIMPLE) ;;
  ret Continue.

(** *** THINK *)

Definition supportsThinking (model : string) : bool :=
  Str.includes model "gemini-2.5" || Str.includes model "gemini-3".

Definition geminiHistory : list Content :=
  filter (fun c => match parts c with
                   | TextPart t :: _ => nonBlank t
                   | _ => true
                   end)
         (map (fun m => {| role := geminiRole m; parts := [TextPart (text m)] |})
              (history input)).

Definition thinkHandler : M step :=
  let taskBudget :=
    if (0 <? thinkingBudget ctx)%nat then thinkingBudget ctx else 2048 in
  s <- get ;;
  (if negb (supportsThinking (modelVar s))
   then modify (set_modelVar "gemini-2.5-flash") else ret tt) ;;
  sink (Str.nl ++ "Thinking deeply..." ++ Str.nl) ;;
  await CallThinkingCount
        (fun t => incrementThinkingCount E t (user_id input)) ;;
  s <- get ;;
  let contextBlock :=
    baseSystemInstruction ctx ++ Str.nl ++ Str.nl ++ dateTimeContext ctx
    ++ Str.nl ++ Str.nl ++ "[MEMORY]" ++ Str.nl ++ memoryJSON ctx
    ++ Str.nl ++ Str.nl ++ "[TASK]" ++ Str.nl ++ currentPrompt s in
  let contents :=
    (geminiHistory
       ++ [ {| role := "user"; parts := [TextPart contextBlock] |} ])%list in
  response <- generateContentStreamWithRetry
                {| p_model := modelVar s;
                   p_contents := Turns contents;
                   p_systemInstruction := None;
                   p_googleSearch := false;
                   p_thinkingBudget := Some taskBudget |}
                3 onRetry ;;
  forAwait appendChunk (NativeGen response) tt ;;
  r <- currentTurn ;;
  ret (Return r).

(** *** IMAGE *)

Definition imageHandler : M step :=
  s <- get ;;
  sink ("{" ++ Str.dq ++ "type" ++ Str.dq ++ ":" ++ Str.dq
        ++ "image_generation_start" ++ Str.dq ++ "," ++ Str.dq ++ "text"
        ++ Str.dq ++ ":" ++ jsonString E (finalResponseText s) ++ "}") ;;
  let imagePrompt :=
    match lookup "prompt" (routingParameters s) with
    | Some p => Str.orElse p (currentPrompt s)
    | None => currentPrompt s
    end in
  tryCatch
    (imageBase64 <- await (CallImage imagePrompt)
       (fun t => generateImage E t imagePrompt (apiKey input)
                   (match profile input with
                    | Some p => preferred_image_model p
                    | None => EmptyString
                    end)) ;;
     s <- get ;;
     ret (Return (single (mkTurn (finalResponseText s) (Some imageBase64)
                                 (metadataPayload s)))))
    (fun e =>
       let errorMsg :=
         Str.nl ++ Str.nl ++ "(Image generation failed: " ++ e_message e ++ ")" in
       modify (fun s => set_finalResponseText (finalResponseText s ++ errorMsg) s) ;;
       sink errorMsg ;;
       r <- currentTurn ;;
       ret (Return r)).

(** *** CANVAS *)

Definition withPrompt (p : string) : AgentInput :=
  {| prompt := p; files := files input; apiKey := apiKey input;
     project_id := project_id input; chat_id := chat_id input;
     history := history input; user_id := user_id input;
     profile := profile input; model := model input;
     thinkingMode := thinkingMode input |}.

Definition typeError (msg : string) : jsError :=
  {| e_name := "TypeError"; e_message := msg; e_status := None |}.

Definition canvasHandler : M step :=
  s <- get ;;
  canvasResult <- await (CallCanvas (currentPrompt s))
    (fun t => runCanvasAgent E t (withPrompt (currentPrompt s))) ;;
  match canvasResult with
  | [] =>
      throw (typeError "Cannot read properties of undefined (reading 'text')")
  | canvasMessage :: _ =>
      modify (set_finalResponseText (Str.orElse (text canvasMessage) EmptyString)) ;;
      r <- currentTurn ;;
      ret (Return r)
  end.

(** *** PROJECT *)

Definition projectHandler : M step :=
  s <- get ;;
  if negb (isGoogleModel (modelVar s)) then
    modify (set_currentAction SIMPLE) ;; ret Continue
  else
    sink (Str.nl ++ "Building project structure..." ++ Str.nl) ;;
    let contents :=
      "Build a complete file structure for a project: " ++ currentPrompt s
      ++ ". Return a JSON object with filenames and brief content descriptions." in
    response <- await (CallGenerate contents)
                  (fun t => generateContent E t contents) ;;
    let projectMsg :=
      Str.nl ++ "I've designed the project structure based on your request."
      ++ Str.nl ++ Str.nl ++ response ++ Str.nl ++ Str.nl
      ++ "(Switch to Co-Creator mode to fully hydrate and edit these files.)" in
    modify (fun s => set_finalResponseText (finalResponseText s ++ projectMsg) s) ;;
    sink projectMsg ;;
    r <- currentTurn ;;
    ret (Return r).

(** *** STUDY *)

Definition studyHandler : M step :=
  s <- get ;;
  if negb (isGoogleModel (modelVar s)) then
    modify (set_currentAction SIMPLE) ;; ret Continue
  else
    sink (Str.nl ++ "Creating study plan..." ++ Str.nl) ;;
    response <- generateContentStreamWithRetry
                  {| p_model := "gemini-2.5-flash";
                     p_contents :=
                       Plain ("Create a structured study plan for: "
                              ++ currentPrompt s
                              ++ ". Include learning objectives and key concepts.");
                     p_systemInstruction := None;
                     p_googleSearch := false;
                     p_thinkingBudget := None |}
                  3 onRetry ;;
    forAwait appendChunk (NativeGen response) tt ;;
    r <- currentTurn ;;
    ret (Return r).

(** *** SIMPLE, the default *)

Record HistoryMessage := {
  hm_role : string;
  hm_content : string;
  hm_parts : list Part
}.

(** Drops a trailing turn of the user. *)
Definition historyWithoutLast : list Message :=
  match rev (history input) with
  | lastMsg :: _ =>
      if String.eqb (sender lastMsg) "user" then removelast (history input)
      else history input
  | [] => history input
  end.

Definition historyMessages : list HistoryMessage :=
  filter (fun m => match hm_parts m with
                   | TextPart t :: _ => nonBlank t
                   | _ => true
                   end)
         (map (fun msg =>
                 {| hm_role := if String.eqb (sender msg) "user" then "user"
                               else if isNative ctx then "model" else "assistant";
                    hm_content := text msg;
                    hm_parts := [TextPart (text msg)] |})
              historyWithoutLast).

(** The loop over the attachments: each [unshift] puts the new part first. *)
Fixpoint encodeFiles (fs : list File) (userParts : list Part) : M (list Part) :=
  match fs with
  | [] => ret userParts
  | file :: fs' =>
      res <- settle (f_dataURL file) ;;
      encodeFiles fs'
        (InlineData (nth_error (Str.split "," res) 1) (f_type file) :: userParts)
  end.

Definition toContent (m : HistoryMessage) : Content :=
  {| role := hm_role m; parts := hm_parts m |}.

Definition toChat (m : HistoryMessage) : ChatMessage :=
  {| cm_role := hm_role m; cm_content := hm_content m |}.

(** The body of the chunk loop of SIMPLE; the accumulator is
    [generatedThisLoop]. *)
Definition simpleChunk (usedFallback : bool) (generatedThisLoop : string)
    (chunk : Chunk) : M (flow string) :=
  b <- signalAborted ;;
  if b then ret (Break generatedThisLoop)
  else if Str.truthy (c_text chunk) then
    modify (fun s => set_finalResponseText
                       (finalResponseText s ++ c_text chunk) s) ;;
    sink (c_text chunk) ;;
    (if isNative ctx || usedFallback then
       match c_grounding chunk with
       | Some groundingChunks =>
           modify (fun s =>
             set_metadataPayload
               (Some (match metadataPayload s with
                      | Some l => l
                      | None => []
                      end ++ groundingChunks)%list) s)
       | None => ret tt
       end
     else ret tt) ;;
    ret (Next (generatedThisLoop ++ c_text chunk))
  else ret (Next generatedThisLoop).

Definition orMatch (a b : option Re.matchResult) : option Re.matchResult :=
  match a with
  | Some m => Some m
  | None => b
  end.

(** [m[1]] where the group takes part in every match. *)
Definition group1 (m : Re.matchResult) : string :=
  match Re.group 1 m with
  | Some p => p
  | None => EmptyString
  end.

(** The seven matches and the chain of [if (...) { ...; continue; }]:
    the action and the prompt of the next iteration, if any. *)
Definition nextDirective (generatedThisLoop userPrompt : string)
    : option (RouterAction * string) :=
  let searchMatch := Re.exec false Pat.searchRe generatedThisLoop in
  let deepMatch := orMatch (Re.exec false Pat.deepRe generatedThisLoop)
                           (Re.exec true Pat.deepSearchRe generatedThisLoop) in
  let thinkMatch := orMatch (Re.exec false Pat.thinkRe generatedThisLoop)
                            (Re.exec false Pat.thinkOpenRe generatedThisLoop) in
  let imageMatch := Re.exec false Pat.imageRe generatedThisLoop in
  let projectMatch := Re.exec false Pat.projectRe generatedThisLoop in
  let canvasMatch := Re.exec false Pat.canvasRe generatedThisLoop in
  let studyMatch := Re.exec false Pat.studyRe generatedThisLoop in
  match deepMatch with
  | Some m => Some (DEEP_SEARCH, group1 m)
  | None =>
  match searchMatch with
  | Some m => Some (SEARCH, group1 m)
  | None =>
  match thinkMatch with
  | Some m =>
      Some (THINK,
            match Re.group 1 m with
            | Some p => if Str.truthy p then Str.trim p else userPrompt
            | None => userPrompt
            end)
  | None =>
  match imageMatch with
  | Some m => Some (IMAGE, group1 m)
  | None =>
  match projectMatch with
  | Some m => Some (PROJECT, group1 m)
  | None =>
  match canvasMatch with
  | Some m => Some (CANVAS, group1 m)
  | None =>
  match studyMatch with
  | Some m => Some (STUDY, group1 m)
  | None => None
  end end end end end end end.

Definition simpleHandler : M step :=
  s <- get ;;
  let systemPrompt :=
    baseSystemInstruction ctx ++ Str.nl ++ Str.nl ++ "[MEMORY]" ++ Str.nl
    ++ memoryJSON ctx ++ Str.nl ++ Str.nl ++ dateTimeContext ctx in
  userParts <-
    match files input with
    | _ :: _ =>
        if isNative ctx
        then encodeFiles (files input) [TextPart (currentPrompt s)]
        else ret [TextPart (currentPrompt s)]
    | [] => ret [TextPart (currentPrompt s)]
    end ;;
  let allMessages :=
    (historyMessages
       ++ [ {| hm_role := "user"; hm_content := currentPrompt s;
               hm_parts := userParts |} ])%list in
  s <- get ;;
  chosen <-
    (if isNative ctx then
       g <- generateContentStreamWithRetry
              {| p_model := modelVar s;
                 p_contents := Turns (map toContent allMessages);
                 p_systemInstruction := Some systemPrompt;
                 p_googleSearch := true;
                 p_thinkingBudget :=
                   if (0 <? thinkingBudget ctx)%nat
                   then Some (thinkingBudget ctx) else None |}
              3 onRetry ;;
       ret (NativeGen g, false)
     else
       tryCatch
         (ret (streamOpenRouter (openRouterKey ctx) (modelVar s)
                 (map toChat allMessages) systemPrompt, false))
         (fun orError =>
            if Str.truthy (e_message orError)
               && (Str.includes (e_message orError) "unavailable"
                   || Str.includes (e_message orError) "404")
            then
              console "OpenRouter model failed, falling back to Gemini." ;;
              sink (Str.nl ++ "*(Model " ++ modelVar s
                    ++ " unavailable, switching to Gemini...)*" ++ Str.nl) ;;
              g <- generateContentStreamWithRetry
                     {| p_model := "gemini-2.5-flash";
                        p_contents := Turns (map toContent allMessages);
                        p_systemInstruction := Some systemPrompt;
                        p_googleSearch := true;
                        p_thinkingBudget := None |}
                     3 onRetry ;;
              ret (NativeGen g, true)
            else throw orError)) ;;
  let '(generator, usedFallback) := chosen in
  generatedThisLoop <- forAwait (simpleChunk usedFallback) generator EmptyString ;;
  s <- get ;;
  match nextDirective generatedThisLoop (promptVar s) with
  | Some (nextAction, nextPrompt) =>
      modify (set_currentAction nextAction) ;;
      modify (set_currentPrompt nextPrompt) ;;
      match nextAction with
      | IMAGE => modify (set_routingParameters [("prompt", nextPrompt)])
      | _ => ret tt
      end ;;
      ret Continue
  | None =>
      (if negb (Str.truthy (Str.trim (finalResponseText s)))
          && Str.truthy (fallbackSearchContext s)
       then
         modify (set_finalResponseText (fallbackSearchContext s)) ;;
         sink (fallbackSearchContext s)
       else ret tt) ;;
      r <- currentTurn ;;
      ret (Return r)
  end.

(** *** The loop *)

Definition MAX_LOOPS : nat := 6.

(** [switch (currentAction)] *)
Definition dispatch : M step :=
  s <- get ;;
  match currentAction s with
  | SEARCH | DEEP_SEARCH => searchHandler
  | THINK => thinkHandler
  | IMAGE => imageHandler
  | CANVAS => canvasHandler
  | PROJECT => projectHandler
  | STUDY => studyHandler
  | SIMPLE | OTHER => simpleHandler
  end.

(** [while (loopCount < MAX_LOOPS) { ... }] followed by the [return] after
    the loop. *)
Fixpoint loop (fuel : nat) : M AgentExecutionResult :=
  match fuel with
  | O => outOfFuel
  | S fuel' =>
      s <- get ;;
      if (loopCount s <? MAX_LOOPS)%nat then
        b <- signalAborted ;;
        if b then currentTurn
        else
          modify (fun s => set_loopCount (S (loopCount s)) s) ;;
          s <- get ;;
          emit (Iteration (loopCount s) (currentAction s) (currentPrompt s)) ;;
          r <- dispatch ;;
          match r with
          | Continue => loop fuel'
          | Return result => ret result
          end
      else currentTurn
  end.

End Handlers.

(** *** Instant mode *)

Definition isTextFile (file : File) : bool :=
  Str.startsWith (f_type file) "text/"
  || Str.endsWith (f_name file) ".js" || Str.endsWith (f_name file) ".ts"
  || Str.endsWith (f_name file) ".tsx" || Str.endsWith (f_name file) ".jsx"
  || Str.endsWith (f_name file) ".py" || Str.endsWith (f_name file) ".json"
  || Str.endsWith (f_name file) ".md" || Str.endsWith (f_name file) ".html"
  || Str.endsWith (f_name file) ".css" || Str.endsWith (f_name file) ".lua".

(** The loop over the attachments; the result is [(imageNote, fileContext)]. *)
Fixpoint describeFiles (fs : list File) (imageNote fileContext : string)
    : M (string * string) :=
  match fs with
  | [] => ret (imageNote, fileContext)
  | file :: fs' =>
      if Str.startsWith (f_type file) "image/" then
        describeFiles fs'
          (imageNote ++ Str.nl ++ "[User attached an image: " ++ Str.dq
           ++ f_name file ++ Str.dq
           ++ ". Note: I cannot see images in Instant Mode, so I should ask the user to describe it if needed.]")
          fileContext
      else if isTextFile file then
        added <- tryCatch
          (content <- settle (f_text file) ;;
           ret (Str.nl ++ Str.nl ++ "--- FILE CONTENT: " ++ f_name file ++ " ---"
                ++ Str.nl ++ content ++ Str.nl ++ "--- END FILE ---" ++ Str.nl))
          (fun _ =>
             console ("Failed to read file " ++ f_name file) ;;
             ret (Str.nl ++ "[Error reading file: " ++ f_name file ++ "]")) ;;
        describeFiles fs' imageNote (fileContext ++ added)
      else
        describeFiles fs' imageNote
          (fileContext ++ Str.nl ++ "[Attached file: " ++ f_name file
           ++ " (Binary/Unsupported for read)]")
  end.

(** What [generateFreeCompletion] hands to the sink while it runs. *)
Fixpoint sinkAll (l : list string) : M unit :=
  match l with
  | [] => ret tt
  | x :: l' => sink x ;; sinkAll l'
  end.

Definition instantBlock (input : AgentInput) : M AgentExecutionResult :=
  let msgs :=
    map (fun m => {| cm_role := if String.eqb (sender m) "user" then "user"
                                else "assistant";
                     cm_content := text m |})
        (historyWithoutLast input) in
  notes <- describeFiles (files input) EmptyString EmptyString ;;
  let finalPrompt := prompt input ++ fst notes ++ snd notes in
  let msgs' := (msgs ++ [ {| cm_role := "user"; cm_content := finalPrompt |} ])%list in
  s <- get ;;
  emit (Call (CallFree msgs')) ;;
  tick ;;
  let completion := generateFreeCompletion E (now s) msgs' in
  sinkAll (fc_streamed completion) ;;
  finalResponseText <- settle (fc_result completion) ;;
  ret (single (mkTurn input finalResponseText None None)).

(** *** The routed modes: the body of the outer [try] *)

Definition videoQuery (videoType videoId url : string) : string :=
  "Find details for YouTube " ++ videoType ++ " ID: " ++ videoId
  ++ ". Title, Channel, and Summary. URL: " ++ url.

(** Lines 243-254: the prompt that replaces one with a video address. *)
Definition videoRewrite (prompt : string) : option string :=
  let youtubeMatch := Re.exec false Pat.youtubeRe prompt in
  let youtubeShortMatch := Re.exec false Pat.youtubeShortRe prompt in
  match youtubeShortMatch, youtubeMatch with
  | Some m, _ => Some (videoQuery "Short" (group1 m) (Re.m_all m))
  | None, Some m => Some (videoQuery "Video" (group1 m) (Re.m_all m))
  | None, None => None
  end.

(** From the start of the outer [try] to the start of the loop. *)
Definition prepare (input : AgentInput) (budget : nat) : M context :=
  s <- get ;;
  let native := isGoogleModel (modelVar s) in
  let key := match profile input with
             | Some p => openrouter_api_key p
             | None => EmptyString
             end in
  (if negb native && negb (Str.truthy key) then
     sink (Str.nl ++ "*(OpenRouter key missing, falling back to Gemini...)*"
           ++ Str.nl) ;;
     modify (set_modelVar "gemini-2.5-flash")
   else ret tt) ;;
  initialAction <-
    match videoRewrite (promptVar s) with
    | Some query => modify (set_promptVar query) ;; ret (Some SEARCH)
    | None => ret None
    end ;;
  s <- get ;;
  let fileCount := List.length (files input) in
  routing <- await (CallRoute (promptVar s))
               (fun t => route E t (promptVar s) (user_id input) (apiKey input)
                           fileCount) ;;
  let routing' :=
    match initialAction with
    | Some a => {| action := a; parameters := [] |}
    | None => routing
    end in
  memoryContext <- await CallMemory (getContext E) ;;
  s <- get ;;
  let ctx :=
    {| isNative := native;
       openRouterKey := key;
       thinkingBudget := budget;
       baseSystemInstruction := systemInstruction E (modelVar s) budget;
       memoryJSON := memoryContext;
       dateTimeContext :=
         "[CURRENT DATE & TIME]" ++ Str.nl ++ formatTimestamp E (now s)
         ++ Str.nl |} in
  modify (set_metadataPayload None) ;;
  modify (set_fallbackSearchContext EmptyString) ;;
  modify (set_currentAction (action routing')) ;;
  modify (set_currentPrompt (promptVar s)) ;;
  modify (set_loopCount 0) ;;
  modify (set_routingParameters (parameters routing')) ;;
  ret ctx.

Definition tryBlock (input : AgentInput) (budget : nat)
    : M AgentExecutionResult :=
  ctx <- prepare input budget ;;
  loop input ctx (S MAX_LOOPS).

(** The outer [catch]. *)
Definition catchBlock (input : AgentInput) (error : jsError)
    : M AgentExecutionResult :=
  s <- get ;;
  if String.eqb (e_name error) "AbortError" then
    ret (single
           (mkTurn input
              (Str.orElse (finalResponseText s) "(Generation stopped by user)")
              None None))
  else
    console "Error in runAutonomousAgent:" ;;
    let errorMessage :=
      if Str.truthy (e_message error)
         && Str.includes (e_message error) "OpenRouter"
      then e_message error
      else getUserFriendlyError E error in
    ret (single
           (mkTurn input ("An error occurred: " ++ errorMessage) None None)).

(** What precedes the outer [try]: the choice of the model and of the
    reasoning budget. *)
Definition chooseModel (input : AgentInput) : M nat :=
  s <- get ;;
  (if negb (Str.truthy (modelVar s))
      || String.eqb (Str.trim (modelVar s)) EmptyString
   then modify (set_modelVar "gemini-2.5-flash") else ret tt) ;;
  budget <-
    match thinkingMode input with
    | Deep =>
        let preferredDeep := match profile input with
                             | Some p => preferred_deep_model p
                             | None => EmptyString
                             end in
        modify (set_modelVar (if Str.truthy preferredDeep then preferredDeep
                              else "gemini-3-pro-preview")) ;;
        ret 8192
    | Think => modify (set_modelVar "gemini-2.5-flash") ;; ret 2048
    | _ => ret 0
    end ;;
  s <- get ;;
  (if (0 <? budget)%nat && negb (Str.includes (modelVar s) "gemini-2.5")
      && negb (Str.includes (modelVar s) "gemini-3")
   then
     sink (Str.nl ++ "*(Switched to Gemini 2.5 Flash for Thinking mode compatibility)*"
           ++ Str.nl) ;;
     modify (set_modelVar "gemini-2.5-flash")
   else ret tt) ;;
  ret budget.

Definition runAutonomousAgent (input : AgentInput) : M AgentExecutionResult :=
  match thinkingMode input with
  | Instant =>
      tryCatch (instantBlock input)
        (fun _ =>
           console "Instant mode failed" ;;
           throw (newError "Instant mode service unavailable."))
  | _ =>
      budget <- chooseModel input ;;
      modify (set_finalResponseText EmptyString) ;;
      tryCatch (tryBlock input budget) (catchBlock input)
  end.

End Orchestrator.

(** The state in which an invocation starts. *)
Definition initialState (input : AgentInput) : state :=
  {| now := 0; trace := []; promptVar := prompt input;
     modelVar := model input; finalResponseText := EmptyString;
     metadataPayload := None; fallbackSearchContext := EmptyString;
     currentAction := SIMPLE; currentPrompt := EmptyString;
     loopCount := 0; routingParameters := [] |}.

(** One invocation: what it returns or throws, and the final state. *)
Definition invoke (E : env) (input : AgentInput)
    : outcome AgentExecutionResult * state :=
  runAutonomousAgent E input (initialState input).

(** The trace in the order of time. *)
Definition events (s : state) : list event := rev (trace s).

(** ** Reading a trace *)

(** The waits of the retry controller, in the order they appear. *)
Fixpoint waitsOf (tr : list event) : list nat :=
  match tr with
  | [] => []
  | Wait ms :: tr' => ms :: waitsOf tr'
  | _ :: tr' => waitsOf tr'
  end.

(** The number of calls of [ai.models.generateContentStream]. *)
Fixpoint streamCalls (tr : list event) : nat :=
  match tr with
  | [] => 0
  | Call (CallStream _) :: tr' => S (streamCalls tr')
  | _ :: tr' => streamCalls tr'
  end.

Definition isCall (ev : event) : bool :=
  match ev with Call _ => true | _ => false end.

Definition isAbortSeen (ev : event) : bool :=
  match ev with AbortSeen _ => true | _ => false end.

Definition isIteration (ev : event) : bool :=
  match ev with Iteration _ _ _ => true | _ => false end.

(** ** The retry controller, as a policy *)

(** Whether the controller goes on after the answer [a] to attempt number
    [attempt]. *)
Definition retryable (retries attempt : nat) (a : settled Stream) : bool :=
  match a with
  | Rejected e => isQuotaError e && (attempt <? retries)%nat
  | Resolved _ => false
  end.

(** The first attempt, from [attempt] on and among [n] more, whose answer
    ends the controller. *)
Fixpoint lastAttempt (retries : nat) (answers : nat -> settled Stream)
    (n attempt : nat) : nat :=
  match n with
  | O => attempt
  | S n' =>
      if retryable retries attempt (answers attempt)
      then lastAttempt retries answers n' (S attempt)
      else attempt
  end.

Definition settledOutcome {A} (a : settled A) : outcome A :=
  match a with
  | Resolved x => Ok x
  | Rejected e => Throw e
  end.

(** ** Concrete collaborators and inputs *)

Module Scenario.

Definition textChunk (s : string) : Chunk :=
  {| c_text := s; c_grounding := None |}.

Definition textStream (l : list string) : Stream :=
  {| s_chunks := map textChunk l; s_failure := None |}.

(** Collaborators that all answer at once: the router chooses SIMPLE, the
    native provider streams one sentence, nobody aborts. *)
Definition calm : env :=
  {| aborted := fun _ => false;
     route := fun _ _ _ _ _ =>
       Resolved {| action := SIMPLE; parameters := [] |};
     getContext := fun _ => Resolved "{}";
     deepResearch := fun _ _ _ =>
       {| r_progress := ["reading"];
          r_result := Resolved {| answer := "Cats purr.";
                                  sources := ["https://www.cats.org/a"] |} |};
     incrementThinkingCount := fun _ _ => Resolved tt;
     generateContentStream := fun _ _ => Resolved (textStream ["Hello."]);
     generateContent := fun _ _ => Resolved "{}";
     generateImage := fun _ _ _ _ => Resolved "AAAA";
     runCanvasAgent := fun _ _ => Resolved [ {| sender := "ai"; text := "canvas" |} ];
     fetch := fun _ _ _ _ => Rejected (newError "offline");
     generateFreeCompletion := fun _ _ =>
       {| fc_streamed := ["hi"]; fc_result := Resolved "hi" |};
     getUserFriendlyError := fun e => e_message e;
     hostname := fun _ => Some "www.cats.org";
     sseContent := fun line => Some line;
     systemInstruction := fun _ _ => "You are Bubble.";
     formatTimestamp := fun _ => "Sunday";
     jsonString := fun s => Str.dq ++ s ++ Str.dq |}.

(** [calm] with another native provider. *)
Definition withProvider (f : nat -> StreamParams -> settled Stream) (E : env) : env :=
  {| aborted := aborted E; route := route E; getContext := getContext E;
     deepResearch := deepResearch E;
     incrementThinkingCount := incrementThinkingCount E;
     generateContentStream := f;
     generateContent := generateContent E; generateImage := generateImage E;
     runCanvasAgent := runCanvasAgent E; fetch := fetch E;
     generateFreeCompletion := generateFreeCompletion E;
     getUserFriendlyError := getUserFriendlyError E; hostname := hostname E;
     sseContent := sseContent E; systemInstruction := systemInstruction E;
     formatTimestamp := formatTimestamp E; jsonString := jsonString E |}.

(** [E] with another abort signal. *)
Definition withSignal (f : nat -> bool) (E : env) : env :=
  {| aborted := f; route := route E; getContext := getContext E;
     deepResearch := deepResearch E;
     incrementThinkingCount := incrementThinkingCount E;
     generateContentStream := generateContentStream E;
     generateContent := generateContent E; generateImage := generateImage E;
     runCanvasAgent := runCanvasAgent E; fetch := fetch E;
     generateFreeCompletion := generateFreeCompletion E;
     getUserFriendlyError := getUserFriendlyError E; hostname := hostname E;
     sseContent := sseContent E; systemInstruction := systemInstruction E;
     formatTimestamp := formatTimestamp E; jsonString := jsonString E |}.

(** [E] with another router. *)
Definition withRouter (d : settled RoutingDecision) (E : env) : env :=
  {| aborted := aborted E; route := fun _ _ _ _ _ => d;
     getContext := getContext E;
     deepResearch := deepResearch E;
     incrementThinkingCount := incrementThinkingCount E;
     generateContentStream := generateContentStream E;
     generateContent := generateContent E; generateImage := generateImage E;
     runCanvasAgent := runCanvasAgent E; fetch := fetch E;
     generateFreeCompletion := generateFreeCompletion E;
     getUserFriendlyError := getUserFriendlyError E; hostname := hostname E;
     sseContent := sseContent E; systemInstruction := systemInstruction E;
     formatTimestamp := formatTimestamp E; jsonString := jsonString E |}.

Definition ask (p : string) (m : string) (mode : ThinkingMode) : AgentInput :=
  {| prompt := p; files := []; apiKey := "key"; project_id := "project";
     chat_id := "chat"; history := [ {| sender := "user"; text := p |} ];
     user_id := "user"; profile := None; model := m; thinkingMode := mode |}.

Definition catsQuestion : AgentInput :=
  ask "tell me about cats" "gemini-2.5-flash" Fast.

Definition someParams : StreamParams :=
  {| p_model := "gemini-2.5-flash"; p_contents := Plain "hello";
     p_systemInstruction := None; p_googleSearch := false;
     p_thinkingBudget := None |}.

Definition quota429 : jsError :=
  {| e_name := "ApiError"; e_message := "Resource exhausted";
     e_status := Some 429%Z |}.

(** A native provider that is always over quota. *)
Definition overQuota : env := withProvider (fun _ _ => Rejected quota429) calm.

(** A native provider over quota at the attempts 0 and 1 of a controller
    started at time 0 (attempt [k] is made at time [2 * k]). *)
Definition twiceOverQuota : env :=
  withProvider (fun t _ => if (t <? 4)%nat then Rejected quota429
                           else Resolved (textStream ["Hello."]))
               calm.

(** [E] with another relay. *)
Definition withRelay (r : settled Response) (E : env) : env :=
  {| aborted := aborted E; route := route E; getContext := getContext E;
     deepResearch := deepResearch E;
     incrementThinkingCount := incrementThinkingCount E;
     generateContentStream := generateContentStream E;
     generateContent := generateContent E; generateImage := generateImage E;
     runCanvasAgent := runCanvasAgent E; fetch := fun _ _ _ _ => r;
     generateFreeCompletion := generateFreeCompletion E;
     getUserFriendlyError := getUserFriendlyError E; hostname := hostname E;
     sseContent := sseContent E; systemInstruction := systemInstruction E;
     formatTimestamp := formatTimestamp E; jsonString := jsonString E |}.

(** The relay answers 404 with the marker of a model without providers. *)
Definition noProviders : Response :=
  {| status := 404;
     r_json := Resolved {| ed_message := Some "No allowed providers are available for the selected model.";
                           ed_code := Some 404%Z |};
     r_text := Resolved EmptyString;
     r_body := None |}.

Definition relayDown : env := withRelay (Resolved noProviders) calm.

(** A question to a model of the relay, with a key for the relay. *)
Definition llamaQuestion : AgentInput :=
  {| prompt := "tell me about cats"; files := []; apiKey := "key";
     project_id := "project"; chat_id := "chat";
     history := [ {| sender := "user"; text := "tell me about cats" |} ];
     user_id := "user";
     profile := Some {| preferred_deep_model := EmptyString;
                        openrouter_api_key := "sk-or-1";
                        preferred_image_model := EmptyString |};
     model := "meta-llama/llama-3-8b"; thinkingMode := Fast |}.

(** A native provider that asks for a search in every answer. *)
Definition searchForever : env :=
  withProvider (fun _ _ => Resolved (textStream ["<SEARCH>more</SEARCH>"])) calm.

(** [E] with another free completion service. *)
Definition withFree (c : FreeCompletion) (E : env) : env :=
  {| aborted := aborted E; route := route E; getContext := getContext E;
     deepResearch := deepResearch E;
     incrementThinkingCount := incrementThinkingCount E;
     generateContentStream := generateContentStream E;
     generateContent := generateContent E; generateImage := generateImage E;
     runCanvasAgent := runCanvasAgent E; fetch := fetch E;
     generateFreeCompletion := fun _ _ => c;
     getUserFriendlyError := getUserFriendlyError E; hostname := hostname E;
     sseContent := sseContent E; systemInstruction := systemInstruction E;
     formatTimestamp := formatTimestamp E; jsonString := jsonString E |}.

(** The free completion service is down. *)
Definition freeDown : env :=
  withFree {| fc_streamed := []; fc_result := Rejected (newError "503") |} calm.

Definition instantQuestion : AgentInput :=
  ask "tell me about cats" "gemini-2.5-flash" Instant.

(** A citation that the native provider attaches to its first answer. *)
Definition earlier : Grounding :=
  {| uri := "https://example.org/first"; title := "first" |}.

(** The native provider first asks for a search, in a chunk that carries
    the citation [earlier], and later answers in plain text. *)
Definition groundedThenSearch : env :=
  withProvider
    (fun t _ =>
       if (t <? 4)%nat
       then Resolved {| s_chunks := [ {| c_text := "<SEARCH>cats</SEARCH>";
                                         c_grounding := Some [earlier] |} ];
                        s_failure := None |}
       else Resolved (textStream ["Cats purr [1]."]))
    calm.

(** [E] with another research service. *)
Definition withResearch (r : Research) (E : env) : env :=
  {| aborted := aborted E; route := route E; getContext := getContext E;
     deepResearch := fun _ _ _ => r;
     incrementThinkingCount := incrementThinkingCount E;
     generateContentStream := generateContentStream E;
     generateContent := generateContent E; generateImage := generateImage E;
     runCanvasAgent := runCanvasAgent E; fetch := fetch E;
     generateFreeCompletion := generateFreeCompletion E;
     getUserFriendlyError := getUserFriendlyError E; hostname := hostname E;
     sseContent := sseContent E; systemInstruction := systemInstruction E;
     formatTimestamp := formatTimestamp E; jsonString := jsonString E |}.

(** The same, with a research that finds no source. *)
Definition groundedThenBareSearch : env :=
  withResearch {| r_progress := [];
                  r_result := Resolved {| answer := "Cats purr.";
                                          sources := [] |} |}
               groundedThenSearch.

Definition catsOrg : Grounding :=
  {| uri := "https://www.cats.org/a"; title := "cats.org" |}.

(** A prompt with the address of a video, and a router that wants an image. *)
Definition videoQuestion : AgentInput :=
  ask "watch https://youtu.be/dQw4w9WgXcQ" "gemini-2.5-flash" Fast.

Definition videoAnswer : string :=
  "Find details for YouTube Video ID: dQw4w9WgXcQ. Title, Channel, and Summary. URL: youtu.be/dQw4w9WgXcQ".

Definition imageRouter : env :=
  withRouter (Resolved {| action := IMAGE; parameters := [("prompt", "a cat")] |})
             calm.

(** After the search about the video, the native provider answers with a
    bare opening THINK tag. *)
Definition thinksAboutVideo : env :=
  withProvider (fun _ _ => Resolved (textStream ["Let me think. <THINK>"])) calm.

Definition searchRouter : env :=
  withRouter (Resolved {| action := SEARCH; parameters := [] |}) calm.

(** The user stops the turn while the synthesis that follows a search is
    awaited: the abort is observed at the first chunk of the synthesis. *)
Definition stoppedBeforeSynthesis : env :=
  withSignal (fun t => (5 <=? t)%nat) searchRouter.

(** The user stops the turn in the middle of a stream of three chunks. *)
Definition stoppedMidStream : env :=
  withSignal (fun t => (5 <=? t)%nat)
    (withProvider (fun _ _ => Resolved (textStream ["Hello "; "world"; "!"])) calm).

End Scenario.

(** ** Reading a trace, continued *)

(** The number of iterations that were started. *)
Fixpoint iterations (tr : list event) : nat :=
  match tr with
  | [] => 0
  | Iteration _ _ _ :: tr' => S (iterations tr')
  | _ :: tr' => iterations tr'
  end.

(** The records of the iterations among the events. *)
Definition iterationsOf (tr : list event) : list event := filter isIteration tr.

(** What the handlers leave alone: the counter of the loop, the iterations
    recorded so far and the variable [prompt]. *)
Definition keeps (s s' : state) : Prop :=
  loopCount s' = loopCount s
  /\ iterationsOf (trace s') = iterationsOf (trace s)
  /\ promptVar s' = promptVar s.

(** [m] ends with a value in [V] or with an exception, never for lack of
    fuel, and leaves alone what [keeps] names. *)
Definition steady {A} (V : A -> Prop) (m : M A) : Prop :=
  forall s,
    keeps s (snd (m s))
    /\ match fst (m s) with
       | Ok a => V a
       | Throw _ => True
       | OutOfFuel => False
       end.

(** What the loop does to the counter and to the recorded iterations. *)
Definition bounded (s s' : state) : Prop :=
  (loopCount s <= loopCount s'
  /\ loopCount s' <= Nat.max (loopCount s) MAX_LOOPS
  /\ iterations (trace s') + loopCount s = iterations (trace s) + loopCount s'
  /\ promptVar s' = promptVar s)%nat.

Definition anything {A} (_ : A) : Prop := True.

Definition isSingle (r : AgentExecutionResult) : Prop :=
  exists t, r = single t.

Definition stepSingle (r : step) : Prop :=
  match r with
  | Continue => True
  | Return x => isSingle x
  end.

(** ** The directive scan, as the specification words it *)

Definition found (m : option Re.matchResult) : bool :=
  match m with Some _ => true | None => false end.

(** Whether the directive of an action is present in a text. *)
Definition present (a : RouterAction) (generated : string) : bool :=
  match a with
  | DEEP_SEARCH =>
      found (Re.exec false Pat.deepRe generated)
      || found (Re.exec true Pat.deepSearchRe generated)
  | SEARCH => found (Re.exec false Pat.searchRe generated)
  | THINK =>
      found (Re.exec false Pat.thinkRe generated)
      || found (Re.exec false Pat.thinkOpenRe generated)
  | IMAGE => found (Re.exec false Pat.imageRe generated)
  | PROJECT => found (Re.exec false Pat.projectRe generated)
  | CANVAS => found (Re.exec false Pat.canvasRe generated)
  | STUDY => found (Re.exec false Pat.studyRe generated)
  | SIMPLE | OTHER => false
  end.

(** The fixed precedence among the directives. *)
Definition precedence : list RouterAction :=
  [DEEP_SEARCH; SEARCH; THINK; IMAGE; PROJECT; CANVAS; STUDY].

(** A chunk loop keeps [finalResponseText] equal to [base] followed by its
    accumulator. *)
Definition grows (base acc : string) (s : state) : Prop :=
  finalResponseText s = base ++ acc.

Definition flowValue {A} (r : flow A) : A :=
  match r with Next a => a | Break a => a end.

(** ** Triples

    [hoare X P m V]: from a state in [P], the computation [m], when it has
    fuel enough, ends with a value [a] in a state in [V a] or with an
    exception in a state in [X]. *)

Definition post {A} (X : state -> Prop) (V : A -> state -> Prop)
    (o : outcome A) (s : state) : Prop :=
  match o with
  | Ok a => V a s
  | Throw _ => X s
  | OutOfFuel => True
  end.

Definition hoare {A} (X P : state -> Prop) (m : M A)
    (V : A -> state -> Prop) : Prop :=
  forall s, P s -> post X V (fst (m s)) (snd (m s)).

Definition always (s : state) : Prop := True.

(** [I] holds after [m], however [m] ends, when it holds before. *)
Definition inv {A} (I : state -> Prop) (m : M A) : Prop :=
  hoare I I m (fun _ => I).

(** What the preparation leaves in the state when the prompt is [p], the
    router decides [d] and a video address, if any, gives the query. *)
Definition startsWith (query : option string) (p : string)
    (d : RoutingDecision) (s : state) : Prop :=
  loopCount s = 0
  /\ match query with
     | Some q =>
         currentAction s = SEARCH /\ routingParameters s = []
         /\ currentPrompt s = q /\ promptVar s = q
     | None =>
         currentAction s = action d /\ routingParameters s = parameters d
         /\ currentPrompt s = p /\ promptVar s = p
     end.

(** The prompt after lines 243-254. *)
Definition promptAfterRewrite (p : string) : string :=
  match videoRewrite p with
  | Some q => q
  | None => p
  end.

Definition isInstant (mode : ThinkingMode) : bool :=
  match mode with Instant => true | _ => false end.

(** A bare [<THINK>] with no payload to extract, and no directive of a higher
    precedence: no DEEP or SEARCH directive, an opening THINK tag, and either
    no closed THINK tag on one line or a closed one with an empty payload. *)
Definition bareThink (generated : string) : bool :=
  negb (present DEEP_SEARCH generated)
  && negb (present SEARCH generated)
  && found (Re.exec false Pat.thinkOpenRe generated)
  && match Re.exec false Pat.thinkRe generated with
     | Some m => match Re.group 1 m with
                 | Some p => negb (Str.truthy p)
                 | None => true
                 end
     | None => true
     end.

(** A pattern without capturing group. *)
Fixpoint groupless (r : Re.regex) : bool :=
  match r with
  | Re.Seq r1 r2 | Re.Alt r1 r2 => groupless r1 && groupless r2
  | Re.Star _ r' => groupless r'
  | Re.Group _ _ => false
  | _ => true
  end.

(** ** Cancellation, as a property of traces *)

(** The events that use a collaborator, a stream or the clock of the retry
    controller, or that start an iteration. *)
Definition isLoud (ev : event) : bool :=
  match ev with
  | Call _ | Read | Wait _ | Iteration _ _ _ => true
  | _ => false
  end.

(** From the first observation of the abort on, only the sink and the
    console are used, and the abort may be observed again. *)
Fixpoint quietAfterAbort (evs : list event) : bool :=
  match evs with
  | [] => true
  | AbortSeen _ :: rest => forallb (fun ev => negb (isLoud ev)) rest
  | _ :: rest => quietAfterAbort rest
  end.

(** The text accumulated when the abort was first observed. *)
Fixpoint firstAbort (evs : list event) : option string :=
  match evs with
  | [] => None
  | AbortSeen soFar :: _ => Some soFar
  | _ :: rest => firstAbort rest
  end.

Definition seen (s : state) : bool := existsb isAbortSeen (events s).

Definition unseen (s : state) : Prop := seen s = false.

(** The text of the turn, given the text [soFar] accumulated when the abort
    was first observed: that text, or the search context that the end of a
    SIMPLE pass puts in the place of a blank text. *)
Definition stoppedText (soFar : string) (s : state) : Prop :=
  finalResponseText s = soFar
  \/ (Str.truthy (Str.trim soFar) = false
      /\ Str.truthy (fallbackSearchContext s) = true
      /\ finalResponseText s = fallbackSearchContext s).

(** The invariant of an invocation whose signal may have been observed. *)
Definition stopping (E : env) (s : state) : Prop :=
  quietAfterAbort (events s) = true
  /\ (seen s = true -> aborted E (now s) = true)
  /\ match firstAbort (events s) with
     | Some soFar => stoppedText soFar s
     | None => True
     end.

(** What the body of a chunk loop leaves: no observation when the loop goes
    on, the invariant when it breaks. *)
Definition bodyStops {A} (E : env) (r : flow A) (s : state) : Prop :=
  match r with
  | Next _ => unseen s
  | Break _ => stopping E s
  end.

(** What a handler gives once the abort has been observed: it continues the
    loop or returns the turn of the current text and payload. *)
Definition stoppedStep (input : AgentInput) (r : step) (s : state) : Prop :=
  match r with
  | Continue => True
  | Return x =>
      x = single (mkTurn input (finalResponseText s) None (metadataPayload s))
  end.

(** What a handler leaves: the invariant, and the turn of the current text
    when the abort has been observed. *)
Definition handlerStops (E : env) (input : AgentInput) (r : step) (s : state)
    : Prop :=
  stopping E s /\ (seen s = true -> stoppedStep input r s).

(** What the loop leaves. *)
Definition loopStops (E : env) (input : AgentInput) (x : AgentExecutionResult)
    (s : state) : Prop :=
  stopping E s
  /\ (seen s = true ->
      x = single (mkTurn input (finalResponseText s) None (metadataPayload s))).

(** ** Definitions for the rest of the orchestrator *)

(** ** More readers of texts and traces *)

(** Whether a text holds white space only. *)
Fixpoint allSpaces (s : string) : bool :=
  match s with
  | EmptyString => true
  | String c s' => Str.isSpace c && allSpaces s'
  end.

(** The complete lines of the relay reader, each followed by the line feed
    that ended it. *)
Fixpoint joinLines (lines : list string) : string :=
  match lines with
  | [] => EmptyString
  | line :: lines' => line ++ Str.nl ++ joinLines lines'
  end.

(** The budget of reasoning tokens of a thinking mode. *)
Definition budgetOf (mode : ThinkingMode) : nat :=
  match mode with
  | Deep => 8192
  | Think => 2048
  | _ => 0
  end.

(** What one line of the body of the relay yields: the content of a data
    line other than the end marker, when it parses and is not empty. *)
Definition yielded (E : env) (line : string) : option string :=
  if Str.startsWith line "data: " && negb (String.eqb line "data: [DONE]")
  then match sseContent E (substring 6 (String.length line) line) with
       | Some content => if Str.truthy content then Some content else None
       | None => None
       end
  else None.

(** The marker of a model without providers in the body of an error
    response. *)
Definition withoutProviders (r : Response) (d : ErrorData) : bool :=
  (status r =? 404)%nat
  && (match ed_message d with
      | Some m => Str.includes m "No allowed providers"
      | None => false
      end
      || match ed_code d with
         | Some n => Z.eqb n 404
         | None => false
         end).

(** The first line of the message of a relay error without a usable body. *)
Definition statusMessage (r : Response) : string :=
  "OpenRouter Error (" ++ Str.of_nat (status r) ++ ")".

(** More collaborators and inputs. *)
Module Cases.

Definition abortError : jsError :=
  {| e_name := "AbortError"; e_message := "The user aborted a request.";
     e_status := None |}.

(** The request to the relay is aborted. *)
Definition relayAborted : env := Scenario.withRelay (Rejected abortError) Scenario.calm.

(** An attachment that cannot be read. *)
Definition unreadable : File :=
  {| f_name := "notes.md"; f_type := "text/markdown";
     f_text := Rejected (newError "NotReadableError");
     f_dataURL := Rejected (newError "NotReadableError") |}.

(** A question in instant mode with an attachment that cannot be read. *)
Definition instantWithFile : AgentInput :=
  {| prompt := "summarise my notes"; files := [unreadable]; apiKey := "key";
     project_id := "project"; chat_id := "chat";
     history := [ {| sender := "user"; text := "summarise my notes" |} ];
     user_id := "user"; profile := None; model := EmptyString;
     thinkingMode := Instant |}.

(** A question to a model of the relay in think mode. *)
Definition llamaThinks : AgentInput :=
  {| prompt := "tell me about cats"; files := []; apiKey := "key";
     project_id := "project"; chat_id := "chat";
     history := [ {| sender := "user"; text := "tell me about cats" |} ];
     user_id := "user";
     profile := Some {| preferred_deep_model := EmptyString;
                        openrouter_api_key := "sk-or-1";
                        preferred_image_model := EmptyString |};
     model := "meta-llama/llama-3-8b"; thinkingMode := Think |}.

(** The user has stopped the turn before the research reports its
    progress. *)
Definition stoppedAtOnce : env := Scenario.withSignal (fun t => (0 <=? t)%nat) Scenario.calm.

End Cases.

(** ** The requests of a computation *)

(** Every request among the events satisfies [ok]. *)
Definition callsIn (ok : call -> Prop) (evs : list event) : Prop :=
  Forall (fun ev => match ev with Call c => ok c | _ => True end) evs.

(** [m] only adds events to the trace, and the requests it adds satisfy
    [ok]. *)
Definition emits {A} (ok : call -> Prop) (m : M A) : Prop :=
  forall s, exists new, trace (snd (m s)) = (new ++ trace s)%list /\ callsIn ok new.

Definition notFetch (c : call) : Prop :=
  match c with CallFetch _ _ => False | _ => True end.

(** The requests after which a handler returns the turn: the counter of
    the thinking, the image, the canvas and the project structure. *)
Definition isTerminal (c : call) : bool :=
  match c with
  | CallThinkingCount | CallImage _ | CallCanvas _ | CallGenerate _ => true
  | _ => false
  end.

Definition terminalCalls (evs : list event) : nat :=
  List.length (filter (fun ev => match ev with
                                 | Call c => isTerminal c
                                 | _ => false
                                 end) evs).

Definition notTerminal (c : call) : Prop := isTerminal c = false.

(** The state has seen [n] terminal requests. *)
Definition counted (n : nat) (s : state) : Prop := terminalCalls (trace s) = n.

Definition atMostOnce (s : state) : Prop := (terminalCalls (trace s) <= 1)%nat.

(** A request for a stream of reasoning: to a model that supports it, with
    a budget that is not zero. *)
Definition thinkingRequest (c : call) : Prop :=
  match c with
  | CallStream p =>
      supportsThinking (p_model p) = true
      /\ exists budget, p_thinkingBudget p = Some (S budget)
  | _ => True
  end.

(** The only request of an invocation in instant mode. *)
Definition freeOnly (c : call) : Prop :=
  match c with CallFree _ => True | _ => False end.

(** The message of the history that instant mode sends to the free
    service (lines 147-150). *)
Definition toFreeMessage (m : Message) : ChatMessage :=
  {| cm_role := if String.eqb (sender m) "user" then "user" else "assistant";
     cm_content := text m |}.

(** What a handler leaves of the count of terminal requests: none when it
    continues the loop, one at most when it returns. *)
Definition terminalStep (r : step) (s : state) : Prop :=
  match r with
  | Continue => counted 0 s
  | Return _ => atMostOnce s
  end.

(** The prompt of the image request (line 358). *)
Definition imagePromptOf (s : state) : string :=
  match lookup "prompt" (routingParameters s) with
  | Some p => Str.orElse p (currentPrompt s)
  | None => currentPrompt s
  end.

(** The note that a failed image generation appends (line 374). *)
Definition imageFailureNote (e : jsError) : string :=
  Str.nl ++ Str.nl ++ "(Image generation failed: " ++ e_message e ++ ")".

(** The text that the sink has received, in the order of time. *)
Fixpoint sinkText (evs : list event) : string :=
  match evs with
  | [] => EmptyString
  | Sink t :: rest => t ++ sinkText rest
  | _ :: rest => sinkText rest
  end.

(** A chunk loop of SIMPLE appends its accumulator both to
    [finalResponseText] and to what the sink has received. *)
Definition mirrors (base sunk acc : string) (s : state) : Prop :=
  finalResponseText s = base ++ acc
  /\ sinkText (events s) = sunk ++ acc.

(** The same for a loop without an accumulator. *)
Definition mirrored (base sunk : string) (s : state) : Prop :=
  exists added, mirrors base sunk added s.

(** The part that SIMPLE builds for an attachment whose data URL could be
    read (lines 452-461): what follows the first comma, with the type. *)
Definition inlinePart (file : File) : option Part :=
  match f_dataURL file with
  | Resolved res => Some (InlineData (nth_error (Str.split "," res) 1) (f_type file))
  | Rejected _ => None
  end.

Definition toGeminiContent (m : Message) : Content :=
  {| role := geminiRole m; parts := [TextPart (text m)] |}.

(** No character of the text ends a line. *)
Fixpoint oneLine (s : string) : bool :=
  match s with
  | EmptyString => true
  | String c s' => negb (Str.isLineTerminator c) && oneLine s'
  end.

(** The text holds the tag [name] around [payload], on one line. *)
Definition between (name payload generated : string) : Prop :=
  exists before after,
    generated = before ++ "<" ++ name ++ ">" ++ payload ++ "</" ++ name ++ ">"
                ++ after
    /\ oneLine payload = true.

(** ** The cost of a computation *)

(** The time that the retry controller has waited, in milliseconds. *)
Definition waited (tr : list event) : nat := list_sum (waitsOf tr).

(** [m] adds at most [k] to the measure [mu] of the trace. *)
Definition adds {A} (mu : list event -> nat) (k : nat) (m : M A) : Prop :=
  forall s, (mu (trace (snd (m s))) <= mu (trace s) + k)%nat.

(** The events that cost nothing: all but the requests for a stream and the
    waits. *)
Definition isFree (ev : event) : Prop :=
  match ev with
  | Call (CallStream _) | Wait _ => False
  | _ => True
  end.

(** The waits of one run of the retry controller, at most. *)
Definition longestWait : nat := list_sum (map backoff (seq 0 3)).

(** ** The table of the message renderer

    Source: [src/unnamed/part_001] ([MarkdownTable]: [parseTable] and its
    helper [splitRow]). *)

Module Table.

(** [row.replace(/^\||\|$/g, '')]: one pipe at the start and one at the
    end are removed. *)
Definition stripPipes (row : string) : string :=
  let rest := match row with
              | String "|" r => r
              | _ => row
              end in
  if Str.endsWith rest "|"
  then substring 0 (String.length rest - 1) rest
  else rest.

Definition splitRow (row : string) : list string :=
  if negb (Str.truthy row) then []
  else map Str.trim (Str.split "|" (stripPipes (Str.trim row))).

Inductive alignment : Set := left | center | right.

Definition alignmentOf (a : string) : alignment :=
  let trim := Str.trim a in
  if Str.startsWith trim ":" && Str.endsWith trim ":" then center
  else if Str.endsWith trim ":" then right
  else left.

Record table := {
  headers : list string;
  alignments : list alignment;
  rows : list (list string)
}.

(** The lines of the table: those of the trimmed text that are not blank. *)
Definition tableLines (markdown : string) : list string :=
  filter (fun line => negb (String.eqb (Str.trim line) EmptyString))
         (Str.split (ascii_of_nat 10) (Str.trim markdown)).

(** [null] is [None]. *)
Definition parseTable (markdown : string) : option table :=
  match tableLines markdown with
  | headerLine :: alignmentLine :: dataLines =>
      Some {| headers := splitRow headerLine;
              alignments := map alignmentOf (splitRow alignmentLine);
              rows := map splitRow dataLines |}
  | _ => None
  end.

(** Whether the character occurs in the text. *)
Fixpoint occurs (c : ascii) (s : string) : bool :=
  match s with
  | EmptyString => false
  | String a s' => Ascii.eqb a c || occurs c s'
  end.

End Table.

(** ** The words of a pattern *)

(** The texts that a pattern matches as a whole, whatever the priorities
    of the matcher. *)
Inductive words (ci : bool) : Re.regex -> string -> Prop :=
| W_eps : words ci Re.Eps EmptyString
| W_chr a b :
    Re.chrEq ci a b = true -> words ci (Re.Chr a) (String b EmptyString)
| W_set neg ms ws b :
    Re.inSet ci neg ms ws b = true ->
    words ci (Re.Set_ neg ms ws) (String b EmptyString)
| W_dot b :
    Str.isLineTerminator b = false -> words ci Re.Dot (String b EmptyString)
| W_seq r1 r2 w1 w2 :
    words ci r1 w1 -> words ci r2 w2 -> words ci (Re.Seq r1 r2) (w1 ++ w2)
| W_left r1 r2 w : words ci r1 w -> words ci (Re.Alt r1 r2) w
| W_right r1 r2 w : words ci r2 w -> words ci (Re.Alt r1 r2) w
| W_none greedy r : words ci (Re.Star greedy r) EmptyString
| W_more greedy r w1 w2 :
    words ci r w1 -> words ci (Re.Star greedy r) w2 ->
    words ci (Re.Star greedy r) (w1 ++ w2)
| W_group n r w : words ci r w -> words ci (Re.Group n r) w.

(** ** The address of a video, as a reader of the prompt sees it *)

(** A character of the identifier of a video: anything but the double
    quote, [&], [?], [/] and white space. *)
Definition isIdChar (c : ascii) : bool :=
  negb (Ascii.eqb c (ascii_of_nat 34) || Ascii.eqb c "&" || Ascii.eqb c "?"
        || Ascii.eqb c "/" || Str.isSpace c).

Fixpoint allIdChars (s : string) : bool :=
  match s with
  | EmptyString => true
  | String c s' => isIdChar c && allIdChars s'
  end.

(** The identifier of a video: eleven such characters. *)
Definition isVideoId (id : string) : bool :=
  (String.length id =? 11)%nat && allIdChars id.

Fixpoint noSlash (s : string) : bool :=
  match s with
  | EmptyString => true
  | String c s' => negb (Ascii.eqb c "/") && noSlash s'
  end.

(** What precedes the identifier in the address of a Short. *)
Definition shortPrefix : string := "youtube.com/shorts/".

(** What precedes the identifier in the address of a video: [youtu.be/],
    or [youtube.com/] followed by [v/], [e/] or [embed/], by a text on one
    line that ends with [?v=] or [&v=] (as in [watch?v=]), or by a segment
    and a text on one line, each followed by a slash. *)
Inductive videoPrefix : string -> Prop :=
| VP_be : videoPrefix "youtu.be/"
| VP_v : videoPrefix "youtube.com/v/"
| VP_e : videoPrefix "youtube.com/e/"
| VP_embed : videoPrefix "youtube.com/embed/"
| VP_query middle sep :
    oneLine middle = true -> sep = "?" \/ sep = "&" ->
    videoPrefix ("youtube.com/" ++ middle ++ sep ++ "v=")
| VP_path segment more :
    segment <> EmptyString -> noSlash segment = true ->
    more <> EmptyString -> oneLine more = true ->
    videoPrefix ("youtube.com/" ++ segment ++ "/" ++ more ++ "/").

(** The text holds [url] somewhere. *)
Definition holds (url text : string) : Prop :=
  exists before after, text = before ++ url ++ after.

(** The prompt holds the address of a Short, of a video. *)
Definition holdsShort (prompt : string) : Prop :=
  exists id, isVideoId id = true /\ holds (shortPrefix ++ id) prompt.

Definition holdsVideo (prompt : string) : Prop :=
  exists prefix id,
    videoPrefix prefix /\ isVideoId id = true /\ holds (prefix ++ id) prompt.


(** ** The directives, as a reader of the text sees them *)

(** The same letters, whatever their case. *)
Fixpoint sameLetters (a b : string) : bool :=
  match a, b with
  | EmptyString, EmptyString => true
  | String x a', String y b' =>
      Ascii.eqb (Str.toUpper x) (Str.toUpper y) && sameLetters a' b'
  | _, _ => false
  end.

(** A SEARCH tag, in letters of either case, whose payload starts with the
    word deep and white space: the rest of the payload, on one line, is
    [payload]. *)
Definition deepTag (payload w : string) : Prop :=
  exists opening spaces closing,
    w = opening ++ spaces ++ payload ++ closing
    /\ sameLetters "<SEARCH>deep" opening = true
    /\ spaces <> EmptyString /\ allSpaces spaces = true
    /\ oneLine payload = true
    /\ sameLetters "</SEARCH>" closing = true.

(** The directive of an action is in the text. *)
Definition tagged (a : RouterAction) (generated : string) : Prop :=
  match a with
  | DEEP_SEARCH =>
      (exists payload, between "DEEP" payload generated)
      \/ (exists payload w, deepTag payload w /\ holds w generated)
  | SEARCH => exists payload, between "SEARCH" payload generated
  | THINK => holds "<THINK>" generated
  | IMAGE => exists payload, between "IMAGE" payload generated
  | PROJECT => exists payload, between "PROJECT" payload generated
  | CANVAS => exists payload, between "CANVAS" payload generated
  | STUDY => exists payload, between "STUDY" payload generated
  | SIMPLE | OTHER => False
  end.
(** ** The passes of the loop *)

(** The text of a list of chunks, and of a stream. *)
Fixpoint chunksText (cs : list Chunk) : string :=
  match cs with
  | [] => EmptyString
  | c :: cs' => c_text c ++ chunksText cs'
  end.

Definition textOf (st : Stream) : string := chunksText (s_chunks st).

(** The signal is never aborted. *)
Definition neverAborted (E : env) : Prop := forall t, aborted E t = false.

(** The native provider answers every request with the stream [st], which
    ends without a failure. *)
Definition streams (E : env) (st : Stream) : Prop :=
  s_failure st = None /\ forall t p, generateContentStream E t p = Resolved st.

(** Every attachment can be read as a data URL. *)
Definition readable (fs : list File) : Prop :=
  Forall (fun f => exists d, f_dataURL f = Resolved d) fs.

(** A run on the native path that nothing disturbs: no abort, a provider
    that streams [st], attachments that can be read. *)
Definition undisturbed (E : env) (input : AgentInput) (ctx : context)
    (st : Stream) : Prop :=
  isNative ctx = true /\ neverAborted E /\ streams E st
  /\ readable (files input).

(** What the scan of the text [generated] makes of a SIMPLE pass that starts
    in the state [s]: the pass ends with [r] in the state [s'].  When a
    directive is present, the pass continues the loop with the first action
    of the precedence whose directive is present, and with the prompt that
    the scan extracts; the text of the turn has grown by [generated].  When
    none is present, the pass returns the turn, whose text has grown by
    [generated], unless it is blank and a search context takes its place. *)
Definition scanned (input : AgentInput) (s : state) (generated : string)
    (r : step) (s' : state) : Prop :=
  match find (fun a => present a generated) precedence with
  | Some a =>
      r = Continue
      /\ currentAction s' = a
      /\ nextDirective generated (promptVar s) = Some (a, currentPrompt s')
      /\ finalResponseText s' = finalResponseText s ++ generated
  | None =>
      r = Return (single (mkTurn input (finalResponseText s') None
                            (metadataPayload s')))
      /\ finalResponseText s'
         = if negb (Str.truthy (Str.trim (finalResponseText s ++ generated)))
              && Str.truthy (fallbackSearchContext s)
           then fallbackSearchContext s
           else finalResponseText s ++ generated
  end.

(** What may follow a pass of the action [a] with the prompt [p], when the
    loop goes on: after SEARCH and DEEP_SEARCH comes SIMPLE with the synthesis
    prompt of an answer of the research; after PROJECT and STUDY comes SIMPLE
    with the same prompt; after SIMPLE comes the first action of the
    precedence whose directive is present in a text, with the prompt that
    the scan of that text extracts; nothing comes after THINK, IMAGE and
    CANVAS. *)
Definition follows (E : env) (input : AgentInput) (userPrompt : string)
    (a : RouterAction) (p : string) (a' : RouterAction) (p' : string) : Prop :=
  match a with
  | SEARCH | DEEP_SEARCH =>
      a' = SIMPLE
      /\ exists t result,
           r_result (deepResearch E t p (apiKey input)) = Resolved result
           /\ p' = synthesisPrompt p (answer result)
  | PROJECT | STUDY => a' = SIMPLE /\ p' = p
  | SIMPLE | OTHER =>
      exists generated,
        find (fun d => present d generated) precedence = Some a'
        /\ nextDirective generated userPrompt = Some (a', p')
  | THINK | IMAGE | CANVAS => False
  end.

(** How the iteration recorded by [prev] hands over to the one recorded by
    [next]: the counter grows by one, and the action and the prompt follow
    those of [prev]. *)
Definition handsOver (E : env) (input : AgentInput) (userPrompt : string)
    (prev next : event) : Prop :=
  match prev, next with
  | Iteration n a p, Iteration n' a' p' =>
      n' = S n /\ follows E input userPrompt a p a' p'
  | _, _ => False
  end.

(** Every element of a list that has the latest first is related to the
    one before it. *)
Fixpoint chained (R : event -> event -> Prop) (l : list event) : Prop :=
  match l with
  | [] => True
  | next :: l' =>
      match l' with
      | prev :: _ => R prev next
      | [] => True
      end /\ chained R l'
  end.


(** Any request at all. *)
Definition anyCall (c : call) : Prop := True.

(** The router and the memory answer, whenever they are asked. *)
Definition answering (E : env) (input : AgentInput) : Prop :=
  (forall t p, exists d,
      route E t p (user_id input) (apiKey input) (List.length (files input))
      = Resolved d)
  /\ (forall t, exists m, getContext E t = Resolved m).

(** The citations gathered so far. *)
Definition citations (s : state) : list Grounding :=
  match metadataPayload s with
  | Some l => l
  | None => []
  end.

(** A step that returns a turn returns one turn, which carries the payload
    of the state. *)
Definition carriesPayload (r : step) (s : state) : Prop :=
  match r with
  | Return result =>
      exists t, result = single t /\ t_groundingMetadata t = metadataPayload s
  | Continue => True
  end.

(** The record of an iteration that is not a search. *)
Definition notSearch (ev : event) : Prop :=
  match ev with
  | Iteration _ a _ => a <> SEARCH /\ a <> DEEP_SEARCH
  | _ => True
  end.

(** The router chooses the action [a], whenever it answers. *)
Definition chooses (E : env) (input : AgentInput) (a : RouterAction) : Prop :=
  forall t p d,
    route E t p (user_id input) (apiKey input) (List.length (files input))
    = Resolved d ->
    action d = a.

(** The research answers, whenever it is asked. *)
Definition researching (E : env) (input : AgentInput) : Prop :=
  forall t q, exists result,
    r_result (deepResearch E t q (apiKey input)) = Resolved result.

(** A routed invocation on the native path that nothing disturbs: the
    model left by the choice of the model is a model of Google, the router
    and the memory answer, nobody aborts, the provider streams [st] and
    the attachments can be read. *)
Definition calmly (E : env) (input : AgentInput) (st : Stream) : Prop :=
  isInstant (thinkingMode input) = false
  /\ isGoogleModel (modelVar (snd (chooseModel input (initialState input))))
     = true
  /\ answering E input /\ neverAborted E /\ streams E st
  /\ readable (files input).

(** The requests of the preparation: to the router and to the memory. *)
Definition preparing (c : call) : Prop :=
  match c with
  | CallRoute _ | CallMemory => True
  | _ => False
  end.

(** ** Settings for the runs of the loop *)

Module Setting.

(** A context of the native path. *)
Definition nativeContext : context :=
  {| isNative := true; openRouterKey := EmptyString; thinkingBudget := 0;
     baseSystemInstruction := "You are Bubble."; memoryJSON := "{}";
     dateTimeContext := EmptyString |}.

(** The state in which the loop starts the action [a] with the prompt [p]. *)
Definition starting (input : AgentInput) (a : RouterAction) (p : string)
    : state :=
  set_currentAction a (set_currentPrompt p (initialState input)).

(** A prompt with the address of a Short, and the query that replaces it. *)
Definition shortsQuestion : AgentInput :=
  Scenario.ask "see https://www.youtube.com/shorts/abcdefghijk now"
               "gemini-2.5-flash" Fast.

Definition shortsAnswer : string :=
  "Find details for YouTube Short ID: abcdefghijk. Title, Channel, and Summary. URL: youtube.com/shorts/abcdefghijk".

(** A prompt with the address of the page of a video. *)
Definition watchQuestion : AgentInput :=
  Scenario.ask "https://www.youtube.com/watch?v=dQw4w9WgXcQ&t=1" "gemini-2.5-flash"
               Fast.

Definition watchAnswer : string :=
  "Find details for YouTube Video ID: dQw4w9WgXcQ. Title, Channel, and Summary. URL: youtube.com/watch?v=dQw4w9WgXcQ".

(** The stream of a provider that answers with one text. *)
Definition saying (text : string) : Stream := Scenario.textStream [text].

(** A native provider that asks for a search about cats in every answer. *)
Definition searchingCats : env :=
  Scenario.withProvider (fun _ _ => Resolved (saying "<SEARCH>cats</SEARCH>"))
                        Scenario.calm.

End Setting.

(** * Properties *)

Local Open Scope list_scope.
Unset Implicit Arguments.

(** ** Basic facts about the monad *)

Lemma bind_ok {A B} (m : M A) (f : A -> M B) s a s' :
  m s = (Ok a, s') -> bind m f s = f a s'.
Proof. intros H; unfold bind; now rewrite H. Qed.

Lemma bind_throw {A B} (m : M A) (f : A -> M B) s e s' :
  m s = (Throw e, s') -> bind m f s = (Throw e, s').
Proof. intros H; unfold bind; now rewrite H. Qed.

Lemma tryCatch_ret {A} (a : A) (h : jsError -> M A) :
  tryCatch (ret a) h = ret a.
Proof. reflexivity. Qed.

(** ** Reading a trace piece by piece *)

Lemma waitsOf_app (a b : list event) : waitsOf (a ++ b) = waitsOf a ++ waitsOf b.
Proof.
  induction a as [|ev a IH]; [reflexivity|].
  destruct ev; cbn; now rewrite ?IH.
Qed.

Lemma streamCalls_app (a b : list event) :
  streamCalls (a ++ b) = streamCalls a + streamCalls b.
Proof.
  induction a as [|ev a IH]; [reflexivity|].
  destruct ev as [| c | | | | |]; cbn; rewrite ?IH; try reflexivity.
  destruct c; cbn; now rewrite ?IH.
Qed.

(** ** The retry controller *)

Section Retry.
Variable E : env.
Variable params : StreamParams.
Variable retries : nat.

(** One attempt that ends the controller. *)
Lemma attempt_final fuel attempt s :
  attempt <= retries ->
  retryable retries attempt (generateContentStream E (now s) params) = false ->
  let r := attemptsFrom E (S fuel) params retries (Some sink) attempt s in
  fst r = settledOutcome (generateContentStream E (now s) params)
  /\ trace (snd r) = Call (CallStream params) :: trace s.
Proof.
  intros Hle Hstop. cbn zeta. simpl attemptsFrom.
  apply Nat.leb_le in Hle. rewrite Hle.
  unfold tryCatch, await, bind, get, emit, tick, modify, ret, throw.
  cbn [now set_trace set_now fst snd trace].
  unfold retryable in Hstop.
  destruct (generateContentStream E (now s) params) as [st|e];
    cbn [settledOutcome fst snd trace set_now set_trace].
  - now split.
  - rewrite Hstop. now split.
Qed.

(** One attempt after which the controller waits and tries again. *)
Lemma attempt_again fuel attempt s :
  attempt <= retries ->
  retryable retries attempt (generateContentStream E (now s) params) = true ->
  exists s1,
    attemptsFrom E (S fuel) params retries (Some sink) attempt s
    = attemptsFrom E fuel params retries (Some sink) (S attempt) s1
    /\ now s1 = S (S (now s))
    /\ exists notice line,
         trace s1 = Wait (backoff attempt) :: Sink notice :: Console line
                    :: Call (CallStream params) :: trace s.
Proof.
  intros Hle Hgo. simpl attemptsFrom.
  apply Nat.leb_le in Hle. rewrite Hle.
  unfold retryable in Hgo.
  destruct (generateContentStream E (now s) params) as [st|e] eqn:Ha;
    [discriminate|].
  eexists. split.
  - unfold tryCatch at 1, await at 1, bind at 1, get at 1.
    unfold bind at 1, emit at 1, modify at 1.
    unfold bind at 1, tick at 1, modify at 1.
    cbn [now set_trace set_now fst snd trace]. rewrite Ha.
    cbn [throw]. rewrite Hgo.
    unfold console, sink.
    unfold bind at 1, emit at 1, modify at 1.
    unfold bind at 1, emit at 1, modify at 1.
    unfold bind at 1, emit at 1, modify at 1.
    unfold bind at 1, tick at 1, modify at 1.
    reflexivity.
  - cbn [now set_now set_trace trace]. split; [reflexivity|].
    eexists _, _. reflexivity.
Qed.

Lemma attemptsFrom_policy (answers : nat -> settled Stream) :
  forall n fuel attempt s t0,
    (forall j, answers j = generateContentStream E (t0 + 2 * j) params) ->
    retries = attempt + n ->
    n < fuel ->
    now s = t0 + 2 * attempt ->
    let stop := lastAttempt retries answers n attempt in
    let r := attemptsFrom E fuel params retries (Some sink) attempt s in
    fst r = settledOutcome (answers stop)
    /\ attempt <= stop <= retries
    /\ exists added,
         trace (snd r) = added ++ trace s
         /\ waitsOf (rev added) = map backoff (seq attempt (stop - attempt))
         /\ streamCalls added = S (stop - attempt).
Proof.
  induction n as [|n IH]; intros fuel attempt s t0 Hans Hr Hf Ht;
    (destruct fuel as [|fuel]; [lia|]); cbn zeta.
  - simpl lastAttempt.
    destruct (attempt_final fuel attempt s) as [Ho Htr]; [lia| |].
    { unfold retryable. destruct (generateContentStream E (now s) params);
        [reflexivity|].
      replace (attempt <? retries)%nat with false
        by (symmetry; apply Nat.ltb_ge; lia).
      apply andb_false_r. }
    rewrite Ht, <- (Hans attempt) in Ho. split; [exact Ho|]. split; [lia|].
    exists [Call (CallStream params)]. rewrite Htr, Nat.sub_diag. now cbn.
  - simpl lastAttempt. rewrite (Hans attempt), <- Ht.
    destruct (retryable retries attempt (generateContentStream E (now s) params))
      eqn:Hgo.
    + destruct (attempt_again fuel attempt s)
        as (s1 & Heq & Hnow & notice & line & Htr); [lia|exact Hgo|].
      rewrite Heq.
      specialize (IH fuel (S attempt) s1 t0 Hans ltac:(lia) ltac:(lia) ltac:(lia)).
      cbn zeta in IH. destruct IH as (Ho & Hb & added & Hadd & Hw & Hc).
      set (stop := lastAttempt retries _ n (S attempt)) in *.
      split; [exact Ho|]. split; [lia|].
      exists (added ++ [Wait (backoff attempt); Sink notice; Console line;
                        Call (CallStream params)]).
      split; [now rewrite Hadd, Htr, <- app_assoc|].
      replace (stop - attempt) with (S (stop - S attempt)) by lia.
      split.
      * rewrite rev_app_distr. cbn [rev app]. cbn [waitsOf seq map].
        now rewrite Hw.
      * rewrite streamCalls_app, Hc. cbn. lia.
    + destruct (attempt_final fuel attempt s) as [Ho Htr]; [lia|exact Hgo|].
      rewrite Ht, <- (Hans attempt) in Ho.
      split; [exact Ho|]. split; [lia|].
      exists [Call (CallStream params)]. rewrite Htr, Nat.sub_diag. now cbn.
Qed.
End Retry.

Lemma lastAttempt_bounds retries answers :
  forall n attempt,
    attempt <= lastAttempt retries answers n attempt <= attempt + n.
Proof.
  induction n as [|n IH]; intros attempt; simpl; [lia|].
  destruct (retryable retries attempt (answers attempt)); [|lia].
  specialize (IH (S attempt)). lia.
Qed.

Lemma lastAttempt_before retries answers :
  forall n attempt k,
    attempt <= k < lastAttempt retries answers n attempt ->
    retryable retries k (answers k) = true.
Proof.
  induction n as [|n IH]; intros attempt k Hk; simpl in Hk; [lia|].
  destruct (retryable retries attempt (answers attempt)) eqn:Hgo; [|lia].
  destruct (Nat.eq_dec k attempt) as [->|Hne]; [exact Hgo|].
  apply (IH (S attempt)). lia.
Qed.

Lemma lastAttempt_stops retries answers :
  forall n attempt,
    retries = attempt + n ->
    retryable retries (lastAttempt retries answers n attempt)
              (answers (lastAttempt retries answers n attempt)) = false.
Proof.
  induction n as [|n IH]; intros attempt Hr; simpl.
  - unfold retryable. destruct (answers attempt); [reflexivity|].
    replace (attempt <? retries)%nat with false
      by (symmetry; apply Nat.ltb_ge; lia).
    apply andb_false_r.
  - destruct (retryable retries attempt (answers attempt)) eqn:Hgo;
      [apply IH; lia|exact Hgo].
Qed.

(** C3, as the code has it.  The controller makes the attempts 0, 1, 2, 3
    one after the other and stops at the first whose answer is not a quota
    error with an attempt left ([stop], at most 3, so at most 4 calls of the
    provider): every attempt before [stop] failed with a quota error (status
    429, or a message with 429 or quota) and was followed by a wait of
    [2^attempt * 2000 + 1000] ms (3000, 5000, 9000); the outcome is the
    answer to attempt [stop] itself, its stream or its own error.  An error
    that is no quota error is thrown at once, and after four quota errors the
    fourth one is thrown (no other error is made up). *)
Theorem retry_controller_policy (E : env) (params : StreamParams) (s : state) :
  let answers := fun attempt =>
    generateContentStream E (now s + 2 * attempt) (withDefaultModel params) in
  let stop := lastAttempt 3 answers 3 0 in
  let r := generateContentStreamWithRetry E params 3 onRetry s in
  fst r = settledOutcome (answers stop)
  /\ stop <= 3
  /\ (forall attempt, attempt < stop ->
        exists e, answers attempt = Rejected e /\ isQuotaError e = true)
  /\ (forall e, answers stop = Rejected e -> isQuotaError e = false \/ stop = 3)
  /\ streamCalls (events (snd r)) = streamCalls (events s) + S stop
  /\ waitsOf (events (snd r)) = waitsOf (events s) ++ map backoff (seq 0 stop)
  /\ map backoff (seq 0 3) = [3000; 5000; 9000].
Proof.
  cbn zeta.
  set (answers := fun attempt => generateContentStream E (now s + 2 * attempt)
                                   (withDefaultModel params)).
  set (stop := lastAttempt 3 answers 3 0).
  unfold generateContentStreamWithRetry, onRetry.
  set (warn := if negb (Str.truthy (p_model params)) then console _ else ret tt).
  assert (Hwarn : exists s0, warn s = (Ok tt, s0) /\ now s0 = now s
                    /\ exists pre, trace s0 = pre ++ trace s
                       /\ waitsOf (rev pre) = [] /\ streamCalls pre = 0).
  { subst warn. destruct (negb (Str.truthy (p_model params))).
    - eexists. split; [reflexivity|]. split; [reflexivity|].
      eexists [_]. repeat split.
    - exists s. split; [reflexivity|]. split; [reflexivity|].
      exists []. repeat split. }
  destruct Hwarn as (s0 & Hw0 & Hnow0 & pre & Hpre & Hprew & Hprec).
  rewrite (bind_ok _ _ _ _ _ Hw0).
  destruct (attemptsFrom_policy E (withDefaultModel params) 3 answers
              3 (S (S 3)) 0 s0 (now s)) as (Ho & Hb & added & Hadd & Hw & Hc);
    [reflexivity|reflexivity|lia|lia|].
  fold stop in Ho, Hb, Hw, Hc.
  rewrite Nat.sub_0_r in Hw, Hc.
  split; [exact Ho|]. split; [lia|]. split.
  { intros attempt Hlt.
    assert (Hgo := lastAttempt_before 3 answers 3 0 attempt ltac:(fold stop; lia)).
    unfold retryable in Hgo. destruct (answers attempt) as [|e]; [discriminate|].
    exists e. split; [reflexivity|]. apply andb_prop in Hgo. exact (proj1 Hgo). }
  split.
  { intros e He.
    assert (Hst := lastAttempt_stops 3 answers 3 0 eq_refl). fold stop in Hst.
    rewrite He in Hst. unfold retryable in Hst.
    apply andb_false_iff in Hst. destruct Hst as [Hq|Hl]; [now left|right].
    apply Nat.ltb_ge in Hl. lia. }
  unfold events. rewrite Hadd, Hpre, !rev_app_distr.
  rewrite !streamCalls_app, !waitsOf_app, Hw, Hprew.
  split; [|split; [|reflexivity]].
  - assert (Hrev : forall l, streamCalls (rev l) = streamCalls l).
    { induction l as [|ev l IH]; [reflexivity|].
      cbn [rev]. rewrite streamCalls_app, IH.
      destruct ev as [| c | | | | |]; cbn; try lia. destruct c; cbn; lia. }
    rewrite !Hrev, Hc, Hprec. lia.
  - rewrite app_nil_r. reflexivity.
Qed.

(** C3, the scenario of the specification: the attempts 0 and 1 are over
    quota, attempt 2 succeeds; the call succeeds after waits of 3000 and
    5000 ms. *)
Example retry_twice_then_success :
  let r := generateContentStreamWithRetry Scenario.twiceOverQuota
             Scenario.someParams 3 onRetry (initialState Scenario.catsQuestion) in
  fst r = Ok (Scenario.textStream ["Hello."%string])
  /\ waitsOf (events (snd r)) = [3000; 5000]
  /\ list_sum (waitsOf (events (snd r))) = 3000 + 5000
  /\ streamCalls (events (snd r)) = 3.
Proof. vm_compute. repeat split. Qed.

(** C3, where the claim fails: after four quota errors the controller throws
    the fourth quota error, not an error of its own saying that the retries
    are exhausted. *)
Lemma retry_exhausted_rethrows :
  let r := generateContentStreamWithRetry Scenario.overQuota
             Scenario.someParams 3 onRetry (initialState Scenario.catsQuestion) in
  streamCalls (events (snd r)) = 4
  /\ waitsOf (events (snd r)) = [3000; 5000; 9000]
  /\ fst r = Throw Scenario.quota429
  /\ fst r <> Throw (newError "Max retries exceeded").
Proof. vm_compute. repeat split. discriminate. Qed.

(** C2, the code at the failing input: the relay answers 404 without
    providers; the generator throws at the first pull, outside the [try] that
    holds the fallback; the turn ends in the outer [catch] with the error as
    text, the native provider is never called and the sink receives no
    notice. *)
Theorem relay_unavailable_is_not_recovered :
  let r := invoke Scenario.relayDown Scenario.llamaQuestion in
  fst r = Ok (single (mkTurn Scenario.llamaQuestion
                        ("An error occurred: "
                         ++ unavailableMessage "meta-llama/llama-3-8b")%string
                        None None))
  /\ streamCalls (events (snd r)) = 0
  /\ filter (fun ev => match ev with Sink _ => true | _ => false end)
            (events (snd r)) = []
  /\ In (Console "Error in runAutonomousAgent:") (events (snd r)).
Proof. vm_compute. repeat split. auto 10. Qed.

(** ** What every piece of the orchestrator leaves alone *)

Lemma keeps_refl s : keeps s s.
Proof. repeat split. Qed.

Lemma keeps_trans s1 s2 s3 : keeps s1 s2 -> keeps s2 s3 -> keeps s1 s3.
Proof.
  intros (a & b & c) (a' & b' & c'). repeat split; congruence.
Qed.

Lemma steady_ret {A} (V : A -> Prop) (a : A) : V a -> steady V (ret a).
Proof. intros H s. split; [apply keeps_refl|exact H]. Qed.

Lemma steady_throw {A} (V : A -> Prop) e : steady V (throw e).
Proof. intros s. split; [apply keeps_refl|exact I]. Qed.

Lemma steady_weaken {A} (V V' : A -> Prop) (m : M A) :
  steady V m -> (forall a, V a -> V' a) -> steady V' m.
Proof.
  intros H HV s. destruct (H s) as [Hk Ho]. split; [exact Hk|].
  destruct (fst (m s)); auto.
Qed.

Lemma steady_bind {A B} (V : A -> Prop) (W : B -> Prop) (m : M A) (f : A -> M B) :
  steady V m -> (forall a, V a -> steady W (f a)) -> steady W (bind m f).
Proof.
  intros Hm Hf s. unfold bind.
  destruct (Hm s) as [Hk Ho]. destruct (m s) as [[a| e |] s1]; cbn in *.
  - destruct (Hf a Ho s1) as [Hk' Ho']. split; [|exact Ho'].
    eapply keeps_trans; eassumption.
  - split; [exact Hk|exact I].
  - contradiction.
Qed.

Lemma steady_seq {A B} (W : B -> Prop) (m : M A) (f : A -> M B) :
  steady anything m -> (forall a, steady W (f a)) -> steady W (bind m f).
Proof. intros Hm Hf. eapply steady_bind; [exact Hm|auto]. Qed.

Lemma steady_tryCatch {A} (V : A -> Prop) (m : M A) (h : jsError -> M A) :
  steady V m -> (forall e, steady V (h e)) -> steady V (tryCatch m h).
Proof.
  intros Hm Hh s. unfold tryCatch.
  destruct (Hm s) as [Hk Ho]. destruct (m s) as [[a| e |] s1]; cbn in *.
  - split; assumption.
  - destruct (Hh e s1) as [Hk' Ho']. split; [|exact Ho'].
    eapply keeps_trans; eassumption.
  - contradiction.
Qed.

Lemma steady_get : steady anything get.
Proof. intros s. split; [apply keeps_refl|exact I]. Qed.

Lemma steady_modify (f : state -> state) :
  (forall s, keeps s (f s)) -> steady anything (modify f).
Proof. intros H s. split; [apply H|exact I]. Qed.

Lemma steady_emit ev : isIteration ev = false -> steady anything (emit ev).
Proof.
  intros H. apply steady_modify. intros s. repeat split.
  cbn [trace set_trace]. unfold iterationsOf. cbn [filter]. now rewrite H.
Qed.

Lemma iterations_length tr : iterations tr = length (iterationsOf tr).
Proof.
  induction tr as [|ev tr IH]; [reflexivity|].
  destruct ev; cbn; now rewrite ?IH.
Qed.

Lemma steady_sink x : steady anything (sink x).
Proof. now apply steady_emit. Qed.

Lemma steady_console x : steady anything (console x).
Proof. now apply steady_emit. Qed.

Lemma steady_tick : steady anything tick.
Proof. apply steady_modify. intros s. repeat split. Qed.

Create HintDb steady discriminated.

#[local] Hint Resolve steady_get steady_sink steady_console steady_tick
  steady_throw : steady.

(** Walks through a computation made of [bind], [tryCatch], conditionals and
    pieces whose lemma is in the database. *)
Ltac steady_walk :=
  repeat first
    [ match goal with |- forall _, _ => intro end
    | progress cbv zeta
    | solve [ auto with steady ]
    | solve [ eapply steady_weaken; [ solve [ auto with steady ] | exact (fun _ _ => I) ] ]
    | match goal with
      | |- steady _ (ret _) =>
          apply steady_ret;
          solve [ exact I | cbn; unfold isSingle; eexists; reflexivity ]
      | |- steady _ (tryCatch _ _) => apply steady_tryCatch
      | |- steady _ (bind _ _) => apply steady_seq
      | |- steady _ (emit _) => apply steady_emit; reflexivity
      | |- steady _ (modify _) => apply steady_modify; intros; repeat split
      | |- steady _ (if ?c then _ else _) => destruct c
      | |- steady _ (match ?x with _ => _ end) => destruct x
      end ].

Section Steady.
Variable E : env.

Lemma steady_await {A} (c : call) (answer : nat -> settled A) :
  steady anything (await c answer).
Proof. unfold await. steady_walk. Qed.

Lemma steady_settle {A} (p : settled A) : steady anything (settle p).
Proof. unfold settle. steady_walk. Qed.

Lemma steady_signalAborted : steady anything (signalAborted E).
Proof. unfold signalAborted. steady_walk. Qed.

Lemma steady_signalAbortedInCallback :
  steady anything (signalAbortedInCallback E).
Proof. unfold signalAbortedInCallback. steady_walk. Qed.

Hint Resolve steady_await steady_settle steady_signalAborted
  steady_signalAbortedInCallback : steady.

Lemma steady_attemptsFrom params retries :
  forall fuel attempt,
    S retries - attempt < fuel ->
    steady anything (attemptsFrom E fuel params retries (Some sink) attempt).
Proof.
  induction fuel as [|fuel IH]; intros attempt Hf; [lia|].
  simpl. destruct (attempt <=? retries)%nat eqn:Hle; [|steady_walk].
  apply Nat.leb_le in Hle.
  apply steady_tryCatch; [steady_walk|].
  intros error. destruct (isQuotaError error && (attempt <? retries)%nat);
    [|steady_walk].
  steady_walk. apply IH. lia.
Qed.

Lemma steady_retry params :
  steady anything (generateContentStreamWithRetry E params 3 onRetry).
Proof.
  unfold generateContentStreamWithRetry, onRetry.
  apply steady_seq; [steady_walk|]. intros _.
  apply steady_attemptsFrom. lia.
Qed.

Hint Resolve steady_retry : steady.

Section Loops.
Variable A : Type.
Variable body : A -> Chunk -> M (flow A).
Hypothesis steady_body : forall acc c, steady anything (body acc c).

Lemma steady_overChunks failure :
  forall cs acc, steady anything (overChunks body cs failure acc).
Proof.
  induction cs as [|c cs IH]; intros acc; simpl.
  - steady_walk.
  - apply steady_seq; [steady_walk|]. intros _.
    apply steady_seq; [apply steady_body|]. intros [a|a]; [apply IH|steady_walk].
Qed.

Lemma steady_silentOnAbort {B} (m : M B) :
  steady anything m -> steady anything (silentOnAbort m).
Proof. intros H. unfold silentOnAbort. steady_walk. Qed.

Lemma steady_overLines :
  forall lines acc, steady anything (overLines E body lines acc).
Proof.
  induction lines as [|line lines IH]; intros acc; simpl; [steady_walk|].
  destruct (_ && _); [|apply IH].
  destruct (sseContent E _) as [content|]; [|apply IH].
  destruct (Str.truthy content); [|apply IH].
  apply steady_seq; [steady_walk|]. intros _.
  apply steady_seq; [apply steady_body|]. intros [a|a]; [apply IH|steady_walk].
Qed.

Lemma steady_overReads :
  forall reads buffer acc, steady anything (overReads E body reads buffer acc).
Proof.
  induction reads as [|read reads IH]; intros buffer acc; simpl.
  - steady_walk.
  - apply steady_seq; [steady_walk|]. intros [|]; [steady_walk|].
    apply steady_seq; [steady_walk|]. intros _.
    apply steady_seq; [apply steady_silentOnAbort; steady_walk|].
    intros [value|]; [|steady_walk].
    apply steady_seq; [apply steady_overLines|].
    intros [a|a]; [apply IH|steady_walk].
Qed.

Lemma steady_relayFailure model r : steady anything (relayFailure model r).
Proof. unfold relayFailure. steady_walk. Qed.

Lemma steady_relayOpen apiKey model msgs sys :
  steady anything (relayOpen E apiKey model msgs sys).
Proof.
  unfold relayOpen. apply steady_seq; [steady_walk|]. intros response.
  destruct (negb (responseOk response)); [apply steady_relayFailure|].
  steady_walk.
Qed.

Lemma steady_forAwait g acc : steady anything (forAwait E body g acc).
Proof.
  destruct g as [st|apiKey model msgs sys]; simpl.
  - apply steady_overChunks.
  - apply steady_seq; [apply steady_silentOnAbort, steady_relayOpen|].
    intros [reads|]; [apply steady_overReads|steady_walk].
Qed.
End Loops.
End Steady.

Section SteadyHandlers.
Variable E : env.
Variable input : AgentInput.
Variable ctx : context.

Hint Resolve steady_await steady_settle steady_signalAborted
  steady_signalAbortedInCallback steady_retry : steady.

Lemma steady_currentTurn : steady isSingle (currentTurn input).
Proof.
  unfold currentTurn. apply steady_seq; [steady_walk|]. intros s.
  apply steady_ret. now eexists.
Qed.

Lemma steady_returnCurrent :
  steady stepSingle (r <- currentTurn input ;; ret (Return r)).
Proof.
  eapply steady_bind; [apply steady_currentTurn|].
  intros r Hr. apply steady_ret. exact Hr.
Qed.

Hint Resolve steady_returnCurrent : steady.

Lemma steady_appendChunk acc c : steady anything (appendChunk E acc c).
Proof. unfold appendChunk. steady_walk. Qed.

Lemma steady_simpleChunk uf acc c : steady anything (simpleChunk E ctx uf acc c).
Proof. unfold simpleChunk. steady_walk. Qed.

Lemma steady_reportProgress :
  forall msgs, steady anything (reportProgress E msgs).
Proof. induction msgs as [|msg msgs IH]; simpl; steady_walk. Qed.

Lemma steady_encodeFiles :
  forall fs userParts, steady anything (encodeFiles fs userParts).
Proof. induction fs as [|f fs IH]; intros userParts; simpl; steady_walk. Qed.

Hint Resolve steady_reportProgress steady_encodeFiles : steady.

Lemma steady_searchHandler : steady stepSingle (searchHandler E input).
Proof. unfold searchHandler. steady_walk. Qed.

Lemma steady_thinkHandler : steady stepSingle (thinkHandler E input ctx).
Proof.
  unfold thinkHandler. steady_walk.
  apply steady_forAwait, steady_appendChunk.
Qed.

Lemma steady_imageHandler : steady stepSingle (imageHandler E input).
Proof. unfold imageHandler. steady_walk. Qed.

Lemma steady_canvasHandler : steady stepSingle (canvasHandler E input).
Proof. unfold canvasHandler. steady_walk. Qed.

Lemma steady_projectHandler : steady stepSingle (projectHandler E input).
Proof. unfold projectHandler. steady_walk. Qed.

Lemma steady_studyHandler : steady stepSingle (studyHandler E input).
Proof.
  unfold studyHandler. steady_walk.
  apply steady_forAwait, steady_appendChunk.
Qed.

Lemma steady_simpleHandler : steady stepSingle (simpleHandler E input ctx).
Proof.
  unfold simpleHandler. steady_walk;
    try (apply steady_forAwait, steady_simpleChunk).
Qed.

Lemma steady_dispatch : steady stepSingle (dispatch E input ctx).
Proof.
  unfold dispatch. apply steady_seq; [steady_walk|]. intros s.
  destruct (currentAction s);
    auto using steady_searchHandler, steady_thinkHandler,
      steady_imageHandler, steady_canvasHandler, steady_projectHandler,
      steady_studyHandler, steady_simpleHandler.
Qed.
End SteadyHandlers.

(** ** The loop is bounded *)

Section LoopBound.
Variable E : env.
Variable input : AgentInput.
Variable ctx : context.

Lemma loop_unfold fuel :
  loop E input ctx (S fuel)
  = (s <- get ;;
     if (loopCount s <? MAX_LOOPS)%nat then
       b <- signalAborted E ;;
       if b then currentTurn input
       else
         modify (fun s => set_loopCount (S (loopCount s)) s) ;;
         s <- get ;;
         emit (Iteration (loopCount s) (currentAction s) (currentPrompt s)) ;;
         r <- dispatch E input ctx ;;
         match r with
         | Continue => loop E input ctx fuel
         | Return result => ret result
         end
     else currentTurn input).
Proof. reflexivity. Qed.

(** With the counter at the bound the loop is left at once and the text
    accumulated so far is returned. *)
Lemma loop_exhausted fuel s :
  MAX_LOOPS <= loopCount s ->
  loop E input ctx (S fuel) s
  = (Ok (single (mkTurn input (finalResponseText s) None (metadataPayload s))), s).
Proof.
  intros H. rewrite loop_unfold. unfold bind at 1. unfold get at 1.
  replace (loopCount s <? MAX_LOOPS)%nat with false
    by (symmetry; apply Nat.ltb_ge; exact H).
  reflexivity.
Qed.

(** The first iteration of the loop when the signal is already aborted. *)
Lemma loop_aborted fuel s :
  loopCount s < MAX_LOOPS ->
  aborted E (now s) = true ->
  loop E input ctx (S fuel) s
  = (Ok (single (mkTurn input (finalResponseText s) None (metadataPayload s))),
     set_trace (AbortSeen (finalResponseText s) :: trace s) s).
Proof.
  intros Hlt Hab. rewrite loop_unfold. unfold bind at 1. unfold get at 1.
  replace (loopCount s <? MAX_LOOPS)%nat with true
    by (symmetry; apply Nat.ltb_lt; exact Hlt).
  unfold bind at 1. unfold signalAborted, bind at 1, get at 1.
  rewrite Hab. reflexivity.
Qed.

(** The first iteration of the loop otherwise. *)
Lemma loop_iteration fuel s :
  loopCount s < MAX_LOOPS ->
  aborted E (now s) = false ->
  let s1 := set_loopCount (S (loopCount s)) s in
  let s2 := set_trace (Iteration (S (loopCount s)) (currentAction s)
                                 (currentPrompt s) :: trace s) s1 in
  loop E input ctx (S fuel) s
  = (r <- dispatch E input ctx ;;
     match r with
     | Continue => loop E input ctx fuel
     | Return result => ret result
     end) s2.
Proof.
  intros Hlt Hab. rewrite loop_unfold. unfold bind at 1. unfold get at 1.
  replace (loopCount s <? MAX_LOOPS)%nat with true
    by (symmetry; apply Nat.ltb_lt; exact Hlt).
  unfold bind at 1. unfold signalAborted, bind at 1, get at 1.
  rewrite Hab. reflexivity.
Qed.

Lemma loop_bounded :
  forall fuel s,
    MAX_LOOPS - loopCount s < fuel ->
    let r := loop E input ctx fuel s in
    match fst r with
    | Ok x => isSingle x
    | Throw _ => True
    | OutOfFuel => False
    end
    /\ bounded s (snd r).
Proof.
  induction fuel as [|fuel IH]; intros s Hf; [lia|]. cbn zeta.
  destruct (Nat.ltb_spec (loopCount s) MAX_LOOPS) as [Hlt|Hge].
  2:{ rewrite loop_exhausted by exact Hge. cbn [fst snd].
      split; [now eexists|]. unfold bounded. repeat split; lia. }
  destruct (aborted E (now s)) eqn:Hab.
  - rewrite loop_aborted by assumption. cbn [fst snd].
    split; [now eexists|]. unfold bounded.
    cbn [loopCount trace promptVar set_trace iterations]. repeat split; lia.
  - rewrite loop_iteration by assumption. cbn zeta.
    set (s2 := set_trace _ _).
    assert (H2 : loopCount s2 = S (loopCount s)
                 /\ iterations (trace s2) = S (iterations (trace s))
                 /\ promptVar s2 = promptVar s) by (subst s2; now cbn).
    destruct H2 as (Hc2 & Hi2 & Hp2).
    destruct (steady_dispatch E input ctx s2) as [(Hc3 & Hi3 & Hp3) Ho].
    apply (f_equal (@length event)) in Hi3.
    rewrite <- !iterations_length in Hi3.
    destruct (dispatch E input ctx s2) as [[[|result]| e |] s3] eqn:Hdisp;
      cbn [fst snd] in *.
    + rewrite (bind_ok _ _ _ _ _ Hdisp).
      destruct (IH s3 ltac:(lia)) as [Hout (Ha & Hb & Hc & Hd)].
      split; [exact Hout|]. unfold bounded. repeat split; lia || congruence.
    + rewrite (bind_ok _ _ _ _ _ Hdisp). cbn [ret fst snd].
      split; [exact Ho|]. unfold bounded. repeat split; lia || congruence.
    + rewrite (bind_throw _ _ _ _ _ Hdisp). cbn [fst snd].
      split; [exact I|]. unfold bounded. repeat split; lia || congruence.
    + contradiction.
Qed.
End LoopBound.

(** ** One invocation *)

Section Invocation.
Variable E : env.
Variable input : AgentInput.

Lemma steady_chooseModel_aux : steady anything (chooseModel input).
Proof. unfold chooseModel. steady_walk. Qed.

(** The outer [catch] always returns one turn, without metadata. *)
Lemma catchBlock_returns error s :
  exists txt s',
    catchBlock E input error s = (Ok (single (mkTurn input txt None None)), s')
    /\ iterationsOf (trace s') = iterationsOf (trace s)
    /\ loopCount s' = loopCount s
    /\ promptVar s' = promptVar s.
Proof.
  unfold catchBlock, bind, get, console, emit, modify, ret.
  destruct (String.eqb (e_name error) "AbortError");
    eexists _, _; split; try reflexivity; repeat split.
Qed.

(** The choice of the model always succeeds. *)
Lemma chooseModel_returns s :
  exists budget s', chooseModel input s = (Ok budget, s') /\ keeps s s'.
Proof.
  destruct (steady_chooseModel_aux s) as [Hk Ho].
  destruct (chooseModel input s) as [[budget| e |] s1] eqn:Hc; cbn [fst snd] in *.
  - now exists budget, s1.
  - exfalso. revert Hc. unfold chooseModel, bind, get, modify, ret, sink, emit.
    repeat match goal with
           | |- context [if ?c then _ else _] => destruct c
           | |- context [match thinkingMode input with _ => _ end] =>
               destruct (thinkingMode input)
           end; discriminate.
  - contradiction.
Qed.

Lemma steady_chooseModel : steady anything (chooseModel input).
Proof. exact steady_chooseModel_aux. Qed.

(** The preparation never runs out of fuel, records no iteration and, when
    it succeeds, leaves the counter of the loop at 0. *)
Lemma prepare_counts budget s :
  let r := prepare E input budget s in
  iterationsOf (trace (snd r)) = iterationsOf (trace s)
  /\ match fst r with
     | Ok _ => loopCount (snd r) = 0
     | Throw _ => loopCount (snd r) = loopCount s
     | OutOfFuel => False
     end.
Proof.
  cbn zeta. unfold prepare.
  unfold sink, await, bind, get, emit, tick, modify, ret, throw.
  cbv beta iota.
  destruct (negb (isGoogleModel (modelVar s)) && _);
    cbn [now trace set_now set_trace set_modelVar set_promptVar fst snd
         promptVar];
    (destruct (videoRewrite (promptVar s));
     cbn [now trace set_now set_trace set_modelVar set_promptVar fst snd
          promptVar]);
    (destruct (route E _ _ _ _ _);
     cbn [fst snd trace set_now set_trace iterations];
     [|split; reflexivity]);
    (destruct (getContext E _); cbn; split; reflexivity).
Qed.

(** The routed modes: the outer [try] with its [catch] gives one turn. *)
Lemma routed_gives_one_turn budget s :
  loopCount s <= MAX_LOOPS ->
  let r := tryCatch (tryBlock E input budget) (catchBlock E input) s in
  (exists t, fst r = Ok (single t))
  /\ iterations (trace (snd r)) <= iterations (trace s) + MAX_LOOPS
  /\ loopCount (snd r) <= MAX_LOOPS.
Proof.
  intros Hs. cbn zeta. unfold tryCatch, tryBlock.
  destruct (prepare_counts budget s) as [Hi Ho]. cbn zeta in Hi, Ho.
  apply (f_equal (@length event)) in Hi; rewrite <- !iterations_length in Hi.
  destruct (prepare E input budget s) as [[ctx| e |] s1] eqn:Hp;
    cbn [fst snd] in *; [| |contradiction].
  - rewrite (bind_ok _ _ _ _ _ Hp).
    destruct (loop_bounded E input ctx (S MAX_LOOPS) s1 ltac:(lia))
      as [Hout (Ha & Hb & Hc & Hd)].
    destruct (loop E input ctx (S MAX_LOOPS) s1) as [[x| e |] s2];
      cbn [fst snd] in *; [| |contradiction].
    + split; [destruct Hout as [t ->]; now exists t|]. rewrite Ho in *. lia.
    + destruct (catchBlock_returns e s2) as (txt & s3 & -> & Hi3 & Hl3 & _).
      apply (f_equal (@length event)) in Hi3; rewrite <- !iterations_length in Hi3.
      cbn [fst snd]. split; [now eexists|]. rewrite Ho in *. lia.
  - rewrite (bind_throw _ _ _ _ _ Hp).
    destruct (catchBlock_returns e s1) as (txt & s3 & -> & Hi3 & Hl3 & _).
    apply (f_equal (@length event)) in Hi3; rewrite <- !iterations_length in Hi3.
    cbn [fst snd]. split; [now eexists|]. lia.
Qed.
End Invocation.

Section InstantMode.
Variable E : env.
Variable input : AgentInput.

Hint Resolve steady_await steady_settle : steady.

Lemma steady_describeFiles :
  forall fs imageNote fileContext,
    steady anything (describeFiles fs imageNote fileContext).
Proof.
  induction fs as [|f fs IH]; intros imageNote fileContext; simpl;
    steady_walk.
Qed.

Lemma steady_sinkAll : forall l, steady anything (sinkAll l).
Proof. induction l as [|x l IH]; simpl; steady_walk. Qed.

Hint Resolve steady_describeFiles steady_sinkAll : steady.

Lemma steady_instantBlock : steady isSingle (instantBlock E input).
Proof. unfold instantBlock. steady_walk. Qed.
End InstantMode.

Lemma iterations_rev (l : list event) : iterations (rev l) = iterations l.
Proof.
  assert (Happ : forall a b, iterations (a ++ b) = iterations a + iterations b).
  { induction a as [|ev a IH]; intros b; [reflexivity|].
    destruct ev; cbn; now rewrite ?IH. }
  induction l as [|ev l IH]; [reflexivity|].
  cbn [rev]. rewrite Happ, IH. destruct ev; cbn; lia.
Qed.

(** What one invocation gives, in every mode. *)
Lemma invoke_shape (E : env) (input : AgentInput) :
  let r := invoke E input in
  iterations (trace (snd r)) <= MAX_LOOPS
  /\ loopCount (snd r) <= MAX_LOOPS
  /\ match thinkingMode input with
     | Instant =>
         (exists t, fst r = Ok (single t))
         \/ fst r = Throw (newError "Instant mode service unavailable.")
     | _ => exists t, fst r = Ok (single t)
     end.
Proof.
  cbn zeta. unfold invoke, runAutonomousAgent.
  assert (Hrouted :
    let r := (budget <- chooseModel input ;;
              modify (set_finalResponseText EmptyString) ;;
              tryCatch (tryBlock E input budget) (catchBlock E input))
               (initialState input) in
    iterations (trace (snd r)) <= MAX_LOOPS
    /\ loopCount (snd r) <= MAX_LOOPS
    /\ exists t, fst r = Ok (single t)).
  { cbn zeta.
    destruct (steady_chooseModel input (initialState input))
      as [(Hl & Hi & _) Ho].
    apply (f_equal (@length event)) in Hi; rewrite <- !iterations_length in Hi.
    destruct (chooseModel input (initialState input)) as [[budget| e |] s1] eqn:Hc;
      cbn [fst snd] in *.
    - rewrite (bind_ok _ _ _ _ _ Hc). unfold bind at 1, modify at 1.
      set (s2 := set_finalResponseText _ s1).
      destruct (routed_gives_one_turn E input budget s2) as (Ht & Hit & Hlc).
      { subst s2. cbn [loopCount set_finalResponseText]. rewrite Hl. cbn. lia. }
      cbn zeta in Ht, Hit, Hlc. split; [|split; [exact Hlc|exact Ht]].
      subst s2. cbn [trace set_finalResponseText] in Hit.
      rewrite Hi in Hit. cbn [initialState trace iterations] in Hit. lia.
    - exfalso. revert Hc. unfold chooseModel, bind, get, modify, ret, sink, emit.
      repeat match goal with
             | |- context [if ?c then _ else _] => destruct c
             | |- context [match thinkingMode input with _ => _ end] =>
                 destruct (thinkingMode input)
             end; discriminate.
    - contradiction. }
  destruct (thinkingMode input); try exact Hrouted.
  unfold tryCatch.
  destruct (steady_instantBlock E input (initialState input))
    as [(Hl & Hi & _) Ho].
  apply (f_equal (@length event)) in Hi; rewrite <- !iterations_length in Hi.
  destruct (instantBlock E input (initialState input)) as [[x| e |] s1];
    cbn [fst snd] in *; [| |contradiction].
  - rewrite Hi, Hl. cbn. split; [lia|]. split; [lia|].
    left. destruct Ho as [t ->]. now exists t.
  - cbn. rewrite Hi, Hl. cbn. split; [lia|]. split; [lia|]. now right.
Qed.

(** C1, where the claim fails: in instant mode a failure of the free
    completion service is thrown to the caller. *)
Lemma instant_mode_raises :
  fst (invoke Scenario.freeDown Scenario.instantQuestion)
  = Throw (newError "Instant mode service unavailable.").
Proof. vm_compute. reflexivity. Qed.

(** C1, as the code has it.  In the routed modes (fast, think, deep) one
    invocation returns exactly one turn and never throws; the outer [catch]
    turns an exception into the text of that turn.  In instant mode the
    invocation returns exactly one turn or throws the error
    [Instant mode service unavailable.]. *)
Theorem one_turn_unless_instant_fails (E : env) (input : AgentInput) :
  match thinkingMode input with
  | Instant =>
      (exists t, fst (invoke E input) = Ok (single t))
      \/ fst (invoke E input) = Throw (newError "Instant mode service unavailable.")
  | _ => exists t, fst (invoke E input) = Ok (single t)
  end
  /\ forall error s,
       fst (catchBlock E input error s)
       = Ok (single (mkTurn input
               (if String.eqb (e_name error) "AbortError"
                then Str.orElse (finalResponseText s) "(Generation stopped by user)"
                else ("An error occurred: "
                      ++ (if Str.truthy (e_message error)
                             && Str.includes (e_message error) "OpenRouter"
                          then e_message error
                          else getUserFriendlyError E error))%string)
               None None)).
Proof.
  split; [exact (proj2 (proj2 (invoke_shape E input)))|].
  intros error s. unfold catchBlock, bind, get, console, emit, modify, ret.
  destruct (String.eqb (e_name error) "AbortError"); reflexivity.
Qed.

(** C4.  Whatever the collaborators answer, an invocation never runs out of
    the fuel of the model, starts at most 6 iterations and leaves the counter
    at 6 at most; in a state where the counter has reached 6 the loop is left
    at once and returns, as an ordinary result, one turn with the text
    accumulated so far.  A provider that asks for a search in every answer
    is stopped after 6 iterations, and the turn carries the three answers
    accumulated so far. *)
Theorem loop_stops_after_six (E : env) (input : AgentInput) (ctx : context)
    (s : state) (fuel : nat) :
  fst (invoke E input) <> OutOfFuel
  /\ iterations (events (snd (invoke E input))) <= 6
  /\ loopCount (snd (invoke E input)) <= 6
  /\ loop E input ctx (S fuel) (set_loopCount MAX_LOOPS s)
     = (Ok (single (mkTurn input (finalResponseText s) None (metadataPayload s))),
        set_loopCount MAX_LOOPS s)
  /\ (let r := invoke Scenario.searchForever Scenario.catsQuestion in
      iterations (events (snd r)) = 6
      /\ exists meta,
           fst r = Ok (single (mkTurn Scenario.catsQuestion
                     "<SEARCH>more</SEARCH><SEARCH>more</SEARCH><SEARCH>more</SEARCH>"
                     None meta))).
Proof.
  destruct (invoke_shape E input) as (Hi & Hl & Ho). cbn zeta in *.
  split.
  { destruct (thinkingMode input);
      try (destruct Ho as [t ->]; discriminate).
    destruct Ho as [[t ->]| ->]; discriminate. }
  split; [unfold events; rewrite iterations_rev; exact Hi|].
  split; [exact Hl|]. split.
  - rewrite loop_exhausted by (cbn; lia). reflexivity.
  - cbn zeta. split; [vm_compute; reflexivity|].
    eexists. vm_compute. reflexivity.
Qed.

(** ** The directive scan *)

Lemma nextDirective_precedence (generated userPrompt : string) :
  option_map fst (nextDirective generated userPrompt)
  = find (fun a => present a generated) precedence.
Proof.
  unfold nextDirective, precedence, present, orMatch. cbn [find].
  destruct (Re.exec false Pat.deepRe generated); [reflexivity|].
  destruct (Re.exec true Pat.deepSearchRe generated); [reflexivity|].
  destruct (Re.exec false Pat.searchRe generated); [reflexivity|].
  destruct (Re.exec false Pat.thinkRe generated); [reflexivity|].
  destruct (Re.exec false Pat.thinkOpenRe generated); [reflexivity|].
  destruct (Re.exec false Pat.imageRe generated); [reflexivity|].
  destruct (Re.exec false Pat.projectRe generated); [reflexivity|].
  destruct (Re.exec false Pat.canvasRe generated); [reflexivity|].
  destruct (Re.exec false Pat.studyRe generated); reflexivity.
Qed.

(** ** Rules for triples *)

Section Rules.
Context {A B : Type}.
Variables X P : state -> Prop.

Lemma hoare_ret (a : A) (V : A -> state -> Prop) :
  (forall s, P s -> V a s) -> hoare X P (ret a) V.
Proof. intros H s Hs. exact (H s Hs). Qed.

Lemma hoare_throw e (V : A -> state -> Prop) :
  (forall s, P s -> X s) -> hoare X P (@throw A e) V.
Proof. intros H s Hs. exact (H s Hs). Qed.

Lemma hoare_bind (m : M A) (f : A -> M B) (V : A -> state -> Prop)
    (W : B -> state -> Prop) :
  hoare X P m V -> (forall a, hoare X (V a) (f a) W) -> hoare X P (bind m f) W.
Proof.
  intros Hm Hf s Hs. specialize (Hm s Hs). unfold bind.
  destruct (m s) as [[a| e |] s1]; cbn in *; [|exact Hm|exact I].
  exact (Hf a s1 Hm).
Qed.

Lemma hoare_tryCatch (X0 : state -> Prop) (m : M A) (h : jsError -> M A)
    (V : A -> state -> Prop) :
  hoare X0 P m V -> (forall e, hoare X X0 (h e) V) ->
  hoare X P (tryCatch m h) V.
Proof.
  intros Hm Hh s Hs. specialize (Hm s Hs). unfold tryCatch.
  destruct (m s) as [[a| e |] s1]; cbn in *; [exact Hm| |exact I].
  exact (Hh e s1 Hm).
Qed.

Lemma hoare_weaken (P' : state -> Prop) (m : M A) (V V' : A -> state -> Prop) :
  hoare X P' m V' ->
  (forall s, P s -> P' s) ->
  (forall a s, V' a s -> V a s) ->
  hoare X P m V.
Proof.
  intros Hm HP HV s Hs. specialize (Hm s (HP s Hs)).
  destruct (fst (m s)); cbn in *; auto.
Qed.
End Rules.

Lemma hoare_pre {A} (X P P' : state -> Prop) (m : M A) (V : A -> state -> Prop) :
  hoare X P' m V -> (forall s, P s -> P' s) -> hoare X P m V.
Proof. intros Hm HP s Hs. exact (Hm s (HP s Hs)). Qed.

Lemma hoare_relax {A} (X X' P : state -> Prop) (m : M A) (V : A -> state -> Prop) :
  hoare X P m V -> (forall s, X s -> X' s) -> hoare X' P m V.
Proof.
  intros Hm HX s Hs. specialize (Hm s Hs).
  destruct (fst (m s)); cbn in *; auto.
Qed.

Lemma hoare_get (X P : state -> Prop) :
  hoare X P get (fun a s => a = s /\ P s).
Proof. intros s Hs. now split. Qed.

Lemma hoare_modify (X P : state -> Prop) (f : state -> state)
    (V : unit -> state -> Prop) :
  (forall s, P s -> V tt (f s)) -> hoare X P (modify f) V.
Proof. intros H s Hs. exact (H s Hs). Qed.

(** ** Invariants *)

Lemma inv_ret {A} I (a : A) : inv I (ret a).
Proof. now apply hoare_ret. Qed.

Lemma inv_throw {A} I e : inv I (@throw A e).
Proof. now apply hoare_throw. Qed.

Lemma inv_bind {A B} I (m : M A) (f : A -> M B) :
  inv I m -> (forall a, inv I (f a)) -> inv I (bind m f).
Proof. intros Hm Hf. eapply hoare_bind; [exact Hm|exact Hf]. Qed.

Lemma inv_tryCatch {A} I (m : M A) (h : jsError -> M A) :
  inv I m -> (forall e, inv I (h e)) -> inv I (tryCatch m h).
Proof. intros Hm Hh. eapply hoare_tryCatch; [exact Hm|exact Hh]. Qed.

Lemma inv_get I : inv I get.
Proof. intros s Hs. exact Hs. Qed.

Lemma inv_modify I (f : state -> state) :
  (forall s, I s -> I (f s)) -> inv I (modify f).
Proof. intros H. apply hoare_modify. exact H. Qed.

(** Walks through a computation, given that the updates of the state keep
    the invariant (which [side] proves). *)
Create HintDb inv discriminated.

Ltac inv_walk side :=
  repeat first
    [ match goal with |- forall _, _ => intro end
    | progress cbv zeta
    | assumption
    | solve [ auto with inv ]
    | match goal with
      | |- inv _ (ret _) => apply inv_ret
      | |- inv _ (throw _) => apply inv_throw
      | |- inv _ get => apply inv_get
      | |- inv _ (tryCatch _ _) => apply inv_tryCatch
      | |- inv _ (bind _ _) => apply inv_bind
      | |- inv _ (modify _) => apply inv_modify; solve [ side ]
      | |- inv _ (emit _) => apply inv_modify; solve [ side ]
      | |- inv _ (sink _) => apply inv_modify; solve [ side ]
      | |- inv _ (console _) => apply inv_modify; solve [ side ]
      | |- inv _ tick => apply inv_modify; solve [ side ]
      | |- inv _ (if ?c then _ else _) => destruct c
      | |- inv _ (match ?x with _ => _ end) => destruct x
      end ].

(** ** What a chunk loop of SIMPLE accumulates *)

Section Generated.
Variable E : env.
Variable ctx : context.
Variable usedFallback : bool.
Variable base : string.

Lemma append_assoc (a b c : string) : ((a ++ b) ++ c = a ++ (b ++ c))%string.
Proof. induction a as [|x a IH]; cbn; [reflexivity|now rewrite IH]. Qed.

Let body := simpleChunk E ctx usedFallback.

Ltac grows_side := intros ? H; exact H.

Lemma simpleChunk_grows acc c :
  hoare always (grows base acc) (body acc c)
        (fun r => grows base (flowValue r)).
Proof.
  intros s H. unfold grows in *. subst body.
  unfold simpleChunk, signalAborted, sink, bind, get, emit, modify, ret.
  destruct (aborted E (now s)); [exact H|].
  destruct (Str.truthy (c_text c)); [|exact H].
  destruct (isNative ctx || usedFallback); [destruct (c_grounding c)|];
    cbn; rewrite H; apply append_assoc.
Qed.

Lemma inv_grows_always {A} acc (m : M A) :
  inv (grows base acc) m ->
  hoare always (grows base acc) m (fun _ => grows base acc).
Proof. intros H. eapply hoare_relax; [exact H|easy]. Qed.

Lemma tick_grows acc : inv (grows base acc) tick.
Proof. inv_walk grows_side. Qed.

Lemma overChunks_grows failure :
  forall cs acc,
    hoare always (grows base acc) (overChunks body cs failure acc)
          (fun generated => grows base generated).
Proof.
  induction cs as [|c cs IH]; intros acc; simpl.
  - eapply hoare_bind; [apply inv_grows_always, tick_grows|]. intros u.
    destruct failure; [now apply hoare_throw|now apply hoare_ret].
  - eapply hoare_bind; [apply inv_grows_always, tick_grows|]. intros u.
    eapply hoare_bind; [apply simpleChunk_grows|]. intros [a|a]; cbn [flowValue].
    + apply IH.
    + eapply hoare_bind; [apply inv_grows_always, tick_grows|]. intros v.
      now apply hoare_ret.
Qed.

Lemma overLines_grows :
  forall lines acc,
    hoare always (grows base acc) (overLines E body lines acc)
          (fun r => grows base (flowValue r)).
Proof.
  induction lines as [|line lines IH]; intros acc; simpl.
  - now apply hoare_ret.
  - destruct (_ && _); [|apply IH].
    destruct (sseContent E _) as [content|]; [|apply IH].
    destruct (Str.truthy content); [|apply IH].
    eapply hoare_bind; [apply inv_grows_always, tick_grows|]. intros u.
    eapply hoare_bind; [apply simpleChunk_grows|]. intros [a|a]; cbn [flowValue].
    + apply IH.
    + eapply hoare_bind; [apply inv_grows_always, tick_grows|]. intros v.
      now apply hoare_ret.
Qed.

Lemma signalAborted_grows acc : inv (grows base acc) (signalAborted E).
Proof. unfold signalAborted. inv_walk grows_side. Qed.

Lemma settle_grows {B} (p : settled B) acc : inv (grows base acc) (settle p).
Proof. unfold settle. inv_walk grows_side. Qed.

Lemma silent_grows {B} (m : M B) acc :
  inv (grows base acc) m -> inv (grows base acc) (silentOnAbort m).
Proof. intros H. unfold silentOnAbort. inv_walk grows_side. Qed.

Lemma relayOpen_grows apiKey model msgs sys acc :
  inv (grows base acc) (relayOpen E apiKey model msgs sys).
Proof.
  unfold relayOpen, relayFailure, await, settle. inv_walk grows_side.
Qed.

Lemma overReads_grows :
  forall reads buffer acc,
    hoare always (grows base acc) (overReads E body reads buffer acc)
          (fun generated => grows base generated).
Proof.
  induction reads as [|read reads IH]; intros buffer acc; simpl.
  - eapply hoare_bind; [apply inv_grows_always, signalAborted_grows|].
    intros [|]; [now apply hoare_ret|].
    eapply hoare_bind;
      [apply inv_grows_always; inv_walk grows_side|]. intros u1.
    eapply hoare_bind; [apply inv_grows_always, tick_grows|]. intros u2.
    now apply hoare_ret.
  - eapply hoare_bind; [apply inv_grows_always, signalAborted_grows|].
    intros [|]; [now apply hoare_ret|].
    eapply hoare_bind;
      [apply inv_grows_always; inv_walk grows_side|]. intros u3.
    eapply hoare_bind;
      [apply inv_grows_always, silent_grows, settle_grows|].
    intros [value|]; [|now apply hoare_ret].
    eapply hoare_bind; [apply overLines_grows|].
    intros [a|a]; cbn [flowValue]; [apply IH|now apply hoare_ret].
Qed.

(** The text that the scan of SIMPLE receives is what the chunk loop of
    this iteration added to [finalResponseText]. *)
Lemma forAwait_grows g :
  hoare always (grows base EmptyString) (forAwait E body g EmptyString)
        (fun generated => grows base generated).
Proof.
  destruct g as [st|apiKey model msgs sys]; simpl.
  - apply overChunks_grows.
  - eapply hoare_bind;
      [apply inv_grows_always, silent_grows, relayOpen_grows|].
    intros [reads|]; [apply overReads_grows|now apply hoare_ret].
Qed.
End Generated.

Lemma append_empty_r (a : string) : (a ++ EmptyString)%string = a.
Proof. induction a as [|x a IH]; cbn; [reflexivity|now rewrite IH]. Qed.

(** ** SEARCH and DEEP_SEARCH *)

Section Search.
Variable E : env.
Variable input : AgentInput.

(** The progress callback only adds to the trace and lets time pass. *)
Lemma reportProgress_runs :
  forall msgs s,
    exists t added,
      reportProgress E msgs s
      = (Ok tt, set_now t (set_trace (added ++ trace s) s)).
Proof.
  induction msgs as [|msg msgs IH]; intros s; simpl.
  - exists (now s), []. destruct s; reflexivity.
  - unfold bind at 1, tick at 1, modify at 1.
    unfold bind at 1, signalAbortedInCallback at 1, bind at 1, get at 1, ret at 1.
    cbn [now set_now].
    destruct (aborted E (S (now s))).
    + unfold bind at 1, ret at 1.
      destruct (IH (set_now (S (now s)) s)) as (t & added & ->).
      exists t, added. reflexivity.
    + unfold bind at 1, sink at 1, emit at 1, modify at 1.
      match goal with
      | |- context [reportProgress E msgs ?s1] =>
          destruct (IH s1) as (t & added & ->)
      end.
      eexists t, (added ++ [_]). cbn [trace set_trace set_now].
      rewrite <- app_assoc. reflexivity.
Qed.

Lemma synthesisPrompt_shape query context :
  exists before after,
    synthesisPrompt query context
    = (before ++ "SEARCH CONTEXT:" ++ Str.nl ++ context ++ after)%string
    /\ Str.includes after "Cite sources using [1], [2] format" = true.
Proof.
  exists ("USER QUERY: " ++ query ++ Str.nl ++ Str.nl)%string.
  eexists. split.
  - unfold synthesisPrompt. rewrite !append_assoc. reflexivity.
  - vm_compute. reflexivity.
Qed.
(** What the search handler does, in one equation. *)
Lemma searchHandler_runs s :
  exists t added,
    let s1 := set_now t (set_trace
                (added ++ Call (CallResearch (currentPrompt s))
                       :: Sink (Str.nl ++ "Searching sources..." ++ Str.nl)%string
                       :: trace s) s) in
    searchHandler E input s
    = match r_result (deepResearch E (now s) (currentPrompt s) (apiKey input)) with
      | Resolved result =>
          (Ok Continue,
           set_currentAction SIMPLE
             (set_currentPrompt (synthesisPrompt (currentPrompt s) (answer result))
                (set_fallbackSearchContext (answer result)
                   (match sources result with
                    | [] => s1
                    | _ :: _ =>
                        set_metadataPayload
                          (Some (map (toGrounding E) (sources result))) s1
                    end))))
      | Rejected e => (Throw e, s1)
      end.
Proof.
  unfold searchHandler.
  unfold bind at 1, sink at 1, emit at 1, modify at 1.
  unfold bind at 1, get at 1.
  unfold bind at 1, emit at 1, modify at 1.
  cbn [currentPrompt now set_trace trace]. cbv zeta.
  match goal with
  | |- context [bind (reportProgress E ?msgs) ?k ?s0] =>
      destruct (reportProgress_runs msgs s0) as (t & added & Hrp)
  end.
  rewrite (bind_ok _ _ _ _ _ Hrp). cbn [trace set_trace].
  exists (S t), added. cbn zeta.
  unfold settle, bind, tick, modify, ret, throw.
  destruct (r_result _) as [result|e]; [|reflexivity].
  destruct (sources result); reflexivity.
Qed.
End Search.

(** ** The start of the loop *)

Section Start.
Variable E : env.
Variable input : AgentInput.

(** The preparation asks the router about the prompt after the rewrite and
    starts the loop as [startsWith] says. *)
Lemma prepare_spec budget s :
  let p := promptAfterRewrite (promptVar s) in
  let answer := route E (now s) p (user_id input) (apiKey input)
                      (List.length (files input)) in
  let r := prepare E input budget s in
  In (Call (CallRoute p)) (trace (snd r))
  /\ promptVar (snd r) = p
  /\ match fst r with
     | Ok _ => exists d, answer = Resolved d
                         /\ startsWith (videoRewrite (promptVar s))
                              (promptVar s) d (snd r)
     | Throw _ => True
     | OutOfFuel => False
     end.
Proof.
  cbn zeta. unfold prepare, promptAfterRewrite, startsWith.
  unfold sink, await, bind, get, emit, tick, modify, ret, throw.
  cbv beta iota.
  destruct (negb (isGoogleModel (modelVar s)) && _);
    cbn [now trace set_now set_trace set_modelVar set_promptVar fst snd
         promptVar];
    (destruct (videoRewrite (promptVar s));
     cbn [now trace set_now set_trace set_modelVar set_promptVar fst snd
          promptVar]);
    (destruct (route E _ _ _ _ _) as [d|e];
     cbn [fst snd trace set_now set_trace promptVar];
     [|split; [now left|split; [reflexivity|exact I]]]);
    (destruct (getContext E _); cbn;
     (split; [auto|]); (split; [reflexivity|]);
     try exact I; exists d; repeat split).
Qed.

Variable ctx : context.

(** The records of the iterations that the loop adds: none, or first the
    one of the state in which the loop starts. *)
Lemma loop_records :
  forall fuel s,
    exists later,
      iterationsOf (trace (snd (loop E input ctx fuel s)))
      = later ++ iterationsOf (trace s)
      /\ (later = []
          \/ exists later',
               later = later' ++ [Iteration (S (loopCount s)) (currentAction s)
                                            (currentPrompt s)]).
Proof.
  induction fuel as [|fuel IH]; intros s.
  - exists []. split; [reflexivity|now left].
  - destruct (Nat.ltb_spec (loopCount s) MAX_LOOPS) as [Hlt|Hge].
    2:{ rewrite loop_exhausted by exact Hge. exists []. split; [reflexivity|now left]. }
    destruct (aborted E (now s)) eqn:Hab.
    + rewrite loop_aborted by assumption. exists [].
      split; [reflexivity|now left].
    + rewrite loop_iteration by assumption. cbn zeta.
      set (first := Iteration _ _ _). set (s2 := set_trace _ _).
      assert (H2 : iterationsOf (trace s2) = first :: iterationsOf (trace s))
        by reflexivity.
      destruct (steady_dispatch E input ctx s2) as [(_ & Hi3 & _) _].
      destruct (dispatch E input ctx s2) as [[[|result]| e |] s3] eqn:Hdisp;
        cbn [fst snd] in *.
      * rewrite (bind_ok _ _ _ _ _ Hdisp).
        destruct (IH s3) as (later & Hl & _).
        exists (later ++ [first]). split; [|right; now exists later].
        rewrite Hl, Hi3, H2, <- app_assoc. reflexivity.
      * rewrite (bind_ok _ _ _ _ _ Hdisp). cbn [ret snd].
        exists [first]. split; [now rewrite Hi3, H2|right; now exists []].
      * rewrite (bind_throw _ _ _ _ _ Hdisp). cbn [snd].
        exists [first]. split; [now rewrite Hi3, H2|right; now exists []].
      * unfold bind. rewrite Hdisp. cbn [snd].
        exists [first]. split; [now rewrite Hi3, H2|right; now exists []].
Qed.
End Start.

Lemma iterationsOf_events (s : state) :
  iterationsOf (events s) = rev (iterationsOf (trace s)).
Proof. unfold events, iterationsOf. apply filter_rev. Qed.

(** In a routed mode the variable [prompt] ends as the rewrite left it, and
    the first iteration, if the loop starts one, runs the action of the state
    that the preparation left. *)
Lemma routed_first_iteration (E : env) (input : AgentInput) :
  isInstant (thinkingMode input) = false ->
  let r := invoke E input in
  let p := promptAfterRewrite (prompt input) in
  promptVar (snd r) = p
  /\ (iterationsOf (events (snd r)) = []
      \/ exists a rest,
           iterationsOf (events (snd r)) = Iteration 1 a p :: rest
           /\ match videoRewrite (prompt input) with
              | Some _ => a = SEARCH
              | None => exists t d,
                  route E t p (user_id input) (apiKey input)
                        (List.length (files input)) = Resolved d
                  /\ a = action d
              end).
Proof.
  intros Hmode. cbn zeta. unfold invoke, runAutonomousAgent.
  assert (Hrouted :
    let r := (budget <- chooseModel input ;;
              modify (set_finalResponseText EmptyString) ;;
              tryCatch (tryBlock E input budget) (catchBlock E input))
               (initialState input) in
    promptVar (snd r) = promptAfterRewrite (prompt input)
    /\ (iterationsOf (events (snd r)) = []
        \/ exists a rest,
             iterationsOf (events (snd r))
             = Iteration 1 a (promptAfterRewrite (prompt input)) :: rest
             /\ match videoRewrite (prompt input) with
                | Some _ => a = SEARCH
                | None => exists t d,
                    route E t (promptAfterRewrite (prompt input)) (user_id input)
                          (apiKey input) (List.length (files input)) = Resolved d
                    /\ a = action d
                end)).
  2:{ destruct (thinkingMode input); try exact Hrouted. discriminate. }
  cbn zeta.
  destruct (chooseModel_returns input (initialState input))
    as (budget & s1 & Hc & _ & Hi1 & Hp1).
  rewrite (bind_ok _ _ _ _ _ Hc).
  set (s2 := set_finalResponseText EmptyString s1).
  change ((modify (set_finalResponseText EmptyString) ;;
           tryCatch (tryBlock E input budget) (catchBlock E input)) s1)
    with (tryCatch (tryBlock E input budget) (catchBlock E input) s2).
  assert (Hp2 : promptVar s2 = prompt input) by exact Hp1.
  assert (Hi2 : iterationsOf (trace s2) = []) by exact Hi1.
  unfold tryCatch, tryBlock.
  destruct (prepare_spec E input budget s2) as (_ & Hp3 & Hstart).
  destruct (prepare_counts E input budget s2) as [Hi3 _].
  cbn zeta in Hp3, Hstart, Hi3. rewrite Hp2 in Hp3, Hstart. rewrite Hi2 in Hi3.
  rewrite !iterationsOf_events.
  destruct (prepare E input budget s2) as [[ctx| e |] s3] eqn:Hprep;
    cbn [fst snd] in *; [| |contradiction].
  - rewrite (bind_ok _ _ _ _ _ Hprep).
    destruct Hstart as (d & Hd & Hl0 & Hst).
    destruct (loop_records E input ctx (S MAX_LOOPS) s3) as (later & Hl & Hfirst).
    destruct (loop_bounded E input ctx (S MAX_LOOPS) s3 ltac:(lia))
      as [_ (_ & _ & _ & Hp4)].
    rewrite Hi3, app_nil_r in Hl. rewrite Hl0 in Hfirst.
    assert (Hact : currentPrompt s3 = promptAfterRewrite (prompt input)
                   /\ match videoRewrite (prompt input) with
                      | Some _ => currentAction s3 = SEARCH
                      | None => exists t d,
                          route E t (promptAfterRewrite (prompt input))
                                (user_id input) (apiKey input)
                                (List.length (files input)) = Resolved d
                          /\ currentAction s3 = action d
                      end).
    { unfold promptAfterRewrite in *. destruct (videoRewrite (prompt input)).
      - destruct Hst as (Ha & _ & Hcp & _). now split.
      - destruct Hst as (Ha & _ & Hcp & _). split; [exact Hcp|].
        exists (now s2), d. now split. }
    destruct Hact as [Hcp Hact].
    assert (Hgoal : forall s4,
              iterationsOf (trace s4) = later ->
              promptVar s4 = promptVar s3 ->
              promptVar s4 = promptAfterRewrite (prompt input)
              /\ (rev (iterationsOf (trace s4)) = []
                  \/ exists a rest,
                       rev (iterationsOf (trace s4))
                       = Iteration 1 a (promptAfterRewrite (prompt input)) :: rest
                       /\ match videoRewrite (prompt input) with
                          | Some _ => a = SEARCH
                          | None => exists t d,
                              route E t (promptAfterRewrite (prompt input))
                                    (user_id input) (apiKey input)
                                    (List.length (files input)) = Resolved d
                              /\ a = action d
                          end)).
    { intros s4 Hi4 Hp4'. split; [congruence|]. rewrite Hi4.
      destruct Hfirst as [->|(later' & ->)]; [now left|right].
      exists (currentAction s3), (rev later').
      rewrite rev_app_distr, Hcp. cbn. split; [reflexivity|exact Hact]. }
    destruct (loop E input ctx (S MAX_LOOPS) s3) as [[x| e |] s4];
      cbn [fst snd] in *.
    + now apply Hgoal.
    + destruct (catchBlock_returns E input e s4) as (txt & s5 & -> & Hi5 & _ & Hp5).
      cbn [snd]. apply Hgoal; congruence.
    + now apply Hgoal.
  - rewrite (bind_throw _ _ _ _ _ Hprep).
    destruct (catchBlock_returns E input e s3) as (txt & s5 & -> & Hi5 & _ & Hp5).
    cbn [snd]. split; [congruence|]. left. now rewrite Hi5, Hi3.
Qed.

(** ** The scan inside the SIMPLE handler *)

Lemma bind_cases {A B} (m : M A) (f : A -> M B) s o s' :
  bind m f s = (o, s') ->
  (exists a s1, m s = (Ok a, s1) /\ f a s1 = (o, s'))
  \/ (forall b, o <> Ok b).
Proof.
  unfold bind. destruct (m s) as [[a| e |] s1]; intros H.
  - left. now exists a, s1.
  - right. intros b Hb. rewrite Hb in H. discriminate.
  - right. intros b Hb. rewrite Hb in H. discriminate.
Qed.

Section Scan.
Variable E : env.
Variable input : AgentInput.
Variable ctx : context.

(** When SIMPLE continues the loop, the next action and prompt are those
    that the scan of some text gives, with the variable [prompt] as the
    prompt to fall back on. *)
Lemma simpleHandler_scans s :
  let r := simpleHandler E input ctx s in
  match fst r with
  | Ok Continue =>
      exists generated,
        nextDirective generated (promptVar s)
        = Some (currentAction (snd r), currentPrompt (snd r))
  | _ => True
  end.
Proof.
  cbn zeta. destruct (simpleHandler E input ctx s) as [o s'] eqn:H.
  cbn [fst snd].
  assert (Hskip : (forall b, o <> Ok b) ->
                  match o with
                  | Ok Continue =>
                      exists generated,
                        nextDirective generated (promptVar s)
                        = Some (currentAction s', currentPrompt s')
                  | _ => True
                  end).
  { intros Hno. destruct o as [[|]| |]; try exact I. now destruct (Hno Continue). }
  unfold simpleHandler in H.
  apply bind_cases in H. destruct H as [(s0 & s0' & Hget & H)|Hno]; [|exact (Hskip Hno)].
  unfold get in Hget; injection Hget as <- <-. cbv zeta in H.
  apply bind_cases in H. destruct H as [(userParts & s1 & Hm1 & H)|Hno]; [|exact (Hskip Hno)].
  assert (Hp1 : promptVar s1 = promptVar s).
  { assert (Hst : steady anything
                    (match files input with
                     | [] => ret [TextPart (currentPrompt s)]
                     | _ :: _ =>
                         if isNative ctx
                         then encodeFiles (files input) [TextPart (currentPrompt s)]
                         else ret [TextPart (currentPrompt s)]
                     end)).
    { destruct (files input); [|destruct (isNative ctx)];
        try (apply steady_ret; exact I). apply steady_encodeFiles. }
    destruct (Hst s) as [(_ & _ & Hp) _]. rewrite Hm1 in Hp. exact Hp. }
  apply bind_cases in H. destruct H as [(s1' & s1'' & Hget & H)|Hno]; [|exact (Hskip Hno)].
  unfold get in Hget; injection Hget as <- <-.
  apply bind_cases in H. destruct H as [([g uf] & s2 & Hm2 & H)|Hno]; [|exact (Hskip Hno)].
  assert (Hp2 : promptVar s2 = promptVar s1).
  { match type of Hm2 with
    | ?m s1 = _ => assert (Hst : steady anything m)
    end.
    { destruct (isNative ctx).
      - apply steady_seq; [apply steady_retry|]. intros st.
        apply steady_ret. exact I.
      - rewrite tryCatch_ret. apply steady_ret. exact I. }
    destruct (Hst s1) as [(_ & _ & Hp) _]. rewrite Hm2 in Hp. exact Hp. }
  apply bind_cases in H. destruct H as [(generated & s3 & Hm3 & H)|Hno]; [|exact (Hskip Hno)].
  assert (Hp3 : promptVar s3 = promptVar s2).
  { destruct (steady_forAwait E string (simpleChunk E ctx uf)
                (steady_simpleChunk E ctx uf) g EmptyString s2)
      as [(_ & _ & Hp) _].
    rewrite Hm3 in Hp. exact Hp. }
  apply bind_cases in H. destruct H as [(s3' & s3'' & Hget & H)|Hno]; [|exact (Hskip Hno)].
  unfold get in Hget; injection Hget as <- <-.
  rewrite Hp3, Hp2, Hp1 in H.
  destruct (nextDirective generated (promptVar s)) as [[a p]|] eqn:Hnd.
  - assert (Hres : o = Ok Continue /\ currentAction s' = a /\ currentPrompt s' = p).
    { revert H. unfold bind, modify, ret.
      destruct a; intros H; injection H as <- <-; repeat split. }
    destruct Hres as (-> & <- & <-). exists generated. exact Hnd.
  - assert (Hres : exists r, o = Ok (Return r)).
    { revert H. unfold bind, modify, sink, emit, currentTurn, get, ret.
      destruct (_ && _); intros H; injection H as <- _; eexists; reflexivity. }
    destruct Hres as (r & ->). exact I.
Qed.
End Scan.

(** ** Patterns without group *)

Section Groupless.
Variable ci : bool.
Variable R : Type.

Lemma run_groupless :
  forall r, groupless r = true ->
  forall s c (k : string -> Re.captures -> option R) x,
    Re.run ci r s c k = Some x -> exists s', k s' c = Some x.
Proof.
  induction r as [ | a | neg ms ws | | r1 IH1 r2 IH2 | r1 IH1 r2 IH2
                 | greedy r' IH | n r' IH ];
    intros Hg s c k x H; cbn [Re.run groupless] in *.
  - now exists s.
  - destruct s as [|b s']; [discriminate|].
    destruct (Re.chrEq ci a b); [now exists s'|discriminate].
  - destruct s as [|b s']; [discriminate|].
    destruct (Re.inSet ci neg ms ws b); [now exists s'|discriminate].
  - destruct s as [|b s']; [discriminate|].
    destruct (Str.isLineTerminator b); [discriminate|now exists s'].
  - apply andb_prop in Hg. destruct Hg as [Hg1 Hg2].
    apply (IH1 Hg1) in H. destruct H as (s1 & H).
    apply (IH2 Hg2) in H. exact H.
  - apply andb_prop in Hg. destruct Hg as [Hg1 Hg2].
    destruct (Re.run ci r1 s c k) eqn:H1.
    + injection H as <-. apply (IH1 Hg1) in H1. exact H1.
    + apply (IH2 Hg2) in H. exact H.
  - revert H. generalize (S (String.length s)). intros fuel. revert s.
    induction fuel as [|fuel IHf]; intros s H; cbn [Re.starLoop] in H.
    + now exists s.
    + destruct greedy.
      * destruct (Re.run ci r' s c _) eqn:Hmore.
        -- injection H as <-. apply (IH Hg) in Hmore.
           destruct Hmore as (s1 & Hmore).
           destruct (String.length s1 <? String.length s)%nat; [|discriminate].
           apply IHf in Hmore. exact Hmore.
        -- now exists s.
      * destruct (k s c) eqn:Hk.
        -- injection H as <-. now exists s.
        -- apply (IH Hg) in H. destruct H as (s1 & H).
           destruct (String.length s1 <? String.length s)%nat; [|discriminate].
           apply IHf in H. exact H.
  - discriminate.
Qed.
End Groupless.

Lemma exec_groupless ci r :
  groupless r = true ->
  forall s m, Re.exec ci r s = Some m -> Re.group 1 m = None.
Proof.
  intros Hg. induction s as [|b s IH]; intros m H; simpl in H.
  - destruct (Re.matchHere ci r EmptyString) eqn:Hm; [|discriminate].
    injection H as <-. unfold Re.matchHere in Hm.
    apply (run_groupless ci _ r Hg) in Hm. destruct Hm as (s' & Hm).
    injection Hm as <-. reflexivity.
  - destruct (Re.matchHere ci r (String b s)) eqn:Hm.
    + injection H as <-. unfold Re.matchHere in Hm.
      apply (run_groupless ci _ r Hg) in Hm. destruct Hm as (s' & Hm).
      injection Hm as <-. reflexivity.
    + apply IH. exact H.
Qed.

(** ** Cancellation *)

Lemma quiet_unseen evs :
  existsb isAbortSeen evs = false ->
  quietAfterAbort evs = true /\ firstAbort evs = None.
Proof.
  induction evs as [|ev evs IH]; [now split|].
  cbn [existsb]. intros H. apply orb_false_iff in H. destruct H as [Hev H].
  destruct ev; try discriminate; cbn; now apply IH.
Qed.

Lemma quiet_snoc evs ev :
  quietAfterAbort evs = true ->
  isLoud ev = false \/ existsb isAbortSeen evs = false ->
  quietAfterAbort (evs ++ [ev]) = true.
Proof.
  induction evs as [|e evs IH]; intros Hq Hev.
  - destruct ev; reflexivity.
  - destruct e; cbn in *;
      try (apply IH; [exact Hq|destruct Hev as [H|H]; [now left|now right]]).
    destruct Hev as [H|H]; [|discriminate].
    rewrite forallb_app, Hq. cbn. now rewrite H.
Qed.

Lemma firstAbort_snoc evs ev :
  firstAbort (evs ++ [ev])
  = match firstAbort evs with
    | Some soFar => Some soFar
    | None => firstAbort [ev]
    end.
Proof.
  induction evs as [|e evs IH]; [reflexivity|].
  destruct e; cbn [app firstAbort]; exact IH || reflexivity.
Qed.

Lemma firstAbort_seen evs :
  existsb isAbortSeen evs = true -> exists soFar, firstAbort evs = Some soFar.
Proof.
  induction evs as [|e evs IH]; [discriminate|].
  destruct e; cbn; try exact IH. intros _. now eexists.
Qed.

(** The updates of the state that no observation of the abort follows. *)
Ltac unseen_side :=
  let s := fresh "s" in
  let Hs := fresh "Hs" in
  intros s Hs; unfold unseen, seen, events in *;
  cbn [trace now rev set_now set_trace set_promptVar set_modelVar
       set_finalResponseText set_metadataPayload set_fallbackSearchContext
       set_currentAction set_currentPrompt set_loopCount
       set_routingParameters];
  first [ exact Hs
        | rewrite existsb_app, Hs; reflexivity ].

Section Unseen.
Variable E : env.

Lemma unseen_await {A} (c : call) (answer : nat -> settled A) :
  inv unseen (await c answer).
Proof. unfold await. inv_walk unseen_side. Qed.

Lemma unseen_settle {A} (p : settled A) : inv unseen (settle p).
Proof. unfold settle. inv_walk unseen_side. Qed.

Lemma unseen_inCallback : inv unseen (signalAbortedInCallback E).
Proof. unfold signalAbortedInCallback. inv_walk unseen_side. Qed.

Hint Resolve unseen_await unseen_settle unseen_inCallback : inv.

Lemma unseen_attemptsFrom params retries :
  forall fuel attempt,
    inv unseen (attemptsFrom E fuel params retries (Some sink) attempt).
Proof.
  induction fuel as [|fuel IH]; intros attempt; simpl.
  - intros s Hs. exact I.
  - inv_walk unseen_side.
Qed.

Lemma unseen_retry params :
  inv unseen (generateContentStreamWithRetry E params 3 onRetry).
Proof.
  unfold generateContentStreamWithRetry, onRetry.
  apply inv_bind; [inv_walk unseen_side|]. intros u.
  apply unseen_attemptsFrom.
Qed.

Lemma unseen_reportProgress : forall msgs, inv unseen (reportProgress E msgs).
Proof. induction msgs as [|msg msgs IH]; simpl; inv_walk unseen_side. Qed.

Lemma unseen_encodeFiles :
  forall fs userParts, inv unseen (encodeFiles fs userParts).
Proof.
  induction fs as [|f fs IH]; intros userParts; simpl; inv_walk unseen_side.
Qed.

Lemma unseen_silent {B} (m : M B) : inv unseen m -> inv unseen (silentOnAbort m).
Proof. intros H. unfold silentOnAbort. inv_walk unseen_side. Qed.

Lemma unseen_relayOpen apiKey model msgs sys :
  inv unseen (relayOpen E apiKey model msgs sys).
Proof. unfold relayOpen, relayFailure. inv_walk unseen_side. Qed.

Hint Resolve unseen_retry unseen_reportProgress unseen_encodeFiles
  unseen_relayOpen : inv.

Variable input : AgentInput.

Lemma unseen_currentTurn : inv unseen (currentTurn input).
Proof. unfold currentTurn. inv_walk unseen_side. Qed.

Hint Resolve unseen_currentTurn : inv.

Lemma unseen_searchHandler : inv unseen (searchHandler E input).
Proof. unfold searchHandler. inv_walk unseen_side. Qed.

Lemma unseen_imageHandler : inv unseen (imageHandler E input).
Proof. unfold imageHandler. inv_walk unseen_side. Qed.

Lemma unseen_canvasHandler : inv unseen (canvasHandler E input).
Proof. unfold canvasHandler. inv_walk unseen_side. Qed.

Lemma unseen_projectHandler : inv unseen (projectHandler E input).
Proof. unfold projectHandler. inv_walk unseen_side. Qed.

Lemma unseen_prepare budget : inv unseen (prepare E input budget).
Proof. unfold prepare. inv_walk unseen_side. Qed.

Lemma unseen_chooseModel : inv unseen (chooseModel input).
Proof. unfold chooseModel. inv_walk unseen_side. Qed.

Lemma unseen_catchBlock error : inv unseen (catchBlock E input error).
Proof. unfold catchBlock. inv_walk unseen_side. Qed.
End Unseen.

Section Stopping.
Variable E : env.
Hypothesis signal_monotone : monotone (aborted E).

Lemma unseen_stopping s : unseen s -> stopping E s.
Proof.
  intros H. destruct (quiet_unseen (events s) H) as [Hq Hf].
  unfold stopping. rewrite Hq, Hf. repeat split.
  unfold unseen in H. intros Hs. rewrite Hs in H. discriminate.
Qed.

(** An update that changes neither the trace nor the two texts and does
    not turn back the clock. *)
Lemma stopping_modify (f : state -> state) :
  (forall s, trace (f s) = trace s /\ now s <= now (f s)
             /\ finalResponseText (f s) = finalResponseText s
             /\ fallbackSearchContext (f s) = fallbackSearchContext s) ->
  inv (stopping E) (modify f).
Proof.
  intros Hf. apply inv_modify. intros s (Hq & Hab & Hk).
  destruct (Hf s) as (Ht & Hn & Hft & Hfsc).
  unfold stopping, seen, stoppedText, events in *. rewrite Ht, Hft, Hfsc.
  split; [exact Hq|]. split; [|exact Hk].
  intros Hs. apply (signal_monotone (now s)); auto.
Qed.

Lemma stopping_tick : inv (stopping E) tick.
Proof. apply stopping_modify. intros s. cbn. repeat split. lia. Qed.

(** An event that is neither loud nor an observation. *)
Lemma stopping_emit ev :
  isLoud ev = false -> isAbortSeen ev = false -> inv (stopping E) (emit ev).
Proof.
  intros Hl Ha. apply inv_modify. intros s (Hq & Hab & Hk).
  unfold stopping, seen, stoppedText, events in *.
  cbn [trace now rev set_trace finalResponseText fallbackSearchContext].
  split; [apply quiet_snoc; [exact Hq|now left]|]. split.
  - rewrite existsb_app. cbn. rewrite Ha, !orb_false_r. exact Hab.
  - rewrite firstAbort_snoc. destruct (firstAbort (rev (trace s))); [exact Hk|].
    destruct ev; try exact I. discriminate Ha.
Qed.

Lemma stopping_sink x : inv (stopping E) (sink x).
Proof. now apply stopping_emit. Qed.

(** A check of the signal: it finds the abort, or no abort has been
    observed so far. *)
Lemma stopping_check :
  hoare unseen (stopping E) (signalAborted E)
        (fun b s => if b then stopping E s /\ seen s = true else unseen s).
Proof.
  intros s (Hq & Hab & Hk).
  unfold signalAborted, bind, get, emit, modify, ret.
  destruct (aborted E (now s)) eqn:Hnow; cbn [post fst snd].
  - unfold stopping, seen, stoppedText, events in *.
    cbn [trace now rev set_trace finalResponseText fallbackSearchContext].
    split; [split; [|split]|].
    + apply quiet_snoc; [exact Hq|now left].
    + intros _. exact Hnow.
    + rewrite firstAbort_snoc.
      destruct (firstAbort (rev (trace s))); [exact Hk|]. now left.
    + rewrite existsb_app. cbn. apply orb_true_r.
  - unfold unseen. destruct (seen s); [|reflexivity].
    specialize (Hab eq_refl). congruence.
Qed.

Variable input : AgentInput.

Lemma stopping_returnCurrent :
  hoare unseen (stopping E) (r <- currentTurn input ;; ret (Return r))
        (fun r s => stopping E s /\ stoppedStep input r s).
Proof. intros s Hs. cbn. now split. Qed.

(** The end of a SIMPLE pass without directive: the search context takes
    the place of a blank text. *)
Lemma stopping_substitute :
  hoare unseen (stopping E)
    (s <- get ;;
     (if negb (Str.truthy (Str.trim (finalResponseText s)))
         && Str.truthy (fallbackSearchContext s)
      then modify (set_finalResponseText (fallbackSearchContext s)) ;;
           sink (fallbackSearchContext s)
      else ret tt) ;;
     r <- currentTurn input ;;
     ret (Return r))
    (fun r s => stopping E s /\ stoppedStep input r s).
Proof.
  intros s (Hq & Hab & Hk).
  unfold currentTurn, sink, emit, bind, get, modify, ret.
  destruct (negb (Str.truthy (Str.trim (finalResponseText s)))
            && Str.truthy (fallbackSearchContext s)) eqn:Hsub;
    cbn [post fst snd]; [|split; [now repeat split|reflexivity]].
  apply andb_prop in Hsub. destruct Hsub as [Hblank Hctx].
  apply negb_true_iff in Hblank.
  split; [|reflexivity].
  unfold stopping, seen, stoppedText, events in *.
  cbn [trace now rev set_trace set_finalResponseText finalResponseText
       fallbackSearchContext].
  split; [apply quiet_snoc; [exact Hq|now left]|]. split.
  - rewrite existsb_app. cbn. rewrite !orb_false_r. exact Hab.
  - rewrite firstAbort_snoc. destruct (firstAbort (rev (trace s))); [|exact I].
    right. destruct Hk as [<-|(Hb & _ & _)]; repeat split; assumption.
Qed.
End Stopping.

(** One step of a walk where no observation has happened: the first
    computation of a [bind] keeps [unseen]. *)
Ltac unseen_bind :=
  eapply hoare_bind with (V := fun _ => unseen);
  [ eapply hoare_weaken with (P' := unseen) (V' := fun _ => unseen);
    [ match goal with
      | |- hoare _ _ ?m _ => change (inv unseen m)
      end;
      solve [ auto with inv | inv_walk unseen_side ]
    | intros ? H; exact H
    | intros ? ? H; exact H ]
  | ].

Ltac unseen_step := unseen_bind; let v := fresh "v" in intros v.

Section StoppingLoops.
Variable E : env.
Hypothesis signal_monotone : monotone (aborted E).

Hint Resolve unseen_await unseen_settle unseen_inCallback unseen_retry
  unseen_reportProgress unseen_encodeFiles unseen_relayOpen
  unseen_currentTurn unseen_silent : inv.

Lemma check_from_unseen :
  hoare unseen unseen (signalAborted E)
        (fun b s => if b then stopping E s /\ seen s = true else unseen s).
Proof.
  eapply hoare_weaken; [apply (stopping_check E)| |auto].
  apply unseen_stopping.
Qed.

Lemma appendChunk_stops acc c :
  hoare unseen unseen (appendChunk E acc c) (bodyStops E).
Proof.
  unfold appendChunk.
  eapply hoare_bind; [apply check_from_unseen|]. intros [|].
  - apply hoare_ret. now intros s [Hs _].
  - unseen_step. now apply hoare_ret.
Qed.

Lemma simpleChunk_stops ctx uf acc c :
  hoare unseen unseen (simpleChunk E ctx uf acc c) (bodyStops E).
Proof.
  unfold simpleChunk.
  eapply hoare_bind; [apply check_from_unseen|]. intros [|].
  - apply hoare_ret. now intros s [Hs _].
  - destruct (Str.truthy (c_text c)); [|now apply hoare_ret].
    unseen_step. unseen_step. unseen_step. now apply hoare_ret.
Qed.

Section Bodies.
Variable A : Type.
Variable body : A -> Chunk -> M (flow A).
Hypothesis body_stops :
  forall acc c, hoare unseen unseen (body acc c) (bodyStops E).

Lemma overChunks_stops failure :
  forall cs acc,
    hoare unseen unseen (overChunks body cs failure acc)
          (fun _ => stopping E).
Proof.
  induction cs as [|c cs IH]; intros acc; simpl.
  - unseen_step. destruct failure; [now apply hoare_throw|].
    apply hoare_ret. apply unseen_stopping.
  - unseen_step. eapply hoare_bind; [apply body_stops|].
    intros [a|a]; cbn [bodyStops]; [apply IH|].
    intros s Hs. apply (stopping_tick E signal_monotone s Hs).
Qed.

Lemma overLines_stops :
  forall lines acc,
    hoare unseen unseen (overLines E body lines acc) (bodyStops E).
Proof.
  induction lines as [|line lines IH]; intros acc; simpl.
  - now apply hoare_ret.
  - destruct (_ && _); [|apply IH].
    destruct (sseContent E _) as [content|]; [|apply IH].
    destruct (Str.truthy content); [|apply IH].
    unseen_step. eapply hoare_bind; [apply body_stops|].
    intros [a|a]; cbn [bodyStops]; [apply IH|].
    intros s Hs. apply (stopping_tick E signal_monotone s Hs).
Qed.

Lemma overReads_stops :
  forall reads buffer acc,
    hoare unseen unseen (overReads E body reads buffer acc)
          (fun _ => stopping E).
Proof.
  induction reads as [|read reads IH]; intros buffer acc; simpl.
  - eapply hoare_bind; [apply check_from_unseen|]. intros [|].
    + apply hoare_ret. now intros s [Hs _].
    + unseen_step. unseen_step. apply hoare_ret. apply unseen_stopping.
  - eapply hoare_bind; [apply check_from_unseen|]. intros [|].
    + apply hoare_ret. now intros s [Hs _].
    + unseen_step. unseen_bind.
      intros [value|]; [|apply hoare_ret; apply unseen_stopping].
      eapply hoare_bind; [apply overLines_stops|].
      intros [a|a]; cbn [bodyStops]; [apply IH|now apply hoare_ret].
Qed.

Lemma forAwait_stops g acc :
  hoare unseen unseen (forAwait E body g acc) (fun _ => stopping E).
Proof.
  destruct g as [st|apiKey model msgs sys]; simpl.
  - apply overChunks_stops.
  - unseen_bind.
    intros [reads|]; [apply overReads_stops|].
    apply hoare_ret. apply unseen_stopping.
Qed.
End Bodies.
End StoppingLoops.

Section StoppingHandlers.
Variable E : env.
Hypothesis signal_monotone : monotone (aborted E).
Variable input : AgentInput.
Variable ctx : context.

Hint Resolve unseen_await unseen_settle unseen_inCallback unseen_retry
  unseen_reportProgress unseen_encodeFiles unseen_relayOpen
  unseen_currentTurn unseen_silent : inv.

Lemma unseen_handlerStops r s : unseen s -> handlerStops E input r s.
Proof.
  intros H. split; [now apply unseen_stopping|].
  unfold unseen in H. intros Hs. rewrite Hs in H. discriminate.
Qed.

(** A handler without check of the signal. *)
Lemma lift_unseen (m : M step) :
  inv unseen m -> hoare unseen unseen m (handlerStops E input).
Proof.
  intros H. eapply hoare_weaken; [exact H|auto|].
  intros r s. apply unseen_handlerStops.
Qed.

Lemma returnCurrent_stops :
  hoare unseen (stopping E) (r <- currentTurn input ;; ret (Return r))
        (handlerStops E input).
Proof. intros s Hs. cbn. split; [exact Hs|reflexivity]. Qed.

Lemma thinkHandler_stops :
  hoare unseen unseen (thinkHandler E input ctx) (handlerStops E input).
Proof.
  unfold thinkHandler. cbv zeta.
  unseen_step. unseen_step. unseen_step. unseen_step. unseen_step.
  unseen_step.
  eapply hoare_bind;
    [apply (forAwait_stops E signal_monotone unit (appendChunk E)
              (appendChunk_stops E))|].
  intros u. apply returnCurrent_stops.
Qed.

Lemma studyHandler_stops :
  hoare unseen unseen (studyHandler E input) (handlerStops E input).
Proof.
  unfold studyHandler. unseen_step.
  destruct (negb (isGoogleModel (modelVar v))).
  - unseen_step. apply hoare_ret. intros s. apply unseen_handlerStops.
  - unseen_step. unseen_step.
    eapply hoare_bind;
      [apply (forAwait_stops E signal_monotone unit (appendChunk E)
              (appendChunk_stops E))|].
    intros u. apply returnCurrent_stops.
Qed.

(** An update of the action, the prompt or the parameters. *)
Lemma stopping_same s s' :
  trace s' = trace s -> now s' = now s ->
  finalResponseText s' = finalResponseText s ->
  fallbackSearchContext s' = fallbackSearchContext s ->
  stopping E s -> stopping E s'.
Proof.
  intros Ht Hn Hft Hfsc. unfold stopping, seen, stoppedText, events.
  now rewrite Ht, Hn, Hft, Hfsc.
Qed.

(** The end of the SIMPLE handler, after the chunk loop. *)
Lemma simpleTail_stops generated :
  hoare unseen (stopping E)
    (s <- get ;;
     match nextDirective generated (promptVar s) with
     | Some (nextAction, nextPrompt) =>
         modify (set_currentAction nextAction) ;;
         modify (set_currentPrompt nextPrompt) ;;
         match nextAction with
         | IMAGE => modify (set_routingParameters [("prompt"%string, nextPrompt)])
         | _ => ret tt
         end ;;
         ret Continue
     | None =>
         (if negb (Str.truthy (Str.trim (finalResponseText s)))
             && Str.truthy (fallbackSearchContext s)
          then
            modify (set_finalResponseText (fallbackSearchContext s)) ;;
            sink (fallbackSearchContext s)
          else ret tt) ;;
         r <- currentTurn input ;;
         ret (Return r)
     end)
    (handlerStops E input).
Proof.
  intros s Hs.
  match goal with
  | |- post _ _ (fst (?m s)) _ => destruct (m s) as [o s'] eqn:H
  end.
  cbn [fst snd]. unfold bind at 1, get at 1 in H.
  destruct (nextDirective generated (promptVar s)) as [[a p]|].
  - assert (Hres : forall s', trace s' = trace s -> now s' = now s ->
              finalResponseText s' = finalResponseText s ->
              fallbackSearchContext s' = fallbackSearchContext s ->
              post unseen (handlerStops E input) (Ok Continue) s').
    { intros s1 Ht Hn Hft Hfsc. split; [|intros _; exact I].
      now apply (stopping_same s s1). }
    unfold bind, modify, ret in H.
    destruct a; injection H as <- <-; apply Hres; reflexivity.
  - assert (Hsub := stopping_substitute E input s Hs).
    assert (Heq : (s0 <- get ;;
                   (if negb (Str.truthy (Str.trim (finalResponseText s0)))
                       && Str.truthy (fallbackSearchContext s0)
                    then modify (set_finalResponseText (fallbackSearchContext s0)) ;;
                         sink (fallbackSearchContext s0)
                    else ret tt) ;;
                   r <- currentTurn input ;;
                   ret (Return r)) s = (o, s')) by exact H.
    rewrite Heq in Hsub. cbn [fst snd] in Hsub.
    destruct o as [r| e |]; cbn [post] in *; [|now apply Hsub|exact I].
    destruct Hsub as [Hst Hr]. split; [exact Hst|intros _; exact Hr].
Qed.

Lemma simpleHandler_stops :
  hoare unseen unseen (simpleHandler E input ctx) (handlerStops E input).
Proof.
  unfold simpleHandler. cbv zeta.
  unseen_step. unseen_step. unseen_step. unseen_bind. intros [g uf].
  eapply hoare_bind;
    [apply (forAwait_stops E signal_monotone string (simpleChunk E ctx uf)
              (simpleChunk_stops E ctx uf))|].
  intros generated. apply simpleTail_stops.
Qed.

Lemma dispatch_stops :
  hoare unseen unseen (dispatch E input ctx) (handlerStops E input).
Proof.
  unfold dispatch. unseen_step.
  destruct (currentAction v);
    first [ apply simpleHandler_stops
          | apply thinkHandler_stops
          | apply studyHandler_stops
          | apply lift_unseen;
            first [ apply unseen_searchHandler | apply unseen_imageHandler
                  | apply unseen_canvasHandler | apply unseen_projectHandler ] ].
Qed.

Lemma currentTurn_stops :
  hoare unseen (stopping E) (currentTurn input) (loopStops E input).
Proof. intros s Hs. split; [exact Hs|reflexivity]. Qed.

Lemma loop_stops :
  forall fuel,
    hoare unseen (stopping E) (loop E input ctx fuel) (loopStops E input).
Proof.
  induction fuel as [|fuel IH]; [intros s Hs; exact I|].
  rewrite loop_unfold.
  eapply hoare_bind; [apply hoare_get|]. intros s0.
  destruct (loopCount s0 <? MAX_LOOPS)%nat.
  - eapply hoare_bind.
    { eapply hoare_pre; [apply (stopping_check E)|]. now intros s [_ Hs]. }
    intros [|].
    + eapply hoare_pre; [apply currentTurn_stops|]. now intros s [Hs _].
    + unseen_step. unseen_step. unseen_step.
      eapply hoare_bind; [apply dispatch_stops|].
      intros [|result].
      * eapply hoare_pre; [apply IH|]. now intros s [Hs _].
      * apply hoare_ret. intros s [Hs Hr]. split; [exact Hs|exact Hr].
  - eapply hoare_pre; [apply currentTurn_stops|]. now intros s [_ Hs].
Qed.

End StoppingHandlers.

Lemma tryBlock_stops (E : env) (input : AgentInput) (budget : nat) :
  monotone (aborted E) ->
  hoare unseen unseen (tryBlock E input budget) (loopStops E input).
Proof.
  intros Hmono.
  unfold tryBlock. eapply hoare_bind; [apply (unseen_prepare E input budget)|].
  intros c. eapply hoare_pre; [apply (loop_stops E Hmono)|apply unseen_stopping].
Qed.

Lemma monotone_from (n : nat) : monotone (fun t => (n <=? t)%nat).
Proof.
  intros t t' Hle H. apply Nat.leb_le in H. apply Nat.leb_le. lia.
Qed.

Lemma seen_firstAbort (s : state) (soFar : string) :
  firstAbort (events s) = Some soFar -> seen s = true.
Proof.
  intros Hf. unfold seen.
  destruct (existsb isAbortSeen (events s)) eqn:Hex; [reflexivity|].
  destruct (quiet_unseen _ Hex) as [_ Hnone]. congruence.
Qed.

Lemma guarded_stops (E : env) (input : AgentInput) (budget : nat) (s : state) :
  monotone (aborted E) ->
  unseen s ->
  let r := tryCatch (tryBlock E input budget) (catchBlock E input) s in
  fst r <> OutOfFuel ->
  quietAfterAbort (events (snd r)) = true
  /\ match firstAbort (events (snd r)) with
     | Some soFar =>
         fst r = Ok (single (mkTurn input (finalResponseText (snd r)) None
                               (metadataPayload (snd r))))
         /\ stoppedText soFar (snd r)
         /\ tryBlock E input budget s = r
     | None => True
     end.
Proof.
  intros Hmono Hs. cbn zeta.
  assert (Htry := tryBlock_stops E input budget Hmono s Hs).
  unfold tryCatch.
  destruct (tryBlock E input budget s) as [[x| e |] s3] eqn:Heq;
    cbn [post fst snd] in Htry |- *; intros Hfuel.
  - destruct Htry as [(Hq & Hab & Hk) Hx]. split; [exact Hq|].
    destruct (firstAbort (events s3)) as [soFar|] eqn:Hf; [|exact I].
    split; [|split; [exact Hk|reflexivity]].
    rewrite (Hx (seen_firstAbort _ _ Hf)). reflexivity.
  - assert (Hc3 := unseen_catchBlock E input e s3 Htry).
    destruct (catchBlock_returns E input e s3) as (txt & s4 & Hcb & _).
    rewrite Hcb in Hc3 |- *. cbn [post fst snd] in Hc3 |- *.
    destruct (quiet_unseen _ Hc3) as [Hq Hn]. rewrite Hq, Hn. split; [reflexivity|exact I].
  - contradiction Hfuel. reflexivity.
Qed.

(** * The rest of the orchestrator *)

(** ** Blank texts *)

Lemma trimEnd_keeps (c : ascii) (t : string) :
  Str.isSpace c = false -> Str.trimEnd (String c t) <> EmptyString.
Proof.
  intros Hc. cbn [Str.trimEnd]. destruct (Str.trimEnd t); [rewrite Hc|]; discriminate.
Qed.

Lemma trim_empty_allSpaces (s : string) :
  Str.trim s = EmptyString -> allSpaces s = true.
Proof.
  unfold Str.trim. induction s as [|c s IH]; [reflexivity|].
  cbn [Str.trimStart allSpaces]. destruct (Str.isSpace c) eqn:Hc.
  - intros H. now rewrite IH.
  - intros H. now apply trimEnd_keeps in H.
Qed.

Lemma includes_allSpaces (s p : string) (c : ascii) :
  allSpaces s = true -> Str.includes s (String c p) = true -> Str.isSpace c = true.
Proof.
  induction s as [|a s IH]; cbn [allSpaces Str.includes Str.startsWith].
  - discriminate.
  - intros Hs H. apply andb_prop in Hs. destruct Hs as [Ha Hs].
    apply orb_prop in H. destruct H as [H|H]; [|now apply IH].
    apply andb_prop in H. destruct H as [H _].
    apply Ascii.eqb_eq in H. now subst a.
Qed.

Lemma supportsThinking_nonBlank (m : string) :
  supportsThinking m = true -> nonBlank m = true.
Proof.
  unfold supportsThinking, nonBlank. intros H.
  destruct (String.eqb (Str.trim m) EmptyString) eqn:Ht; [|reflexivity].
  apply String.eqb_eq, trim_empty_allSpaces in Ht.
  apply orb_prop in H.
  destruct H as [H|H]; apply (includes_allSpaces _ _ _ Ht) in H; discriminate H.
Qed.

(** X1.  The choice of the model and of the budget (lines 197-226). *)
Theorem model_choice (input : AgentInput) (s : state) :
  let r := chooseModel input s in
  let blank := negb (Str.truthy (modelVar s)) || negb (nonBlank (modelVar s)) in
  fst r = Ok (budgetOf (thinkingMode input))
  /\ nonBlank (modelVar (snd r)) = true
  /\ match thinkingMode input with
     | Think => modelVar (snd r) = "gemini-2.5-flash"%string
     | Deep =>
         supportsThinking (modelVar (snd r)) = true
         /\ let preferred := match profile input with
                             | Some p => preferred_deep_model p
                             | None => EmptyString
                             end in
            modelVar (snd r)
            = (if Str.truthy preferred
               then if supportsThinking preferred then preferred
                    else "gemini-2.5-flash"
               else "gemini-3-pro-preview")%string
     | _ =>
         modelVar (snd r)
         = (if blank then "gemini-2.5-flash" else modelVar s)%string
     end.
Proof.
  cbn zeta. unfold chooseModel, bind, get, modify, ret, sink, emit.
  assert (Hflash : nonBlank "gemini-2.5-flash" = true) by reflexivity.
  assert (Hpro : supportsThinking "gemini-3-pro-preview" = true) by reflexivity.
  assert (H8 : (0 <? 8192)%nat = true) by reflexivity.
  assert (H2 : (0 <? 2048)%nat = true) by reflexivity.
  assert (Hblank : negb (nonBlank (modelVar s))
                   = String.eqb (Str.trim (modelVar s)) EmptyString)
    by (unfold nonBlank; apply negb_involutive).
  rewrite Hblank.
  set (preferred := match profile input with
                    | Some p => preferred_deep_model p
                    | None => EmptyString
                    end).
  assert (Hkeep : negb (Str.truthy (modelVar s))
                  || String.eqb (Str.trim (modelVar s)) EmptyString = false ->
                  nonBlank (modelVar s) = true).
  { intros H. apply orb_false_elim in H. unfold nonBlank. now rewrite (proj2 H). }
  destruct (thinkingMode input); cbn [budgetOf].
  - (* fast *)
    destruct (negb (Str.truthy (modelVar s))
              || String.eqb (Str.trim (modelVar s)) EmptyString) eqn:Hb;
      cbn; (split; [reflexivity|]); split; auto.
  - (* think *)
    rewrite H2.
    destruct (negb (Str.truthy (modelVar s))
              || String.eqb (Str.trim (modelVar s)) EmptyString);
      cbn; now repeat split.
  - (* deep *)
    rewrite H8.
    destruct (negb (Str.truthy (modelVar s))
              || String.eqb (Str.trim (modelVar s)) EmptyString);
      cbn [fst snd modelVar set_modelVar set_trace andb negb];
      (destruct (Str.truthy preferred) eqn:Hp;
       [ rewrite <- negb_orb; fold (supportsThinking preferred);
         destruct (supportsThinking preferred) eqn:Hs;
         cbn [fst snd modelVar set_modelVar set_trace andb negb modify];
         (split; [reflexivity|]);
         [ split; [now apply supportsThinking_nonBlank|now split]
         | split; [exact Hflash|now split] ]
       | cbn [Str.includes Str.startsWith Ascii.eqb Bool.eqb andb orb negb];
         cbn [fst snd modelVar set_modelVar set_trace];
         split; [reflexivity|];
         split; [now apply supportsThinking_nonBlank|now split] ]).
  - (* instant *)
    destruct (negb (Str.truthy (modelVar s))
              || String.eqb (Str.trim (modelVar s)) EmptyString) eqn:Hb;
      cbn; (split; [reflexivity|]); split; auto.
Qed.

(** ** The relay adapter *)

Lemma orElse_empty (a : string) : Str.orElse a EmptyString = a.
Proof. now destruct a. Qed.

Lemma split_not_empty (sep : ascii) (s : string) : Str.split sep s <> [].
Proof.
  induction s as [|c s IH]; cbn [Str.split]; [discriminate|].
  destruct (Ascii.eqb c sep); [discriminate|].
  destruct (Str.split sep s); discriminate.
Qed.

Lemma joined_split (s : string) :
  (joinLines (removelast (Str.split (ascii_of_nat 10) s))
   ++ last (Str.split (ascii_of_nat 10) s) EmptyString)%string = s.
Proof.
  induction s as [|c s IH]; [reflexivity|].
  cbn [Str.split].
  assert (Hne := split_not_empty (ascii_of_nat 10) s).
  destruct (Ascii.eqb c (ascii_of_nat 10)) eqn:Hc.
  - apply Ascii.eqb_eq in Hc. subst c.
    destruct (Str.split (ascii_of_nat 10) s) as [|x xs] eqn:Hs; [contradiction|].
    change (removelast (EmptyString :: x :: xs))
      with (EmptyString :: removelast (x :: xs)).
    change (last (EmptyString :: x :: xs) EmptyString)
      with (last (x :: xs) EmptyString).
    cbn [joinLines]. unfold Str.nl, Str.chr. cbn [String.append].
    now rewrite IH.
  - destruct (Str.split (ascii_of_nat 10) s) as [|x xs] eqn:Hs; [contradiction|].
    destruct xs as [|y ys].
    + cbn in *. now rewrite IH.
    + change (removelast (String c x :: y :: ys))
        with (String c x :: removelast (y :: ys)).
      change (last (String c x :: y :: ys) EmptyString)
        with (last (y :: ys) EmptyString).
      change (removelast (x :: y :: ys)) with (x :: removelast (y :: ys)) in IH.
      change (last (x :: y :: ys) EmptyString)
        with (last (y :: ys) EmptyString) in IH.
      cbn [joinLines String.append] in *. now rewrite IH.
Qed.

Lemma split_lines_have_no_feed (s : string) :
  forallb (fun line => negb (Str.includes line Str.nl))
          (Str.split (ascii_of_nat 10) s) = true.
Proof.
  induction s as [|c s IH]; [reflexivity|].
  cbn [Str.split].
  destruct (Ascii.eqb c (ascii_of_nat 10)) eqn:Hc.
  - cbn [forallb]. now rewrite IH.
  - assert (Hne := split_not_empty (ascii_of_nat 10) s).
    destruct (Str.split (ascii_of_nat 10) s) as [|x xs]; [contradiction|].
    cbn [forallb] in *. apply andb_prop in IH. destruct IH as [Hx Hxs].
    rewrite Hxs, andb_true_r.
    unfold Str.nl, Str.chr in *. cbn [Str.includes Str.startsWith].
    rewrite Ascii.eqb_sym, Hc. cbn [andb orb]. exact Hx.
Qed.

(** X2.  The line buffer of the relay reader (lines 77-79): the complete lines,
    each with the line feed that ended it, followed by the rest that is kept
    for the next read, are the buffer followed by the text just read; no
    complete line and no rest holds a line feed. *)
Theorem line_buffer_loses_nothing (buffer value : string) :
  let lines := Str.split (ascii_of_nat 10) (buffer ++ value) in
  (joinLines (removelast lines)
   ++ Str.orElse (last lines EmptyString) EmptyString)%string
  = (buffer ++ value)%string
  /\ forallb (fun line => negb (Str.includes line Str.nl)) lines = true.
Proof.
  cbn zeta. rewrite orElse_empty. split.
  - apply joined_split.
  - apply split_lines_have_no_feed.
Qed.

(** X3.  The lines of the body that yield nothing (lines 81-89) are skipped
    without running the body of the loop and without a suspension: comments
    and blank lines, the end marker, lines that do not parse and lines
    without content. *)
Theorem silent_lines_are_skipped (E : env) (A : Type)
    (body : A -> Chunk -> M (flow A)) (lines : list string) (acc : A)
    (s : state) :
  forallb (fun line => match yielded E line with
                       | Some _ => false
                       | None => true
                       end) lines = true ->
  overLines E body lines acc s = (Ok (Next acc), s).
Proof.
  induction lines as [|line lines IH]; [reflexivity|].
  cbn [forallb overLines]. unfold yielded.
  destruct (Str.startsWith line "data: " && negb (String.eqb line "data: [DONE]")).
  - destruct (sseContent E _) as [content|]; [|exact IH].
    destruct (Str.truthy content); [discriminate|exact IH].
  - exact IH.
Qed.

(** X3 at a comment, a blank line and the end marker. *)
Lemma silent_lines_are_skipped_witness :
  overLines Scenario.calm (simpleChunk Scenario.calm
                             {| isNative := false; openRouterKey := "k";
                                thinkingBudget := 0;
                                baseSystemInstruction := EmptyString;
                                memoryJSON := EmptyString;
                                dateTimeContext := EmptyString |} false)
    [": OPENROUTER PROCESSING"%string; EmptyString; "data: [DONE]"%string]
    EmptyString (initialState Scenario.catsQuestion)
  = (Ok (Next EmptyString), initialState Scenario.catsQuestion).
Proof.
  apply (silent_lines_are_skipped Scenario.calm). reflexivity.
Defined.

Lemma includes_app_r (a b p : string) :
  Str.includes b p = true -> Str.includes (a ++ b) p = true.
Proof.
  intros H. induction a as [|c a IH]; [exact H|].
  cbn [String.append Str.includes]. rewrite IH. apply orb_true_r.
Qed.

Lemma unavailable_is_recognised (model : string) :
  Str.includes (unavailableMessage model) "currently unavailable" = true.
Proof.
  unfold unavailableMessage.
  rewrite <- !append_assoc. apply includes_app_r. reflexivity.
Qed.

(** X4.  The branch of a relay response that is not ok (lines 46-62) never
    returns: it throws an error of its own, or the rejection of [json()] when
    the message of that rejection says that something is currently
    unavailable.  With the marker of a model without providers the message
    is the one about the model; the [catch] around the parse recognises it
    and throws it again.  Otherwise the message is the one of the body when
    there is one, else the status, followed by the text of the response when
    the body does not parse. *)
Theorem relay_failure_always_throws (model : string) (r : Response)
    (s : state) :
  exists s',
    relayFailure model r s
    = (Throw
         match r_json r with
         | Resolved d =>
             if withoutProviders r d then newError (unavailableMessage model)
             else newError match ed_message d with
                           | Some m => if Str.truthy m then m else statusMessage r
                           | None => statusMessage r
                           end
         | Rejected e =>
             if Str.includes (e_message e) "currently unavailable" then e
             else newError
                    match r_text r with
                    | Resolved t =>
                        if Str.truthy t then (statusMessage r ++ ": " ++ t)%string
                        else statusMessage r
                    | Rejected _ => statusMessage r
                    end
         end, s')
    /\ trace s' = trace s.
Proof.
  unfold relayFailure, withoutProviders, statusMessage, tryCatch, settle, bind,
    tick, modify, ret, throw.
  cbv zeta.
  destruct (r_json r) as [d|e].
  - set (marker := ((status r =? 404)%nat && _)%bool).
    destruct marker.
    + cbn [e_message newError]. rewrite unavailable_is_recognised.
      eexists. split; reflexivity.
    + destruct (ed_message d) as [m|]; [destruct (Str.truthy m)|];
        eexists; split; reflexivity.
  - destruct (Str.includes (e_message e) "currently unavailable").
    + eexists. split; reflexivity.
    + destruct (r_text r) as [t|e']; [destruct (Str.truthy t)|];
        eexists; split; reflexivity.
Qed.

Lemma await_resolved {A} (c : call) (answer : nat -> settled A) (s : state) (a : A) :
  answer (now s) = Resolved a ->
  await c answer s
  = (Ok a, set_now (S (now s)) (set_trace (Call c :: trace s) s)).
Proof.
  intros H. unfold await, bind, get, emit, tick, modify, ret.
  cbn [now set_trace set_now trace]. now rewrite H.
Qed.

Lemma await_rejected {A} (c : call) (answer : nat -> settled A) (s : state) e :
  answer (now s) = Rejected e ->
  await c answer s
  = (Throw e, set_now (S (now s)) (set_trace (Call c :: trace s) s)).
Proof.
  intros H. unfold await, bind, get, emit, tick, modify, throw.
  cbn [now set_trace set_now trace]. now rewrite H.
Qed.

(** X5.  A rejected request to the relay (lines 27-44 and 91-94): the generator
    ends silently, without a chunk, when the rejection is an abort, and
    throws the rejection otherwise; in both cases the request is the only
    thing that happened. *)
Theorem relay_abort_is_silent (E : env) (A : Type)
    (body : A -> Chunk -> M (flow A)) (apiKey model sys : string)
    (msgs : list ChatMessage) (acc : A) (s : state) (e : jsError) :
  let request := {| cm_role := "system"; cm_content := sys |} :: msgs in
  fetch E (now s) apiKey model request = Rejected e ->
  forAwait E body (RelayGen apiKey model msgs sys) acc s
  = (if String.eqb (e_name e) "AbortError" then Ok acc else Throw e,
     set_now (S (now s))
       (set_trace (Call (CallFetch model request) :: trace s) s)).
Proof.
  cbn zeta. intros Hfetch.
  unfold forAwait, silentOnAbort, relayOpen, tryCatch. cbv zeta.
  unfold bind at 1. unfold bind at 1.
  rewrite (bind_throw _ _ _ _ _
             (await_rejected (CallFetch model _)
                (fun t => fetch E t apiKey model _) s e Hfetch)).
  destruct (String.eqb (e_name e) "AbortError"); reflexivity.
Qed.

(** X5 at an aborted request to the relay: the loop ends with the text it
    started with. *)
Lemma relay_abort_is_silent_witness :
  fst (forAwait Cases.relayAborted
         (simpleChunk Cases.relayAborted
            {| isNative := false; openRouterKey := "k"; thinkingBudget := 0;
               baseSystemInstruction := EmptyString;
               memoryJSON := EmptyString; dateTimeContext := EmptyString |}
            false)
         (RelayGen "k" "meta-llama/llama-3-8b" [] "You are Bubble.")
         "so far"%string (initialState Scenario.llamaQuestion))
  = Ok "so far"%string.
Proof.
  rewrite (relay_abort_is_silent Cases.relayAborted string _ "k"
             "meta-llama/llama-3-8b" "You are Bubble." [] "so far"%string
             (initialState Scenario.llamaQuestion) Cases.abortError eq_refl).
  reflexivity.
Defined.

(** X6.  A relay response that is not ok and whose body parses (lines 46-62 and
    91-94) always surfaces at the first pull of the generator as an
    exception named [Error]: the loop over the chunks runs no iteration. *)
Theorem relay_error_reaches_the_caller (E : env) (A : Type)
    (body : A -> Chunk -> M (flow A)) (apiKey model sys : string)
    (msgs : list ChatMessage) (acc : A) (s : state) (r : Response)
    (d : ErrorData) :
  let request := {| cm_role := "system"; cm_content := sys |} :: msgs in
  fetch E (now s) apiKey model request = Resolved r ->
  responseOk r = false ->
  r_json r = Resolved d ->
  exists msg s',
    forAwait E body (RelayGen apiKey model msgs sys) acc s
    = (Throw (newError msg), s')
    /\ trace s' = Call (CallFetch model request) :: trace s.
Proof.
  cbn zeta. intros Hfetch Hok Hjson.
  set (request := {| cm_role := "system"; cm_content := sys |} :: msgs).
  set (s1 := set_now (S (now s))
               (set_trace (Call (CallFetch model request) :: trace s) s)).
  assert (Hopen : relayOpen E apiKey model msgs sys s = relayFailure model r s1).
  { unfold relayOpen. cbv zeta.
    rewrite (bind_ok _ _ _ _ _
               (await_resolved (CallFetch model request)
                  (fun t => fetch E t apiKey model request) s r Hfetch)).
    now rewrite Hok. }
  unfold forAwait, silentOnAbort, tryCatch. unfold bind at 1. unfold bind at 1.
  rewrite Hopen.
  assert (Hthrow : exists msg s',
             relayFailure model r s1 = (Throw (newError msg), s')
             /\ trace s' = trace s1).
  { unfold relayFailure, tryCatch, settle, bind, tick, modify, ret, throw.
    cbv zeta. rewrite Hjson.
    destruct ((status r =? 404)%nat && _)%bool.
    - cbn [e_message newError]. rewrite unavailable_is_recognised.
      now eexists _, _.
    - destruct (ed_message d) as [m|]; [destruct (Str.truthy m)|];
        now eexists _, _. }
  destruct Hthrow as (msg & s' & Hthrow & Htrace).
  rewrite Hthrow. exists msg, s'. split; [reflexivity|now rewrite Htrace].
Qed.

(** X6 at the relay that answers 404 without providers. *)
Lemma relay_error_reaches_the_caller_witness :
  exists msg s',
    forAwait Scenario.relayDown
      (simpleChunk Scenario.relayDown
         {| isNative := false; openRouterKey := "k"; thinkingBudget := 0;
            baseSystemInstruction := EmptyString;
            memoryJSON := EmptyString; dateTimeContext := EmptyString |}
         false)
      (RelayGen "k" "meta-llama/llama-3-8b" [] "You are Bubble.")
      EmptyString (initialState Scenario.llamaQuestion)
    = (Throw (newError msg), s')
    /\ trace s'
       = Call (CallFetch "meta-llama/llama-3-8b"
                 [ {| cm_role := "system"; cm_content := "You are Bubble." |} ])
         :: trace (initialState Scenario.llamaQuestion).
Proof.
  exact (relay_error_reaches_the_caller Scenario.relayDown string _ "k"
           "meta-llama/llama-3-8b" "You are Bubble." [] EmptyString
           (initialState Scenario.llamaQuestion) Scenario.noProviders
           {| ed_message := Some "No allowed providers are available for the selected model."%string;
              ed_code := Some 404%Z |}
           eq_refl eq_refl eq_refl).
Defined.

(** ** Which requests a computation issues *)

Lemma callsIn_app ok a b : callsIn ok a -> callsIn ok b -> callsIn ok (a ++ b).
Proof. intros Ha Hb. apply Forall_app. now split. Qed.

Lemma emits_ret {A} ok (a : A) : emits ok (ret a).
Proof. intros s. exists []. split; [reflexivity|constructor]. Qed.

Lemma emits_throw {A} ok e : emits ok (@throw A e).
Proof. intros s. exists []. split; [reflexivity|constructor]. Qed.

Lemma emits_outOfFuel {A} ok : emits ok (@outOfFuel A).
Proof. intros s. exists []. split; [reflexivity|constructor]. Qed.

Lemma emits_get ok : emits ok get.
Proof. intros s. exists []. split; [reflexivity|constructor]. Qed.

Lemma emits_modify ok (f : state -> state) :
  (forall s, trace (f s) = trace s) -> emits ok (modify f).
Proof. intros H s. exists []. split; [apply H|constructor]. Qed.

Lemma emits_event ok (ev : event) :
  match ev with Call c => ok c | _ => True end -> emits ok (emit ev).
Proof.
  intros H s. exists [ev]. split; [reflexivity|].
  constructor; [exact H|constructor].
Qed.

Lemma emits_bind {A B} ok (m : M A) (f : A -> M B) :
  emits ok m -> (forall a, emits ok (f a)) -> emits ok (bind m f).
Proof.
  intros Hm Hf s. destruct (Hm s) as (n1 & H1 & Hc1). unfold bind.
  destruct (m s) as [[a| e |] s1]; cbn [snd] in *;
    [|now exists n1|now exists n1].
  destruct (Hf a s1) as (n2 & H2 & Hc2).
  exists (n2 ++ n1). rewrite H2, H1, app_assoc. split; [reflexivity|].
  now apply callsIn_app.
Qed.

Lemma emits_tryCatch {A} ok (m : M A) (h : jsError -> M A) :
  emits ok m -> (forall e, emits ok (h e)) -> emits ok (tryCatch m h).
Proof.
  intros Hm Hh s. destruct (Hm s) as (n1 & H1 & Hc1). unfold tryCatch.
  destruct (m s) as [[a| e |] s1]; cbn [snd] in *;
    [now exists n1| |now exists n1].
  destruct (Hh e s1) as (n2 & H2 & Hc2).
  exists (n2 ++ n1). rewrite H2, H1, app_assoc. split; [reflexivity|].
  now apply callsIn_app.
Qed.

Lemma emits_weaken {A} (ok ok' : call -> Prop) (m : M A) :
  (forall c, ok c -> ok' c) -> emits ok m -> emits ok' m.
Proof.
  intros H Hm s. destruct (Hm s) as (new & Hn & Hc). exists new.
  split; [exact Hn|]. eapply Forall_impl; [|exact Hc].
  intros [| c | | | | |]; auto.
Qed.

Lemma emits_await {A} ok (c : call) (answer : nat -> settled A) :
  ok c -> emits ok (await c answer).
Proof.
  intros H. unfold await.
  apply emits_bind; [apply emits_get|]. intros s0.
  apply emits_bind; [now apply emits_event|]. intros _.
  apply emits_bind; [now apply emits_modify|]. intros _.
  destruct (answer (now s0)); [apply emits_ret|apply emits_throw].
Qed.

Lemma emits_settle {A} ok (p : settled A) : emits ok (settle p).
Proof.
  unfold settle. apply emits_bind; [now apply emits_modify|]. intros _.
  destruct p; [apply emits_ret|apply emits_throw].
Qed.

(** Walks through a computation; [side] shows that a request is allowed. *)
Create HintDb emits discriminated.

Ltac emits_walk side :=
  repeat first
    [ match goal with |- forall _, _ => intro end
    | progress cbv zeta
    | assumption
    | match goal with
      | |- emits _ (ret _) => apply emits_ret
      | |- emits _ (throw _) => apply emits_throw
      | |- emits _ outOfFuel => apply emits_outOfFuel
      | |- emits _ get => apply emits_get
      | |- emits _ (tryCatch _ _) => apply emits_tryCatch
      | |- emits _ (bind _ _) => apply emits_bind
      | |- emits _ (modify _) => apply emits_modify; reflexivity
      | |- emits _ tick => apply emits_modify; reflexivity
      | |- emits _ (sink _) => apply emits_event; exact I
      | |- emits _ (console _) => apply emits_event; exact I
      | |- emits _ (emit (Call _)) => apply emits_event; solve [ side ]
      | |- emits _ (emit _) => apply emits_event; exact I
      | |- emits _ (await _ _) => apply emits_await; solve [ side ]
      | |- emits _ (settle _) => apply emits_settle
      | |- emits _ (if ?c then _ else _) => destruct c
      | |- emits _ (match ?x with _ => _ end) => destruct x
      end ].

Section Emits.
Variable E : env.
Variable ok : call -> Prop.

Lemma emits_signalAborted : emits ok (signalAborted E).
Proof. unfold signalAborted. emits_walk idtac. Qed.

Lemma emits_inCallback : emits ok (signalAbortedInCallback E).
Proof. unfold signalAbortedInCallback. emits_walk idtac. Qed.

Lemma emits_attemptsFrom params retries :
  ok (CallStream params) ->
  forall fuel attempt,
    emits ok (attemptsFrom E fuel params retries (Some sink) attempt).
Proof.
  intros Hok. induction fuel as [|fuel IH]; intros attempt; simpl.
  - apply emits_outOfFuel.
  - emits_walk ltac:(exact Hok). apply IH.
Qed.

Lemma emits_retry params :
  ok (CallStream (withDefaultModel params)) ->
  emits ok (generateContentStreamWithRetry E params 3 onRetry).
Proof.
  intros Hok. unfold generateContentStreamWithRetry, onRetry.
  apply emits_bind; [emits_walk idtac|]. intros u.
  now apply emits_attemptsFrom.
Qed.

Lemma emits_reportProgress : forall msgs, emits ok (reportProgress E msgs).
Proof.
  induction msgs as [|msg msgs IH]; simpl; emits_walk idtac;
    apply emits_inCallback.
Qed.

Lemma emits_encodeFiles :
  forall fs userParts, emits ok (encodeFiles fs userParts).
Proof.
  induction fs as [|f fs IH]; intros userParts; simpl; emits_walk idtac.
  apply IH.
Qed.

Lemma emits_silent {B} (m : M B) : emits ok m -> emits ok (silentOnAbort m).
Proof. intros H. unfold silentOnAbort. emits_walk idtac. Qed.

Lemma emits_relayFailure model r : emits ok (relayFailure model r).
Proof. unfold relayFailure. emits_walk idtac. Qed.

Lemma emits_relayOpen apiKey model msgs sys :
  ok (CallFetch model ({| cm_role := "system"; cm_content := sys |} :: msgs)) ->
  emits ok (relayOpen E apiKey model msgs sys).
Proof.
  intros Hok. unfold relayOpen. emits_walk ltac:(exact Hok).
  all: apply emits_relayFailure.
Qed.

Section Loops.
Variable A : Type.
Variable body : A -> Chunk -> M (flow A).
Hypothesis body_emits : forall acc c, emits ok (body acc c).

Lemma emits_overChunks failure :
  forall cs acc, emits ok (overChunks body cs failure acc).
Proof.
  induction cs as [|c cs IH]; intros acc; simpl; emits_walk idtac.
  - apply body_emits.
  - apply IH.
Qed.

Lemma emits_overLines :
  forall lines acc, emits ok (overLines E body lines acc).
Proof.
  induction lines as [|line lines IH]; intros acc; simpl; emits_walk idtac;
    first [apply body_emits|apply IH].
Qed.

Lemma emits_overReads :
  forall reads buffer acc, emits ok (overReads E body reads buffer acc).
Proof.
  induction reads as [|read reads IH]; intros buffer acc; simpl.
  - apply emits_bind; [apply emits_signalAborted|]. emits_walk idtac.
  - apply emits_bind; [apply emits_signalAborted|]. intros b.
    destruct b; [apply emits_ret|].
    apply emits_bind; [now apply emits_event|]. intros _.
    apply emits_bind; [apply emits_silent, emits_settle|]. intros v.
    destruct v as [value|]; [|apply emits_ret].
    cbv zeta. apply emits_bind; [apply emits_overLines|]. intros r.
    destruct r; [apply IH|apply emits_ret].
Qed.

Lemma emits_forAwait g acc :
  match g with
  | NativeGen _ => True
  | RelayGen _ model msgs sys =>
      ok (CallFetch model ({| cm_role := "system"; cm_content := sys |} :: msgs))
  end ->
  emits ok (forAwait E body g acc).
Proof.
  intros Hok. unfold forAwait. destruct g as [st|apiKey model msgs sys].
  - apply emits_overChunks.
  - apply emits_bind; [now apply emits_silent, emits_relayOpen|]. intros o.
    destruct o; [apply emits_overReads|apply emits_ret].
Qed.
End Loops.

Lemma emits_appendChunk u c : emits ok (appendChunk E u c).
Proof.
  unfold appendChunk. apply emits_bind; [apply emits_signalAborted|].
  emits_walk idtac.
Qed.

Lemma emits_simpleChunk ctx usedFallback acc c :
  emits ok (simpleChunk E ctx usedFallback acc c).
Proof.
  unfold simpleChunk. apply emits_bind; [apply emits_signalAborted|].
  emits_walk idtac.
Qed.

Lemma emits_currentTurn input : emits ok (currentTurn input).
Proof. unfold currentTurn. emits_walk idtac. Qed.

Lemma emits_chooseModel input : emits ok (chooseModel input).
Proof. unfold chooseModel. emits_walk idtac. Qed.

Lemma emits_catchBlock input error : emits ok (catchBlock E input error).
Proof. unfold catchBlock. emits_walk idtac. Qed.

Lemma emits_describeFiles :
  forall fs imageNote fileContext,
    emits ok (describeFiles fs imageNote fileContext).
Proof.
  induction fs as [|f fs IH]; intros imageNote fileContext; simpl;
    emits_walk idtac; apply IH.
Qed.

Lemma emits_sinkAll : forall l, emits ok (sinkAll l).
Proof. induction l as [|x l IH]; simpl; emits_walk idtac. Qed.

End Emits.

Lemma emits_bind_post {A B} ok (m : M A) (f : A -> M B) (Q : A -> Prop) :
  emits ok m ->
  (forall s, match fst (m s) with Ok a => Q a | _ => True end) ->
  (forall a, Q a -> emits ok (f a)) ->
  emits ok (bind m f).
Proof.
  intros Hm HQ Hf s. destruct (Hm s) as (n1 & H1 & Hc1). specialize (HQ s).
  unfold bind.
  destruct (m s) as [[a| e |] s1]; cbn [fst snd] in *;
    [|now exists n1|now exists n1].
  destruct (Hf a HQ s1) as (n2 & H2 & Hc2).
  exists (n2 ++ n1). rewrite H2, H1, app_assoc. split; [reflexivity|].
  now apply callsIn_app.
Qed.

Lemma callsIn_events ok (s : state) : callsIn ok (trace s) -> callsIn ok (events s).
Proof. intros H. unfold events. now apply Forall_rev. Qed.

(** What the preparation hands to the loop (lines 231-237 and 284-290). *)
Lemma prepare_context (E : env) (input : AgentInput) (budget : nat) (s : state) :
  let key := match profile input with
             | Some p => openrouter_api_key p
             | None => EmptyString
             end in
  let keyless := negb (isGoogleModel (modelVar s)) && negb (Str.truthy key) in
  let r := prepare E input budget s in
  modelVar (snd r) = (if keyless then "gemini-2.5-flash" else modelVar s)%string
  /\ (if keyless
      then In (Sink (Str.nl ++ "*(OpenRouter key missing, falling back to Gemini...)*"
                     ++ Str.nl)%string) (trace (snd r))
      else True)
  /\ match fst r with
     | Ok ctx =>
         isNative ctx = isGoogleModel (modelVar s)
         /\ openRouterKey ctx = key
         /\ thinkingBudget ctx = budget
         /\ finalResponseText (snd r) = finalResponseText s
     | _ => True
     end.
Proof.
  cbn zeta. unfold prepare.
  unfold sink, await, bind, get, emit, tick, modify, ret, throw.
  cbv beta iota.
  destruct (negb (isGoogleModel (modelVar s)) && _);
    cbn [now trace set_now set_trace set_modelVar set_promptVar fst snd
         promptVar modelVar];
    (destruct (videoRewrite (promptVar s));
     cbn [now trace set_now set_trace set_modelVar set_promptVar fst snd
          promptVar modelVar]);
    (destruct (route E _ _ _ _ _) as [d|e];
     cbn [fst snd trace set_now set_trace promptVar modelVar];
     [|cbn; repeat split; auto 8]);
    (destruct (getContext E _); cbn; repeat split; auto 8).
Qed.

(** ** The relay is used by a context that is not native only *)

Section Native.
Variable E : env.
Variable input : AgentInput.

Hint Resolve emits_signalAborted emits_inCallback emits_reportProgress
  emits_encodeFiles emits_currentTurn emits_appendChunk emits_simpleChunk
  : emits.

Ltac walk := emits_walk ltac:(exact I); auto with emits.

Lemma searchHandler_never_fetches : emits notFetch (searchHandler E input).
Proof. unfold searchHandler. walk. Qed.

Lemma streams_never_fetch params :
  emits notFetch (generateContentStreamWithRetry E params 3 onRetry).
Proof. apply emits_retry. exact I. Qed.

Lemma native_loops_never_fetch {A} (body : A -> Chunk -> M (flow A)) st acc :
  (forall a c, emits notFetch (body a c)) ->
  emits notFetch (forAwait E body (NativeGen st) acc).
Proof. intros H. apply emits_forAwait; [exact H|exact I]. Qed.

Variable ctx : context.

Lemma thinkHandler_never_fetches : emits notFetch (thinkHandler E input ctx).
Proof.
  unfold thinkHandler. walk.
  all: first [ apply streams_never_fetch
             | apply native_loops_never_fetch; apply emits_appendChunk ].
Qed.

Lemma studyHandler_never_fetches : emits notFetch (studyHandler E input).
Proof.
  unfold studyHandler. walk.
  all: first [ apply streams_never_fetch
             | apply native_loops_never_fetch; apply emits_appendChunk ].
Qed.

Lemma imageHandler_never_fetches : emits notFetch (imageHandler E input).
Proof. unfold imageHandler. walk. Qed.

Lemma canvasHandler_never_fetches : emits notFetch (canvasHandler E input).
Proof. unfold canvasHandler. walk. Qed.

Lemma projectHandler_never_fetches : emits notFetch (projectHandler E input).
Proof. unfold projectHandler. walk. Qed.

Hypothesis native : isNative ctx = true.

Lemma simpleHandler_never_fetches : emits notFetch (simpleHandler E input ctx).
Proof.
  unfold simpleHandler. rewrite native. cbv zeta.
  apply emits_bind; [apply emits_get|]. intros s0.
  apply emits_bind; [walk|]. intros userParts.
  apply emits_bind; [apply emits_get|]. intros s1.
  apply emits_bind_post
    with (Q := fun chosen => exists st, fst chosen = NativeGen st).
  - walk. apply streams_never_fetch.
  - intros s. unfold bind.
    destruct (generateContentStreamWithRetry E _ 3 onRetry s) as [[g| e |] s2];
      cbn; [now exists g|exact I|exact I].
  - intros [g uf] [st Hg]. cbn [fst] in Hg. subst g.
    apply emits_bind;
      [apply native_loops_never_fetch; intros a c; apply emits_simpleChunk|].
    walk.
Qed.

Lemma dispatch_never_fetches : emits notFetch (dispatch E input ctx).
Proof.
  unfold dispatch. apply emits_bind; [apply emits_get|]. intros s.
  destruct (currentAction s);
    first [ apply simpleHandler_never_fetches
          | apply searchHandler_never_fetches
          | apply thinkHandler_never_fetches
          | apply imageHandler_never_fetches
          | apply canvasHandler_never_fetches
          | apply projectHandler_never_fetches
          | apply studyHandler_never_fetches ].
Qed.

Lemma loop_never_fetches : forall fuel, emits notFetch (loop E input ctx fuel).
Proof.
  induction fuel as [|fuel IH]; [apply emits_outOfFuel|].
  rewrite loop_unfold. walk. apply dispatch_never_fetches.
Qed.

End Native.

Lemma emits_keeps {A} ok (m : M A) (s : state) :
  emits ok m -> callsIn ok (trace s) -> callsIn ok (trace (snd (m s))).
Proof.
  intros Hm Hs. destruct (Hm s) as (new & -> & Hc). now apply callsIn_app.
Qed.

Lemma emits_prepare (E : env) (input : AgentInput) (budget : nat) ok :
  (forall p, ok (CallRoute p)) -> ok CallMemory ->
  emits ok (prepare E input budget).
Proof.
  intros Hr Hm. unfold prepare.
  emits_walk ltac:(first [exact Hm | apply Hr]).
Qed.

Lemma tryBlock_never_fetches (E : env) (input : AgentInput) (budget : nat)
    (s : state) :
  isGoogleModel (modelVar s) = true ->
  callsIn notFetch (trace s) ->
  callsIn notFetch (trace (snd (tryBlock E input budget s))).
Proof.
  intros Hnative Hs. unfold tryBlock, bind.
  assert (Hp := emits_keeps notFetch (prepare E input budget) s
                  (emits_prepare E input budget notFetch (fun _ => I) I) Hs).
  destruct (prepare_context E input budget s) as (_ & _ & Hctx).
  cbn zeta in Hctx.
  destruct (prepare E input budget s) as [[ctx| e |] s1]; cbn [fst snd] in *;
    try exact Hp.
  destruct Hctx as (Hn & _). rewrite Hnative in Hn.
  now apply emits_keeps; [apply loop_never_fetches|].
Qed.

(** ** Instant mode *)

Lemma describeFiles_returns :
  forall fs imageNote fileContext s,
    exists notes s', describeFiles fs imageNote fileContext s = (Ok notes, s').
Proof.
  induction fs as [|f fs IH]; intros imageNote fileContext s; simpl.
  - now eexists _, _.
  - destruct (Str.startsWith (f_type f) "image/"); [apply IH|].
    destruct (isTextFile f); [|apply IH].
    unfold tryCatch, settle, bind at 1, bind at 1, tick, modify.
    destruct (f_text f) as [content|e]; cbn; apply IH.
Qed.

Lemma sinkAll_returns : forall l s, exists s', sinkAll l s = (Ok tt, s').
Proof.
  induction l as [|x l IH]; intros s; simpl; [now eexists|].
  unfold bind, sink, emit, modify. apply IH.
Qed.

Lemma instantBlock_emits (E : env) (input : AgentInput) :
  emits freeOnly (instantBlock E input).
Proof.
  unfold instantBlock. emits_walk ltac:(exact I).
  - apply emits_describeFiles.
  - apply emits_sinkAll.
Qed.

Lemma instant_emits (E : env) (input : AgentInput) :
  emits freeOnly
    (tryCatch (instantBlock E input)
       (fun _ => console "Instant mode failed" ;;
                 throw (newError "Instant mode service unavailable."))).
Proof. apply emits_tryCatch; [apply instantBlock_emits|]. emits_walk idtac. Qed.

(** X7.  A context that the preparation found native never asks the relay (lines
    469-506): when the model left by the choice of lines 197-226 is a model
    of Google (as in think mode, where it always is gemini-2.5-flash), no
    request of the invocation goes to the relay, whatever the handlers that
    run. *)
Theorem native_models_never_use_the_relay (E : env) (input : AgentInput) :
  isGoogleModel (modelVar (snd (chooseModel input (initialState input)))) = true ->
  callsIn notFetch (events (snd (invoke E input))).
Proof.
  intros Hnative. apply callsIn_events. unfold invoke, runAutonomousAgent.
  assert (Hinstant :
    callsIn notFetch
      (trace (snd (tryCatch (instantBlock E input)
                     (fun _ => console "Instant mode failed" ;;
                               throw (newError "Instant mode service unavailable."))
                     (initialState input))))).
  { apply emits_keeps; [|constructor].
    eapply emits_weaken; [|apply instant_emits]. now intros []. }
  assert (Hrouted :
    callsIn notFetch
      (trace (snd ((budget <- chooseModel input ;;
                    modify (set_finalResponseText EmptyString) ;;
                    tryCatch (tryBlock E input budget) (catchBlock E input))
                     (initialState input))))).
  { destruct (chooseModel_returns input (initialState input))
      as (budget & s1 & Hc & _).
    assert (H1 := emits_keeps notFetch (chooseModel input) (initialState input)
                    (emits_chooseModel notFetch input) (Forall_nil _)).
    rewrite (bind_ok _ _ _ _ _ Hc). rewrite Hc in Hnative, H1.
    cbn [snd] in Hnative, H1.
    unfold bind at 1, modify at 1.
    set (s2 := set_finalResponseText EmptyString s1).
    assert (H2 := tryBlock_never_fetches E input budget s2 Hnative H1).
    unfold tryCatch.
    destruct (tryBlock E input budget s2) as [[x| e |] s3]; cbn [snd] in *;
      try exact H2.
    now apply emits_keeps; [apply emits_catchBlock|]. }
  destruct (thinkingMode input); assumption.
Qed.

(** X7 at a question in think mode to a model of the relay, with a relay that
    is down: no request goes to the relay. *)
Lemma native_models_never_use_the_relay_witness :
  callsIn notFetch
    (events (snd (invoke Scenario.relayDown Cases.llamaThinks))).
Proof.
  exact (native_models_never_use_the_relay Scenario.relayDown
           Cases.llamaThinks eq_refl).
Defined.

(** X8.  Instant mode (lines 144-195) asks the free completion service and
    nobody else; an attachment that cannot be read does not fail the turn.
    The request carries the history without a trailing turn of the user,
    followed by the prompt with the notes about the attachments, and the
    invocation returns the completion as its one turn, or throws the error
    of instant mode when the service fails. *)
Theorem instant_mode_asks_the_free_service_only (E : env)
    (input : AgentInput) :
  thinkingMode input = Instant ->
  let r := invoke E input in
  callsIn freeOnly (events (snd r))
  /\ exists (notes : string) (t : nat),
       let msgs := map toFreeMessage (historyWithoutLast input)
                   ++ [ {| cm_role := "user";
                           cm_content := (prompt input ++ notes)%string |} ] in
       In (Call (CallFree msgs)) (events (snd r))
       /\ fst r
          = match fc_result (generateFreeCompletion E t msgs) with
            | Resolved txt => Ok (single (mkTurn input txt None None))
            | Rejected _ => Throw (newError "Instant mode service unavailable.")
            end.
Proof.
  intros Hmode. cbn zeta. unfold invoke, runAutonomousAgent. rewrite Hmode.
  split.
  { apply callsIn_events, emits_keeps; [apply instant_emits|constructor]. }
  destruct (describeFiles_returns (files input) EmptyString EmptyString
              (initialState input)) as (notes & s1 & Hd).
  exists (fst notes ++ snd notes)%string, (now s1). cbv zeta.
  set (msgs := map toFreeMessage (historyWithoutLast input) ++ _).
  set (handler := fun _ : jsError => _).
  assert (Hrun : exists s',
    tryCatch (instantBlock E input) handler (initialState input)
    = (match fc_result (generateFreeCompletion E (now s1) msgs) with
       | Resolved txt => Ok (single (mkTurn input txt None None))
       | Rejected _ => Throw (newError "Instant mode service unavailable.")
       end, s')
    /\ In (Call (CallFree msgs)) (trace s')).
  { unfold tryCatch, instantBlock.
    rewrite (bind_ok _ _ _ _ _ Hd). cbv zeta.
    unfold bind at 1, get at 1. unfold bind at 1, emit at 1, modify at 1.
    unfold bind at 1, tick at 1, modify at 1.
    change (fun m : Message =>
              {| cm_role := if (sender m =? "user")%string then "user"%string
                            else "assistant"%string;
                 cm_content := text m |}) with toFreeMessage.
    fold msgs.
    set (s2 := set_now _ _).
    destruct (sinkAll_returns
                (fc_streamed (generateFreeCompletion E (now s1) msgs)) s2)
      as (s3 & Hs).
    rewrite (bind_ok _ _ _ _ _ Hs).
    assert (Hin : In (Call (CallFree msgs)) (trace s3)).
    { destruct (emits_sinkAll freeOnly
                  (fc_streamed (generateFreeCompletion E (now s1) msgs)) s2)
        as (new & Hn & _).
      rewrite Hs in Hn. cbn [snd] in Hn. rewrite Hn. apply in_or_app. right.
      now left. }
    subst handler.
    unfold settle, bind, tick, modify, console, emit, throw, ret.
    destruct (fc_result (generateFreeCompletion E (now s1) msgs));
      eexists; (split; [reflexivity|]);
      cbn [trace set_now set_trace]; [exact Hin|now right]. }
  destruct Hrun as (s' & -> & Hin). cbn [fst snd]. split; [|reflexivity].
  unfold events. now apply -> in_rev.
Qed.

(** X8 at a question in instant mode with an attachment that cannot be read:
    the free service is the only one asked, and its completion is the turn. *)
Lemma instant_mode_asks_the_free_service_only_witness :
  callsIn freeOnly
    (events (snd (invoke Scenario.calm Cases.instantWithFile)))
  /\ fst (invoke Scenario.calm Cases.instantWithFile)
     = Ok (single (mkTurn Cases.instantWithFile "hi" None None)).
Proof.
  pose proof (instant_mode_asks_the_free_service_only Scenario.calm
                Cases.instantWithFile eq_refl) as H.
  cbv zeta in H. destruct H as [H _]. split; [exact H|reflexivity].
Defined.

(** ** The requests for streams *)

(** X9.  The retry controller (lines 103-110): every attempt sends the same
    request, the one it was given with the model filled in when it was
    missing; a request always names a model. *)
Theorem every_attempt_sends_the_same_request (E : env) (params : StreamParams) :
  emits (fun c => c = CallStream (withDefaultModel params))
        (generateContentStreamWithRetry E params 3 onRetry)
  /\ Str.truthy (p_model (withDefaultModel params)) = true
  /\ withDefaultModel (withDefaultModel params) = withDefaultModel params.
Proof.
  split; [now apply emits_retry|].
  unfold withDefaultModel.
  destruct (Str.truthy (p_model params)) eqn:Hm; cbn [negb p_model];
    [rewrite Hm|]; now split.
Qed.

Lemma withDefaultModel_named (params : StreamParams) :
  Str.truthy (p_model params) = true -> withDefaultModel params = params.
Proof. intros H. unfold withDefaultModel. now rewrite H. Qed.

Lemma supportsThinking_truthy (m : string) :
  supportsThinking m = true -> Str.truthy m = true.
Proof. destruct m; [discriminate|reflexivity]. Qed.

(** X10.  The THINK handler (lines 321-355): every request for a stream goes to a
    model that supports reasoning (the current model, or gemini-2.5-flash
    when the current one does not) and carries a budget that is not zero
    (the budget of the mode, or 2048 when the mode has none). *)
Theorem think_requests_can_reason (E : env) (input : AgentInput)
    (ctx : context) :
  emits thinkingRequest (thinkHandler E input ctx).
Proof.
  intros s. unfold thinkHandler. cbv zeta.
  unfold bind at 1, get at 1.
  set (s1 := if negb (supportsThinking (modelVar s))
             then set_modelVar "gemini-2.5-flash" s else s).
  assert (H1 : supportsThinking (modelVar s1) = true /\ trace s1 = trace s).
  { subst s1. destruct (supportsThinking (modelVar s)) eqn:Hs; now split. }
  destruct H1 as [Hsup Ht1].
  assert (Hfix : forall (k : unit -> M step),
             bind (if negb (supportsThinking (modelVar s))
                   then modify (set_modelVar "gemini-2.5-flash") else ret tt) k s
             = k tt s1).
  { intros k. subst s1. unfold bind, modify, ret.
    now destruct (negb (supportsThinking (modelVar s))). }
  rewrite Hfix.
  unfold bind at 1, sink at 1, emit at 1, modify at 1.
  set (s2 := set_trace _ s1).
  set (budget := if (0 <? thinkingBudget ctx)%nat then thinkingBudget ctx else 2048).
  assert (Hbudget : exists b, budget = S b).
  { subst budget. destruct (thinkingBudget ctx) as [|b]; cbn; now eexists. }
  assert (Hrest : forall s3,
    modelVar s3 = modelVar s1 ->
    emits thinkingRequest
      (response <- generateContentStreamWithRetry E
                     {| p_model := modelVar s3;
                        p_contents :=
                          Turns (geminiHistory input
                                 ++ [ {| role := "user";
                                         parts := [TextPart
                                           (baseSystemInstruction ctx ++ Str.nl ++ Str.nl
                                            ++ dateTimeContext ctx ++ Str.nl ++ Str.nl
                                            ++ "[MEMORY]" ++ Str.nl ++ memoryJSON ctx
                                            ++ Str.nl ++ Str.nl ++ "[TASK]" ++ Str.nl
                                            ++ currentPrompt s3)%string] |} ]);
                        p_systemInstruction := None;
                        p_googleSearch := false;
                        p_thinkingBudget := Some budget |} 3 onRetry ;;
       forAwait E (appendChunk E) (NativeGen response) tt ;;
       r <- currentTurn input ;;
       ret (Return r))).
  { intros s3 Hm.
    apply emits_bind.
    - apply emits_retry. rewrite withDefaultModel_named.
      + cbn [thinkingRequest p_model p_thinkingBudget]. rewrite Hm.
        split; [exact Hsup|]. destruct Hbudget as [b ->]. now exists b.
      + cbn [p_model]. rewrite Hm. now apply supportsThinking_truthy.
    - intros response.
      apply emits_bind;
        [apply emits_forAwait; [apply emits_appendChunk|exact I]|].
      intros _. emits_walk idtac. apply emits_currentTurn. }
  destruct (incrementThinkingCount E (now s2) (user_id input)) as [u|e] eqn:Hcount.
  - rewrite (bind_ok _ _ _ _ _
               (await_resolved CallThinkingCount
                  (fun t => incrementThinkingCount E t (user_id input)) s2 u Hcount)).
    unfold bind at 1, get at 1.
    set (s3 := set_now _ _).
    destruct (Hrest s3 eq_refl s3) as (new & Hnew & Hc).
    exists (new ++ [Call CallThinkingCount;
                    Sink (Str.nl ++ "Thinking deeply..." ++ Str.nl)%string]).
    split.
    + rewrite Hnew. subst s3 s2. cbn [trace set_now set_trace].
      rewrite Ht1, <- app_assoc. reflexivity.
    + apply callsIn_app; [exact Hc|]. repeat constructor.
  - rewrite (bind_throw _ _ _ _ _
               (await_rejected CallThinkingCount
                  (fun t => incrementThinkingCount E t (user_id input)) s2 e Hcount)).
    exists [Call CallThinkingCount;
            Sink (Str.nl ++ "Thinking deeply..." ++ Str.nl)%string].
    split.
    + subst s2. cbn [snd trace set_now set_trace]. now rewrite Ht1.
    + repeat constructor.
Qed.

(** ** The requests that end the loop *)

Lemma terminalCalls_app a b :
  terminalCalls (a ++ b) = terminalCalls a + terminalCalls b.
Proof. unfold terminalCalls. now rewrite filter_app, length_app. Qed.

Lemma terminalCalls_rev l : terminalCalls (rev l) = terminalCalls l.
Proof.
  induction l as [|ev l IH]; [reflexivity|].
  cbn [rev]. rewrite terminalCalls_app, IH.
  change (ev :: l) with ([ev] ++ l). rewrite terminalCalls_app. lia.
Qed.

Lemma terminalCalls_none new : callsIn notTerminal new -> terminalCalls new = 0.
Proof.
  unfold terminalCalls. induction 1 as [|ev new Hev _ IH]; [reflexivity|].
  cbn [filter]. destruct ev as [| c | | | | |]; try exact IH.
  unfold notTerminal in Hev. now rewrite Hev.
Qed.

Lemma emits_counted {A} n (m : M A) :
  emits notTerminal m -> inv (counted n) m.
Proof.
  intros Hm s Hs. destruct (Hm s) as (new & Hn & Hc).
  assert (H : counted n (snd (m s))).
  { unfold counted in *.
    now rewrite Hn, terminalCalls_app, (terminalCalls_none _ Hc), Hs. }
  destruct (fst (m s)); cbn [post]; [exact H|exact H|exact I].
Qed.

Lemma emits_atMostOnce {A} (m : M A) :
  emits notTerminal m -> inv atMostOnce m.
Proof.
  intros Hm s Hs. destruct (Hm s) as (new & Hn & Hc).
  assert (H : atMostOnce (snd (m s))).
  { unfold atMostOnce in *.
    now rewrite Hn, terminalCalls_app, (terminalCalls_none _ Hc). }
  destruct (fst (m s)); cbn [post]; [exact H|exact H|exact I].
Qed.

Lemma counted_once n s : n <= 1 -> counted n s -> atMostOnce s.
Proof. unfold counted, atMostOnce. lia. Qed.

Lemma terminal_await {A} (c : call) (answer : nat -> settled A) :
  isTerminal c = true ->
  hoare (counted 1) (counted 0) (await c answer) (fun _ => counted 1).
Proof.
  intros Hc s Hs. unfold await, bind, get, emit, tick, modify, ret, throw.
  cbn [now set_trace set_now trace].
  assert (H : counted 1 (set_now (S (now s)) (set_trace (Call c :: trace s) s))).
  { unfold counted, terminalCalls in *. cbn [trace set_now set_trace filter].
    rewrite Hc. cbn [length]. now rewrite Hs. }
  destruct (answer (now s)); exact H.
Qed.

Lemma counted_step (r : step) (s : state) : counted 0 s -> terminalStep r s.
Proof.
  intros H. destruct r; [exact H|]. now apply (counted_once 0); [lia|].
Qed.

(** A computation that issues no terminal request, before the first one. *)
Lemma before_terminal {A} (m : M A) :
  emits notTerminal m ->
  hoare atMostOnce (counted 0) m (fun _ => counted 0).
Proof.
  intros Hm. eapply hoare_relax; [now apply emits_counted|].
  intros s. apply counted_once. lia.
Qed.

(** A handler that issues no terminal request. *)
Lemma plain_handler (m : M step) :
  emits notTerminal m -> hoare atMostOnce (counted 0) m terminalStep.
Proof.
  intros Hm. eapply hoare_weaken.
  - now apply before_terminal.
  - auto.
  - intros r s. apply counted_step.
Qed.

(** What follows a terminal request: no other one, and the turn. *)
Lemma after_terminal (m : M step) :
  emits notTerminal m ->
  (forall s, fst (m s) <> Ok Continue) ->
  hoare atMostOnce (counted 1) m terminalStep.
Proof.
  intros Hm Hr s Hs.
  assert (H := emits_counted 1 m Hm s Hs). specialize (Hr s).
  destruct (fst (m s)) as [[|x]| e |]; cbn [post terminalStep] in *;
    [contradiction| | |exact I]; now apply (counted_once 1).
Qed.

Section Terminal.
Variable E : env.
Variable input : AgentInput.

Hint Resolve emits_signalAborted emits_inCallback emits_reportProgress
  emits_encodeFiles emits_currentTurn emits_appendChunk emits_simpleChunk
  : emits.

Ltac plain := emits_walk ltac:(reflexivity); auto with emits.

Lemma plain_retry params :
  emits notTerminal (generateContentStreamWithRetry E params 3 onRetry).
Proof. apply emits_retry. reflexivity. Qed.

Lemma plain_forAwait {A} (body : A -> Chunk -> M (flow A)) g acc :
  (forall a c, emits notTerminal (body a c)) ->
  emits notTerminal (forAwait E body g acc).
Proof. intros H. apply emits_forAwait; [exact H|]. now destruct g. Qed.

Lemma plain_searchHandler : emits notTerminal (searchHandler E input).
Proof. unfold searchHandler. plain. Qed.

Lemma plain_studyHandler : emits notTerminal (studyHandler E input).
Proof.
  unfold studyHandler. plain.
  all: first [ apply plain_retry | apply plain_forAwait; apply emits_appendChunk ].
Qed.

Variable ctx : context.

Lemma plain_simpleHandler : emits notTerminal (simpleHandler E input ctx).
Proof.
  unfold simpleHandler. plain.
  all: first [ apply plain_retry
             | apply plain_forAwait; intros; apply emits_simpleChunk ].
Qed.

Lemma thinkHandler_once :
  hoare atMostOnce (counted 0) (thinkHandler E input ctx) terminalStep.
Proof.
  unfold thinkHandler. cbv zeta.
  eapply hoare_bind; [apply before_terminal, emits_get|]. intros s0.
  eapply hoare_bind; [apply before_terminal; plain|]. intros u1.
  eapply hoare_bind; [apply before_terminal; plain|]. intros u2.
  eapply hoare_bind.
  { eapply hoare_relax; [now apply terminal_await|].
    intros s. now apply counted_once. }
  intros u3. apply after_terminal.
  - plain.
    all: first [ apply plain_retry | apply plain_forAwait; apply emits_appendChunk ].
  - intros s. unfold bind at 1, get at 1.
    unfold bind at 1.
    destruct (generateContentStreamWithRetry E _ 3 onRetry s) as [[g| e |] s1];
      cbn [fst]; try discriminate.
    unfold bind at 1.
    destruct (forAwait E (appendChunk E) (NativeGen g) tt s1) as [[u| e |] s2];
      cbn [fst]; discriminate.
Qed.

Lemma imageHandler_once :
  hoare atMostOnce (counted 0) (imageHandler E input) terminalStep.
Proof.
  unfold imageHandler. cbv zeta.
  eapply hoare_bind; [apply before_terminal, emits_get|]. intros s0.
  eapply hoare_bind; [apply before_terminal; plain|]. intros u1.
  eapply hoare_tryCatch with (X0 := counted 1).
  - eapply hoare_bind; [now apply terminal_await|]. intros img.
    eapply hoare_bind; [apply inv_get|]. intros s1.
    apply hoare_ret. intros s. now apply counted_once.
  - intros e. apply after_terminal; [plain|].
    intros s. unfold bind, modify, sink, emit, currentTurn, get, ret. discriminate.
Qed.

Lemma canvasHandler_once :
  hoare atMostOnce (counted 0) (canvasHandler E input) terminalStep.
Proof.
  unfold canvasHandler.
  eapply hoare_bind; [apply before_terminal, emits_get|]. intros s0.
  eapply hoare_bind.
  { eapply hoare_relax; [now apply terminal_await|].
    intros s. now apply counted_once. }
  intros [|canvasMessage rest].
  - apply hoare_throw. intros s. now apply counted_once.
  - apply after_terminal; [plain|].
    intros s. unfold bind, modify, currentTurn, get, ret. discriminate.
Qed.

Lemma projectHandler_once :
  hoare atMostOnce (counted 0) (projectHandler E input) terminalStep.
Proof.
  unfold projectHandler.
  eapply hoare_bind; [apply before_terminal, emits_get|]. intros s0.
  destruct (negb (isGoogleModel (modelVar s0))).
  - apply plain_handler. plain.
  - cbv zeta.
    eapply hoare_bind; [apply before_terminal; plain|]. intros u1.
    eapply hoare_bind.
    { eapply hoare_relax; [now apply terminal_await|].
      intros s. now apply counted_once. }
    intros response. apply after_terminal; [plain|].
    intros s. unfold bind, modify, sink, emit, currentTurn, get, ret. discriminate.
Qed.

Lemma dispatch_once :
  hoare atMostOnce (counted 0) (dispatch E input ctx) terminalStep.
Proof.
  unfold dispatch.
  eapply hoare_bind; [apply before_terminal, emits_get|]. intros s0.
  destruct (currentAction s0);
    first [ apply thinkHandler_once | apply imageHandler_once
          | apply canvasHandler_once | apply projectHandler_once
          | apply plain_handler;
            first [ apply plain_simpleHandler | apply plain_searchHandler
                  | apply plain_studyHandler ] ].
Qed.

Lemma loop_once :
  forall fuel,
    hoare atMostOnce (counted 0) (loop E input ctx fuel) (fun _ => atMostOnce).
Proof.
  induction fuel as [|fuel IH]; [intros s Hs; exact I|].
  rewrite loop_unfold.
  eapply hoare_bind; [apply before_terminal, emits_get|]. intros s0.
  assert (Hturn : hoare atMostOnce (counted 0) (currentTurn input)
                    (fun _ => atMostOnce)).
  { eapply hoare_weaken; [apply before_terminal, emits_currentTurn|auto|].
    intros r s. apply counted_once. lia. }
  destruct (loopCount s0 <? MAX_LOOPS)%nat; [|exact Hturn].
  eapply hoare_bind; [apply before_terminal, emits_signalAborted|].
  intros [|]; [exact Hturn|].
  eapply hoare_bind; [apply before_terminal; plain|]. intros u1.
  eapply hoare_bind; [apply before_terminal, emits_get|]. intros s1.
  eapply hoare_bind; [apply before_terminal; plain|]. intros u2.
  eapply hoare_bind; [apply dispatch_once|].
  intros [|result]; [exact IH|].
  apply hoare_ret. auto.
Qed.

End Terminal.

(** X11.  A request that ends the loop (the counter of the thinking, the image,
    the canvas, the project structure) is issued at most once in an
    invocation: the handlers of THINK, IMAGE, CANVAS and PROJECT return the
    turn (or throw) once they have issued theirs (lines 321-411), and a
    handler that continues the loop has issued none. *)
Theorem terminal_requests_happen_once (E : env) (input : AgentInput) :
  terminalCalls (events (snd (invoke E input))) <= 1
  /\ forall ctx s,
       match fst (dispatch E input ctx (set_trace [] s)) with
       | Ok Continue =>
           terminalCalls (events (snd (dispatch E input ctx (set_trace [] s)))) = 0
       | _ => True
       end.
Proof.
  split.
  - unfold events. rewrite terminalCalls_rev.
    assert (Hshape := proj2 (proj2 (invoke_shape E input))). cbn zeta in Hshape.
    assert (Hinstant :
      inv atMostOnce
        (tryCatch (instantBlock E input)
           (fun _ => console "Instant mode failed" ;;
                     throw (newError "Instant mode service unavailable.")))).
    { apply emits_atMostOnce. eapply emits_weaken; [|apply instant_emits].
      now intros []. }
    assert (Hrouted :
      hoare atMostOnce (counted 0)
        (budget <- chooseModel input ;;
         modify (set_finalResponseText EmptyString) ;;
         tryCatch (tryBlock E input budget) (catchBlock E input))
        (fun _ => atMostOnce)).
    { eapply hoare_bind; [apply before_terminal, emits_chooseModel|]. intros budget.
      eapply hoare_bind; [apply before_terminal; now apply emits_modify|]. intros u.
      eapply hoare_tryCatch with (X0 := atMostOnce).
      - unfold tryBlock.
        eapply hoare_bind;
          [apply before_terminal, emits_prepare; [intros p|]; reflexivity|].
        intros ctx. apply loop_once.
      - intros e. apply emits_atMostOnce, emits_catchBlock. }
    assert (H0 : counted 0 (initialState input)) by reflexivity.
    specialize (Hrouted (initialState input) H0).
    specialize (Hinstant (initialState input) (counted_once 0 _ (le_S _ _ (le_n 0)) H0)).
    unfold invoke, runAutonomousAgent in *.
    destruct (thinkingMode input);
      [ destruct Hshape as [t Ht]; rewrite Ht in Hrouted; exact Hrouted
      | destruct Hshape as [t Ht]; rewrite Ht in Hrouted; exact Hrouted
      | destruct Hshape as [t Ht]; rewrite Ht in Hrouted; exact Hrouted
      | destruct Hshape as [[t Ht]|Ht]; rewrite Ht in Hinstant; exact Hinstant ].
  - intros ctx s.
    assert (H := dispatch_once E input ctx (set_trace [] s) eq_refl).
    unfold events. rewrite terminalCalls_rev.
    destruct (fst (dispatch E input ctx (set_trace [] s))) as [[|x]| e |];
      [exact H|exact I|exact I|exact I].
Qed.

(** ** The handlers that return the turn *)

(** X12.  The IMAGE handler (lines 357-378) never throws and never continues the
    loop: it returns one turn with the payload gathered so far.  When the
    image is generated the turn carries it and the text is unchanged; when
    the generation fails the turn carries no image, and the note about the
    failure is appended to the text and handed to the sink. *)
Theorem image_failure_is_not_fatal (E : env) (input : AgentInput) (s : state) :
  let preferred := match profile input with
                   | Some p => preferred_image_model p
                   | None => EmptyString
                   end in
  let r := imageHandler E input s in
  In (Call (CallImage (imagePromptOf s))) (trace (snd r))
  /\ metadataPayload (snd r) = metadataPayload s
  /\ match generateImage E (now s) (imagePromptOf s) (apiKey input) preferred with
     | Resolved imageBase64 =>
         fst r = Ok (Return (single (mkTurn input (finalResponseText s)
                                       (Some imageBase64) (metadataPayload s))))
         /\ finalResponseText (snd r) = finalResponseText s
     | Rejected e =>
         fst r = Ok (Return (single (mkTurn input
                                       (finalResponseText s ++ imageFailureNote e)
                                       None (metadataPayload s))))
         /\ finalResponseText (snd r)
            = (finalResponseText s ++ imageFailureNote e)%string
         /\ hd_error (trace (snd r)) = Some (Sink (imageFailureNote e))
     end.
Proof.
  cbn zeta. unfold imageHandler, imagePromptOf, imageFailureNote.
  unfold tryCatch, await, currentTurn, sink, bind, get, emit, tick, modify,
    ret, throw.
  cbn [now trace set_now set_trace routingParameters currentPrompt].
  destruct (generateImage E (now s) _ (apiKey input) _) as [img|e];
    cbn [fst snd trace set_now set_trace set_finalResponseText metadataPayload
         finalResponseText hd_error];
    repeat split; auto.
  - now left.
  - right. now left.
Qed.

(** X13.  PROJECT and STUDY on a model that is not of Google (lines 397-399 and
    414-416): the handler issues no request and writes nothing to the sink;
    it only hands the same prompt to SIMPLE, which the next dispatch runs. *)
Theorem relay_models_degrade_to_simple (E : env) (input : AgentInput)
    (ctx : context) (s : state) :
  isGoogleModel (modelVar s) = false ->
  projectHandler E input s = (Ok Continue, set_currentAction SIMPLE s)
  /\ studyHandler E input s = (Ok Continue, set_currentAction SIMPLE s)
  /\ currentPrompt (set_currentAction SIMPLE s) = currentPrompt s
  /\ dispatch E input ctx (set_currentAction SIMPLE s)
     = simpleHandler E input ctx (set_currentAction SIMPLE s).
Proof.
  intros Hm. unfold projectHandler, studyHandler, dispatch, bind, get, modify, ret.
  rewrite Hm. now repeat split.
Qed.

(** X13 at a model of the relay: PROJECT hands over to SIMPLE. *)
Lemma relay_models_degrade_to_simple_witness :
  projectHandler Scenario.calm Scenario.llamaQuestion
    (set_modelVar "meta-llama/llama-3-8b" (initialState Scenario.llamaQuestion))
  = (Ok Continue,
     set_currentAction SIMPLE
       (set_modelVar "meta-llama/llama-3-8b" (initialState Scenario.llamaQuestion))).
Proof.
  exact (proj1 (relay_models_degrade_to_simple Scenario.calm Scenario.llamaQuestion
                  {| isNative := false; openRouterKey := "sk-or-1";
                     thinkingBudget := 0; baseSystemInstruction := EmptyString;
                     memoryJSON := EmptyString; dateTimeContext := EmptyString |}
                  (set_modelVar "meta-llama/llama-3-8b"
                     (initialState Scenario.llamaQuestion))
                  eq_refl)).
Defined.

(** ** The preparation *)

(** X14.  A model of the relay without a key for the relay (lines 231-237): the
    sink receives the notice and the model becomes gemini-2.5-flash, but the
    context was computed before and is still not native, so SIMPLE takes
    the path of the relay, with the new model and the empty key. *)
Theorem keyless_relay_model_stays_on_the_relay (E : env) (input : AgentInput)
    (budget : nat) (s : state) :
  isGoogleModel (modelVar s) = false ->
  match profile input with
  | Some p => openrouter_api_key p
  | None => EmptyString
  end = EmptyString ->
  let r := prepare E input budget s in
  modelVar (snd r) = "gemini-2.5-flash"%string
  /\ isGoogleModel (modelVar (snd r)) = true
  /\ In (Sink (Str.nl ++ "*(OpenRouter key missing, falling back to Gemini...)*"
               ++ Str.nl)%string) (trace (snd r))
  /\ match fst r with
     | Ok ctx => isNative ctx = false /\ openRouterKey ctx = EmptyString
     | _ => True
     end.
Proof.
  intros Hm Hp. cbn zeta.
  destruct (prepare_context E input budget s) as (Hmodel & Hsink & Hctx).
  cbn zeta in Hmodel, Hsink, Hctx. rewrite Hm, Hp in Hmodel, Hsink, Hctx.
  cbn [negb andb Str.truthy] in Hmodel, Hsink.
  rewrite Hmodel. split; [reflexivity|]. split; [reflexivity|].
  split; [exact Hsink|].
  destruct (fst (prepare E input budget s)); try exact I.
  destruct Hctx as (Hn & Hk & _). now split.
Qed.

(** X14 at a question to a model of the relay from a user without a profile:
    the model becomes gemini-2.5-flash. *)
Lemma keyless_relay_model_stays_on_the_relay_witness :
  modelVar (snd (prepare Scenario.calm
                   (Scenario.ask "hello" "meta-llama/llama-3-8b" Fast) 0
                   (initialState (Scenario.ask "hello" "meta-llama/llama-3-8b" Fast))))
  = "gemini-2.5-flash"%string.
Proof.
  exact (proj1 (keyless_relay_model_stays_on_the_relay Scenario.calm
                  (Scenario.ask "hello" "meta-llama/llama-3-8b" Fast) 0
                  (initialState (Scenario.ask "hello" "meta-llama/llama-3-8b" Fast))
                  eq_refl eq_refl)).
Defined.

(** ** What the sink receives in a chunk loop *)

Lemma sinkText_app (a b : list event) :
  sinkText (a ++ b) = (sinkText a ++ sinkText b)%string.
Proof.
  induction a as [|ev a IH]; [reflexivity|].
  destruct ev; cbn [app sinkText]; rewrite ?IH; try reflexivity.
  now rewrite append_assoc.
Qed.

Lemma sinkText_quiet (ev : event) (s : state) :
  match ev with Sink _ => False | _ => True end ->
  sinkText (events (set_trace (ev :: trace s) s)) = sinkText (events s).
Proof.
  intros H. unfold events. cbn [trace set_trace rev].
  rewrite sinkText_app. destruct ev; try contradiction; cbn [sinkText];
    apply append_empty_r.
Qed.

Lemma sinkText_sink (t : string) (s : state) :
  sinkText (events (set_trace (Sink t :: trace s) s))
  = (sinkText (events s) ++ t)%string.
Proof.
  unfold events. cbn [trace set_trace rev].
  rewrite sinkText_app. cbn [sinkText]. now rewrite append_empty_r.
Qed.

Ltac mirrors_side :=
  let s := fresh "s" in
  let H1 := fresh "H" in
  let H2 := fresh "H" in
  intros s [H1 H2]; split;
  [ exact H1
  | first [ exact H2
          | unfold events in *; cbn [trace set_now set_trace rev] in *; exact H2
          | rewrite sinkText_quiet; [exact H2|exact I]
          | cbn [set_now]; unfold events in *;
            cbn [trace set_now set_trace rev] in *;
            rewrite sinkText_app; cbn [sinkText];
            rewrite append_empty_r; exact H2 ] ].

Section Mirror.
Variable E : env.
Variable ctx : context.
Variable usedFallback : bool.
Variables base sunk : string.

Lemma simpleChunk_mirrors acc c :
  hoare always (mirrors base sunk acc) (simpleChunk E ctx usedFallback acc c)
        (fun r => mirrors base sunk (flowValue r)).
Proof.
  intros s [H1 H2]. unfold mirrors in *.
  unfold simpleChunk, signalAborted, sink, bind, get, emit, modify, ret.
  destruct (aborted E (now s)).
  { cbn [fst snd post flowValue finalResponseText set_trace].
    split; [exact H1|]. rewrite sinkText_quiet; [exact H2|exact I]. }
  destruct (Str.truthy (c_text c)); [|now split].
  destruct (isNative ctx || usedFallback); [destruct (c_grounding c)|];
    cbn [fst snd post flowValue finalResponseText set_trace
         set_finalResponseText set_metadataPayload];
    (split; [rewrite H1; apply append_assoc|]).
  all: unfold events in *;
    cbn [trace set_trace set_finalResponseText set_metadataPayload rev] in *;
    rewrite sinkText_app, H2; cbn [sinkText];
    rewrite append_empty_r; apply append_assoc.
Qed.

Lemma inv_mirrors_always {A} acc (m : M A) :
  inv (mirrors base sunk acc) m ->
  hoare always (mirrors base sunk acc) m (fun _ => mirrors base sunk acc).
Proof. intros H. eapply hoare_relax; [exact H|easy]. Qed.

Lemma tick_mirrors acc : inv (mirrors base sunk acc) tick.
Proof. inv_walk mirrors_side. Qed.

Lemma overChunks_mirrors failure :
  forall cs acc,
    hoare always (mirrors base sunk acc)
          (overChunks (simpleChunk E ctx usedFallback) cs failure acc)
          (fun generated => mirrors base sunk generated).
Proof.
  induction cs as [|c cs IH]; intros acc; simpl.
  - eapply hoare_bind; [apply inv_mirrors_always, tick_mirrors|]. intros u.
    destruct failure; [now apply hoare_throw|now apply hoare_ret].
  - eapply hoare_bind; [apply inv_mirrors_always, tick_mirrors|]. intros u.
    eapply hoare_bind; [apply simpleChunk_mirrors|]. intros [a|a]; cbn [flowValue].
    + apply IH.
    + eapply hoare_bind; [apply inv_mirrors_always, tick_mirrors|]. intros v.
      now apply hoare_ret.
Qed.

Lemma overLines_mirrors :
  forall lines acc,
    hoare always (mirrors base sunk acc)
          (overLines E (simpleChunk E ctx usedFallback) lines acc)
          (fun r => mirrors base sunk (flowValue r)).
Proof.
  induction lines as [|line lines IH]; intros acc; simpl.
  - now apply hoare_ret.
  - destruct (_ && _); [|apply IH].
    destruct (sseContent E _) as [content|]; [|apply IH].
    destruct (Str.truthy content); [|apply IH].
    eapply hoare_bind; [apply inv_mirrors_always, tick_mirrors|]. intros u.
    eapply hoare_bind; [apply simpleChunk_mirrors|]. intros [a|a]; cbn [flowValue].
    + apply IH.
    + eapply hoare_bind; [apply inv_mirrors_always, tick_mirrors|]. intros v.
      now apply hoare_ret.
Qed.

Lemma signalAborted_mirrors acc : inv (mirrors base sunk acc) (signalAborted E).
Proof. unfold signalAborted. inv_walk mirrors_side. Qed.

Lemma settle_mirrors {B} (p : settled B) acc :
  inv (mirrors base sunk acc) (settle p).
Proof. unfold settle. inv_walk mirrors_side. Qed.

Lemma silent_mirrors {B} (m : M B) acc :
  inv (mirrors base sunk acc) m -> inv (mirrors base sunk acc) (silentOnAbort m).
Proof. intros H. unfold silentOnAbort. inv_walk mirrors_side. Qed.

Lemma relayOpen_mirrors apiKey model msgs sys acc :
  inv (mirrors base sunk acc) (relayOpen E apiKey model msgs sys).
Proof.
  unfold relayOpen, relayFailure, await, settle. inv_walk mirrors_side.
Qed.

Lemma overReads_mirrors :
  forall reads buffer acc,
    hoare always (mirrors base sunk acc)
          (overReads E (simpleChunk E ctx usedFallback) reads buffer acc)
          (fun generated => mirrors base sunk generated).
Proof.
  induction reads as [|read reads IH]; intros buffer acc; simpl.
  - eapply hoare_bind; [apply inv_mirrors_always, signalAborted_mirrors|].
    intros [|]; [now apply hoare_ret|].
    eapply hoare_bind;
      [apply inv_mirrors_always; inv_walk mirrors_side|]. intros u1.
    eapply hoare_bind; [apply inv_mirrors_always, tick_mirrors|]. intros u2.
    now apply hoare_ret.
  - eapply hoare_bind; [apply inv_mirrors_always, signalAborted_mirrors|].
    intros [|]; [now apply hoare_ret|].
    eapply hoare_bind;
      [apply inv_mirrors_always; inv_walk mirrors_side|]. intros u3.
    eapply hoare_bind;
      [apply inv_mirrors_always, silent_mirrors, settle_mirrors|].
    intros [value|]; [|now apply hoare_ret].
    eapply hoare_bind; [apply overLines_mirrors|].
    intros [a|a]; cbn [flowValue]; [apply IH|now apply hoare_ret].
Qed.

Lemma forAwait_mirrors g :
  hoare always (mirrors base sunk EmptyString)
        (forAwait E (simpleChunk E ctx usedFallback) g EmptyString)
        (fun generated => mirrors base sunk generated).
Proof.
  destruct g as [st|apiKey model msgs sys]; simpl.
  - apply overChunks_mirrors.
  - eapply hoare_bind;
      [apply inv_mirrors_always, silent_mirrors, relayOpen_mirrors|].
    intros [reads|]; [apply overReads_mirrors|now apply hoare_ret].
Qed.
End Mirror.

Lemma appendChunk_cases (E : env) (u : unit) (c : Chunk) (s : state) :
  (appendChunk E u c s
   = (Ok (Break tt), set_trace (AbortSeen (finalResponseText s) :: trace s) s))
  \/ (appendChunk E u c s
      = (Ok (Next tt),
         set_trace (Sink (c_text c) :: trace s)
           (set_finalResponseText (finalResponseText s ++ c_text c) s)))
  \/ appendChunk E u c s = (Ok (Next tt), s).
Proof.
  unfold appendChunk, signalAborted, sink, bind, get, emit, modify, ret.
  destruct (aborted E (now s)); [now left|].
  destruct (Str.truthy (c_text c)); [right; now left|right; now right].
Qed.

Lemma tick_mirrored (base sunk : string) (s : state) :
  mirrored base sunk s -> mirrored base sunk (set_now (S (now s)) s).
Proof. intros (d & H1 & H2). exists d. now split. Qed.

Lemma appendChunk_mirrored (E : env) (base sunk : string) :
  forall cs failure u s,
    mirrored base sunk s ->
    mirrored base sunk (snd (overChunks (appendChunk E) cs failure u s)).
Proof.
  induction cs as [|c cs IH]; intros failure u s Hs; simpl.
  - unfold bind, tick, modify. destruct failure; cbn [snd]; now apply tick_mirrored.
  - unfold bind at 1, tick at 1, modify at 1.
    apply tick_mirrored in Hs. revert Hs. generalize (set_now (S (now s)) s).
    intros s1 Hs.
    destruct (appendChunk_cases E u c s1) as [H|[H|H]];
      rewrite (bind_ok _ _ _ _ _ H).
    + unfold bind, tick, modify, ret. cbn [snd].
      apply tick_mirrored.
      destruct Hs as (d & H1 & H2). exists d. split; [exact H1|].
      rewrite sinkText_quiet; [exact H2|exact I].
    + apply IH. destruct Hs as (d & H1 & H2).
      exists (d ++ c_text c)%string. split.
      * cbn [finalResponseText set_trace set_finalResponseText].
        rewrite H1. apply append_assoc.
      * unfold events in *.
        cbn [trace set_trace set_finalResponseText rev].
        rewrite sinkText_app, H2. cbn [sinkText].
        rewrite append_empty_r. apply append_assoc.
    + apply IH. exact Hs.
Qed.

(** X15.  The chunk loops (lines 347-353, 423-429 and 510-525) hand to the sink
    exactly what they append to the text of the turn: after the loop of
    SIMPLE the sink has received, since the loop started, the text
    generated in this iteration, which is also what the loop appended to
    the text; the loops of THINK and STUDY append one and the same text to
    both, however they end. *)
Theorem the_sink_mirrors_the_text (E : env) (ctx : context)
    (usedFallback : bool) (g : generator) (st : Stream) (s : state) :
  (let r := forAwait E (simpleChunk E ctx usedFallback) g EmptyString s in
   match fst r with
   | Ok generated =>
       sinkText (events (snd r)) = (sinkText (events s) ++ generated)%string
       /\ finalResponseText (snd r) = (finalResponseText s ++ generated)%string
   | _ => True
   end)
  /\ (let r := forAwait E (appendChunk E) (NativeGen st) tt s in
      exists added,
        sinkText (events (snd r)) = (sinkText (events s) ++ added)%string
        /\ finalResponseText (snd r) = (finalResponseText s ++ added)%string).
Proof.
  split; cbn zeta.
  - assert (H := forAwait_mirrors E ctx usedFallback (finalResponseText s)
                   (sinkText (events s)) g s).
    unfold mirrors in H. rewrite !append_empty_r in H.
    specialize (H (conj eq_refl eq_refl)).
    destruct (fst (forAwait E (simpleChunk E ctx usedFallback) g EmptyString s));
      try exact I.
    cbn [post] in H. now split.
  - destruct (appendChunk_mirrored E (finalResponseText s) (sinkText (events s))
                (s_chunks st) (s_failure st) tt s) as (d & H1 & H2).
    { exists EmptyString. unfold mirrors. now rewrite !append_empty_r. }
    exists d. now split.
Qed.

(** ** The end of SIMPLE *)

Lemma inv_always {A} (m : M A) : inv always m.
Proof. intros s _. now destruct (fst (m s)). Qed.

Lemma truthy_not_empty (a : string) :
  Str.truthy a = true -> String.eqb a EmptyString = false.
Proof. now destruct a. Qed.

(** X16.  The end of a SIMPLE pass without a directive (lines 543-548): the turn
    carries the text and the payload of that moment.  A blank answer after a
    search is replaced by the context of the search: the text of the turn is
    not blank, or it is the pending search context, or no search context is
    pending. *)
Theorem blank_answer_gives_the_search_context (E : env) (input : AgentInput)
    (ctx : context) (s : state) :
  let r := simpleHandler E input ctx s in
  match fst r with
  | Ok (Return x) =>
      x = single (mkTurn input (finalResponseText (snd r)) None
                    (metadataPayload (snd r)))
      /\ (nonBlank (finalResponseText (snd r)) = true
          \/ finalResponseText (snd r) = fallbackSearchContext (snd r)
          \/ fallbackSearchContext (snd r) = EmptyString)
  | _ => True
  end.
Proof.
  cbn zeta.
  assert (H : hoare always always (simpleHandler E input ctx)
                (fun r s' =>
                   match r with
                   | Return x =>
                       x = single (mkTurn input (finalResponseText s') None
                                     (metadataPayload s'))
                       /\ (nonBlank (finalResponseText s') = true
                           \/ finalResponseText s' = fallbackSearchContext s'
                           \/ fallbackSearchContext s' = EmptyString)
                   | Continue => True
                   end)).
  { unfold simpleHandler. cbv zeta.
    eapply hoare_bind; [apply inv_always|]. intros s0.
    eapply hoare_bind; [apply inv_always|]. intros userParts.
    eapply hoare_bind; [apply inv_always|]. intros s1.
    eapply hoare_bind; [apply inv_always|]. intros [g uf].
    eapply hoare_bind; [apply inv_always|]. intros generated.
    intros s2 _.
    match goal with
    | |- post _ _ (fst ?m) (snd ?m) => destruct m as [o s3] eqn:Htail
    end.
    cbn [fst snd]. revert Htail. unfold bind at 1, get at 1.
    destruct (nextDirective generated (promptVar s2)) as [[a p]|].
    - unfold bind, modify, ret. destruct a; intros Htail;
        injection Htail as <- <-; exact I.
    - unfold bind, modify, sink, emit, currentTurn, get, ret.
      destruct (negb (Str.truthy (Str.trim (finalResponseText s2)))) eqn:Hblank;
        [destruct (Str.truthy (fallbackSearchContext s2)) eqn:Hctx|];
        cbn [andb]; intros Htail; injection Htail as <- <-;
        cbn [post finalResponseText metadataPayload fallbackSearchContext
             set_trace set_finalResponseText];
        (split; [reflexivity|]).
      + right. now left.
      + right. right. now destruct (fallbackSearchContext s2).
      + left. apply negb_false_iff, truthy_not_empty in Hblank.
        unfold nonBlank. now rewrite Hblank. }
  specialize (H s I).
  destruct (fst (simpleHandler E input ctx s)) as [[|x]| e |]; try exact I.
  exact H.
Qed.

(** ** The history and the attachments *)

(** X17.  The history that SIMPLE and instant mode send (lines 146 and 437-439)
    is the history of the chat without one trailing turn of the user: what
    is dropped is nothing or one last message of the user, and nothing is
    dropped only when the history does not end with a turn of the user. *)
Theorem history_drops_one_user_turn (input : AgentInput) :
  exists dropped,
    history input = historyWithoutLast input ++ dropped
    /\ match dropped with
       | [] => match rev (history input) with
               | lastMsg :: _ => String.eqb (sender lastMsg) "user" = false
               | [] => True
               end
       | [m] => sender m = "user"%string
       | _ => False
       end.
Proof.
  unfold historyWithoutLast.
  destruct (rev (history input)) as [|lastMsg before] eqn:Hrev.
  - exists []. now rewrite app_nil_r.
  - destruct (String.eqb (sender lastMsg) "user") eqn:Hu.
    + exists [lastMsg]. split; [|now apply String.eqb_eq].
      assert (Hne : history input <> []).
      { intros H. rewrite H in Hrev. discriminate. }
      rewrite (app_removelast_last lastMsg Hne) at 1.
      f_equal. f_equal.
      rewrite <- (rev_involutive (history input)), Hrev. cbn [rev].
      apply last_last.
    + exists []. now rewrite app_nil_r.
Qed.

Lemma filter_map_swap {A B} (f : A -> B) (p : B -> bool) (l : list A) :
  filter p (map f l) = map f (filter (fun a => p (f a)) l).
Proof.
  induction l as [|a l IH]; [reflexivity|].
  cbn [map filter]. destruct (p (f a)); cbn [map]; now rewrite IH.
Qed.

(** X18.  The history handed to the native provider by THINK (lines 331-334) and
    by SIMPLE (lines 441-445): the messages whose text is not blank, in
    their order, each with one text part; the role is [user] for the user
    and, for the others, [model] on the native path and [assistant] on the
    relay.  No message with a blank text is sent. *)
Theorem blank_messages_are_not_sent (input : AgentInput) (ctx : context) :
  geminiHistory input
  = map toGeminiContent (filter (fun m => nonBlank (text m)) (history input))
  /\ map hm_parts (historyMessages input ctx)
     = map (fun m => [TextPart (text m)])
           (filter (fun m => nonBlank (text m)) (historyWithoutLast input))
  /\ map hm_content (historyMessages input ctx)
     = map text (filter (fun m => nonBlank (text m)) (historyWithoutLast input))
  /\ Forall (fun m => hm_role m = "user"%string
                      \/ hm_role m = (if isNative ctx then "model" else "assistant")%string)
            (historyMessages input ctx)
  /\ Forall (fun c => exists t, parts c = [TextPart t] /\ nonBlank t = true)
            (geminiHistory input).
Proof.
  assert (Hg : geminiHistory input
               = map toGeminiContent
                   (filter (fun m => nonBlank (text m)) (history input))).
  { unfold geminiHistory. now rewrite filter_map_swap. }
  assert (Hh : historyMessages input ctx
               = map (fun msg =>
                        {| hm_role := if String.eqb (sender msg) "user" then "user"
                                      else if isNative ctx then "model" else "assistant";
                           hm_content := text msg;
                           hm_parts := [TextPart (text msg)] |})
                     (filter (fun m => nonBlank (text m)) (historyWithoutLast input))).
  { unfold historyMessages. now rewrite filter_map_swap. }
  split; [exact Hg|]. rewrite Hh, !map_map. cbn [hm_parts hm_content].
  split; [reflexivity|]. split; [reflexivity|]. split.
  - apply Forall_map, Forall_forall. intros m _. cbn [hm_role].
    destruct (String.eqb (sender m) "user"); [now left|now right].
  - rewrite Hg. apply Forall_map, Forall_forall. intros m Hm.
    apply filter_In in Hm. exists (text m). now split.
Qed.

Lemma encodeFiles_order :
  forall fs userParts s,
    match fst (encodeFiles fs userParts s) with
    | Ok result =>
        exists inlines,
          result = rev inlines ++ userParts
          /\ map Some inlines = map inlinePart fs
    | Throw e => exists file, In file fs /\ f_dataURL file = Rejected e
    | OutOfFuel => False
    end.
Proof.
  induction fs as [|file fs IH]; intros userParts s; simpl.
  - now exists [].
  - unfold bind at 1, settle, bind at 1, tick, modify.
    destruct (f_dataURL file) as [res|e] eqn:Hread; cbn [ret throw fst snd].
    + match goal with
      | |- context [encodeFiles fs ?parts ?s1] => specialize (IH parts s1)
      end.
      destruct (fst (encodeFiles fs _ _)) as [result| e |].
      * destruct IH as (inlines & -> & Hmap).
        exists (InlineData (nth_error (Str.split "," res) 1) (f_type file)
                  :: inlines).
        split.
        -- cbn [rev]. now rewrite <- app_assoc.
        -- assert (Hi : inlinePart file
                        = Some (InlineData (nth_error (Str.split "," res) 1)
                                  (f_type file)))
             by (unfold inlinePart; now rewrite Hread).
           cbn [map]. now rewrite Hi, Hmap.
      * destruct IH as (f' & Hin & Hf'). exists f'. split; [now right|exact Hf'].
      * exact IH.
    + exists file. split; [now left|exact Hread].
Qed.

(** X19.  The attachments of SIMPLE on the native path (lines 447-464): the parts
    of the user's message are the attachments, the last one first, each
    with the data after the first comma of its data URL, followed by the
    prompt; when a file cannot be read its error is thrown and no request
    is made. *)
Theorem attachments_precede_the_prompt (fs : list File) (p : string)
    (s : state) :
  let r := encodeFiles fs [TextPart p] s in
  trace (snd r) = trace s
  /\ match fst r with
     | Ok result =>
         exists inlines,
           result = rev inlines ++ [TextPart p]
           /\ map Some inlines = map inlinePart fs
     | Throw e => exists file, In file fs /\ f_dataURL file = Rejected e
     | OutOfFuel => False
     end.
Proof.
  cbn zeta. split; [|apply encodeFiles_order].
  destruct (emits_encodeFiles (fun _ => False) fs [TextPart p] s)
    as (new & Hnew & Hc).
  rewrite Hnew.
  assert (Hnone : forall fs parts s0,
             trace (snd (encodeFiles fs parts s0)) = trace s0).
  { clear. induction fs as [|f fs IH]; intros parts s0; [reflexivity|]. simpl.
    unfold bind at 1, settle, bind at 1, tick, modify.
    destruct (f_dataURL f); cbn [ret throw snd]; [|reflexivity].
    now rewrite IH. }
  rewrite <- Hnew. apply Hnone.
Qed.

(** ** The outer catch *)

(** X20.  The turn built by the outer [catch] (lines 555-562) never has an empty
    text: after an abort it is the partial text or the notice that the
    generation was stopped, otherwise it starts with [An error occurred: ];
    an abort is not logged as an error. *)
Theorem error_turn_is_never_empty (E : env) (input : AgentInput)
    (error : jsError) (s : state) :
  exists t,
    fst (catchBlock E input error s) = Ok (single t)
    /\ Str.truthy (t_text t) = true
    /\ (if String.eqb (e_name error) "AbortError"
        then trace (snd (catchBlock E input error s)) = trace s
             /\ (t_text t = finalResponseText s
                 \/ (finalResponseText s = EmptyString
                     /\ t_text t = "(Generation stopped by user)"%string))
        else Str.startsWith (t_text t) "An error occurred: " = true
             /\ trace (snd (catchBlock E input error s))
                = Console "Error in runAutonomousAgent:" :: trace s).
Proof.
  unfold catchBlock, bind, get, console, emit, modify, ret.
  destruct (String.eqb (e_name error) "AbortError");
    eexists; (split; [reflexivity|]); cbn [t_text mkTurn fst snd trace set_trace].
  - destruct (finalResponseText s) eqn:Hf; cbn; auto.
  - cbn. split; [reflexivity|]. split; [|reflexivity].
    match goal with
    | |- Str.startsWith ?x EmptyString = true => now destruct x
    end.
Qed.

(** ** What a directive pattern matches *)

Lemma length_append (a b : string) :
  String.length (a ++ b) = String.length a + String.length b.
Proof. induction a as [|x a IH]; cbn; [reflexivity|now rewrite IH]. Qed.

Lemma consumed_app (a b : string) : Re.consumed (a ++ b) b = a.
Proof.
  unfold Re.consumed. rewrite length_append, Nat.add_sub.
  induction a as [|x a IH]; cbn; [now destruct b|now rewrite IH].
Qed.

Lemma run_lit {R} (p s : string) (c : Re.captures)
    (k : string -> Re.captures -> option R) (x : R) :
  Re.run false (Re.lit p) s c k = Some x ->
  exists rest, s = (p ++ rest)%string /\ k rest c = Some x.
Proof.
  revert s. induction p as [|a p IH]; intros s H.
  - now exists s.
  - assert (Hstep : exists s1, s = String a s1
                               /\ Re.run false (Re.lit p) s1 c k = Some x).
    { destruct p as [|b p]; cbn [Re.lit Re.run] in H;
        (destruct s as [|a' s1]; [discriminate|]);
        unfold Re.chrEq in H;
        (destruct (Ascii.eqb a a') eqn:Ha; [|discriminate]);
        apply Ascii.eqb_eq in Ha; subst a'; now exists s1. }
    destruct Hstep as (s1 & -> & H1).
    destruct (IH s1 H1) as (rest & -> & Hk). now exists rest.
Qed.

Lemma lazy_dots {R} (k : string -> Re.captures -> option R) (c : Re.captures)
    (x : R) :
  forall fuel s,
    Re.starLoop (Re.run false Re.Dot) false k fuel s c = Some x ->
    exists payload rest,
      s = (payload ++ rest)%string /\ oneLine payload = true
      /\ k rest c = Some x.
Proof.
  induction fuel as [|fuel IH]; intros s H; cbn [Re.starLoop] in H.
  - now exists EmptyString, s.
  - destruct (k s c) as [y|] eqn:Hk.
    + injection H as <-. now exists EmptyString, s.
    + cbn [Re.run] in H. destruct s as [|b s1]; [discriminate|].
      destruct (Str.isLineTerminator b) eqn:Hb; [discriminate|].
      destruct (String.length s1 <? String.length (String b s1))%nat;
        [|discriminate].
      destruct (IH s1 H) as (payload & rest & -> & Hone & Hrest).
      exists (String b payload), rest. cbn [String.append oneLine].
      rewrite Hb, Hone. now repeat split.
Qed.

Lemma tag_matchHere (name s : string) (m : Re.matchResult) :
  Re.matchHere false (Pat.tag name) s = Some m ->
  exists payload rest,
    s = ("<" ++ name ++ ">" ++ payload ++ "</" ++ name ++ ">" ++ rest)%string
    /\ Re.m_all m = ("<" ++ name ++ ">" ++ payload ++ "</" ++ name ++ ">")%string
    /\ Re.m_groups m = [(1, payload)]
    /\ oneLine payload = true.
Proof.
  unfold Re.matchHere, Pat.tag. cbn [Re.run]. intros H.
  apply run_lit in H. destruct H as (s0 & Hs & H).
  apply lazy_dots in H. destruct H as (payload & s1 & Hs0 & Hone & H).
  apply run_lit in H. destruct H as (rest & Hs1 & H).
  injection H as <-. exists payload, rest. subst s1 s0.
  rewrite consumed_app. cbn [Re.m_all Re.m_groups].
  split; [rewrite Hs; now rewrite <- !append_assoc|].
  split; [|now split].
  rewrite Hs.
  replace (("<" ++ name ++ ">") ++ payload ++ ("</" ++ name ++ ">") ++ rest)%string
    with (("<" ++ name ++ ">" ++ payload ++ "</" ++ name ++ ">") ++ rest)%string.
  - apply consumed_app.
  - now rewrite <- !append_assoc.
Qed.

Lemma tag_exec (name : string) :
  forall s m,
    Re.exec false (Pat.tag name) s = Some m ->
    exists before payload rest,
      s = (before ++ "<" ++ name ++ ">" ++ payload ++ "</" ++ name ++ ">"
           ++ rest)%string
      /\ Re.m_all m = ("<" ++ name ++ ">" ++ payload ++ "</" ++ name ++ ">")%string
      /\ Re.group 1 m = Some payload
      /\ oneLine payload = true.
Proof.
  induction s as [|a s IH]; intros m H; cbn [Re.exec] in H.
  - destruct (Re.matchHere false (Pat.tag name) EmptyString) as [m'|] eqn:Hm;
      [|discriminate].
    injection H as <-. apply tag_matchHere in Hm.
    destruct Hm as (payload & rest & Hs & Hall & Hg & Hone).
    exists EmptyString, payload, rest. unfold Re.group. rewrite Hg.
    now repeat split.
  - destruct (Re.matchHere false (Pat.tag name) (String a s)) as [m'|] eqn:Hm.
    + injection H as <-. apply tag_matchHere in Hm.
      destruct Hm as (payload & rest & Hs & Hall & Hg & Hone).
      exists EmptyString, payload, rest. unfold Re.group. rewrite Hg.
      now repeat split.
    + destruct (IH m H) as (before & payload & rest & -> & Hall & Hg & Hone).
      exists (String a before), payload, rest. now repeat split.
Qed.

Lemma tag_between (name generated : string) (m : Re.matchResult) :
  Re.exec false (Pat.tag name) generated = Some m ->
  between name (group1 m) generated /\ Re.group 1 m = Some (group1 m).
Proof.
  intros H. apply tag_exec in H.
  destruct H as (before & payload & rest & Hs & _ & Hg & Hone).
  unfold group1. rewrite Hg. split; [|reflexivity]. now exists before, rest.
Qed.

(** X21.  The directive that the scan chooses (lines 527-541) is in the scanned
    text: the prompt of SEARCH, IMAGE, PROJECT, CANVAS and STUDY is the text
    between the first pair of tags of that name, which is on one line; the
    prompt of DEEP_SEARCH is that of a DEEP tag, or the scan found a SEARCH tag
    that starts with the word deep; the prompt of THINK is the trimmed
    payload of its tag, or the prompt to fall back on; and the scan never
    chooses SIMPLE. *)
Theorem directive_payload_is_between_its_tags (generated userPrompt : string)
    (a : RouterAction) (p : string) :
  nextDirective generated userPrompt = Some (a, p) ->
  match a with
  | SEARCH => between "SEARCH" p generated
  | IMAGE => between "IMAGE" p generated
  | PROJECT => between "PROJECT" p generated
  | CANVAS => between "CANVAS" p generated
  | STUDY => between "STUDY" p generated
  | DEEP_SEARCH =>
      between "DEEP" p generated
      \/ found (Re.exec true Pat.deepSearchRe generated) = true
  | THINK =>
      p = userPrompt
      \/ exists payload, between "THINK" payload generated /\ p = Str.trim payload
  | SIMPLE | OTHER => False
  end.
Proof.
  unfold nextDirective, orMatch. cbv zeta.
  destruct (Re.exec false Pat.deepRe generated) as [m|] eqn:Hdeep.
  { intros H. injection H as <- <-. left. now apply tag_between. }
  destruct (Re.exec true Pat.deepSearchRe generated) as [m|] eqn:Hdeep2.
  { intros H. injection H as <- _. now right. }
  destruct (Re.exec false Pat.searchRe generated) as [m|] eqn:Hsearch.
  { intros H. injection H as <- <-. now apply tag_between. }
  destruct (Re.exec false Pat.thinkRe generated) as [m|] eqn:Hthink.
  { intros H. injection H as <- <-.
    apply tag_between in Hthink. destruct Hthink as [Hb Hg]. rewrite Hg.
    destruct (Str.truthy (group1 m)); [right|now left].
    now exists (group1 m). }
  destruct (Re.exec false Pat.thinkOpenRe generated) as [m|] eqn:Hopen.
  { intros H. injection H as <- <-.
    rewrite (exec_groupless false Pat.thinkOpenRe eq_refl generated m Hopen).
    now left. }
  destruct (Re.exec false Pat.imageRe generated) as [m|] eqn:Himage.
  { intros H. injection H as <- <-. now apply tag_between. }
  destruct (Re.exec false Pat.projectRe generated) as [m|] eqn:Hproject.
  { intros H. injection H as <- <-. now apply tag_between. }
  destruct (Re.exec false Pat.canvasRe generated) as [m|] eqn:Hcanvas.
  { intros H. injection H as <- <-. now apply tag_between. }
  destruct (Re.exec false Pat.studyRe generated) as [m|] eqn:Hstudy.
  { intros H. injection H as <- <-. now apply tag_between. }
  discriminate.
Qed.

(** X21 at a text with an IMAGE directive. *)
Lemma directive_payload_is_between_its_tags_witness :
  between "IMAGE" "a cat" "Here it is: <IMAGE>a cat</IMAGE> enjoy".
Proof.
  exact (directive_payload_is_between_its_tags
           "Here it is: <IMAGE>a cat</IMAGE> enjoy" "draw" IMAGE "a cat" eq_refl).
Defined.


(** ** The requests and the waits of an invocation *)

Section Cost.
Variable mu : list event -> nat.
Hypothesis mu_app : forall a b, mu (a ++ b) = mu a + mu b.
Hypothesis mu_free : forall ev, isFree ev -> mu [ev] = 0.

Lemma mu_nil : mu [] = 0.
Proof. assert (H := mu_app [] []). cbn [app] in H. lia. Qed.

Lemma mu_rev l : mu (rev l) = mu l.
Proof.
  induction l as [|ev l IH]; [reflexivity|].
  cbn [rev]. rewrite mu_app, IH.
  change (ev :: l) with ([ev] ++ l). rewrite mu_app. lia.
Qed.

Lemma adds_ret {A} (a : A) : adds mu 0 (ret a).
Proof. intros s. cbn. lia. Qed.

Lemma adds_throw {A} e : adds mu 0 (@throw A e).
Proof. intros s. cbn. lia. Qed.

Lemma adds_outOfFuel {A} : adds mu 0 (@outOfFuel A).
Proof. intros s. cbn. lia. Qed.

Lemma adds_get : adds mu 0 get.
Proof. intros s. cbn. lia. Qed.

Lemma adds_modify (f : state -> state) :
  (forall s, trace (f s) = trace s) -> adds mu 0 (modify f).
Proof. intros H s. cbn. rewrite H. lia. Qed.

Lemma adds_event (ev : event) : isFree ev -> adds mu 0 (emit ev).
Proof.
  intros H s. cbn. change (ev :: trace s) with ([ev] ++ trace s).
  rewrite mu_app, (mu_free ev H). lia.
Qed.

Lemma adds_bind {A B} a b (m : M A) (f : A -> M B) :
  adds mu a m -> (forall x, adds mu b (f x)) -> adds mu (a + b) (bind m f).
Proof.
  intros Hm Hf s. specialize (Hm s). unfold bind.
  destruct (m s) as [[x| e |] s1]; cbn [snd] in *; try lia.
  specialize (Hf x s1). lia.
Qed.

Lemma adds_tryCatch {A} a b (m : M A) (h : jsError -> M A) :
  adds mu a m -> (forall e, adds mu b (h e)) -> adds mu (a + b) (tryCatch m h).
Proof.
  intros Hm Hh s. specialize (Hm s). unfold tryCatch.
  destruct (m s) as [[x| e |] s1]; cbn [snd] in *; try lia.
  specialize (Hh e s1). lia.
Qed.

Lemma adds_weaken {A} a b (m : M A) : a <= b -> adds mu a m -> adds mu b m.
Proof. intros Hab Hm s. specialize (Hm s). lia. Qed.

Lemma free_bind {A B} (m : M A) (f : A -> M B) :
  adds mu 0 m -> (forall x, adds mu 0 (f x)) -> adds mu 0 (bind m f).
Proof. intros Hm Hf. exact (adds_bind 0 0 m f Hm Hf). Qed.

Lemma free_tryCatch {A} (m : M A) (h : jsError -> M A) :
  adds mu 0 m -> (forall e, adds mu 0 (h e)) -> adds mu 0 (tryCatch m h).
Proof. intros Hm Hh. exact (adds_tryCatch 0 0 m h Hm Hh). Qed.

Lemma free_then {A B} k (m : M A) (f : A -> M B) :
  adds mu 0 m -> (forall x, adds mu k (f x)) -> adds mu k (bind m f).
Proof. intros Hm Hf. exact (adds_bind 0 k m f Hm Hf). Qed.

Lemma then_free {A B} k (m : M A) (f : A -> M B) :
  adds mu k m -> (forall x, adds mu 0 (f x)) -> adds mu k (bind m f).
Proof.
  intros Hm Hf. apply (adds_weaken (k + 0)); [lia|]. now apply adds_bind.
Qed.

Lemma free_await {A} (c : call) (answer : nat -> settled A) :
  isFree (Call c) -> adds mu 0 (await c answer).
Proof.
  intros H. unfold await.
  apply free_bind; [apply adds_get|]. intros s0.
  apply free_bind; [now apply adds_event|]. intros u1.
  apply free_bind; [now apply adds_modify|]. intros u2.
  destruct (answer (now s0)); [apply adds_ret|apply adds_throw].
Qed.

Lemma free_settle {A} (p : settled A) : adds mu 0 (settle p).
Proof.
  unfold settle. apply free_bind; [now apply adds_modify|]. intros u.
  destruct p; [apply adds_ret|apply adds_throw].
Qed.

End Cost.

(** Walks through a computation that costs nothing. *)
Create HintDb free discriminated.

Ltac free_walk :=
  repeat first
    [ match goal with |- forall _, _ => intro end
    | progress cbv zeta
    | assumption
    | solve [ auto with free ]
    | match goal with
      | |- adds _ 0 (ret _) => apply adds_ret
      | |- adds _ 0 (throw _) => apply adds_throw
      | |- adds _ 0 outOfFuel => apply adds_outOfFuel
      | |- adds _ 0 get => apply adds_get
      | |- adds _ 0 (tryCatch _ _) => apply free_tryCatch
      | |- adds _ 0 (bind _ _) => apply free_bind
      | |- adds _ 0 (modify _) => apply adds_modify; reflexivity
      | |- adds _ 0 tick => apply adds_modify; reflexivity
      | |- adds _ 0 (sink _) => apply adds_event; first [assumption|exact I]
      | |- adds _ 0 (console _) => apply adds_event; first [assumption|exact I]
      | |- adds _ 0 (emit _) => apply adds_event; first [assumption|exact I]
      | |- adds _ 0 (await _ _) => apply free_await; first [assumption|exact I]
      | |- adds _ 0 (settle _) => apply free_settle
      | |- adds _ 0 (if ?c then _ else _) => destruct c
      | |- adds _ 0 (match ?x with _ => _ end) => destruct x
      end ].

Section Costs.
Variable E : env.
Variable mu : list event -> nat.
Variable K : nat.
Hypothesis mu_app : forall a b, mu (a ++ b) = mu a + mu b.
Hypothesis mu_free : forall ev, isFree ev -> mu [ev] = 0.
Hypothesis retry_adds :
  forall params, adds mu K (generateContentStreamWithRetry E params 3 onRetry).

Lemma free_signalAborted : adds mu 0 (signalAborted E).
Proof. unfold signalAborted. free_walk. Qed.

Lemma free_inCallback : adds mu 0 (signalAbortedInCallback E).
Proof. unfold signalAbortedInCallback. free_walk. Qed.

Hint Resolve free_signalAborted free_inCallback : free.

Lemma free_reportProgress : forall msgs, adds mu 0 (reportProgress E msgs).
Proof. induction msgs as [|msg msgs IH]; simpl; free_walk. Qed.

Lemma free_encodeFiles : forall fs userParts, adds mu 0 (encodeFiles fs userParts).
Proof.
  induction fs as [|f fs IH]; intros userParts; simpl; free_walk.
Qed.

Lemma free_silent {B} (m : M B) : adds mu 0 m -> adds mu 0 (silentOnAbort m).
Proof. intros H. unfold silentOnAbort. free_walk. Qed.

Lemma free_relayOpen apiKey model msgs sys :
  adds mu 0 (relayOpen E apiKey model msgs sys).
Proof. unfold relayOpen, relayFailure. free_walk. Qed.

Lemma free_appendChunk u c : adds mu 0 (appendChunk E u c).
Proof. unfold appendChunk. free_walk. Qed.

Lemma free_simpleChunk ctx usedFallback acc c :
  adds mu 0 (simpleChunk E ctx usedFallback acc c).
Proof. unfold simpleChunk. free_walk. Qed.

Lemma free_currentTurn input : adds mu 0 (currentTurn input).
Proof. unfold currentTurn. free_walk. Qed.

Hint Resolve free_reportProgress free_encodeFiles free_relayOpen
  free_appendChunk free_simpleChunk free_currentTurn : free.

Section FreeLoops.
Variable A : Type.
Variable body : A -> Chunk -> M (flow A).
Hypothesis body_free : forall acc c, adds mu 0 (body acc c).

Lemma free_overChunks failure :
  forall cs acc, adds mu 0 (overChunks body cs failure acc).
Proof.
  induction cs as [|c cs IH]; intros acc; simpl; free_walk.
Qed.

Lemma free_overLines : forall lines acc, adds mu 0 (overLines E body lines acc).
Proof.
  induction lines as [|line lines IH]; intros acc; simpl; free_walk.
Qed.

Lemma free_overReads :
  forall reads buffer acc, adds mu 0 (overReads E body reads buffer acc).
Proof.
  induction reads as [|read reads IH]; intros buffer acc; simpl.
  - free_walk.
  - apply free_bind; [apply free_signalAborted|]. intros b.
    destruct b; [apply adds_ret|].
    apply free_bind; [now apply adds_event|]. intros u.
    apply free_bind; [apply free_silent, free_settle|].
    intros v. destruct v as [value|]; [|apply adds_ret]. cbv zeta.
    apply free_bind; [apply free_overLines|]. intros r.
    destruct r; [apply IH|apply adds_ret].
Qed.

Lemma free_forAwait g acc : adds mu 0 (forAwait E body g acc).
Proof.
  unfold forAwait. destruct g as [st|apiKey model msgs sys].
  - apply free_overChunks.
  - apply free_bind; [apply free_silent, free_relayOpen|].
    intros o. destruct o; [apply free_overReads|apply adds_ret].
Qed.
End FreeLoops.

Variable input : AgentInput.

Lemma cost_searchHandler : adds mu K (searchHandler E input).
Proof.
  apply (adds_weaken mu 0); [lia|]. unfold searchHandler. free_walk.
Qed.

Lemma cost_imageHandler : adds mu K (imageHandler E input).
Proof.
  apply (adds_weaken mu 0); [lia|]. unfold imageHandler. free_walk.
Qed.

Lemma cost_canvasHandler : adds mu K (canvasHandler E input).
Proof.
  apply (adds_weaken mu 0); [lia|]. unfold canvasHandler. free_walk.
Qed.

Lemma cost_projectHandler : adds mu K (projectHandler E input).
Proof.
  apply (adds_weaken mu 0); [lia|]. unfold projectHandler. free_walk.
Qed.

Lemma cost_stream params :
  adds mu K (response <- generateContentStreamWithRetry E params 3 onRetry ;;
             forAwait E (appendChunk E) (NativeGen response) tt ;;
             r <- currentTurn input ;;
             ret (Return r)).
Proof.
  apply then_free; [apply retry_adds|]. intros response.
  apply free_bind; [apply free_forAwait; free_walk|].
  free_walk.
Qed.

Lemma cost_studyHandler : adds mu K (studyHandler E input).
Proof.
  unfold studyHandler.
  apply free_then; [apply adds_get|]. intros s0.
  destruct (negb (isGoogleModel (modelVar s0))).
  - apply (adds_weaken mu 0); [lia|]. free_walk.
  - apply free_then; [free_walk|]. intros u. apply cost_stream.
Qed.

Section InContext.
Variable ctx : context.

Lemma cost_thinkHandler : adds mu K (thinkHandler E input ctx).
Proof.
  unfold thinkHandler. cbv zeta.
  apply free_then; [apply adds_get|]. intros s0.
  apply free_then; [free_walk|]. intros u1.
  apply free_then; [free_walk|]. intros u2.
  apply free_then; [free_walk|]. intros u3.
  apply free_then; [apply adds_get|]. intros s1.
  apply cost_stream.
Qed.

Lemma cost_simpleHandler : adds mu K (simpleHandler E input ctx).
Proof.
  unfold simpleHandler. cbv zeta.
  apply free_then; [apply adds_get|]. intros s0.
  apply free_then; [free_walk|]. intros userParts.
  apply free_then; [apply adds_get|]. intros s1.
  apply then_free.
  - destruct (isNative ctx).
    + apply then_free; [apply retry_adds|]. free_walk.
    + rewrite tryCatch_ret. apply (adds_weaken mu 0); [lia|]. free_walk.
  - intros [g uf].
    apply free_bind; [apply free_forAwait; free_walk|].
    free_walk.
Qed.

Lemma cost_dispatch : adds mu K (dispatch E input ctx).
Proof.
  unfold dispatch.
  apply free_then; [apply adds_get|]. intros s0.
  destruct (currentAction s0);
    first [ apply cost_simpleHandler | apply cost_searchHandler
          | apply cost_thinkHandler | apply cost_imageHandler
          | apply cost_canvasHandler | apply cost_projectHandler
          | apply cost_studyHandler ].
Qed.

Lemma cost_loop :
  forall fuel s,
    loopCount s <= MAX_LOOPS ->
    mu (trace (snd (loop E input ctx fuel s))) + K * loopCount s
    <= mu (trace s) + K * MAX_LOOPS.
Proof.
  induction fuel as [|fuel IH]; intros s Hs; [cbn [loop outOfFuel snd]; nia|].
  destruct (Nat.ltb_spec (loopCount s) MAX_LOOPS) as [Hlt|Hge].
  2:{ rewrite loop_exhausted by exact Hge. cbn [snd]. nia. }
  destruct (aborted E (now s)) eqn:Hab.
  - rewrite loop_aborted by assumption. cbn [snd trace set_trace].
    change (AbortSeen (finalResponseText s) :: trace s)
      with ([AbortSeen (finalResponseText s)] ++ trace s).
    rewrite mu_app, (mu_free (AbortSeen (finalResponseText s)) I). nia.
  - rewrite loop_iteration by assumption. cbn zeta.
    set (s2 := set_trace _ _).
    assert (H2 : loopCount s2 = S (loopCount s) /\ mu (trace s2) = mu (trace s)).
    { subst s2. cbn [loopCount trace set_trace set_loopCount]. split; [reflexivity|].
      match goal with
      | |- mu (?ev :: ?tr) = _ =>
          change (ev :: tr) with ([ev] ++ tr);
          rewrite mu_app, (mu_free ev I)
      end.
      lia. }
    destruct H2 as [Hc2 Hm2].
    destruct (steady_dispatch E input ctx s2) as [(Hc3 & _) _].
    assert (Hd := cost_dispatch s2).
    destruct (dispatch E input ctx s2) as [[[|result]| e |] s3] eqn:Hdisp;
      cbn [fst snd] in *.
    + rewrite (bind_ok _ _ _ _ _ Hdisp).
      specialize (IH s3 ltac:(lia)). nia.
    + rewrite (bind_ok _ _ _ _ _ Hdisp). cbn [ret snd]. nia.
    + rewrite (bind_throw _ _ _ _ _ Hdisp). cbn [snd]. nia.
    + unfold bind. rewrite Hdisp. cbn [snd]. nia.
Qed.

End InContext.

Lemma free_prepare budget : adds mu 0 (prepare E input budget).
Proof. unfold prepare. free_walk. Qed.

Lemma free_chooseModel : adds mu 0 (chooseModel input).
Proof. unfold chooseModel. free_walk. Qed.

Lemma free_catchBlock error : adds mu 0 (catchBlock E input error).
Proof. unfold catchBlock. free_walk. Qed.

Lemma free_describeFiles :
  forall fs imageNote fileContext,
    adds mu 0 (describeFiles fs imageNote fileContext).
Proof.
  induction fs as [|f fs IH]; intros imageNote fileContext; simpl; free_walk.
Qed.

Lemma free_sinkAll : forall l, adds mu 0 (sinkAll l).
Proof. induction l as [|x l IH]; simpl; free_walk. Qed.

Hint Resolve free_describeFiles free_sinkAll : free.

Lemma free_instant :
  adds mu 0
    (tryCatch (instantBlock E input)
       (fun _ => console "Instant mode failed" ;;
                 throw (newError "Instant mode service unavailable."))).
Proof. unfold instantBlock. free_walk. Qed.

Lemma cost_invoke :
  mu (events (snd (invoke E input))) <= K * MAX_LOOPS.
Proof.
  unfold events. rewrite (mu_rev mu mu_app).
  unfold invoke, runAutonomousAgent.
  assert (H0 : mu (trace (initialState input)) = 0) by apply (mu_nil mu mu_app).
  assert (Hinstant := free_instant (initialState input)).
  assert (Hrouted :
    mu (trace (snd ((budget <- chooseModel input ;;
                     modify (set_finalResponseText EmptyString) ;;
                     tryCatch (tryBlock E input budget) (catchBlock E input))
                      (initialState input))))
    <= K * MAX_LOOPS).
  { destruct (chooseModel_returns input (initialState input))
      as (budget & s1 & Hc & _).
    assert (H1 := free_chooseModel (initialState input)).
    rewrite (bind_ok _ _ _ _ _ Hc). rewrite Hc in H1. cbn [snd] in H1.
    unfold bind at 1, modify at 1.
    set (s2 := set_finalResponseText EmptyString s1).
    assert (H2 : mu (trace s2) = 0) by (subst s2; cbn [trace set_finalResponseText]; lia).
    assert (Hp := free_prepare budget s2).
    assert (Hpc := prepare_counts E input budget s2). cbn zeta in Hpc.
    destruct Hpc as [_ Hpc].
    unfold tryCatch, tryBlock. unfold bind at 1.
    destruct (prepare E input budget s2) as [[c| e |] s3]; cbn [fst snd] in *.
    - assert (Hl := cost_loop c (S MAX_LOOPS) s3 ltac:(lia)).
      destruct (loop E input c (S MAX_LOOPS) s3) as [[x| err |] s4] eqn:Hloop;
        cbn [snd] in *.
      + nia.
      + assert (Hcb := free_catchBlock err s4). nia.
      + nia.
    - assert (Hcb := free_catchBlock e s3). nia.
    - contradiction. }
  destruct (thinkingMode input); try exact Hrouted. nia.
Qed.

End Costs.

Lemma waited_app (a b : list event) : waited (a ++ b) = waited a + waited b.
Proof. unfold waited. now rewrite waitsOf_app, list_sum_app. Qed.

Lemma streamCalls_free (ev : event) : isFree ev -> streamCalls [ev] = 0.
Proof. destruct ev as [| c | | | | |]; try reflexivity. now destruct c. Qed.

Lemma waited_free (ev : event) : isFree ev -> waited [ev] = 0.
Proof. destruct ev as [| c | | | | |]; try reflexivity. contradiction. Qed.

Lemma longestWait_bounds (stop : nat) :
  stop <= 3 -> list_sum (map backoff (seq 0 stop)) <= longestWait.
Proof.
  intros H. unfold longestWait.
  destruct stop as [|[|[|[|stop]]]]; try lia;
    cbn [seq map]; unfold list_sum; cbn [fold_right]; lia.
Qed.

(** What one run of the retry controller costs. *)
Lemma retry_cost (E : env) (params : StreamParams) :
  adds streamCalls 4 (generateContentStreamWithRetry E params 3 onRetry)
  /\ adds waited longestWait (generateContentStreamWithRetry E params 3 onRetry).
Proof.
  assert (H : forall s,
    exists added stop,
      trace (snd (generateContentStreamWithRetry E params 3 onRetry s))
      = added ++ trace s
      /\ stop <= 3
      /\ streamCalls added = S stop
      /\ waited added = list_sum (map backoff (seq 0 stop))).
  { intros s. unfold generateContentStreamWithRetry, onRetry.
    set (warn := if negb (Str.truthy (p_model params)) then console _ else ret tt).
    assert (Hwarn : exists s0, warn s = (Ok tt, s0) /\ now s0 = now s
                      /\ exists pre, trace s0 = pre ++ trace s
                         /\ waited pre = 0 /\ streamCalls pre = 0).
    { subst warn. destruct (negb (Str.truthy (p_model params))).
      - eexists. split; [reflexivity|]. split; [reflexivity|].
        eexists [_]. repeat split.
      - exists s. split; [reflexivity|]. split; [reflexivity|].
        exists []. repeat split. }
    destruct Hwarn as (s0 & Hw0 & Hnow0 & pre & Hpre & Hprew & Hprec).
    rewrite (bind_ok _ _ _ _ _ Hw0).
    destruct (attemptsFrom_policy E (withDefaultModel params) 3
                (fun attempt =>
                   generateContentStream E (now s + 2 * attempt)
                     (withDefaultModel params))
                3 (S (S 3)) 0 s0 (now s))
      as (Ho & Hb & added & Hadd & Hw & Hc);
      [reflexivity|reflexivity|lia|lia|].
    cbv zeta in Ho, Hb, Hw, Hc, Hadd.
    set (stop := lastAttempt 3 _ 3 0) in *.
    rewrite Nat.sub_0_r in Hw, Hc.
    exists (added ++ pre), stop. rewrite Hadd, Hpre, app_assoc.
    split; [reflexivity|]. split; [lia|].
    rewrite streamCalls_app, waited_app, Hc, Hprec, Hprew.
    split; [lia|].
    rewrite <- (mu_rev waited waited_app added). unfold waited at 1.
    rewrite Hw. lia. }
  split; intros s; destruct (H s) as (added & stop & -> & Hstop & Hc & Hw).
  - rewrite streamCalls_app. lia.
  - rewrite waited_app, Hw. assert (Hb := longestWait_bounds stop Hstop). lia.
Qed.


(** ** The progress of a research *)

(** X23.  The progress callback of the research (lines 300-302): once the signal
    is aborted, and as it stays so, no progress message reaches the sink;
    the callback records nothing and never fails. *)
Theorem progress_is_dropped_after_an_abort (E : env) (msgs : list string)
    (s : state) :
  monotone (aborted E) ->
  aborted E (now s) = true ->
  let r := reportProgress E msgs s in
  fst r = Ok tt /\ trace (snd r) = trace s
  /\ now (snd r) = now s + List.length msgs.
Proof.
  intros Hmono Hab. cbn zeta.
  assert (H : forall s0,
             aborted E (now s0) = true ->
             exists s', reportProgress E msgs s0 = (Ok tt, s')
                        /\ trace s' = trace s0
                        /\ now s' = now s0 + List.length msgs).
  { clear s Hab. induction msgs as [|msg msgs IH]; intros s Hab.
    - exists s. cbn. now rewrite Nat.add_0_r.
    - cbn [reportProgress]. unfold bind at 1, tick at 1, modify at 1.
      unfold bind at 1, signalAbortedInCallback, bind at 1, get at 1, ret at 1.
      assert (Hab' : aborted E (now (set_now (S (now s)) s)) = true).
      { cbn [now set_now]. apply (Hmono (now s)); [lia|exact Hab]. }
      rewrite Hab'. unfold bind at 1, ret at 1.
      destruct (IH (set_now (S (now s)) s) Hab') as (s' & Hr & Ht & Hn).
      exists s'. rewrite Hr, Ht, Hn. cbn [trace now set_now List.length].
      repeat split. lia. }
  destruct (H s Hab) as (s' & -> & Ht & Hn). now repeat split.
Qed.

(** X23 at a signal aborted from the start and two progress messages. *)
Lemma progress_is_dropped_after_an_abort_witness :
  trace (snd (reportProgress Cases.stoppedAtOnce
                ["reading"%string; "ranking"%string]
                (initialState Scenario.catsQuestion)))
  = trace (initialState Scenario.catsQuestion).
Proof.
  exact (proj1 (proj2 (progress_is_dropped_after_an_abort Cases.stoppedAtOnce
                         ["reading"%string; "ranking"%string]
                         (initialState Scenario.catsQuestion)
                         (monotone_from 0) eq_refl))).
Defined.

(** * The table of the message renderer *)

Lemma trimStart_starts (s : string) :
  match Str.trimStart s with
  | EmptyString => True
  | String c _ => Str.isSpace c = false
  end.
Proof.
  induction s as [|c s IH]; [exact I|].
  cbn [Str.trimStart]. destruct (Str.isSpace c) eqn:Hc; [exact IH|exact Hc].
Qed.

Lemma trimStart_fixed (t : string) :
  match t with
  | EmptyString => True
  | String c _ => Str.isSpace c = false
  end ->
  Str.trimStart t = t.
Proof. destruct t as [|c t]; [reflexivity|]. cbn. now intros ->. Qed.

Lemma trimEnd_starts (t : string) :
  match t with
  | EmptyString => True
  | String c _ => Str.isSpace c = false
  end ->
  match Str.trimEnd t with
  | EmptyString => True
  | String c _ => Str.isSpace c = false
  end.
Proof.
  destruct t as [|c t]; [exact (fun H => H)|]. intros Hc.
  cbn [Str.trimEnd]. destruct (Str.trimEnd t); [rewrite Hc|]; exact Hc.
Qed.

Lemma trimEnd_idempotent (t : string) :
  Str.trimEnd (Str.trimEnd t) = Str.trimEnd t.
Proof.
  induction t as [|c t IH]; [reflexivity|].
  cbn [Str.trimEnd]. destruct (Str.trimEnd t) as [|d u] eqn:Hu.
  - destruct (Str.isSpace c) eqn:Hc; [reflexivity|].
    cbn [Str.trimEnd]. now rewrite Hc.
  - cbn [Str.trimEnd]. cbn [Str.trimEnd] in IH.
    destruct (Str.trimEnd u) as [|e v] eqn:Hv.
    + destruct (Str.isSpace d) eqn:Hd; [discriminate|congruence].
    + congruence.
Qed.

Lemma trim_idempotent (s : string) : Str.trim (Str.trim s) = Str.trim s.
Proof.
  unfold Str.trim.
  rewrite (trimStart_fixed (Str.trimEnd (Str.trimStart s))).
  - apply trimEnd_idempotent.
  - apply trimEnd_starts, trimStart_starts.
Qed.

Lemma occurs_trimStart c s :
  Table.occurs c (Str.trimStart s) = true -> Table.occurs c s = true.
Proof.
  induction s as [|a s IH]; [discriminate|].
  cbn [Str.trimStart]. destruct (Str.isSpace a); [|exact (fun H => H)].
  intros H. cbn [Table.occurs]. rewrite (IH H). apply orb_true_r.
Qed.

Lemma occurs_trimEnd c s :
  Table.occurs c (Str.trimEnd s) = true -> Table.occurs c s = true.
Proof.
  induction s as [|a s IH]; [discriminate|].
  cbn [Str.trimEnd Table.occurs].
  destruct (Str.trimEnd s) as [|d u].
  - destruct (Str.isSpace a); [discriminate|].
    cbn [Table.occurs]. rewrite orb_false_r. now intros ->.
  - cbn [Table.occurs] in *. intros H. apply orb_prop in H.
    destruct H as [->|H]; [reflexivity|]. rewrite (IH H). apply orb_true_r.
Qed.

Lemma occurs_trim c s :
  Table.occurs c (Str.trim s) = true -> Table.occurs c s = true.
Proof. intros H. now apply occurs_trimStart, occurs_trimEnd. Qed.

Lemma split_without_separator (sep : ascii) (s : string) :
  Forall (fun x => Table.occurs sep x = false) (Str.split sep s).
Proof.
  induction s as [|c s IH]; [now repeat constructor|].
  cbn [Str.split]. destruct (Ascii.eqb c sep) eqn:Hc.
  - now constructor.
  - assert (Hne := split_not_empty sep s).
    destruct (Str.split sep s) as [|x xs]; [contradiction|].
    inversion IH as [|? ? Hx Hxs]; subst.
    constructor; [|exact Hxs]. cbn [Table.occurs]. now rewrite Hc, Hx.
Qed.

Lemma splitRow_cells (row : string) :
  Forall (fun cell => Str.trim cell = cell /\ Table.occurs "|" cell = false)
         (Table.splitRow row).
Proof.
  unfold Table.splitRow. destruct (negb (Str.truthy row)); [constructor|].
  apply Forall_map.
  eapply Forall_impl; [|apply (split_without_separator "|")].
  intros cell Hcell. split; [apply trim_idempotent|].
  destruct (Table.occurs "|" (Str.trim cell)) eqn:H; [|reflexivity].
  apply occurs_trim in H. congruence.
Qed.

Lemma splitRow_not_empty (row : string) :
  Str.truthy row = true -> Table.splitRow row <> [].
Proof.
  intros H. unfold Table.splitRow. rewrite H. cbn [negb].
  assert (Hne := split_not_empty "|" (Table.stripPipes (Str.trim row))).
  destruct (Str.split "|" _); [contradiction|discriminate].
Qed.

Lemma tableLines_truthy (markdown : string) :
  Forall (fun line => Str.truthy line = true) (Table.tableLines markdown).
Proof.
  unfold Table.tableLines. apply Forall_forall. intros line Hin.
  apply filter_In in Hin. destruct Hin as [_ H].
  destruct line; [discriminate|reflexivity].
Qed.

(** X24.  [parseTable] (lines 10-38): there is a table exactly when the text has
    two lines that are not blank; the first gives the headers, of which
    there is at least one (so that the test for no header of line 41 never
    holds for a table), the second the alignments, one for each of its
    cells, and every further line one row. *)
Theorem a_table_has_a_header (markdown : string) :
  match Table.parseTable markdown with
  | Some t =>
      Table.headers t <> []
      /\ List.length (Table.rows t) + 2 = List.length (Table.tableLines markdown)
      /\ Table.headers t = Table.splitRow (hd EmptyString (Table.tableLines markdown))
      /\ List.length (Table.alignments t)
         = List.length (Table.splitRow (nth 1 (Table.tableLines markdown) EmptyString))
  | None => List.length (Table.tableLines markdown) < 2
  end.
Proof.
  unfold Table.parseTable.
  assert (Ht := tableLines_truthy markdown).
  destruct (Table.tableLines markdown) as [|headerLine [|alignmentLine dataLines]];
    cbn [List.length]; try lia.
  cbn [Table.headers Table.rows Table.alignments hd nth].
  rewrite !length_map. inversion Ht as [|? ? Hh _]; subst.
  split; [now apply splitRow_not_empty|]. split; [lia|]. now split.
Qed.

(** X25.  The cells of a table (lines 20-25): every header and every cell of a
    row is trimmed and holds no pipe. *)
Theorem cells_are_trimmed (markdown : string) :
  match Table.parseTable markdown with
  | Some t =>
      Forall (fun cell => Str.trim cell = cell /\ Table.occurs "|" cell = false)
             (Table.headers t)
      /\ Forall (Forall (fun cell => Str.trim cell = cell
                                     /\ Table.occurs "|" cell = false))
                (Table.rows t)
  | None => True
  end.
Proof.
  unfold Table.parseTable.
  destruct (Table.tableLines markdown) as [|headerLine [|alignmentLine dataLines]];
    try exact I.
  cbn [Table.headers Table.rows]. split; [apply splitRow_cells|].
  apply Forall_map, Forall_forall. intros line _. apply splitRow_cells.
Qed.

(** * The loop, pass by pass *)

(** ** The matcher finds the words of a pattern *)

Section Words.
Variable ci : bool.
Variable R : Type.

Lemma starLoop_ext
    (step : string -> Re.captures -> (string -> Re.captures -> option R) -> option R) :
  (forall s c k1 k2, (forall s' c', k1 s' c' = k2 s' c') -> step s c k1 = step s c k2) ->
  forall greedy fuel k1 k2,
    (forall s' c', k1 s' c' = k2 s' c') ->
    forall s c, Re.starLoop step greedy k1 fuel s c = Re.starLoop step greedy k2 fuel s c.
Proof.
  intros Hstep greedy.
  induction fuel as [|fuel IH]; intros k1 k2 Hk s c; cbn [Re.starLoop].
  - apply Hk.
  - assert (Hmore :
      step s c (fun s' c' =>
        if (String.length s' <? String.length s)%nat
        then Re.starLoop step greedy k1 fuel s' c' else None)
      = step s c (fun s' c' =>
        if (String.length s' <? String.length s)%nat
        then Re.starLoop step greedy k2 fuel s' c' else None)).
    { apply Hstep. intros s' c'.
      destruct (String.length s' <? String.length s)%nat; [|reflexivity].
      now apply IH. }
    rewrite Hmore, (Hk s c). reflexivity.
Qed.

(** The matcher only looks at what its continuation answers. *)
Lemma run_ext :
  forall r s c (k1 k2 : string -> Re.captures -> option R),
    (forall s' c', k1 s' c' = k2 s' c') ->
    Re.run ci r s c k1 = Re.run ci r s c k2.
Proof.
  induction r as [ | a | neg ms ws | | r1 IH1 r2 IH2 | r1 IH1 r2 IH2
                 | greedy r' IH | n r' IH ];
    intros s c k1 k2 Hk; cbn [Re.run].
  - apply Hk.
  - destruct s as [|b s']; [reflexivity|]. destruct (Re.chrEq ci a b); [apply Hk|reflexivity].
  - destruct s as [|b s']; [reflexivity|].
    destruct (Re.inSet ci neg ms ws b); [apply Hk|reflexivity].
  - destruct s as [|b s']; [reflexivity|].
    destruct (Str.isLineTerminator b); [reflexivity|apply Hk].
  - apply IH1. intros s' c'. now apply IH2.
  - rewrite (IH1 s c k1 k2 Hk), (IH2 s c k1 k2 Hk). reflexivity.
  - apply starLoop_ext; [|exact Hk]. intros s0 c0 k3 k4 H34. now apply IH.
  - apply IH. intros s' c'. apply Hk.
Qed.

(** Fuel beyond the length of the text is never used. *)
Lemma starLoop_enough (r : Re.regex) (greedy : bool)
    (k : string -> Re.captures -> option R) :
  forall n s,
    String.length s <= n ->
    forall f1 f2 c,
      String.length s < f1 -> String.length s < f2 ->
      Re.starLoop (Re.run ci r) greedy k f1 s c
      = Re.starLoop (Re.run ci r) greedy k f2 s c.
Proof.
  induction n as [|n IH]; intros s Hn f1 f2 c H1 H2;
    (destruct f1 as [|f1]; [lia|]); (destruct f2 as [|f2]; [lia|]);
    cbn [Re.starLoop].
  - assert (Hmore :
      Re.run ci r s c (fun s' c' =>
        if (String.length s' <? String.length s)%nat
        then Re.starLoop (Re.run ci r) greedy k f1 s' c' else None)
      = Re.run ci r s c (fun s' c' =>
        if (String.length s' <? String.length s)%nat
        then Re.starLoop (Re.run ci r) greedy k f2 s' c' else None)).
    { apply run_ext. intros s' c'.
      destruct (Nat.ltb_spec (String.length s') (String.length s)); [lia|reflexivity]. }
    now rewrite Hmore.
  - assert (Hmore :
      Re.run ci r s c (fun s' c' =>
        if (String.length s' <? String.length s)%nat
        then Re.starLoop (Re.run ci r) greedy k f1 s' c' else None)
      = Re.run ci r s c (fun s' c' =>
        if (String.length s' <? String.length s)%nat
        then Re.starLoop (Re.run ci r) greedy k f2 s' c' else None)).
    { apply run_ext. intros s' c'.
      destruct (Nat.ltb_spec (String.length s') (String.length s)); [|reflexivity].
      apply IH; lia. }
    now rewrite Hmore.
Qed.

(** Completeness: on a text that starts with a word of the pattern, the
    matcher succeeds whenever its continuation accepts what follows the
    word (it may succeed with another word, one of a higher priority). *)
Lemma run_complete (r : Re.regex) (w : string) :
  words ci r w ->
  forall rest c (k : string -> Re.captures -> option R),
    (forall c', k rest c' <> None) ->
    Re.run ci r (w ++ rest)%string c k <> None.
Proof.
  induction 1 as [ | a b Hab | neg ms ws b Hb | b Hb
                 | r1 r2 w1 w2 H1 IH1 H2 IH2 | r1 r2 w H1 IH1 | r1 r2 w H2 IH2
                 | greedy r | greedy r w1 w2 H1 IH1 H2 IH2 | n r w H1 IH1 ];
    intros rest c k Hk; cbn [Re.run String.append].
  - apply Hk.
  - rewrite Hab. apply Hk.
  - rewrite Hb. apply Hk.
  - rewrite Hb. apply Hk.
  - rewrite append_assoc. apply IH1. intros c'. now apply IH2.
  - specialize (IH1 rest c k Hk).
    destruct (Re.run ci r1 (w ++ rest)%string c k); [discriminate|contradiction].
  - destruct (Re.run ci r1 (w ++ rest)%string c k); [discriminate|].
    now apply IH2.
  - cbn [Re.starLoop]. specialize (Hk c). destruct greedy.
    + match goal with
      | |- match ?m with _ => _ end <> None => destruct m
      end; [discriminate|exact Hk].
    + destruct (k rest c); [discriminate|contradiction].
  - destruct w1 as [|a w1]; [now apply IH2|].
    set (s := (String a w1 ++ w2 ++ rest)%string).
    assert (Hs : ((String a w1 ++ w2) ++ rest)%string = s)
      by (subst s; now rewrite append_assoc).
    cbn [Re.run] in IH2. change (String a ((w1 ++ w2) ++ rest)%string)
      with ((String a w1 ++ w2) ++ rest)%string.
    rewrite Hs.
    assert (Hmore :
      Re.run ci r s c (fun s' c' =>
        if (String.length s' <? String.length s)%nat
        then Re.starLoop (Re.run ci r) greedy k (String.length s) s' c'
        else None) <> None).
    { subst s. apply IH1. intros c'.
      rewrite !length_append. cbn [String.length].
      destruct (Nat.ltb_spec (String.length w2 + String.length rest)
                  (S (String.length w1) + (String.length w2 + String.length rest)));
        [|lia].
      rewrite (starLoop_enough r greedy k (String.length (w2 ++ rest)%string)
                 (w2 ++ rest)%string (Nat.le_refl _)
                 (S (String.length w1) + (String.length w2 + String.length rest))
                 (S (String.length (w2 ++ rest)%string)) c');
        [now apply IH2|rewrite length_append; lia|lia]. }
    cbn [Re.starLoop].
    destruct greedy.
    + intros Hnone. apply Hmore.
      match type of Hnone with
      | match ?m with _ => _ end = None => now destruct m
      end.
    + destruct (k s c); [discriminate|exact Hmore].
  - apply IH1. intros c'. apply Hk.
Qed.

(** Soundness, for a pattern without group: what the matcher consumes is a
    word of the pattern, and the captures are those it was given. *)
Lemma run_sound :
  forall r, groupless r = true ->
  forall s c (k : string -> Re.captures -> option R) x,
    Re.run ci r s c k = Some x ->
    exists w rest, s = (w ++ rest)%string /\ words ci r w /\ k rest c = Some x.
Proof.
  induction r as [ | a | neg ms ws | | r1 IH1 r2 IH2 | r1 IH1 r2 IH2
                 | greedy r' IH | n r' IH ];
    intros Hg s c k x H; cbn [Re.run groupless] in *.
  - exists EmptyString, s. repeat split; [constructor|exact H].
  - destruct s as [|b s']; [discriminate|].
    destruct (Re.chrEq ci a b) eqn:Hab; [|discriminate].
    exists (String b EmptyString), s'. repeat split; [now constructor|exact H].
  - destruct s as [|b s']; [discriminate|].
    destruct (Re.inSet ci neg ms ws b) eqn:Hb; [|discriminate].
    exists (String b EmptyString), s'. repeat split; [now constructor|exact H].
  - destruct s as [|b s']; [discriminate|].
    destruct (Str.isLineTerminator b) eqn:Hb; [discriminate|].
    exists (String b EmptyString), s'. repeat split; [now constructor|exact H].
  - apply andb_prop in Hg. destruct Hg as [Hg1 Hg2].
    apply (IH1 Hg1) in H. destruct H as (w1 & rest1 & -> & Hw1 & H).
    apply (IH2 Hg2) in H. destruct H as (w2 & rest & -> & Hw2 & H).
    exists (w1 ++ w2)%string, rest. rewrite append_assoc.
    repeat split; [now constructor|exact H].
  - apply andb_prop in Hg. destruct Hg as [Hg1 Hg2].
    destruct (Re.run ci r1 s c k) eqn:H1.
    + injection H as <-. apply (IH1 Hg1) in H1.
      destruct H1 as (w & rest & -> & Hw & H1).
      exists w, rest. repeat split; [now apply W_left|exact H1].
    + apply (IH2 Hg2) in H. destruct H as (w & rest & -> & Hw & H).
      exists w, rest. repeat split; [now apply W_right|exact H].
  - revert x H. generalize (S (String.length s)). intros fuel. revert s.
    induction fuel as [|fuel IHf]; intros s x H; cbn [Re.starLoop] in H.
    + exists EmptyString, s. repeat split; [constructor|exact H].
    + assert (Hmore : forall y,
        Re.run ci r' s c (fun s' c' =>
          if (String.length s' <? String.length s)%nat
          then Re.starLoop (Re.run ci r') greedy k fuel s' c' else None) = Some y ->
        exists w rest, s = (w ++ rest)%string /\ words ci (Re.Star greedy r') w
                       /\ k rest c = Some y).
      { intros y Hy. apply (IH Hg) in Hy.
        destruct Hy as (w1 & rest1 & -> & Hw1 & Hy).
        destruct (String.length rest1 <? String.length (w1 ++ rest1)%string)%nat;
          [|discriminate].
        apply IHf in Hy. destruct Hy as (w2 & rest & -> & Hw2 & Hy).
        exists (w1 ++ w2)%string, rest. rewrite append_assoc.
        repeat split; [now constructor|exact Hy]. }
      destruct greedy.
      * destruct (Re.run ci r' s c _) as [y|] eqn:Hy.
        -- injection H as <-. now apply Hmore.
        -- exists EmptyString, s. repeat split; [constructor|exact H].
      * destruct (k s c) as [y|] eqn:Hk.
        -- injection H as <-. exists EmptyString, s.
           repeat split; [constructor|exact Hk].
        -- now apply Hmore.
  - discriminate.
Qed.
End Words.

(** A pattern that ends with its one group: the match is a word of the
    first part followed by a word of the group, which is captured. *)
Lemma anchored_matchHere (ci : bool) (P Q : Re.regex) (s : string)
    (m : Re.matchResult) :
  groupless P = true -> groupless Q = true ->
  Re.matchHere ci (Re.Seq P (Re.Group 1 Q)) s = Some m ->
  exists w1 w2 rest,
    s = (w1 ++ w2 ++ rest)%string
    /\ words ci P w1 /\ words ci Q w2
    /\ Re.m_all m = (w1 ++ w2)%string
    /\ Re.group 1 m = Some w2.
Proof.
  intros HP HQ H. unfold Re.matchHere in H. cbn [Re.run] in H.
  apply (run_sound ci _ P HP) in H. destruct H as (w1 & rest1 & Hs & Hw1 & H).
  apply (run_sound ci _ Q HQ) in H. destruct H as (w2 & rest & Hr & Hw2 & H).
  injection H as <-. subst rest1 s.
  exists w1, w2, rest. cbn [Re.m_all Re.m_groups]. unfold Re.group.
  cbn [Re.capture Re.m_groups Nat.eqb].
  rewrite consumed_app. repeat split; try assumption.
  rewrite <- append_assoc. apply consumed_app.
Qed.

Lemma anchored_exec (ci : bool) (P Q : Re.regex) :
  groupless P = true -> groupless Q = true ->
  forall s m,
    Re.exec ci (Re.Seq P (Re.Group 1 Q)) s = Some m ->
    exists w1 w2,
      holds (w1 ++ w2)%string s
      /\ words ci P w1 /\ words ci Q w2
      /\ Re.m_all m = (w1 ++ w2)%string
      /\ Re.group 1 m = Some w2.
Proof.
  intros HP HQ.
  assert (Hhere : forall s m,
            Re.matchHere ci (Re.Seq P (Re.Group 1 Q)) s = Some m ->
            exists w1 w2,
              holds (w1 ++ w2)%string s
              /\ words ci P w1 /\ words ci Q w2
              /\ Re.m_all m = (w1 ++ w2)%string
              /\ Re.group 1 m = Some w2).
  { intros s m H. apply anchored_matchHere in H; try assumption.
    destruct H as (w1 & w2 & rest & -> & H1 & H2 & Hall & Hg).
    exists w1, w2. repeat split; try assumption.
    exists EmptyString, rest. cbn [String.append]. now rewrite append_assoc. }
  induction s as [|a s IH]; intros m H; cbn [Re.exec] in H.
  - destruct (Re.matchHere ci _ EmptyString) as [m'|] eqn:Hm; [|discriminate].
    injection H as <-. now apply Hhere.
  - destruct (Re.matchHere ci _ (String a s)) as [m'|] eqn:Hm.
    + injection H as <-. now apply Hhere.
    + destruct (IH m H) as (w1 & w2 & (before & after & ->) & Hrest).
      exists w1, w2. split; [|exact Hrest].
      now exists (String a before), after.
Qed.

(** A text that holds a word of the pattern is matched. *)
Lemma exec_complete (ci : bool) (r : Re.regex) (w s : string) :
  words ci r w -> holds w s -> Re.exec ci r s <> None.
Proof.
  intros Hw (before & after & ->).
  induction before as [|a before IH]; cbn [String.append].
  - assert (Hm : Re.matchHere ci r (w ++ after)%string <> None).
    { unfold Re.matchHere. apply run_complete; [exact Hw|]. discriminate. }
    destruct (w ++ after)%string as [|b t] eqn:Ht; cbn [Re.exec];
      destruct (Re.matchHere ci r _); try discriminate; contradiction.
  - cbn [Re.exec]. destruct (Re.matchHere ci r _); [discriminate|exact IH].
Qed.

(** ** The two patterns of the address of a video *)

Lemma words_seq_inv ci r1 r2 w :
  words ci (Re.Seq r1 r2) w ->
  exists w1 w2, w = (w1 ++ w2)%string /\ words ci r1 w1 /\ words ci r2 w2.
Proof. intros H. inversion H; subst. now eexists _, _. Qed.

Lemma words_alt_inv ci r1 r2 w :
  words ci (Re.Alt r1 r2) w -> words ci r1 w \/ words ci r2 w.
Proof. intros H. inversion H; subst; [now left|now right]. Qed.

Lemma words_chr_inv a w : words false (Re.Chr a) w -> w = String a EmptyString.
Proof.
  intros H. inversion H as [ | a' b Hab | | | | | | | | ]; subst.
  unfold Re.chrEq in Hab. apply Ascii.eqb_eq in Hab. now subst.
Qed.

Lemma words_chr a : words false (Re.Chr a) (String a EmptyString).
Proof. constructor. unfold Re.chrEq. apply Ascii.eqb_refl. Qed.

Lemma words_lit (l : string) : words false (Re.lit l) l.
Proof.
  induction l as [|a l IH]; [constructor|].
  destruct l as [|b l]; [apply words_chr|].
  change (Re.lit (String a (String b l)))
    with (Re.Seq (Re.Chr a) (Re.lit (String b l))).
  change (String a (String b l)) with (String a EmptyString ++ String b l)%string.
  constructor; [apply words_chr|exact IH].
Qed.

Lemma words_lit_inv (l w : string) : words false (Re.lit l) w -> w = l.
Proof.
  revert w. induction l as [|a l IH]; intros w H.
  - now inversion H.
  - destruct l as [|b l]; [now apply words_chr_inv|].
    change (Re.lit (String a (String b l)))
      with (Re.Seq (Re.Chr a) (Re.lit (String b l))) in H.
    apply words_seq_inv in H. destruct H as (w1 & w2 & -> & H1 & H2).
    apply words_chr_inv in H1. apply IH in H2. now subst.
Qed.

Lemma oneLine_app (a b : string) :
  oneLine (a ++ b)%string = oneLine a && oneLine b.
Proof.
  induction a as [|c a IH]; [reflexivity|].
  cbn [String.append oneLine]. now rewrite IH, andb_assoc.
Qed.

Lemma noSlash_app (a b : string) :
  noSlash (a ++ b)%string = noSlash a && noSlash b.
Proof.
  induction a as [|c a IH]; [reflexivity|].
  cbn [String.append noSlash]. now rewrite IH, andb_assoc.
Qed.

Lemma words_dots ci greedy (w : string) :
  words ci (Re.Star greedy Re.Dot) w <-> oneLine w = true.
Proof.
  split.
  - intros H. remember (Re.Star greedy Re.Dot) as r eqn:Hr.
    induction H as [ | | | | | | | g r0 | g r0 w1 w2 H1 _ H2 IH2 | ];
      try discriminate; [reflexivity|].
    injection Hr as -> ->. rewrite oneLine_app, (IH2 eq_refl), andb_true_r.
    inversion H1 as [ | | | b Hb | | | | | | ]; subst. cbn. now rewrite Hb.
  - induction w as [|c w IH]; intros H; [constructor|].
    cbn [oneLine] in H. apply andb_prop in H. destruct H as [Hc Hw].
    change (String c w) with (String c EmptyString ++ w)%string.
    constructor; [|now apply IH].
    constructor. now apply negb_true_iff.
Qed.

Lemma notSlash_inSet (b : ascii) :
  Re.inSet false true ["/"%char] false b = negb (Ascii.eqb b "/").
Proof.
  unfold Re.inSet, Re.chrEq. cbn [existsb andb]. now destruct (Ascii.eqb b "/").
Qed.

Lemma separator_inSet (b : ascii) :
  Re.inSet false false ["?"%char; "&"%char] false b
  = Ascii.eqb b "?" || Ascii.eqb b "&".
Proof.
  unfold Re.inSet, Re.chrEq. cbn [existsb andb].
  now destruct (Ascii.eqb b "?"), (Ascii.eqb b "&").
Qed.

(** The class [[^\/]]. *)
Lemma words_segment greedy (w : string) :
  words false (Re.Star greedy (Re.Set_ true ["/"%char] false)) w
  <-> noSlash w = true.
Proof.
  split.
  - intros H. remember (Re.Star greedy (Re.Set_ true ["/"%char] false)) as r eqn:Hr.
    induction H as [ | | | | | | | g r0 | g r0 w1 w2 H1 _ H2 IH2 | ];
      try discriminate; [reflexivity|].
    injection Hr as -> ->. rewrite noSlash_app, (IH2 eq_refl), andb_true_r.
    inversion H1 as [ | | neg ms ws b Hb | | | | | | | ]; subst.
    rewrite notSlash_inSet in Hb. cbn [noSlash]. now rewrite Hb.
  - induction w as [|c w IH]; intros H; [constructor|].
    cbn [noSlash] in H. apply andb_prop in H. destruct H as [Hc Hw].
    change (String c w) with (String c EmptyString ++ w)%string.
    constructor; [|now apply IH].
    constructor. now rewrite notSlash_inSet.
Qed.

Lemma idChar_inSet (b : ascii) :
  Re.inSet false true [ascii_of_nat 34; "&"%char; "?"%char; "/"%char] true b
  = isIdChar b.
Proof.
  unfold Re.inSet, Re.chrEq, isIdChar. cbn [existsb andb xorb].
  now rewrite orb_false_r, !orb_assoc.
Qed.

(** The words of [ID{n}] are the texts of [n] characters of an identifier. *)
Lemma words_identifier (n : nat) (w : string) :
  words false (Re.rep n Pat.idChar) w
  <-> String.length w = n /\ allIdChars w = true.
Proof.
  assert (Hone : forall w, words false Pat.idChar w
                           <-> String.length w = 1 /\ allIdChars w = true).
  { intros w0. split.
    - intros H. inversion H as [ | | neg ms ws b Hb | | | | | | | ]; subst.
      rewrite idChar_inSet in Hb. cbn. now rewrite Hb.
    - intros [Hl Ha]. destruct w0 as [|b [|b' w0]]; try discriminate.
      cbn in Ha. rewrite andb_true_r in Ha.
      constructor. now rewrite idChar_inSet. }
  revert w. induction n as [|n IH]; intros w.
  - cbn [Re.rep]. split.
    + intros H. now inversion H.
    + intros [Hl _]. destruct w; [constructor|discriminate].
  - destruct n as [|n]; [apply Hone|].
    change (Re.rep (S (S n)) Pat.idChar)
      with (Re.Seq Pat.idChar (Re.rep (S n) Pat.idChar)).
    split.
    + intros H. apply words_seq_inv in H. destruct H as (w1 & w2 & -> & H1 & H2).
      apply Hone in H1. apply IH in H2.
      destruct w1 as [|b [|b' w1]]; try (destruct H1; discriminate).
      cbn [String.append String.length allIdChars] in *.
      destruct H1 as [_ H1]. rewrite andb_true_r in H1.
      destruct H2 as [-> H2]. now rewrite H1, H2.
    + intros [Hl Ha]. destruct w as [|b w]; [discriminate|].
      cbn [String.length allIdChars] in Hl, Ha. injection Hl as Hl.
      apply andb_prop in Ha. destruct Ha as [Hb Ha].
      change (String b w) with (String b EmptyString ++ w)%string.
      constructor; [apply Hone; cbn; now rewrite Hb|now apply IH].
Qed.

Lemma isVideoId_words (id : string) :
  isVideoId id = true <-> words false (Re.rep 11 Pat.idChar) id.
Proof.
  rewrite words_identifier. unfold isVideoId. rewrite andb_true_iff, Nat.eqb_eq.
  reflexivity.
Qed.

(** The first part of the pattern of a video matches the prefixes of
    [videoPrefix] and nothing else. *)
Lemma videoPrefix_words (P Q : Re.regex) (p : string) :
  Pat.youtubeRe = Re.Seq P Q ->
  (words false P p <-> videoPrefix p).
Proof.
  intros Heq. unfold Pat.youtubeRe in Heq. injection Heq as <- _. split.
  - intros H.
    apply words_alt_inv in H. destruct H as [H|H];
      [|apply (words_lit_inv "youtu.be/") in H; subst; constructor].
    apply words_seq_inv in H. destruct H as (w0 & w & -> & H0 & H).
    apply (words_lit_inv "youtube.com/") in H0. subst w0.
    apply words_alt_inv in H. destruct H as [H|H].
    { apply words_seq_inv in H. destruct H as (seg & w1 & -> & Hseg & H).
      apply words_seq_inv in H. destruct H as (sl & w2 & -> & Hsl & H).
      apply words_seq_inv in H. destruct H as (more & sl2 & -> & Hmore & Hsl2).
      apply words_chr_inv in Hsl, Hsl2. subst sl sl2.
      unfold Re.plus in Hseg, Hmore.
      apply words_seq_inv in Hseg. destruct Hseg as (s1 & s2 & -> & Hs1 & Hs2).
      apply words_seq_inv in Hmore. destruct Hmore as (m1 & m2 & -> & Hm1 & Hm2).
      apply words_segment in Hs2. apply words_dots in Hm2.
      inversion Hs1 as [ | | neg ms ws b Hb | | | | | | | ]; subst.
      inversion Hm1 as [ | | | b' Hb' | | | | | | ]; subst.
      rewrite notSlash_inSet in Hb.
      apply (@VP_path (String b s2) (String b' m2)); try discriminate.
      - cbn [noSlash]. now rewrite Hb, Hs2.
      - cbn [oneLine]. now rewrite Hb', Hm2. }
    apply words_alt_inv in H. destruct H as [H|H].
    { apply words_seq_inv in H. destruct H as (w1 & sl & -> & H1 & Hsl).
      apply words_chr_inv in Hsl. subst sl.
      apply words_alt_inv in H1. destruct H1 as [H1|H1].
      - apply words_chr_inv in H1. subst. constructor.
      - apply words_seq_inv in H1. destruct H1 as (e & w2 & -> & He & H2).
        apply words_chr_inv in He. subst e. unfold Re.opt in H2.
        apply words_alt_inv in H2. destruct H2 as [H2|H2].
        + apply (words_lit_inv "mbed") in H2. subst. constructor.
        + inversion H2; subst. constructor. }
    apply words_seq_inv in H. destruct H as (middle & w1 & -> & Hmid & H).
    apply words_seq_inv in H. destruct H as (sep & w2 & -> & Hsep & H).
    apply (words_lit_inv "v=") in H. subst w2. apply words_dots in Hmid.
    inversion Hsep as [ | | neg ms ws b Hb | | | | | | | ]; subst.
    rewrite separator_inSet in Hb.
    apply (@VP_query middle (String b EmptyString)); [exact Hmid|].
    apply orb_prop in Hb. destruct Hb as [Hb|Hb]; apply Ascii.eqb_eq in Hb;
      subst; [now left|now right].
  - intros H. destruct H as [ | | | | middle sep Hmid Hsep | seg more Hs Hns Hm Hol ].
    + apply W_right. apply (words_lit "youtu.be/").
    + apply W_left.
      change "youtube.com/v/"%string with ("youtube.com/" ++ "v" ++ "/")%string.
      constructor; [apply (words_lit "youtube.com/")|].
      apply W_right, W_left. constructor; [|apply words_chr].
      apply W_left, words_chr.
    + apply W_left.
      change "youtube.com/e/"%string
        with ("youtube.com/" ++ ("e" ++ EmptyString) ++ "/")%string.
      constructor; [apply (words_lit "youtube.com/")|].
      apply W_right, W_left. constructor; [|apply words_chr].
      apply W_right. constructor; [apply words_chr|]. apply W_right. constructor.
    + apply W_left.
      change "youtube.com/embed/"%string
        with ("youtube.com/" ++ ("e" ++ "mbed") ++ "/")%string.
      constructor; [apply (words_lit "youtube.com/")|].
      apply W_right, W_left. constructor; [|apply words_chr].
      apply W_right. constructor; [apply words_chr|].
      apply W_left. apply (words_lit "mbed").
    + apply W_left. constructor; [apply (words_lit "youtube.com/")|].
      apply W_right, W_right. constructor; [now apply words_dots|].
      constructor; [|apply (words_lit "v=")].
      destruct Hsep as [->| ->]; constructor; reflexivity.
    + apply W_left. constructor; [apply (words_lit "youtube.com/")|].
      apply W_left.
      destruct seg as [|b seg]; [contradiction|].
      destruct more as [|b' more]; [contradiction|].
      cbn [noSlash oneLine] in Hns, Hol.
      apply andb_prop in Hns. destruct Hns as [Hb Hns].
      apply andb_prop in Hol. destruct Hol as [Hb' Hol].
      constructor.
      { change (String b seg) with (String b EmptyString ++ seg)%string.
        unfold Re.plus. constructor; [|now apply words_segment].
        constructor. now rewrite notSlash_inSet. }
      change ("/" ++ String b' more ++ "/")%string
        with ("/" ++ (String b' more ++ "/"))%string.
      constructor; [apply words_chr|].
      constructor; [|apply words_chr].
      change (String b' more) with (String b' EmptyString ++ more)%string.
      unfold Re.plus. constructor; [|now apply words_dots].
      constructor. now apply negb_true_iff.
Qed.

(** What the rewrite of lines 243-254 gives, by the addresses that the
    prompt holds. *)
Lemma videoRewrite_short (p : string) :
  holdsShort p ->
  exists id,
    isVideoId id = true /\ holds (shortPrefix ++ id)%string p
    /\ videoRewrite p = Some (videoQuery "Short" id (shortPrefix ++ id)%string).
Proof.
  intros (id0 & Hid0 & Hholds0).
  assert (Hfound : Re.exec false Pat.youtubeShortRe p <> None).
  { apply (exec_complete false _ (shortPrefix ++ id0)%string); [|exact Hholds0].
    unfold Pat.youtubeShortRe. constructor; [apply words_lit|].
    constructor. now apply isVideoId_words. }
  unfold videoRewrite.
  destruct (Re.exec false Pat.youtubeShortRe p) as [m|] eqn:Hm; [|contradiction].
  apply anchored_exec in Hm; [|reflexivity|reflexivity].
  destruct Hm as (w1 & w2 & Hholds & H1 & H2 & Hall & Hg).
  apply (words_lit_inv shortPrefix) in H1. apply isVideoId_words in H2. subst w1.
  exists w2. unfold group1. rewrite Hg, Hall. now repeat split.
Qed.

Lemma short_found (p : string) :
  Re.exec false Pat.youtubeShortRe p <> None -> holdsShort p.
Proof.
  intros H. destruct (Re.exec false Pat.youtubeShortRe p) as [m|] eqn:Hm;
    [|contradiction].
  apply anchored_exec in Hm; [|reflexivity|reflexivity].
  destruct Hm as (w1 & w2 & Hholds & H1 & H2 & _).
  apply (words_lit_inv shortPrefix) in H1. apply isVideoId_words in H2. subst w1.
  now exists w2.
Qed.

Lemma videoRewrite_video (p : string) :
  ~ holdsShort p -> holdsVideo p ->
  exists prefix id,
    videoPrefix prefix /\ isVideoId id = true /\ holds (prefix ++ id)%string p
    /\ videoRewrite p = Some (videoQuery "Video" id (prefix ++ id)%string).
Proof.
  intros Hshort (prefix0 & id0 & Hp0 & Hid0 & Hholds0).
  assert (Hfound : Re.exec false Pat.youtubeRe p <> None).
  { apply (exec_complete false _ (prefix0 ++ id0)%string); [|exact Hholds0].
    unfold Pat.youtubeRe. constructor.
    - now apply (videoPrefix_words _ _ prefix0 eq_refl).
    - constructor. now apply isVideoId_words. }
  unfold videoRewrite.
  destruct (Re.exec false Pat.youtubeShortRe p) as [m|] eqn:Hm.
  { exfalso. apply Hshort, short_found. now rewrite Hm. }
  destruct (Re.exec false Pat.youtubeRe p) as [m|] eqn:Hv; [|contradiction].
  apply anchored_exec in Hv; [|reflexivity|reflexivity].
  destruct Hv as (w1 & w2 & Hholds & H1 & H2 & Hall & Hg).
  apply (videoPrefix_words _ _ w1 eq_refl) in H1. apply isVideoId_words in H2.
  exists w1, w2. unfold group1. rewrite Hg, Hall. now repeat split.
Qed.

Lemma videoRewrite_none (p : string) :
  ~ holdsShort p -> ~ holdsVideo p -> videoRewrite p = None.
Proof.
  intros Hshort Hvideo. unfold videoRewrite.
  destruct (Re.exec false Pat.youtubeShortRe p) as [m|] eqn:Hm.
  { exfalso. apply Hshort, short_found. now rewrite Hm. }
  destruct (Re.exec false Pat.youtubeRe p) as [m|] eqn:Hv; [|reflexivity].
  exfalso. apply Hvideo.
  apply anchored_exec in Hv; [|reflexivity|reflexivity].
  destruct Hv as (w1 & w2 & Hholds & H1 & H2 & _).
  apply (videoPrefix_words _ _ w1 eq_refl) in H1. apply isVideoId_words in H2.
  now exists w1, w2.
Qed.


(** ** What the matcher finds, and the directives *)

Section Matches.
Variable ci : bool.
Variable R : Type.

(** What the matcher consumes is a word of the pattern. *)
Lemma run_matches :
  forall r s c (k : string -> Re.captures -> option R) x,
    Re.run ci r s c k = Some x ->
    exists w rest c',
      s = (w ++ rest)%string /\ words ci r w /\ k rest c' = Some x.
Proof.
  induction r as [ | a | neg ms ws | | r1 IH1 r2 IH2 | r1 IH1 r2 IH2
                 | greedy r' IH | n r' IH ];
    intros s c k x H; cbn [Re.run] in *.
  - exists EmptyString, s, c. repeat split; [constructor|exact H].
  - destruct s as [|b s']; [discriminate|].
    destruct (Re.chrEq ci a b) eqn:Hab; [|discriminate].
    exists (String b EmptyString), s', c.
    repeat split; [now constructor|exact H].
  - destruct s as [|b s']; [discriminate|].
    destruct (Re.inSet ci neg ms ws b) eqn:Hb; [|discriminate].
    exists (String b EmptyString), s', c.
    repeat split; [now constructor|exact H].
  - destruct s as [|b s']; [discriminate|].
    destruct (Str.isLineTerminator b) eqn:Hb; [discriminate|].
    exists (String b EmptyString), s', c.
    repeat split; [now constructor|exact H].
  - apply IH1 in H. destruct H as (w1 & rest1 & c1 & -> & Hw1 & H).
    apply IH2 in H. destruct H as (w2 & rest & c2 & -> & Hw2 & H).
    exists (w1 ++ w2)%string, rest, c2. rewrite append_assoc.
    repeat split; [now constructor|exact H].
  - destruct (Re.run ci r1 s c k) eqn:H1.
    + injection H as <-. apply IH1 in H1.
      destruct H1 as (w & rest & c1 & -> & Hw & H1).
      exists w, rest, c1. repeat split; [now apply W_left|exact H1].
    + apply IH2 in H. destruct H as (w & rest & c2 & -> & Hw & H).
      exists w, rest, c2. repeat split; [now apply W_right|exact H].
  - revert c x H. generalize (S (String.length s)). intros fuel. revert s.
    induction fuel as [|fuel IHf]; intros s c x H; cbn [Re.starLoop] in H.
    + exists EmptyString, s, c. repeat split; [constructor|exact H].
    + assert (Hmore : forall y,
        Re.run ci r' s c (fun s' c' =>
          if (String.length s' <? String.length s)%nat
          then Re.starLoop (Re.run ci r') greedy k fuel s' c' else None) = Some y ->
        exists w rest c', s = (w ++ rest)%string
                          /\ words ci (Re.Star greedy r') w
                          /\ k rest c' = Some y).
      { intros y Hy. apply IH in Hy.
        destruct Hy as (w1 & rest1 & c1 & -> & Hw1 & Hy).
        destruct (String.length rest1 <? String.length (w1 ++ rest1)%string)%nat;
          [|discriminate].
        apply IHf in Hy. destruct Hy as (w2 & rest & c2 & -> & Hw2 & Hy).
        exists (w1 ++ w2)%string, rest, c2. rewrite append_assoc.
        repeat split; [now constructor|exact Hy]. }
      destruct greedy.
      * destruct (Re.run ci r' s c _) as [y|] eqn:Hy.
        -- injection H as <-. now apply Hmore.
        -- exists EmptyString, s, c. repeat split; [constructor|exact H].
      * destruct (k s c) as [y|] eqn:Hk.
        -- injection H as <-. exists EmptyString, s, c.
           repeat split; [constructor|exact Hk].
        -- now apply Hmore.
  - apply IH in H. destruct H as (w & rest & c1 & -> & Hw & H).
    exists w, rest, ((n, Re.consumed (w ++ rest) rest) :: c1).
    repeat split; [now constructor|exact H].
Qed.
End Matches.

(** A pattern is found in a text exactly when the text holds one of its
    words. *)
Lemma found_words (ci : bool) (r : Re.regex) (s : string) :
  found (Re.exec ci r s) = true <-> exists w, words ci r w /\ holds w s.
Proof.
  split.
  - assert (Hhere : forall s m,
              Re.matchHere ci r s = Some m -> exists w, words ci r w /\ holds w s).
    { intros s0 m H. unfold Re.matchHere in H. apply run_matches in H.
      destruct H as (w & rest & _ & -> & Hw & _).
      exists w. split; [exact Hw|]. now exists EmptyString, rest. }
    induction s as [|a s IH]; cbn [Re.exec]; intros H.
    + destruct (Re.matchHere ci r EmptyString) as [m|] eqn:Hm;
        [|discriminate].
      now apply (Hhere _ m).
    + destruct (Re.matchHere ci r (String a s)) as [m|] eqn:Hm.
      * now apply (Hhere _ m).
      * destruct (IH H) as (w & Hw & before & after & ->).
        exists w. split; [exact Hw|]. now exists (String a before), after.
  - intros (w & Hw & Hholds).
    pose proof (exec_complete ci r w s Hw Hholds) as H.
    now destruct (Re.exec ci r s).
Qed.

(** The words of the patterns of the directives. *)
Lemma words_letters (l w : string) :
  words true (Re.lit l) w <-> sameLetters l w = true.
Proof.
  assert (Hone : forall a w0, words true (Re.Chr a) w0
                              <-> sameLetters (String a EmptyString) w0 = true).
  { intros a w0. split.
    - intros H. inversion H as [ | a' b Hab | | | | | | | | ]; subst.
      unfold Re.chrEq in Hab. cbn [sameLetters]. now rewrite Hab.
    - destruct w0 as [|b [|c w1]]; cbn [sameLetters]; try discriminate.
      + intros H. apply andb_prop in H. constructor. apply H.
      + intros H. apply andb_prop in H. destruct H as [_ H]. discriminate. }
  revert w. induction l as [|a l IH]; intros w.
  - split.
    + intros H. now inversion H.
    + destruct w; [constructor|discriminate].
  - destruct l as [|b l]; [apply Hone|].
    change (Re.lit (String a (String b l)))
      with (Re.Seq (Re.Chr a) (Re.lit (String b l))).
    split.
    + intros H. apply words_seq_inv in H.
      destruct H as (w1 & w2 & -> & H1 & H2).
      apply Hone in H1. apply IH in H2.
      destruct w1 as [|x [|y w1]]; cbn [sameLetters] in H1; try discriminate.
      * cbn [String.append sameLetters]. apply andb_prop in H1.
        destruct H1 as [-> _]. exact H2.
      * apply andb_prop in H1. destruct H1 as [_ H1]. discriminate.
    + destruct w as [|x w]; [discriminate|]. intros H.
      cbn [sameLetters] in H. apply andb_prop in H. destruct H as [Hx Hw].
      change (String x w) with (String x EmptyString ++ w)%string.
      constructor; [|now apply IH].
      constructor. exact Hx.
Qed.

Lemma words_spaces ci greedy (w : string) :
  words ci (Re.Star greedy Pat.space) w <-> allSpaces w = true.
Proof.
  assert (Hin : forall b, Re.inSet ci false [] true b = Str.isSpace b)
    by reflexivity.
  split.
  - intros H. remember (Re.Star greedy Pat.space) as r eqn:Hr.
    induction H as [ | | | | | | | g r0 | g r0 w1 w2 H1 _ H2 IH2 | ];
      try discriminate; [reflexivity|].
    injection Hr as -> ->. specialize (IH2 eq_refl).
    inversion H1 as [ | | neg ms ws b Hb | | | | | | | ]; subst.
    rewrite Hin in Hb. cbn [String.append allSpaces]. now rewrite Hb.
  - induction w as [|b w IH]; intros H; [constructor|].
    cbn [allSpaces] in H. apply andb_prop in H. destruct H as [Hb Hw].
    change (String b w) with (String b EmptyString ++ w)%string.
    constructor; [|now apply IH]. constructor. now rewrite Hin.
Qed.

Lemma words_tag (name w : string) :
  words false (Pat.tag name) w
  <-> exists payload,
        oneLine payload = true
        /\ w = ("<" ++ name ++ ">" ++ payload ++ "</" ++ name ++ ">")%string.
Proof.
  unfold Pat.tag. split.
  - intros H. apply words_seq_inv in H. destruct H as (w1 & w23 & -> & H1 & H).
    apply words_seq_inv in H. destruct H as (w2 & w3 & -> & H2 & H3).
    apply words_lit_inv in H1. apply words_lit_inv in H3. subst w1 w3.
    inversion H2 as [ | | | | | | | | | n r w0 Hdots ]; subst.
    apply words_dots in Hdots. exists w2. split; [exact Hdots|].
    now rewrite <- !append_assoc.
  - intros (payload & Hone & ->).
    replace ("<" ++ name ++ ">" ++ payload ++ "</" ++ name ++ ">")%string
      with (("<" ++ name ++ ">") ++ payload ++ ("</" ++ name ++ ">"))%string
      by now rewrite <- !append_assoc.
    apply W_seq; [apply words_lit|].
    apply W_seq; [|apply words_lit].
    apply W_group. now apply words_dots.
Qed.

Lemma words_deepTag (w : string) :
  words true Pat.deepSearchRe w <-> exists payload, deepTag payload w.
Proof.
  unfold Pat.deepSearchRe, Re.plus. split.
  - intros H. apply words_seq_inv in H. destruct H as (w1 & w' & -> & H1 & H).
    apply words_seq_inv in H. destruct H as (w2 & w'' & -> & H2 & H).
    apply words_seq_inv in H. destruct H as (w3 & w4 & -> & H3 & H4).
    apply words_letters in H1. apply words_letters in H4.
    apply words_seq_inv in H2. destruct H2 as (b & rest & -> & Hb & Hrest).
    inversion H3 as [ | | | | | | | | | n r w0 Hdots ]; subst.
    apply words_dots in Hdots.
    assert (Hsp : allSpaces (b ++ rest) = true).
    { apply (words_spaces true true).
      inversion Hb as [ | | neg ms ws c Hc | | | | | | | ]; subst.
      change (String c EmptyString ++ rest)%string
        with (String c EmptyString ++ rest)%string.
      apply W_more; [exact Hb|exact Hrest]. }
    exists w3, w1, (b ++ rest)%string, w4.
    split; [reflexivity|]. split; [exact H1|]. split.
    { inversion Hb; subst. discriminate. }
    now repeat split.
  - intros (payload & opening & spaces & closing & -> & Ho & Hne & Hsp & Hone & Hc).
    apply W_seq; [now apply words_letters|].
    apply W_seq.
    { destruct spaces as [|b rest]; [contradiction|].
      cbn [allSpaces] in Hsp. apply andb_prop in Hsp. destruct Hsp as [Hb Hrest].
      change (String b rest) with (String b EmptyString ++ rest)%string.
      apply W_seq; [constructor; exact Hb|].
      now apply words_spaces. }
    apply W_seq; [|now apply words_letters].
    apply W_group. now apply words_dots.
Qed.

(** A tag is found exactly when the text holds it around a payload on one
    line. *)
Lemma tag_found (name generated : string) :
  found (Re.exec false (Pat.tag name) generated) = true
  <-> exists payload, between name payload generated.
Proof.
  rewrite found_words. split.
  - intros (w & Hw & before & after & ->).
    apply words_tag in Hw. destruct Hw as (payload & Hone & ->).
    exists payload, before, after. split; [|exact Hone].
    now rewrite <- !append_assoc.
  - intros (payload & before & after & -> & Hone).
    exists ("<" ++ name ++ ">" ++ payload ++ "</" ++ name ++ ">")%string.
    split; [apply words_tag; now exists payload|].
    exists before, after. now rewrite <- !append_assoc.
Qed.

(** The directive of an action is present exactly when the text holds it. *)
Lemma present_tagged (a : RouterAction) (generated : string) :
  present a generated = true <-> tagged a generated.
Proof.
  destruct a; cbn [present tagged];
    try apply tag_found; try (split; [discriminate|contradiction]).
  - rewrite orb_true_iff, (tag_found "DEEP"), found_words. split.
    + intros [H|(w & Hw & Hholds)]; [now left|right].
      apply words_deepTag in Hw. destruct Hw as [payload Hw].
      now exists payload, w.
    + intros [H|(payload & w & Hw & Hholds)]; [now left|right].
      exists w. split; [apply words_deepTag; now exists payload|exact Hholds].
  - rewrite orb_true_iff, (tag_found "THINK"), found_words. split.
    + intros [(payload & before & after & -> & _)|(w & Hw & Hholds)].
      * exists before, (payload ++ "</THINK>" ++ after)%string. reflexivity.
      * apply (words_lit_inv "<THINK>") in Hw. now subst w.
    + intros H. right. exists "<THINK>"%string.
      split; [apply (words_lit "<THINK>")|exact H].
Qed.
(** ** Invariants of the pieces of a handler *)

Lemma hoare_conj {A} (X1 X2 P1 P2 : state -> Prop) (m : M A)
    (V1 V2 : A -> state -> Prop) :
  hoare X1 P1 m V1 -> hoare X2 P2 m V2 ->
  hoare (fun s => X1 s /\ X2 s) (fun s => P1 s /\ P2 s) m
        (fun a s => V1 a s /\ V2 a s).
Proof.
  intros H1 H2 s [Hs1 Hs2]. specialize (H1 s Hs1). specialize (H2 s Hs2).
  destruct (fst (m s)); cbn in *; [now split|now split|exact I].
Qed.

(** An invariant that the clock and the trace do not touch holds through
    the requests, the reads and the retry controller; one that the text and
    the payload do not touch either holds through the chunk loops. *)
Section Frame.
Variable E : env.
Variable J : state -> Prop.
Hypothesis J_now : forall s v, J s -> J (set_now v s).
Hypothesis J_trace : forall s v, J s -> J (set_trace v s).

Ltac frame_side :=
  idtac;
  let s := fresh "s" in
  let H := fresh "H" in
  intros s H;
  first [ exact H | apply J_now; exact H | apply J_trace; exact H ].

Lemma frame_await {A} (c : call) (answer : nat -> settled A) :
  inv J (await c answer).
Proof. unfold await. inv_walk frame_side. Qed.

Lemma frame_settle {A} (p : settled A) : inv J (settle p).
Proof. unfold settle. inv_walk frame_side. Qed.

Lemma frame_signalAborted : inv J (signalAborted E).
Proof. unfold signalAborted. inv_walk frame_side. Qed.

Lemma frame_inCallback : inv J (signalAbortedInCallback E).
Proof. unfold signalAbortedInCallback. inv_walk frame_side. Qed.

Hint Resolve frame_await frame_settle frame_signalAborted frame_inCallback : inv.

Lemma frame_attemptsFrom params retries :
  forall fuel attempt,
    inv J (attemptsFrom E fuel params retries (Some sink) attempt).
Proof.
  induction fuel as [|fuel IH]; intros attempt; simpl.
  - intros s Hs. exact I.
  - inv_walk frame_side.
Qed.

Lemma frame_retry params :
  inv J (generateContentStreamWithRetry E params 3 onRetry).
Proof.
  unfold generateContentStreamWithRetry, onRetry.
  apply inv_bind; [inv_walk frame_side|]. intros u.
  apply frame_attemptsFrom.
Qed.

Lemma frame_reportProgress : forall msgs, inv J (reportProgress E msgs).
Proof. induction msgs as [|msg msgs IH]; simpl; inv_walk frame_side. Qed.

Lemma frame_encodeFiles :
  forall fs userParts, inv J (encodeFiles fs userParts).
Proof.
  induction fs as [|f fs IH]; intros userParts; simpl; inv_walk frame_side.
Qed.

Lemma frame_silent {B} (m : M B) : inv J m -> inv J (silentOnAbort m).
Proof. intros H. unfold silentOnAbort. inv_walk frame_side. Qed.

Lemma frame_relayOpen apiKey model msgs sys :
  inv J (relayOpen E apiKey model msgs sys).
Proof. unfold relayOpen, relayFailure. inv_walk frame_side. Qed.

Hint Resolve frame_retry frame_reportProgress frame_encodeFiles
  frame_relayOpen frame_silent : inv.

Section Bodies.
Variable A : Type.
Variable body : A -> Chunk -> M (flow A).
Hypothesis body_inv : forall acc c, inv J (body acc c).

Lemma frame_overChunks failure :
  forall cs acc, inv J (overChunks body cs failure acc).
Proof.
  induction cs as [|c cs IH]; intros acc; simpl; inv_walk frame_side.
Qed.

Lemma frame_overLines : forall lines acc, inv J (overLines E body lines acc).
Proof.
  induction lines as [|line lines IH]; intros acc; simpl; inv_walk frame_side.
Qed.

Lemma frame_overReads :
  forall reads buffer acc, inv J (overReads E body reads buffer acc).
Proof.
  pose proof frame_overLines as Hlines.
  induction reads as [|read reads IH]; intros buffer acc; simpl;
    inv_walk frame_side.
Qed.

Lemma frame_forAwait g acc : inv J (forAwait E body g acc).
Proof.
  pose proof frame_overChunks as Hchunks.
  pose proof frame_overReads as Hreads.
  destruct g as [st|apiKey model msgs sys]; simpl; inv_walk frame_side.
Qed.
End Bodies.

Hypothesis J_text : forall s v, J s -> J (set_finalResponseText v s).
Hypothesis J_meta : forall s v, J s -> J (set_metadataPayload v s).

Ltac text_side :=
  idtac;
  let s := fresh "s" in
  let H := fresh "H" in
  intros s H;
  repeat first [ exact H | apply J_now | apply J_trace | apply J_text
               | apply J_meta ].

Lemma frame_appendChunk u c : inv J (appendChunk E u c).
Proof. unfold appendChunk. inv_walk text_side. Qed.

Lemma frame_simpleChunk ctx usedFallback acc c :
  inv J (simpleChunk E ctx usedFallback acc c).
Proof. unfold simpleChunk. inv_walk text_side. Qed.
End Frame.

(** ** A pass of the SIMPLE handler *)

Lemma nextDirective_found (generated userPrompt : string) :
  match nextDirective generated userPrompt with
  | Some (a, _) => find (fun d => present d generated) precedence = Some a
  | None => find (fun d => present d generated) precedence = None
  end.
Proof.
  rewrite <- (nextDirective_precedence generated userPrompt).
  now destruct (nextDirective generated userPrompt) as [[a p]|].
Qed.

Section Pass.
Variable E : env.
Variable input : AgentInput.
Variable ctx : context.
Variable s : state.

(** What the pieces of the handler before the chunk loop leave alone, and
    what the chunk loop leaves alone. *)
Let before (s0 : state) : Prop :=
  finalResponseText s0 = finalResponseText s
  /\ promptVar s0 = promptVar s
  /\ fallbackSearchContext s0 = fallbackSearchContext s.

Let during (s0 : state) : Prop :=
  promptVar s0 = promptVar s
  /\ fallbackSearchContext s0 = fallbackSearchContext s.

Let after (generated : string) (s0 : state) : Prop :=
  finalResponseText s0 = (finalResponseText s ++ generated)%string
  /\ during s0.

Lemma before_now s0 v : before s0 -> before (set_now v s0).
Proof. intros H. exact H. Qed.

Lemma before_trace s0 v : before s0 -> before (set_trace v s0).
Proof. intros H. exact H. Qed.

Lemma during_now s0 v : during s0 -> during (set_now v s0).
Proof. intros H. exact H. Qed.

Lemma during_trace s0 v : during s0 -> during (set_trace v s0).
Proof. intros H. exact H. Qed.

Lemma during_text s0 v : during s0 -> during (set_finalResponseText v s0).
Proof. intros H. exact H. Qed.

Lemma during_meta s0 v : during s0 -> during (set_metadataPayload v s0).
Proof. intros H. exact H. Qed.

(** The end of the handler, after the chunk loop that gave [generated]. *)
Lemma simpleTail_scanned (X : state -> Prop) (generated : string) :
  hoare X (after generated)
    (s0 <- get ;;
     match nextDirective generated (promptVar s0) with
     | Some (nextAction, nextPrompt) =>
         modify (set_currentAction nextAction) ;;
         modify (set_currentPrompt nextPrompt) ;;
         match nextAction with
         | IMAGE => modify (set_routingParameters [("prompt"%string, nextPrompt)])
         | _ => ret tt
         end ;;
         ret Continue
     | None =>
         (if negb (Str.truthy (Str.trim (finalResponseText s0)))
             && Str.truthy (fallbackSearchContext s0)
          then
            modify (set_finalResponseText (fallbackSearchContext s0)) ;;
            sink (fallbackSearchContext s0)
          else ret tt) ;;
         r <- currentTurn input ;;
         ret (Return r)
     end)
    (scanned input s generated).
Proof.
  intros s3 (Hf & Hp & Hc).
  match goal with
  | |- post _ _ (fst ?m) (snd ?m) => destruct m as [o s'] eqn:Htail
  end.
  cbn [fst snd]. revert Htail. unfold bind at 1, get at 1. rewrite Hp.
  unfold scanned.
  pose proof (nextDirective_found generated (promptVar s)) as Hfound.
  destruct (nextDirective generated (promptVar s)) as [[a p]|].
  - rewrite Hfound. unfold bind, modify, ret.
    destruct a; intros Htail; injection Htail as <- <-;
      cbn [post currentAction currentPrompt finalResponseText
           set_currentAction set_currentPrompt set_routingParameters];
      now repeat split.
  - rewrite Hfound, <- Hf, <- Hc.
    unfold bind, modify, sink, emit, currentTurn, get, ret.
    destruct (negb (Str.truthy (Str.trim (finalResponseText s3)))
              && Str.truthy (fallbackSearchContext s3));
      intros Htail; injection Htail as <- <-;
      cbn [post finalResponseText metadataPayload set_trace
           set_finalResponseText]; now split.
Qed.

(** The pass, whatever the collaborators do: the scan is that of the text
    by which this pass made the text of the turn grow. *)
Lemma simpleHandler_scanned :
  hoare always before (simpleHandler E input ctx)
        (fun r s' => exists generated, scanned input s generated r s').
Proof.
  unfold simpleHandler. cbv zeta.
  eapply hoare_bind; [apply hoare_get|]. intros s0.
  eapply hoare_bind with (V := fun _ => before).
  { eapply hoare_weaken with (P' := before) (V' := fun _ => before);
      [|now intros ? [_ H]|now intros ? ? H].
    eapply hoare_relax with (X := before); [|easy].
    destruct (files input); [apply inv_ret|].
    destruct (isNative ctx); [|apply inv_ret].
    apply (frame_encodeFiles E before before_now). }
  intros userParts.
  eapply hoare_bind; [apply hoare_get|]. intros s1.
  eapply hoare_bind with (V := fun _ => before).
  { eapply hoare_weaken with (P' := before) (V' := fun _ => before);
      [|now intros ? [_ H]|now intros ? ? H].
    eapply hoare_relax with (X := before); [|easy].
    pose proof (frame_retry E before before_now before_trace) as Hretry.
    destruct (isNative ctx).
    - apply inv_bind; [apply Hretry|]. intros g. apply inv_ret.
    - apply inv_tryCatch; [apply inv_ret|]. intros orError.
      destruct (_ && _); [|apply inv_throw].
      apply inv_bind; [now apply inv_modify|]. intros u1.
      apply inv_bind; [now apply inv_modify|]. intros u2.
      apply inv_bind; [apply Hretry|]. intros g. apply inv_ret. }
  intros [g uf].
  eapply hoare_bind with (V := after).
  { eapply hoare_weaken
      with (P' := fun s2 => grows (finalResponseText s) EmptyString s2 /\ during s2)
           (V' := fun generated s3 =>
                    grows (finalResponseText s) generated s3 /\ during s3).
    - eapply hoare_relax.
      + apply hoare_conj.
        * apply (forAwait_grows E ctx uf (finalResponseText s) g).
        * apply (frame_forAwait E during during_now during_trace string
                   (simpleChunk E ctx uf)).
          intros acc c.
          apply (frame_simpleChunk E during during_trace during_text
                   during_meta).
      + easy.
    - intros s2 (Hf & Hp & Hc). split; [|now split].
      unfold grows. now rewrite append_empty_r.
    - intros generated s3 H. exact H. }
  intros generated.
  eapply hoare_weaken; [apply (simpleTail_scanned always generated)|easy|].
  intros r s' H. now exists generated.
Qed.

(** A run that nothing disturbs. *)
Variable st : Stream.
Hypothesis calm : undisturbed E input ctx st.

Lemma reads_all (J : state -> Prop) :
  (forall s0 v, J s0 -> J (set_now v s0)) ->
  forall fs userParts,
    readable fs ->
    hoare (fun _ => False) J (encodeFiles fs userParts) (fun _ => J).
Proof.
  intros J_now. induction fs as [|f fs IH]; intros userParts Hfs; simpl.
  - now apply hoare_ret.
  - inversion Hfs as [|f' fs' (d & Hd) Hrest]; subst. rewrite Hd.
    eapply hoare_bind with (V := fun _ => J).
    + intros s0 H0. cbn. now apply J_now.
    + intros res. now apply IH.
Qed.

Lemma retry_answers (J : state -> Prop) (params : StreamParams) :
  (forall s0 v, J s0 -> J (set_now v s0)) ->
  (forall s0 v, J s0 -> J (set_trace v s0)) ->
  hoare (fun _ => False) J (generateContentStreamWithRetry E params 3 onRetry)
        (fun g s' => g = st /\ J s').
Proof.
  intros J_now J_trace s0 H0.
  destruct calm as (_ & _ & (_ & Hst) & _).
  unfold generateContentStreamWithRetry. cbn [attemptsFrom Nat.leb].
  unfold tryCatch, await, console, emit, bind, get, tick, modify, ret.
  destruct (negb (Str.truthy (p_model params)));
    cbn [now trace set_now set_trace fst snd]; rewrite Hst;
    cbn [post fst snd]; (split; [reflexivity|]);
    repeat first [ exact H0 | apply J_now | apply J_trace ].
Qed.

Lemma simpleChunk_undisturbed (uf : bool) (acc : string) (c : Chunk) :
  hoare (fun _ => False) (after acc) (simpleChunk E ctx uf acc c)
        (fun r s' => r = Next (acc ++ c_text c)%string
                     /\ after (acc ++ c_text c)%string s').
Proof.
  intros s0 (Hf & H0).
  destruct calm as (_ & Hquiet & _).
  unfold simpleChunk, signalAborted, sink, emit, bind, get, modify, ret.
  rewrite Hquiet.
  destruct (Str.truthy (c_text c)) eqn:Htext.
  - destruct (isNative ctx || uf); [destruct (c_grounding c)|];
      cbn [post fst snd]; (split; [reflexivity|]);
      (split; [|exact H0]);
      cbn [finalResponseText set_trace set_finalResponseText set_metadataPayload];
      rewrite Hf; apply append_assoc.
  - destruct (c_text c); [|discriminate]. rewrite append_empty_r.
    cbn [post fst snd]. split; [reflexivity|]. split; [exact Hf|exact H0].
Qed.

Lemma overChunks_undisturbed (uf : bool) :
  forall cs acc,
    hoare (fun _ => False) (after acc)
          (overChunks (simpleChunk E ctx uf) cs None acc)
          (fun generated s' =>
             generated = (acc ++ chunksText cs)%string /\ after generated s').
Proof.
  induction cs as [|c cs IH]; intros acc; simpl.
  - intros s0 H0. unfold bind, tick, modify, ret. cbn [post fst snd].
    rewrite append_empty_r. split; [reflexivity|exact H0].
  - eapply hoare_bind with (V := fun _ => after acc).
    { intros s0 H0. exact H0. }
    intros u.
    eapply hoare_bind; [apply simpleChunk_undisturbed|].
    intros r s1 [-> H1].
    assert (H := IH (acc ++ c_text c)%string s1 H1).
    rewrite append_assoc in H. exact H.
Qed.

(** The pass of a run that nothing disturbs: it never throws, and the text
    that it scans is the text of the stream. *)
Lemma simpleHandler_undisturbed :
  hoare (fun _ => False) before (simpleHandler E input ctx)
        (scanned input s (textOf st)).
Proof.
  destruct calm as (Hnative & Hquiet & (Hend & Hst) & Hfiles).
  unfold simpleHandler. cbv zeta.
  eapply hoare_bind; [apply hoare_get|]. intros s0.
  eapply hoare_bind with (V := fun _ => before).
  { eapply hoare_pre with (P' := before); [|now intros ? [_ H]].
    rewrite Hnative. destruct (files input) eqn:Hfs; [now apply hoare_ret|].
    apply reads_all; [apply before_now|exact Hfiles]. }
  intros userParts.
  eapply hoare_bind; [apply hoare_get|]. intros s1.
  rewrite Hnative.
  eapply hoare_bind
    with (V := fun chosen s2 => chosen = (NativeGen st, false) /\ before s2).
  { eapply hoare_pre with (P' := before); [|now intros ? [_ H]].
    eapply hoare_bind;
      [apply (retry_answers before _ before_now before_trace)|].
    intros g s2 [-> H2]. cbn. now split. }
  intros [g uf] s2 [Heq H2]. injection Heq as -> ->.
  revert s2 H2.
  change (hoare (fun _ => False) before
            (generatedThisLoop <- forAwait E (simpleChunk E ctx false)
                                    (NativeGen st) EmptyString ;;
             s3 <- get ;;
             match nextDirective generatedThisLoop (promptVar s3) with
             | Some (nextAction, nextPrompt) =>
                 modify (set_currentAction nextAction) ;;
                 modify (set_currentPrompt nextPrompt) ;;
                 match nextAction with
                 | IMAGE =>
                     modify (set_routingParameters [("prompt"%string, nextPrompt)])
                 | _ => ret tt
                 end ;;
                 ret Continue
             | None =>
                 (if negb (Str.truthy (Str.trim (finalResponseText s3)))
                     && Str.truthy (fallbackSearchContext s3)
                  then
                    modify (set_finalResponseText (fallbackSearchContext s3)) ;;
                    sink (fallbackSearchContext s3)
                  else ret tt) ;;
                 r <- currentTurn input ;;
                 ret (Return r)
             end)
            (scanned input s (textOf st))).
  eapply hoare_bind
    with (V := fun generated s3 => generated = textOf st /\ after generated s3).
  { cbn [forAwait]. rewrite Hend.
    eapply hoare_pre; [apply (overChunks_undisturbed false (s_chunks st) EmptyString)|].
    intros s2 (Hf & H2). split; [|exact H2]. now rewrite append_empty_r. }
  intros generated s3 [-> H3].
  exact (simpleTail_scanned (fun _ => False) (textOf st) s3 H3).
Qed.
End Pass.

(** ** From one iteration to the next *)

(** A handler that ends the loop: it returns a turn or throws. *)
Lemma returns_bind {A} (m : M A) (f : A -> M step) :
  (forall a, hoare always always (f a) (fun r _ => r <> Continue)) ->
  hoare always always (bind m f) (fun r _ => r <> Continue).
Proof. intros Hf. eapply hoare_bind; [apply inv_always|exact Hf]. Qed.

Ltac returns_walk :=
  repeat first
    [ progress cbv zeta
    | apply returns_bind; intros ?
    | apply hoare_ret; intros; discriminate
    | apply hoare_throw; intros; exact I
    | apply hoare_tryCatch with (X0 := always); [|intros ?]
    | match goal with
      | |- hoare _ _ (match ?x with _ => _ end) _ => destruct x
      end ].

Lemma never_continues (m : M step) (s : state) :
  hoare always always m (fun r _ => r <> Continue) -> fst (m s) <> Ok Continue.
Proof.
  intros H Heq. specialize (H s I). rewrite Heq in H. now apply H.
Qed.

Section Next.
Variable E : env.
Variable input : AgentInput.
Variable ctx : context.

Lemma thinkHandler_returns :
  hoare always always (thinkHandler E input ctx) (fun r _ => r <> Continue).
Proof. unfold thinkHandler. returns_walk. Qed.

Lemma imageHandler_returns :
  hoare always always (imageHandler E input) (fun r _ => r <> Continue).
Proof. unfold imageHandler. returns_walk. Qed.

Lemma canvasHandler_returns :
  hoare always always (canvasHandler E input) (fun r _ => r <> Continue).
Proof. unfold canvasHandler. returns_walk. Qed.

(** PROJECT and STUDY continue the loop only to hand over to SIMPLE. *)
Lemma projectHandler_continues s :
  fst (projectHandler E input s) = Ok Continue ->
  projectHandler E input s = (Ok Continue, set_currentAction SIMPLE s).
Proof.
  unfold projectHandler.
  match goal with
  | |- fst (bind get ?k s) = _ -> _ =>
      change (fst (k s s) = Ok Continue
              -> k s s = (Ok Continue, set_currentAction SIMPLE s))
  end.
  cbv beta. destruct (negb (isGoogleModel (modelVar s))); [reflexivity|].
  match goal with
  | |- fst (?m s) = _ -> _ =>
      intros H; exfalso; revert H; apply (never_continues m s)
  end.
  returns_walk.
Qed.

Lemma studyHandler_continues s :
  fst (studyHandler E input s) = Ok Continue ->
  studyHandler E input s = (Ok Continue, set_currentAction SIMPLE s).
Proof.
  unfold studyHandler.
  match goal with
  | |- fst (bind get ?k s) = _ -> _ =>
      change (fst (k s s) = Ok Continue
              -> k s s = (Ok Continue, set_currentAction SIMPLE s))
  end.
  cbv beta. destruct (negb (isGoogleModel (modelVar s))); [reflexivity|].
  match goal with
  | |- fst (?m s) = _ -> _ =>
      intros H; exfalso; revert H; apply (never_continues m s)
  end.
  returns_walk.
Qed.

Lemma dispatch_runs s :
  dispatch E input ctx s
  = match currentAction s with
    | SEARCH | DEEP_SEARCH => searchHandler E input s
    | THINK => thinkHandler E input ctx s
    | IMAGE => imageHandler E input s
    | CANVAS => canvasHandler E input s
    | PROJECT => projectHandler E input s
    | STUDY => studyHandler E input s
    | SIMPLE | OTHER => simpleHandler E input ctx s
    end.
Proof.
  unfold dispatch. unfold bind at 1, get at 1. now destruct (currentAction s).
Qed.

(** When a handler continues the loop, the action and the prompt that it
    leaves follow those with which it ran. *)
Lemma dispatch_follows s :
  fst (dispatch E input ctx s) = Ok Continue ->
  follows E input (promptVar s) (currentAction s) (currentPrompt s)
          (currentAction (snd (dispatch E input ctx s)))
          (currentPrompt (snd (dispatch E input ctx s))).
Proof.
  rewrite dispatch_runs. unfold follows.
  assert (Hsearch :
    fst (searchHandler E input s) = Ok Continue ->
    currentAction (snd (searchHandler E input s)) = SIMPLE
    /\ exists t result,
         r_result (deepResearch E t (currentPrompt s) (apiKey input))
         = Resolved result
         /\ currentPrompt (snd (searchHandler E input s))
            = synthesisPrompt (currentPrompt s) (answer result)).
  { destruct (searchHandler_runs E input s) as (t & added & Hrun).
    cbn zeta in Hrun. rewrite Hrun.
    destruct (r_result (deepResearch E (now s) (currentPrompt s) (apiKey input)))
      as [result|e] eqn:Hres; [|discriminate].
    intros _. split; [reflexivity|]. exists (now s), result.
    split; [exact Hres|reflexivity]. }
  assert (Hsimple :
    fst (simpleHandler E input ctx s) = Ok Continue ->
    exists generated,
      find (fun d => present d generated) precedence
      = Some (currentAction (snd (simpleHandler E input ctx s)))
      /\ nextDirective generated (promptVar s)
         = Some (currentAction (snd (simpleHandler E input ctx s)),
                 currentPrompt (snd (simpleHandler E input ctx s)))).
  { intros Hc.
    assert (H := simpleHandler_scanned E input ctx s s
                   (conj eq_refl (conj eq_refl eq_refl))).
    rewrite Hc in H. cbn [post] in H. destruct H as (generated & H).
    exists generated. unfold scanned in H.
    destruct (find (fun a => present a generated) precedence) as [a|].
    - destruct H as (_ & Ha & Hn & _). rewrite Ha. now split.
    - destruct H as [H _]. discriminate. }
  destruct (currentAction s); try exact Hsimple; try exact Hsearch.
  - intros H. exfalso. revert H.
    apply (never_continues (thinkHandler E input ctx) s), thinkHandler_returns.
  - intros H. exfalso. revert H.
    apply (never_continues (imageHandler E input) s), imageHandler_returns.
  - intros H. rewrite (projectHandler_continues s H). now split.
  - intros H. rewrite (studyHandler_continues s H). now split.
  - intros H. exfalso. revert H.
    apply (never_continues (canvasHandler E input) s), canvasHandler_returns.
Qed.

(** The records of the iterations of the loop form a chain. *)
Lemma loop_chained :
  forall fuel s,
    chained (handsOver E input (promptVar s)) (iterationsOf (trace s)) ->
    match iterationsOf (trace s) with
    | prev :: _ =>
        handsOver E input (promptVar s) prev
          (Iteration (S (loopCount s)) (currentAction s) (currentPrompt s))
    | [] => True
    end ->
    chained (handsOver E input (promptVar s))
            (iterationsOf (trace (snd (loop E input ctx fuel s)))).
Proof.
  induction fuel as [|fuel IH]; intros s Hch Hhead; [exact Hch|].
  destruct (Nat.ltb_spec (loopCount s) MAX_LOOPS) as [Hlt|Hge].
  2:{ now rewrite loop_exhausted by exact Hge. }
  destruct (aborted E (now s)) eqn:Hab.
  { now rewrite loop_aborted by assumption. }
  rewrite loop_iteration by assumption. cbn zeta.
  set (first := Iteration _ _ _). set (s2 := set_trace _ _).
  assert (H2 : iterationsOf (trace s2) = first :: iterationsOf (trace s))
    by reflexivity.
  assert (Hch2 : chained (handsOver E input (promptVar s))
                         (iterationsOf (trace s2))).
  { rewrite H2. cbn [chained]. split; [|exact Hch].
    destruct (iterationsOf (trace s)); [exact I|exact Hhead]. }
  destruct (steady_dispatch E input ctx s2) as [(Hl3 & Hi3 & Hp3) _].
  assert (Hnext := dispatch_follows s2).
  destruct (dispatch E input ctx s2) as [[[|result]| e |] s3] eqn:Hdisp;
    cbn [fst snd] in *.
  - rewrite (bind_ok _ _ _ _ _ Hdisp).
    assert (Hp : promptVar s3 = promptVar s) by (rewrite Hp3; reflexivity).
    rewrite <- Hp. apply IH; rewrite Hp, Hi3; [exact Hch2|].
    rewrite H2. subst first. cbn [handsOver]. rewrite Hl3.
    split; [reflexivity|]. exact (Hnext eq_refl).
  - rewrite (bind_ok _ _ _ _ _ Hdisp). cbn [ret snd]. now rewrite Hi3.
  - rewrite (bind_throw _ _ _ _ _ Hdisp). cbn [snd]. now rewrite Hi3.
  - unfold bind. rewrite Hdisp. cbn [snd]. now rewrite Hi3.
Qed.

(** The first record that the loop adds, when it starts an iteration. *)
Lemma loop_starts fuel s :
  loopCount s < MAX_LOOPS ->
  aborted E (now s) = false ->
  exists later,
    iterationsOf (trace (snd (loop E input ctx (S fuel) s)))
    = later ++ Iteration (S (loopCount s)) (currentAction s) (currentPrompt s)
         :: iterationsOf (trace s).
Proof.
  intros Hlt Hab. rewrite loop_iteration by assumption. cbn zeta.
  set (first := Iteration _ _ _). set (s2 := set_trace _ _).
  assert (H2 : iterationsOf (trace s2) = first :: iterationsOf (trace s))
    by reflexivity.
  destruct (steady_dispatch E input ctx s2) as [(_ & Hi3 & _) _].
  destruct (dispatch E input ctx s2) as [[[|result]| e |] s3] eqn:Hdisp;
    cbn [fst snd] in *.
  - rewrite (bind_ok _ _ _ _ _ Hdisp).
    destruct (loop_records E input ctx fuel s3) as (later & Hl & _).
    exists later. now rewrite Hl, Hi3, H2.
  - rewrite (bind_ok _ _ _ _ _ Hdisp). cbn [ret snd].
    exists []. now rewrite Hi3, H2.
  - rewrite (bind_throw _ _ _ _ _ Hdisp). cbn [snd].
    exists []. now rewrite Hi3, H2.
  - unfold bind. rewrite Hdisp. cbn [snd]. exists []. now rewrite Hi3, H2.
Qed.
End Next.

(** A chain, read in the order of time. *)
Lemma chained_nth (R : event -> event -> Prop) (l : list event) :
  chained R l ->
  forall k prev next,
    nth_error (rev l) k = Some prev ->
    nth_error (rev l) (S k) = Some next ->
    R prev next.
Proof.
  induction l as [|x l IH]; intros Hch k prev next Hprev Hnext.
  - destruct k; discriminate.
  - cbn [chained] in Hch. destruct Hch as [Hhead Hch]. cbn [rev] in *.
    assert (Hlen : length (rev l) = length l) by apply length_rev.
    destruct (Nat.lt_ge_cases (S k) (length (rev l))) as [Hlt|Hge].
    + rewrite nth_error_app1 in Hprev by lia.
      rewrite nth_error_app1 in Hnext by lia.
      now apply (IH Hch k).
    + rewrite nth_error_app2 in Hnext by lia.
      assert (Hk : S k = length (rev l)).
      { destruct (S k - length (rev l)) as [|[|j]] eqn:Hd; cbn in Hnext;
          try discriminate; lia. }
      rewrite Hk, Nat.sub_diag in Hnext. injection Hnext as <-.
      rewrite nth_error_app1 in Hprev by lia.
      destruct l as [|y l]; [cbn in Hk; lia|].
      cbn [rev] in Hprev, Hk. rewrite length_app in Hk. cbn in Hk.
      rewrite nth_error_app2 in Hprev by lia.
      replace (k - length (rev l)) with 0 in Hprev by lia.
      injection Hprev as <-. exact Hhead.
Qed.

(** The iterations of an invocation in a routed mode form a chain. *)
Lemma iterations_chained (E : env) (input : AgentInput) :
  isInstant (thinkingMode input) = false ->
  chained (handsOver E input (promptAfterRewrite (prompt input)))
          (iterationsOf (trace (snd (invoke E input)))).
Proof.
  intros Hmode.
  destruct (chooseModel_returns input (initialState input))
    as (budget & s1 & Hc & _ & Hi1 & Hp1).
  assert (Hrun : invoke E input
                 = tryCatch (tryBlock E input budget) (catchBlock E input)
                     (set_finalResponseText EmptyString s1)).
  { unfold invoke, runAutonomousAgent.
    destruct (thinkingMode input); try discriminate Hmode;
      rewrite (bind_ok _ _ _ _ _ Hc); reflexivity. }
  rewrite Hrun. set (s2 := set_finalResponseText EmptyString s1).
  assert (Hp2 : promptVar s2 = prompt input) by exact Hp1.
  assert (Hi2 : iterationsOf (trace s2) = []) by exact Hi1.
  unfold tryCatch, tryBlock.
  destruct (prepare_spec E input budget s2) as (_ & Hp3 & _).
  destruct (prepare_counts E input budget s2) as [Hi3 _].
  cbn zeta in Hp3, Hi3. rewrite Hp2 in Hp3. rewrite Hi2 in Hi3.
  destruct (prepare E input budget s2) as [[ctx| e |] s3] eqn:Hprep;
    cbn [fst snd] in *.
  - rewrite (bind_ok _ _ _ _ _ Hprep).
    assert (Hloop := loop_chained E input ctx (S MAX_LOOPS) s3).
    rewrite Hi3, Hp3 in Hloop. specialize (Hloop I I).
    destruct (loop E input ctx (S MAX_LOOPS) s3) as [[x| e |] s4];
      cbn [fst snd] in *; try exact Hloop.
    destruct (catchBlock_returns E input e s4) as (txt & s5 & -> & Hi5 & _).
    cbn [snd]. now rewrite Hi5.
  - rewrite (bind_throw _ _ _ _ _ Hprep).
    destruct (catchBlock_returns E input e s3) as (txt & s5 & -> & Hi5 & _).
    cbn [snd]. rewrite Hi5, Hi3. exact I.
  - unfold bind. rewrite Hprep. cbn [snd]. rewrite Hi3. exact I.
Qed.

(** ** The trace only grows *)

Section Appends.
Variable E : env.
Variable input : AgentInput.

Hint Resolve emits_signalAborted emits_inCallback emits_reportProgress
  emits_encodeFiles emits_currentTurn emits_appendChunk emits_simpleChunk
  : emits.

Ltac walk := emits_walk ltac:(exact I); auto with emits.

Lemma retry_appends params :
  emits anyCall (generateContentStreamWithRetry E params 3 onRetry).
Proof. apply emits_retry. exact I. Qed.

Lemma forAwait_appends {A} (body : A -> Chunk -> M (flow A)) g acc :
  (forall a c, emits anyCall (body a c)) ->
  emits anyCall (forAwait E body g acc).
Proof. intros H. apply emits_forAwait; [exact H|now destruct g]. Qed.

Lemma searchHandler_appends : emits anyCall (searchHandler E input).
Proof. unfold searchHandler. walk. Qed.

Variable ctx : context.

Lemma thinkHandler_appends : emits anyCall (thinkHandler E input ctx).
Proof.
  unfold thinkHandler. walk.
  all: first [ apply retry_appends
             | apply forAwait_appends; apply emits_appendChunk ].
Qed.

Lemma studyHandler_appends : emits anyCall (studyHandler E input).
Proof.
  unfold studyHandler. walk.
  all: first [ apply retry_appends
             | apply forAwait_appends; apply emits_appendChunk ].
Qed.

Lemma imageHandler_appends : emits anyCall (imageHandler E input).
Proof. unfold imageHandler. walk. Qed.

Lemma canvasHandler_appends : emits anyCall (canvasHandler E input).
Proof. unfold canvasHandler. walk. Qed.

Lemma projectHandler_appends : emits anyCall (projectHandler E input).
Proof. unfold projectHandler. walk. Qed.

Lemma simpleHandler_appends : emits anyCall (simpleHandler E input ctx).
Proof.
  unfold simpleHandler. walk.
  all: first [ apply retry_appends
             | apply forAwait_appends; intros; apply emits_simpleChunk ].
Qed.

Lemma dispatch_appends : emits anyCall (dispatch E input ctx).
Proof.
  unfold dispatch. apply emits_bind; [apply emits_get|]. intros s.
  destruct (currentAction s);
    first [ apply simpleHandler_appends
          | apply searchHandler_appends
          | apply thinkHandler_appends
          | apply imageHandler_appends
          | apply canvasHandler_appends
          | apply projectHandler_appends
          | apply studyHandler_appends ].
Qed.

Lemma loop_appends : forall fuel, emits anyCall (loop E input ctx fuel).
Proof.
  induction fuel as [|fuel IH]; [apply emits_outOfFuel|].
  rewrite loop_unfold. walk. apply dispatch_appends.
Qed.
End Appends.

(** What is in the trace stays there, and the record of the iterations is
    only extended. *)
Lemma appends_keeps {A} (m : M A) (s : state) :
  emits anyCall m ->
  exists new, trace (snd (m s)) = new ++ trace s.
Proof. intros H. destruct (H s) as (new & Hn & _). now exists new. Qed.

Lemma extended_events (s s' : state) (new : list event) :
  trace s' = new ++ trace s ->
  (forall ev, In ev (events s) -> In ev (events s'))
  /\ exists rest, iterationsOf (events s') = iterationsOf (events s) ++ rest.
Proof.
  intros H. split.
  - intros ev Hin. unfold events in *. rewrite H.
    apply -> in_rev. apply in_or_app. right. now apply in_rev.
  - exists (iterationsOf (rev new)). unfold events. rewrite H, rev_app_distr.
    unfold iterationsOf. apply filter_app.
Qed.

(** ** The loop, pass after pass *)

Section Passes.
Variable E : env.
Variable input : AgentInput.
Variable ctx : context.

(** A pass of SIMPLE that nothing disturbs ends as the scan of the text of
    the stream says. *)
Lemma undisturbed_pass (st : Stream) (s : state) :
  undisturbed E input ctx st ->
  exists r s',
    simpleHandler E input ctx s = (Ok r, s')
    /\ scanned input s (textOf st) r s'
    /\ keeps s s'.
Proof.
  intros Hcalm.
  assert (H := simpleHandler_undisturbed E input ctx s st Hcalm s
                 (conj eq_refl (conj eq_refl eq_refl))).
  destruct (steady_simpleHandler E input ctx s) as [Hk Ho].
  destruct (simpleHandler E input ctx s) as [[r| e |] s'];
    cbn [post fst snd] in *; try contradiction.
  now exists r, s'.
Qed.

(** The clock after the search handler. *)
Lemma reportProgress_clock :
  forall msgs s, now s <= now (snd (reportProgress E msgs s)).
Proof.
  induction msgs as [|msg msgs IH]; intros s; simpl; [reflexivity|].
  unfold bind at 1, tick at 1, modify at 1.
  unfold bind at 1, signalAbortedInCallback at 1, bind at 1, get at 1, ret at 1.
  destruct (aborted E (now (set_now (S (now s)) s))).
  - unfold bind at 1, ret at 1.
    specialize (IH (set_now (S (now s)) s)). cbn [now set_now] in IH. lia.
  - unfold bind at 1, sink at 1, emit at 1, modify at 1.
    match goal with
    | |- _ <= now (snd (reportProgress E msgs ?s1)) =>
        specialize (IH s1); cbn [now set_now set_trace] in IH
    end.
    lia.
Qed.

Lemma searchHandler_clock (s : state) :
  now s < now (snd (searchHandler E input s)).
Proof.
  unfold searchHandler.
  unfold bind at 1, sink at 1, emit at 1, modify at 1.
  unfold bind at 1, get at 1.
  unfold bind at 1, emit at 1, modify at 1.
  cbv zeta.
  match goal with
  | |- _ < now (snd (bind (reportProgress E ?msgs) ?k ?s0)) =>
      pose proof (reportProgress_clock msgs s0) as Hrp;
      destruct (reportProgress_runs E msgs s0) as (t & added & Hrun);
      rewrite Hrun in Hrp; rewrite (bind_ok _ _ _ _ _ Hrun)
  end.
  cbn [now set_now set_trace snd] in Hrp.
  unfold settle, bind, tick, modify, ret, throw.
  destruct (r_result _) as [result|e]; [destruct (sources result)|];
    cbn [snd now set_now set_trace set_metadataPayload
         set_fallbackSearchContext set_currentPrompt set_currentAction];
    lia.
Qed.

(** The first pass of the loop from a state whose action is SEARCH or
    DEEP_SEARCH: the research is called, and the loop goes on, or throws
    the error of the research. *)
Lemma loop_after_search (fuel : nat) (s : state) :
  currentAction s = SEARCH \/ currentAction s = DEEP_SEARCH ->
  loopCount s < MAX_LOOPS ->
  aborted E (now s) = false ->
  exists s',
    In (Call (CallResearch (currentPrompt s))) (trace s')
    /\ iterationsOf (trace s')
       = Iteration (S (loopCount s)) (currentAction s) (currentPrompt s)
           :: iterationsOf (trace s)
    /\ loopCount s' = S (loopCount s)
    /\ promptVar s' = promptVar s
    /\ finalResponseText s' = finalResponseText s
    /\ now s < now s'
    /\ (exists new, trace s' = new ++ trace s)
    /\ match r_result (deepResearch E (now s) (currentPrompt s) (apiKey input)) with
       | Resolved result =>
           loop E input ctx (S fuel) s = loop E input ctx fuel s'
           /\ currentAction s' = SIMPLE
           /\ currentPrompt s'
              = synthesisPrompt (currentPrompt s) (answer result)
           /\ fallbackSearchContext s' = answer result
           /\ metadataPayload s'
              = match sources result with
                | [] => metadataPayload s
                | _ :: _ => Some (map (toGrounding E) (sources result))
                end
       | Rejected e => loop E input ctx (S fuel) s = (Throw e, s')
       end.
Proof.
  intros Hact Hlt Hab. rewrite loop_iteration by assumption. cbn zeta.
  set (s2 := set_trace _ _).
  assert (Hd : dispatch E input ctx s2 = searchHandler E input s2).
  { rewrite dispatch_runs.
    change (currentAction s2) with (currentAction s).
    now destruct Hact as [-> | ->]. }
  pose proof (searchHandler_clock s2) as Hclock.
  destruct (steady_searchHandler E input s2) as [(Hc & Hi & Hp) _].
  destruct (searchHandler_runs E input s2) as (t & added & Hrun).
  cbn zeta in Hrun. rewrite <- Hd in Hrun, Hclock, Hc, Hi, Hp.
  change (now s2) with (now s) in Hrun, Hclock.
  change (currentPrompt s2) with (currentPrompt s) in Hrun.
  change (loopCount s2) with (S (loopCount s)) in Hc.
  change (promptVar s2) with (promptVar s) in Hp.
  change (iterationsOf (trace s2))
    with (Iteration (S (loopCount s)) (currentAction s) (currentPrompt s)
            :: iterationsOf (trace s)) in Hi.
  exists (snd (dispatch E input ctx s2)).
  split; [|split; [exact Hi|split; [exact Hc|split; [exact Hp|split;
    [|split; [exact Hclock|split]]]]]].
  - rewrite Hrun.
    destruct (r_result _) as [result|e]; [destruct (sources result)|];
      cbn [snd trace set_now set_trace set_metadataPayload
           set_fallbackSearchContext set_currentPrompt set_currentAction];
      apply in_or_app; right; left; reflexivity.
  - rewrite Hrun.
    destruct (r_result _) as [result|e]; [destruct (sources result)|];
      reflexivity.
  - destruct (appends_keeps (dispatch E input ctx) s2
                (dispatch_appends E input ctx)) as [new Hnew].
    exists (new ++ [Iteration (S (loopCount s)) (currentAction s)
                      (currentPrompt s)]).
    rewrite Hnew, <- app_assoc. reflexivity.
  - destruct (r_result _) as [result|e].
    + rewrite (bind_ok _ _ _ _ _ Hrun). rewrite Hrun. cbn [snd].
      split; [reflexivity|].
      destruct (sources result); repeat split; reflexivity.
    + rewrite (bind_throw _ _ _ _ _ Hrun). rewrite Hrun. reflexivity.
Qed.

(** The first pass of the loop from a state whose action is SIMPLE, when
    nothing disturbs it: the text of the stream is scanned, and the loop
    goes on with the action found, or returns the turn. *)
Lemma loop_after_pass (st : Stream) (fuel : nat) (s : state) :
  undisturbed E input ctx st ->
  currentAction s = SIMPLE \/ currentAction s = OTHER ->
  loopCount s < MAX_LOOPS ->
  exists r s',
    scanned input s (textOf st) r s'
    /\ iterationsOf (trace s')
       = Iteration (S (loopCount s)) (currentAction s) (currentPrompt s)
           :: iterationsOf (trace s)
    /\ loopCount s' = S (loopCount s)
    /\ promptVar s' = promptVar s
    /\ (exists new, trace s' = new ++ trace s)
    /\ loop E input ctx (S fuel) s
       = match r with
         | Continue => loop E input ctx fuel s'
         | Return result => (Ok result, s')
         end.
Proof.
  intros Hcalm Hact Hlt.
  assert (Hab : aborted E (now s) = false) by apply Hcalm.
  rewrite loop_iteration by assumption. cbn zeta.
  set (s2 := set_trace _ _).
  assert (Hd : dispatch E input ctx s2 = simpleHandler E input ctx s2).
  { rewrite dispatch_runs.
    change (currentAction s2) with (currentAction s).
    now destruct Hact as [-> | ->]. }
  destruct (undisturbed_pass st s2 Hcalm) as (r & s' & Hrun & Hscan & Hc & Hi & Hp).
  rewrite <- Hd in Hrun. exists r, s'.
  split; [exact Hscan|]. split; [exact Hi|]. split; [exact Hc|].
  split; [exact Hp|]. split.
  - destruct (appends_keeps (dispatch E input ctx) s2
                (dispatch_appends E input ctx)) as [new Hnew].
    rewrite Hrun in Hnew. cbn [snd] in Hnew.
    exists (new ++ [Iteration (S (loopCount s)) (currentAction s)
                      (currentPrompt s)]).
    rewrite Hnew, <- app_assoc. reflexivity.
  - rewrite (bind_ok _ _ _ _ _ Hrun). now destruct r.
Qed.
End Passes.

(** ** The start of a routed invocation *)

Section Begin.
Variable E : env.
Variable input : AgentInput.

(** The preparation succeeds when the router and the memory answer. *)
Lemma prepare_runs (budget : nat) (s : state) :
  answering E input ->
  exists ctx s', prepare E input budget s = (Ok ctx, s').
Proof.
  intros [Hr Hm]. unfold prepare.
  unfold sink, await, bind, get, emit, tick, modify, ret, throw.
  cbv beta iota.
  destruct (negb (isGoogleModel (modelVar s)) && _);
    cbn [now trace set_now set_trace set_modelVar set_promptVar fst snd
         promptVar modelVar];
    (destruct (videoRewrite (promptVar s));
     cbn [now trace set_now set_trace set_modelVar set_promptVar fst snd
          promptVar modelVar]);
    match goal with
    | |- context [route E ?t ?p _ _ _] =>
        destruct (Hr t p) as [d Hd]; rewrite Hd
    end;
    cbn [fst snd now trace set_now set_trace promptVar modelVar];
    match goal with
    | |- context [getContext E ?t] => destruct (Hm t) as [m Hmem]; rewrite Hmem
    end;
    now eexists _, _.
Qed.

(** A routed invocation is the guarded block, run from a state without
    text and without iterations, whose variable prompt is the prompt of
    the user. *)
Lemma routed_invocation :
  isInstant (thinkingMode input) = false ->
  exists budget s,
    invoke E input
    = tryCatch (tryBlock E input budget) (catchBlock E input) s
    /\ promptVar s = prompt input
    /\ iterationsOf (trace s) = []
    /\ finalResponseText s = EmptyString.
Proof.
  intros Hmode. unfold invoke, runAutonomousAgent.
  destruct (chooseModel_returns input (initialState input))
    as (budget & s1 & Hc & _ & Hi1 & Hp1).
  exists budget, (set_finalResponseText EmptyString s1).
  split; [|split; [exact Hp1|split; [exact Hi1|reflexivity]]].
  destruct (thinkingMode input); try discriminate;
    now rewrite (bind_ok _ _ _ _ _ Hc).
Qed.

(** When the prompt holds the address of a video, and the router and the
    memory answer, and nobody aborts, the first iteration is a SEARCH for
    the query about the video, and the research is asked for it. *)
Lemma forced_search_runs (query : string) :
  isInstant (thinkingMode input) = false ->
  videoRewrite (prompt input) = Some query ->
  answering E input ->
  neverAborted E ->
  In (Call (CallRoute query)) (events (snd (invoke E input)))
  /\ In (Call (CallResearch query)) (events (snd (invoke E input)))
  /\ exists rest,
       iterationsOf (events (snd (invoke E input)))
       = Iteration 1 SEARCH query :: rest.
Proof.
  intros Hmode Hvideo Hans Hnever.
  destruct (routed_invocation Hmode) as (budget & s & -> & Hp & Hi & _).
  destruct (prepare_runs budget s Hans) as (ctx & s3 & Hprep).
  destruct (prepare_spec E input budget s) as (Hroute & _ & Hstart).
  destruct (prepare_counts E input budget s) as [Hi3 _].
  cbn zeta in Hroute, Hstart, Hi3. unfold promptAfterRewrite in Hroute.
  rewrite Hprep, Hp, ?Hvideo in *. cbn [fst snd] in *.
  destruct Hstart as (d & _ & Hl0 & Ha & _ & Hcp & _).
  destruct (loop_after_search E input ctx MAX_LOOPS s3 (or_introl Ha)
              ltac:(rewrite Hl0; unfold MAX_LOOPS; lia) (Hnever _))
    as (s4 & Hcall & Hi4 & _ & _ & _ & _ & [new34 H34] & Hloop).
  rewrite Hl0, Ha, Hcp, Hi3, Hi in Hi4. rewrite Hcp in Hcall.
  assert (Hfrom : forall s5 new,
            trace s5 = new ++ trace s4 ->
            In (Call (CallRoute query)) (events s5)
            /\ In (Call (CallResearch query)) (events s5)
            /\ exists rest,
                 iterationsOf (events s5) = Iteration 1 SEARCH query :: rest).
  { intros s5 new Hnew.
    destruct (extended_events s4 s5 new Hnew) as [Hin [rest Hrest]].
    split; [|split].
    - apply Hin. unfold events. apply -> in_rev. rewrite H34.
      apply in_or_app. now right.
    - apply Hin. unfold events. apply -> in_rev. exact Hcall.
    - exists rest. rewrite Hrest, iterationsOf_events, Hi4. reflexivity. }
  unfold tryCatch, tryBlock. rewrite (bind_ok _ _ _ _ _ Hprep).
  assert (Hcatch : forall e s5 new,
            trace s5 = new ++ trace s4 ->
            exists new',
              trace (snd (catchBlock E input e s5)) = new' ++ trace s4).
  { intros e s5 new Hnew.
    destruct (appends_keeps (catchBlock E input e) s5
                (emits_catchBlock E anyCall input e)) as [new2 H2].
    exists (new2 ++ new). now rewrite H2, Hnew, app_assoc. }
  destruct (r_result _) as [result|e].
  - destruct Hloop as [Hloop _]. rewrite Hloop.
    destruct (appends_keeps (loop E input ctx MAX_LOOPS) s4
                (loop_appends E input ctx MAX_LOOPS)) as [new Hnew].
    destruct (loop E input ctx MAX_LOOPS s4) as [[x| e |] s5];
      cbn [fst snd] in *.
    + exact (Hfrom s5 new Hnew).
    + destruct (Hcatch e s5 new Hnew) as [new' Hnew'].
      exact (Hfrom _ new' Hnew').
    + exact (Hfrom s5 new Hnew).
  - rewrite Hloop.
    destruct (Hcatch e s4 [] eq_refl) as [new' Hnew'].
    exact (Hfrom _ new' Hnew').
Qed.
End Begin.

(** ** The scan of a SIMPLE pass, in the loop *)

(** Any pass of SIMPLE ends as the scan of some text says, or throws. *)
Lemma simpleHandler_pass (E : env) (input : AgentInput) (ctx : context)
    (s : state) :
  match fst (simpleHandler E input ctx s) with
  | Ok r => exists generated,
              scanned input s generated r (snd (simpleHandler E input ctx s))
  | Throw _ => True
  | OutOfFuel => False
  end.
Proof.
  assert (H := simpleHandler_scanned E input ctx s s
                 (conj eq_refl (conj eq_refl eq_refl))).
  destruct (steady_simpleHandler E input ctx s) as [_ Ho].
  destruct (fst (simpleHandler E input ctx s)); [exact H|exact I|exact Ho].
Qed.

(** When a directive is present in the text of an undisturbed pass that is
    not the sixth, the next iteration runs the action of the directive with
    the prompt that the scan extracts. *)
Lemma loop_reroutes (E : env) (input : AgentInput) (ctx : context)
    (st : Stream) (s : state) (fuel : nat) (a : RouterAction) :
  undisturbed E input ctx st ->
  currentAction s = SIMPLE \/ currentAction s = OTHER ->
  S (loopCount s) < MAX_LOOPS ->
  find (fun d => present d (textOf st)) precedence = Some a ->
  exists p rest,
    nextDirective (textOf st) (promptVar s) = Some (a, p)
    /\ iterationsOf (events (snd (loop E input ctx (S (S fuel)) s)))
       = iterationsOf (events s)
         ++ Iteration (S (loopCount s)) (currentAction s) (currentPrompt s)
         :: Iteration (S (S (loopCount s))) a p :: rest.
Proof.
  intros Hcalm Hact Hlt Hfind.
  destruct (loop_after_pass E input ctx st (S fuel) s Hcalm Hact ltac:(lia))
    as (r & s' & Hscan & Hi & Hc & Hp & _ & Hloop).
  unfold scanned in Hscan. rewrite Hfind in Hscan.
  destruct Hscan as (-> & Ha & Hnext & _).
  exists (currentPrompt s').
  assert (Hab : aborted E (now s') = false) by apply Hcalm.
  destruct (loop_starts E input ctx fuel s' ltac:(lia) Hab) as (later & Hl).
  exists (rev later). split; [exact Hnext|].
  rewrite Hloop, !iterationsOf_events, Hl, Hi, Hc, Ha.
  rewrite rev_app_distr. cbn [rev]. now rewrite <- !app_assoc.
Qed.

(** In an invocation, the iteration that follows a SIMPLE iteration runs
    the first action of the precedence whose directive is present in some
    text, with the prompt that the scan of that text extracts. *)
Lemma after_simple (E : env) (input : AgentInput) :
  isInstant (thinkingMode input) = false ->
  forall k n p n' a' p',
    nth_error (iterationsOf (events (snd (invoke E input)))) k
    = Some (Iteration n SIMPLE p) ->
    nth_error (iterationsOf (events (snd (invoke E input)))) (S k)
    = Some (Iteration n' a' p') ->
    n' = S n
    /\ exists generated,
         find (fun d => present d generated) precedence = Some a'
         /\ nextDirective generated (promptAfterRewrite (prompt input))
            = Some (a', p').
Proof.
  intros Hmode k n p n' a' p' Hprev Hnext.
  rewrite iterationsOf_events in Hprev, Hnext.
  exact (chained_nth _ _ (iterations_chained E input Hmode) k _ _ Hprev Hnext).
Qed.


(** ** The search and its synthesis, in the loop *)

Section Pipeline.
Variable E : env.
Variable input : AgentInput.
Variable ctx : context.

(** A search that is not the sixth iteration, with a research that answers
    and a provider that nothing disturbs: the next iteration is the
    synthesis, and when the answer of the provider holds no directive the
    loop returns the text with that answer. *)
Lemma search_runs_synthesis (st : Stream) (s : state) (fuel : nat)
    (result : ResearchResult) :
  undisturbed E input ctx st ->
  currentAction s = SEARCH \/ currentAction s = DEEP_SEARCH ->
  S (loopCount s) < MAX_LOOPS ->
  r_result (deepResearch E (now s) (currentPrompt s) (apiKey input))
  = Resolved result ->
  let r := loop E input ctx (S (S fuel)) s in
  In (Call (CallResearch (currentPrompt s))) (events (snd r))
  /\ (exists rest,
        iterationsOf (events (snd r))
        = iterationsOf (events s)
          ++ Iteration (S (loopCount s)) (currentAction s) (currentPrompt s)
          :: Iteration (S (S (loopCount s))) SIMPLE
               (synthesisPrompt (currentPrompt s) (answer result))
          :: rest)
  /\ (find (fun d => present d (textOf st)) precedence = None ->
      exists payload,
        fst r
        = Ok (single
                (mkTurn input
                   (if negb (Str.truthy
                               (Str.trim (finalResponseText s ++ textOf st)))
                       && Str.truthy (answer result)
                    then answer result
                    else finalResponseText s ++ textOf st)
                   None payload))).
Proof.
  intros Hcalm Hact Hlt Hres. cbn zeta.
  assert (Hab : aborted E (now s) = false) by apply Hcalm.
  destruct (loop_after_search E input ctx (S fuel) s Hact ltac:(lia) Hab)
    as (s1 & Hcall & Hi1 & Hc1 & _ & Ht1 & _ & _ & Hloop1).
  rewrite Hres in Hloop1.
  destruct Hloop1 as (Hloop1 & Ha1 & Hp1 & Hf1 & _).
  destruct (loop_after_pass E input ctx st fuel s1 Hcalm (or_introl Ha1)
              ltac:(lia))
    as (r & s2 & Hscan & Hi2 & Hc2 & _ & [new2 Hnew2] & Hloop2).
  rewrite Hloop1, Hloop2.
  assert (Hfinal : exists new,
            trace (snd (match r with
                        | Continue => loop E input ctx fuel s2
                        | Return res => (Ok res, s2)
                        end)) = new ++ trace s2).
  { destruct r as [|res]; [|now exists []].
    apply appends_keeps, loop_appends. }
  destruct Hfinal as [new Hnew].
  destruct (extended_events s2 _ new Hnew) as [Hin [rest Hrest]].
  split; [|split].
  - apply Hin. unfold events. apply -> in_rev. rewrite Hnew2.
    apply in_or_app. now right.
  - exists rest. rewrite Hrest, !iterationsOf_events, Hi2, Hi1, Hc1, Ha1, Hp1.
    cbn [rev]. now rewrite <- !app_assoc.
  - intros Hnone. unfold scanned in Hscan. rewrite Hnone in Hscan.
    destruct Hscan as (-> & Htext). cbn [fst].
    exists (metadataPayload s2). rewrite Htext, Ht1, Hf1. reflexivity.
Qed.

(** A search whose research answers hands over to a state [s'] of the
    loop, whose action is SIMPLE and whose prompt is the synthesis prompt.
    The synthesis is the next iteration when the search was not the sixth
    and the signal is not aborted at the top of the loop; otherwise the
    loop returns the text accumulated before the search. *)
Lemma search_hands_over (s : state) (fuel : nat) (result : ResearchResult) :
  currentAction s = SEARCH \/ currentAction s = DEEP_SEARCH ->
  loopCount s < MAX_LOOPS ->
  aborted E (now s) = false ->
  r_result (deepResearch E (now s) (currentPrompt s) (apiKey input))
  = Resolved result ->
  let this := Iteration (S (loopCount s)) (currentAction s) (currentPrompt s) in
  let r := loop E input ctx (S (S fuel)) s in
  exists s',
    r = loop E input ctx (S fuel) s'
    /\ currentAction s' = SIMPLE
    /\ currentPrompt s' = synthesisPrompt (currentPrompt s) (answer result)
    /\ fallbackSearchContext s' = answer result
    /\ finalResponseText s' = finalResponseText s
    /\ loopCount s' = S (loopCount s)
    /\ now s < now s'
    /\ (S (loopCount s) < MAX_LOOPS -> aborted E (now s') = false ->
        exists rest,
          iterationsOf (events (snd r))
          = iterationsOf (events s)
            ++ this
            :: Iteration (S (S (loopCount s))) SIMPLE
                 (synthesisPrompt (currentPrompt s) (answer result))
            :: rest)
    /\ (S (loopCount s) = MAX_LOOPS \/ aborted E (now s') = true ->
        iterationsOf (events (snd r)) = iterationsOf (events s) ++ [this]
        /\ exists payload,
             fst r = Ok (single (mkTurn input (finalResponseText s) None
                                   payload))).
Proof.
  intros Hact Hlt Hab Hres. cbn zeta.
  destruct (loop_after_search E input ctx (S fuel) s Hact Hlt Hab)
    as (s1 & Hcall & Hi1 & Hc1 & _ & Ht1 & Hnow & _ & Hloop1).
  rewrite Hres in Hloop1. destruct Hloop1 as (Hloop1 & Ha1 & Hp1 & Hf1 & _).
  exists s1. rewrite Hloop1.
  split; [reflexivity|]. split; [exact Ha1|]. split; [exact Hp1|].
  split; [exact Hf1|]. split; [exact Ht1|]. split; [exact Hc1|].
  split; [exact Hnow|]. split.
  - intros Hlt1 Hab1.
    destruct (loop_starts E input ctx fuel s1 ltac:(lia) Hab1) as (later & Hl).
    exists (rev later).
    rewrite !iterationsOf_events, Hl, Hi1, Hc1, Ha1, Hp1, rev_app_distr.
    cbn [rev]. now rewrite <- !app_assoc.
  - intros Hend.
    assert (Hcases : MAX_LOOPS <= loopCount s1
                     \/ (loopCount s1 < MAX_LOOPS /\ aborted E (now s1) = true)).
    { destruct Hend as [Hsix|Hstop]; [left; lia|].
      destruct (Nat.le_gt_cases MAX_LOOPS (loopCount s1)); [now left|right].
      now split. }
    destruct Hcases as [Hsix|[Hlt1 Hab1]].
    + rewrite (loop_exhausted E input ctx fuel s1 Hsix). cbn [fst snd].
      split; [|exists (metadataPayload s1); now rewrite Ht1].
      rewrite !iterationsOf_events, Hi1. reflexivity.
    + rewrite (loop_aborted E input ctx fuel s1 Hlt1 Hab1). cbn [fst snd].
      split; [|exists (metadataPayload s1); now rewrite Ht1].
      rewrite !iterationsOf_events. cbn [trace set_trace].
      change (iterationsOf (AbortSeen (finalResponseText s1) :: trace s1))
        with (iterationsOf (trace s1)).
      rewrite Hi1. reflexivity.
Qed.
End Pipeline.


(** ** The bare THINK tag *)

(** A bare THINK tag makes the scan choose THINK with the prompt it was
    given to fall back on. *)
Lemma bareThink_scan (generated userPrompt : string) :
  bareThink generated = true ->
  find (fun d => present d generated) precedence = Some THINK
  /\ nextDirective generated userPrompt = Some (THINK, userPrompt).
Proof.
  intros Hbare.
  assert (Hnext : nextDirective generated userPrompt = Some (THINK, userPrompt)).
  { unfold bareThink, present in Hbare.
    apply andb_prop in Hbare. destruct Hbare as [Hbare Hclosed].
    apply andb_prop in Hbare. destruct Hbare as [Hbare Hopen].
    apply andb_prop in Hbare. destruct Hbare as [Hdeep Hsearch].
    apply negb_true_iff, orb_false_iff in Hdeep. destruct Hdeep as [Hd1 Hd2].
    apply negb_true_iff in Hsearch.
    unfold nextDirective, orMatch.
    destruct (Re.exec false Pat.deepRe generated); [discriminate|].
    destruct (Re.exec true Pat.deepSearchRe generated); [discriminate|].
    destruct (Re.exec false Pat.searchRe generated); [discriminate|].
    destruct (Re.exec false Pat.thinkRe generated) as [m|].
    + destruct (Re.group 1 m) as [p|]; [|reflexivity].
      apply negb_true_iff in Hclosed. now rewrite Hclosed.
    + destruct (Re.exec false Pat.thinkOpenRe generated) as [m|] eqn:Hm;
        [|discriminate].
      now rewrite (exec_groupless false Pat.thinkOpenRe eq_refl generated m Hm). }
  split; [|exact Hnext].
  pose proof (nextDirective_found generated userPrompt) as H.
  now rewrite Hnext in H.
Qed.

(** What a pass that scanned a bare THINK tag leaves. *)
Lemma scanned_bareThink (input : AgentInput) (s : state) (generated : string)
    (r : step) (s' : state) :
  scanned input s generated r s' ->
  bareThink generated = true ->
  r = Continue /\ currentAction s' = THINK /\ currentPrompt s' = promptVar s
  /\ finalResponseText s' = (finalResponseText s ++ generated)%string.
Proof.
  intros Hscan Hbare.
  destruct (bareThink_scan generated (promptVar s) Hbare) as [Hfind Hnext].
  unfold scanned in Hscan. rewrite Hfind in Hscan.
  destruct Hscan as (-> & Ha & Hn & Ht). rewrite Hnext in Hn.
  injection Hn as Hp. now repeat split.
Qed.


(** ** The address of a video in the prompt *)

(** A prompt that holds the address of a Short is matched by the pattern
    of the Shorts. *)
Lemma short_complete (p : string) :
  holdsShort p -> Re.exec false Pat.youtubeShortRe p <> None.
Proof.
  intros (id & Hid & Hholds).
  apply exec_complete with (w := (shortPrefix ++ id)%string); [|exact Hholds].
  unfold Pat.youtubeShortRe. apply W_seq; [apply words_lit|].
  apply W_group. now apply isVideoId_words.
Qed.

(** The router is asked about the prompt that the rewrite left. *)
Lemma routed_asks_router (E : env) (input : AgentInput) :
  isInstant (thinkingMode input) = false ->
  In (Call (CallRoute (promptAfterRewrite (prompt input))))
     (events (snd (invoke E input))).
Proof.
  intros Hmode.
  destruct (routed_invocation E input Hmode) as (budget & s & -> & Hp & _).
  destruct (prepare_spec E input budget s) as (Hroute & _).
  cbn zeta in Hroute. rewrite Hp in Hroute.
  assert (Hfrom : forall s5 new,
            trace s5 = new ++ trace (snd (prepare E input budget s)) ->
            In (Call (CallRoute (promptAfterRewrite (prompt input))))
               (events s5)).
  { intros s5 new Hnew. unfold events. apply -> in_rev. rewrite Hnew.
    apply in_or_app. now right. }
  assert (Hcatch : forall e s5 new,
            trace s5 = new ++ trace (snd (prepare E input budget s)) ->
            exists new',
              trace (snd (catchBlock E input e s5))
              = new' ++ trace (snd (prepare E input budget s))).
  { intros e s5 new Hnew.
    destruct (appends_keeps (catchBlock E input e) s5
                (emits_catchBlock E anyCall input e)) as [new2 H2].
    exists (new2 ++ new). now rewrite H2, Hnew, app_assoc. }
  unfold tryCatch, tryBlock.
  destruct (prepare E input budget s) as [[ctx| e |] s3] eqn:Hprep;
    cbn [snd] in *.
  - rewrite (bind_ok _ _ _ _ _ Hprep).
    destruct (appends_keeps (loop E input ctx (S MAX_LOOPS)) s3
                (loop_appends E input ctx (S MAX_LOOPS))) as [new Hnew].
    destruct (loop E input ctx (S MAX_LOOPS) s3) as [[x| e |] s5];
      cbn [fst snd] in *.
    + exact (Hfrom s5 new Hnew).
    + destruct (Hcatch e s5 new Hnew) as [new' Hnew'].
      exact (Hfrom _ new' Hnew').
    + exact (Hfrom s5 new Hnew).
  - rewrite (bind_throw _ _ _ _ _ Hprep).
    destruct (Hcatch e s3 [] eq_refl) as [new' Hnew'].
    exact (Hfrom _ new' Hnew').
  - unfold bind. rewrite Hprep. exact (Hfrom s3 [] eq_refl).
Qed.

(** The address that the rewrite finds in a prompt that holds one. *)
Lemma videoRewrite_found (p : string) :
  holdsShort p \/ holdsVideo p ->
  exists kind prefix id,
    isVideoId id = true
    /\ holds (prefix ++ id)%string p
    /\ ((holdsShort p /\ kind = "Short"%string /\ prefix = shortPrefix)
        \/ (~ holdsShort p /\ kind = "Video"%string /\ videoPrefix prefix))
    /\ videoRewrite p = Some (videoQuery kind id (prefix ++ id)%string).
Proof.
  intros Hholds.
  destruct (Re.exec false Pat.youtubeShortRe p) as [m|] eqn:Hm.
  - assert (Hshort : holdsShort p) by (apply short_found; now rewrite Hm).
    destruct (videoRewrite_short p Hshort) as (id & Hid & Hh & Hrw).
    exists "Short"%string, shortPrefix, id.
    split; [exact Hid|]. split; [exact Hh|]. split; [|exact Hrw].
    left. now repeat split.
  - assert (Hshort : ~ holdsShort p).
    { intros H. now apply (short_complete p H). }
    destruct Hholds as [H|Hvideo]; [contradiction|].
    destruct (videoRewrite_video p Hshort Hvideo)
      as (prefix & id & Hpre & Hid & Hh & Hrw).
    exists "Video"%string, prefix, id.
    split; [exact Hid|]. split; [exact Hh|]. split; [|exact Hrw].
    right. now repeat split.
Qed.


(** A prompt that the rewrite leaves alone holds no address of a video or
    of a Short. *)
Lemma plain_prompt (p : string) :
  videoRewrite p = None -> ~ holdsShort p /\ ~ holdsVideo p.
Proof.
  intros Hnone. split; intros H.
  - destruct (videoRewrite_found p (or_introl H))
      as (kind & prefix & id & _ & _ & _ & Hrw).
    rewrite Hnone in Hrw. discriminate.
  - destruct (videoRewrite_found p (or_intror H))
      as (kind & prefix & id & _ & _ & _ & Hrw).
    rewrite Hnone in Hrw. discriminate.
Qed.

(** ** An invocation that nothing disturbs *)

Section Calm.
Variable E : env.
Variable input : AgentInput.
Variable st : Stream.
Hypothesis calm : calmly E input st.

(** The invocation is the loop, guarded by the outer [catch], run from the
    state that the preparation left: no iteration yet, no text, and the
    prompt that the rewrite left; the action is SEARCH when the prompt
    holds the address of a video, and the choice of the router otherwise. *)
Lemma invoke_begins :
  exists ctx s d,
    undisturbed E input ctx st
    /\ invoke E input
       = tryCatch (loop E input ctx (S MAX_LOOPS)) (catchBlock E input) s
    /\ loopCount s = 0
    /\ iterationsOf (trace s) = []
    /\ finalResponseText s = EmptyString
    /\ promptVar s = promptAfterRewrite (prompt input)
    /\ currentPrompt s = promptAfterRewrite (prompt input)
    /\ (exists t,
          route E t (promptAfterRewrite (prompt input)) (user_id input)
                (apiKey input) (List.length (files input)) = Resolved d)
    /\ currentAction s = match videoRewrite (prompt input) with
                         | Some _ => SEARCH
                         | None => action d
                         end.
Proof.
  destruct calm as (Hmode & Hnative & Hans & Hnever & Hst & Hfiles).
  destruct (chooseModel_returns input (initialState input))
    as (budget & s1 & Hc & _ & Hi1 & Hp1).
  rewrite Hc in Hnative. cbn [snd] in Hnative.
  set (s2 := set_finalResponseText EmptyString s1).
  assert (Hrun : invoke E input
                 = tryCatch (tryBlock E input budget) (catchBlock E input) s2).
  { unfold invoke, runAutonomousAgent.
    destruct (thinkingMode input); try discriminate Hmode;
      rewrite (bind_ok _ _ _ _ _ Hc); reflexivity. }
  destruct (prepare_runs E input budget s2 Hans) as (ctx & s3 & Hprep).
  destruct (prepare_spec E input budget s2) as (_ & Hp3 & Hstart).
  destruct (prepare_counts E input budget s2) as [Hi3 _].
  destruct (prepare_context E input budget s2) as (_ & _ & Hctx).
  cbn zeta in Hp3, Hstart, Hi3, Hctx.
  rewrite Hprep in Hp3, Hstart, Hi3, Hctx. cbn [fst snd] in *.
  change (promptVar s2) with (promptVar s1) in Hp3, Hstart.
  rewrite Hp1 in Hp3, Hstart.
  change (promptVar (initialState input)) with (prompt input) in Hp3, Hstart.
  destruct Hstart as (d & Hd & Hl0 & Hshape).
  destruct Hctx as (Hn & _ & _ & Ht).
  exists ctx, s3, d.
  split.
  { split; [rewrite Hn; exact Hnative|].
    split; [exact Hnever|]. split; [exact Hst|exact Hfiles]. }
  split.
  { rewrite Hrun. unfold tryCatch, tryBlock.
    now rewrite (bind_ok _ _ _ _ _ Hprep). }
  split; [exact Hl0|]. split; [now rewrite Hi3|]. split; [exact Ht|].
  split; [exact Hp3|].
  unfold promptAfterRewrite in Hd, Hshape |- *.
  destruct (videoRewrite (prompt input)) as [query|].
  - destruct Hshape as (Ha & _ & Hcp & _).
    split; [exact Hcp|]. split; [now exists (now s2)|exact Ha].
  - destruct Hshape as (Ha & _ & Hcp & _).
    split; [exact Hcp|]. split; [now exists (now s2)|exact Ha].
Qed.

(** The record of the iterations and the requests of the invocation are
    those of the loop. *)
Lemma guarded_events (ctx : context) (s : state) :
  let final := snd (tryCatch (loop E input ctx (S MAX_LOOPS))
                      (catchBlock E input) s) in
  let inner := snd (loop E input ctx (S MAX_LOOPS) s) in
  iterationsOf (events final) = iterationsOf (events inner)
  /\ forall ev, In ev (events inner) -> In ev (events final).
Proof.
  cbn zeta. unfold tryCatch.
  destruct (loop E input ctx (S MAX_LOOPS) s) as [[x| e |] s'];
    cbn [fst snd]; try (split; [reflexivity|now intros]).
  destruct (catchBlock_returns E input e s') as (txt & s'' & Hcb & Hi & _).
  destruct (appends_keeps (catchBlock E input e) s'
              (emits_catchBlock E anyCall input e)) as [new Hnew].
  rewrite Hcb in Hnew |- *. cbn [snd] in *. split.
  - now rewrite !iterationsOf_events, Hi.
  - intros ev Hin. unfold events in *. apply -> in_rev. rewrite Hnew.
    apply in_or_app. right. now apply in_rev.
Qed.

(** When the router chooses SIMPLE for a prompt without the address of a
    video, and the answer of the provider holds a directive, the second
    iteration runs the action of the first directive of the precedence,
    with the prompt that the scan of the answer extracts. *)
Lemma invoke_reroutes (a : RouterAction) :
  chooses E input SIMPLE ->
  videoRewrite (prompt input) = None ->
  find (fun d => present d (textOf st)) precedence = Some a ->
  exists p rest,
    nextDirective (textOf st) (prompt input) = Some (a, p)
    /\ iterationsOf (events (snd (invoke E input)))
       = Iteration 1 SIMPLE (prompt input) :: Iteration 2 a p :: rest.
Proof.
  intros Hroute Hvideo Hfind.
  destruct invoke_begins
    as (ctx & s & d & Hcalm & -> & Hl & Hi & _ & Hpv & Hcp & [t Hd] & Ha).
  unfold promptAfterRewrite in *. rewrite Hvideo in *.
  rewrite (Hroute _ _ _ Hd) in Ha.
  destruct (guarded_events ctx s) as [-> _].
  destruct (loop_reroutes E input ctx st s 5 a Hcalm (or_introl Ha)
              ltac:(rewrite Hl; unfold MAX_LOOPS; lia) Hfind)
    as (p & rest & Hnext & Hits).
  exists p, rest. rewrite Hpv in Hnext. split; [exact Hnext|].
  change (S MAX_LOOPS) with (S (S 5)).
  rewrite Hits, iterationsOf_events, Hi, Hl, Ha, Hcp. reflexivity.
Qed.

(** The same, for a prompt that holds no address of a video or Short. *)
Lemma invoke_reroutes_plain (a : RouterAction) :
  chooses E input SIMPLE ->
  ~ holdsShort (prompt input) -> ~ holdsVideo (prompt input) ->
  find (fun d => present d (textOf st)) precedence = Some a ->
  exists p rest,
    nextDirective (textOf st) (prompt input) = Some (a, p)
    /\ iterationsOf (events (snd (invoke E input)))
       = Iteration 1 SIMPLE (prompt input) :: Iteration 2 a p :: rest.
Proof.
  intros Hroute Hshort Hvideo.
  apply invoke_reroutes; [exact Hroute|].
  now apply videoRewrite_none.
Qed.

(** When the loop starts with a search (the choice of the router, or the
    prompt holds the address of a video) and the research answers, the
    research is asked for the prompt that the rewrite left and the second
    iteration is the synthesis of its answer. *)
Lemma invoke_search_first (a : RouterAction) :
  a = SEARCH \/ a = DEEP_SEARCH ->
  chooses E input a \/ videoRewrite (prompt input) <> None ->
  researching E input ->
  exists first result rest,
    (first = SEARCH \/ first = DEEP_SEARCH)
    /\ In (Call (CallResearch (promptAfterRewrite (prompt input))))
          (events (snd (invoke E input)))
    /\ iterationsOf (events (snd (invoke E input)))
       = Iteration 1 first (promptAfterRewrite (prompt input))
         :: Iteration 2 SIMPLE
              (synthesisPrompt (promptAfterRewrite (prompt input))
                 (answer result))
         :: rest.
Proof.
  intros Ha Hroute Hres.
  destruct invoke_begins
    as (ctx & s & d & Hcalm & -> & Hl & Hi & _ & Hpv & Hcp & [t Hd] & Hact).
  assert (Hfirst : currentAction s = SEARCH \/ currentAction s = DEEP_SEARCH).
  { rewrite Hact. destruct (videoRewrite (prompt input)) as [query|];
      [now left|].
    destruct Hroute as [Hroute|Hno]; [|now contradiction Hno].
    now rewrite (Hroute _ _ _ Hd). }
  destruct (Hres (now s) (currentPrompt s)) as [result Hresult].
  destruct (guarded_events ctx s) as [-> Hin].
  change (S MAX_LOOPS) with (S (S 5)) in Hin |- *.
  destruct (search_runs_synthesis E input ctx st s 5 result Hcalm Hfirst
              ltac:(rewrite Hl; unfold MAX_LOOPS; lia) Hresult)
    as (Hcall & [rest Hits] & _).
  exists (currentAction s), result, rest. rewrite <- Hcp.
  split; [exact Hfirst|]. split; [now apply Hin|].
  rewrite Hits, iterationsOf_events, Hi, Hl. reflexivity.
Qed.

(** When the router chooses SIMPLE for a prompt without the address of a
    video, the answer of the provider asks for a search and the research
    answers, the second iteration is the search and the third is the
    synthesis of its answer. *)
Lemma invoke_searches (a : RouterAction) :
  a = SEARCH \/ a = DEEP_SEARCH ->
  chooses E input SIMPLE ->
  ~ holdsShort (prompt input) -> ~ holdsVideo (prompt input) ->
  researching E input ->
  find (fun d => present d (textOf st)) precedence = Some a ->
  exists q result rest,
    nextDirective (textOf st) (prompt input) = Some (a, q)
    /\ In (Call (CallResearch q)) (events (snd (invoke E input)))
    /\ iterationsOf (events (snd (invoke E input)))
       = Iteration 1 SIMPLE (prompt input)
         :: Iteration 2 a q
         :: Iteration 3 SIMPLE (synthesisPrompt q (answer result))
         :: rest.
Proof.
  intros Ha Hroute Hshort Hvideo Hres Hfind.
  pose proof (videoRewrite_none _ Hshort Hvideo) as Hplain.
  destruct invoke_begins
    as (ctx & s & d & Hcalm & -> & Hl & Hi & _ & Hpv & Hcp & [t Hd] & Hact).
  unfold promptAfterRewrite in Hpv, Hcp, Hd. rewrite Hplain in Hpv, Hcp, Hd, Hact.
  rewrite (Hroute _ _ _ Hd) in Hact.
  destruct (guarded_events ctx s) as [-> Hin].
  change (S MAX_LOOPS) with (S (S 5)) in Hin |- *.
  destruct (loop_after_pass E input ctx st 6 s Hcalm (or_introl Hact)
              ltac:(rewrite Hl; unfold MAX_LOOPS; lia))
    as (r & s1 & Hscan & Hi1 & Hc1 & _ & _ & Hloop1).
  unfold scanned in Hscan. rewrite Hfind in Hscan.
  destruct Hscan as (-> & Ha1 & Hnext & _).
  destruct (Hres (now s1) (currentPrompt s1)) as [result Hresult].
  assert (Hfirst : currentAction s1 = SEARCH \/ currentAction s1 = DEEP_SEARCH)
    by (rewrite Ha1; exact Ha).
  destruct (search_runs_synthesis E input ctx st s1 4 result Hcalm Hfirst
              ltac:(rewrite Hc1, Hl; unfold MAX_LOOPS; lia) Hresult)
    as (Hcall & [rest Hits] & _).
  cbn zeta in Hcall, Hits.
  exists (currentPrompt s1), result, rest.
  rewrite Hpv in Hnext. split; [exact Hnext|].
  change (loop E input ctx (S (S 5)) s) with (loop E input ctx 7 s) in Hin |- *.
  rewrite Hloop1. split; [now apply Hin; rewrite Hloop1|].
  rewrite Hits, iterationsOf_events, Hi1, Hi, Hc1, Hl, Hact, Hcp, Ha1.
  reflexivity.
Qed.
End Calm.

(** ** The directive scan of a SIMPLE iteration *)

(** C5.  A pass of SIMPLE scans the text that this pass generated, not the
    text accumulated by earlier passes, and acts on one directive: the first
    in the order DEEP_SEARCH, SEARCH, THINK, IMAGE, PROJECT, CANVAS, STUDY
    that is present.  (1) Whatever the collaborators do, a pass that does
    not throw ends as the scan of a text [generated] says: with a directive
    present it continues the loop with the first such action and the prompt
    that the scan extracts, and the accumulated text has grown by
    [generated]; with none present it returns the turn.  (2) On the native
    path, with no abort, a provider that streams [st] and readable
    attachments, the pass ends so for the text of [st], whatever the text
    accumulated before.  (3) Then, unless the pass is the sixth, the loop
    runs that action with that prompt as its next iteration.  (4) In every
    routed invocation the iteration after a SIMPLE one has the next number
    and the action and prompt of a scan.  (5) The directive of an action is
    present exactly when the text holds its tag around a payload on one
    line, where THINK is present as soon as the text holds the opening tag,
    and DEEP_SEARCH also for a SEARCH tag, in letters of either case, whose
    payload starts with the word deep and white space; six texts show the
    choice.  (6) In a run whose first answer asks for a search and whose
    second does not, the loop ends after the second answer although the
    accumulated text still holds the tag.  (7) In a routed invocation on the
    native path that nothing disturbs, when the router chooses SIMPLE for a
    prompt without the address of a video and the answer of the provider
    holds a directive, the second iteration runs the action of the first
    directive of the precedence with the prompt that the scan of the answer
    extracts. *)
Theorem directive_scan (E : env) (input : AgentInput) (ctx : context)
    (s : state) :
  (let r := simpleHandler E input ctx s in
   match fst r with
   | Ok step => exists generated, scanned input s generated step (snd r)
   | Throw _ => True
   | OutOfFuel => False
   end)
  /\ (forall st, undisturbed E input ctx st ->
        exists step s',
          simpleHandler E input ctx s = (Ok step, s')
          /\ scanned input s (textOf st) step s')
  /\ (forall st fuel a,
        undisturbed E input ctx st ->
        currentAction s = SIMPLE ->
        S (loopCount s) < MAX_LOOPS ->
        find (fun d => present d (textOf st)) precedence = Some a ->
        exists p rest,
          nextDirective (textOf st) (promptVar s) = Some (a, p)
          /\ iterationsOf (events (snd (loop E input ctx (S (S fuel)) s)))
             = iterationsOf (events s)
               ++ Iteration (S (loopCount s)) SIMPLE (currentPrompt s)
               :: Iteration (S (S (loopCount s))) a p :: rest)
  /\ (isInstant (thinkingMode input) = false ->
      forall k n p n' a' p',
        nth_error (iterationsOf (events (snd (invoke E input)))) k
        = Some (Iteration n SIMPLE p) ->
        nth_error (iterationsOf (events (snd (invoke E input)))) (S k)
        = Some (Iteration n' a' p') ->
        n' = S n
        /\ exists generated,
             find (fun d => present d generated) precedence = Some a'
             /\ nextDirective generated (promptAfterRewrite (prompt input))
                = Some (a', p'))
  /\ (forall a generated, present a generated = true <-> tagged a generated)
  /\ (forall userPrompt,
        nextDirective "<SEARCH>deep cats</SEARCH>" userPrompt
        = Some (DEEP_SEARCH, "cats"%string)
        /\ nextDirective "<search>Deep  cats</search>" userPrompt
           = Some (DEEP_SEARCH, "cats"%string)
        /\ nextDirective "<SEARCH>deeper cats</SEARCH>" userPrompt
           = Some (SEARCH, "deeper cats"%string)
        /\ nextDirective
             "<STUDY>a</STUDY><CANVAS>b</CANVAS><PROJECT>c</PROJECT><IMAGE>d</IMAGE><THINK>e</THINK><SEARCH>f</SEARCH><DEEP>g</DEEP>"
             userPrompt
           = Some (DEEP_SEARCH, "g"%string)
        /\ nextDirective "<STUDY>a</STUDY> and <IMAGE>d</IMAGE>" userPrompt
           = Some (IMAGE, "d"%string)
        /\ nextDirective "no directive here" userPrompt = None)
  /\ (let r := invoke Scenario.groundedThenSearch Scenario.catsQuestion in
      iterationsOf (events (snd r))
      = [Iteration 1 SIMPLE "tell me about cats";
         Iteration 2 SEARCH "cats";
         Iteration 3 SIMPLE (synthesisPrompt "cats" "Cats purr.")]
      /\ present SEARCH (finalResponseText (snd r)) = true
      /\ exists t, fst r = Ok (single t)
                   /\ t_text t = "<SEARCH>cats</SEARCH>Cats purr [1]."%string)
  /\ (forall st a,
        calmly E input st ->
        chooses E input SIMPLE ->
        ~ holdsShort (prompt input) -> ~ holdsVideo (prompt input) ->
        find (fun d => present d (textOf st)) precedence = Some a ->
        exists p rest,
          nextDirective (textOf st) (prompt input) = Some (a, p)
          /\ iterationsOf (events (snd (invoke E input)))
             = Iteration 1 SIMPLE (prompt input) :: Iteration 2 a p :: rest).
Proof.
  split; [apply simpleHandler_pass|]. split.
  { intros st Hcalm.
    destruct (undisturbed_pass E input ctx st s Hcalm) as (r & s' & Hrun & Hscan & _).
    now exists r, s'. }
  split.
  { intros st fuel a Hcalm Hact Hlt Hfind.
    destruct (loop_reroutes E input ctx st s fuel a Hcalm (or_introl Hact) Hlt Hfind)
      as (p & rest & Hnext & Hits).
    exists p, rest. rewrite Hact in Hits. now split. }
  split; [apply after_simple|]. split; [apply present_tagged|]. split.
  { intros userPrompt. repeat split; vm_compute; reflexivity. }
  split.
  { cbn zeta. split; [vm_compute; reflexivity|].
    split; [vm_compute; reflexivity|].
    eexists. split; [vm_compute; reflexivity|reflexivity]. }
  intros st a Hcalm. now apply invoke_reroutes_plain.
Qed.

(** C5 at the question about cats, with a router that chooses SIMPLE and a
    provider that answers with a SEARCH tag: the second iteration of the
    invocation is the search. *)
Lemma directive_scan_witness :
  exists p rest,
    nextDirective "<SEARCH>more</SEARCH>" "tell me about cats"
    = Some (SEARCH, p)
    /\ iterationsOf
         (events (snd (invoke Scenario.searchForever Scenario.catsQuestion)))
       = Iteration 1 SIMPLE "tell me about cats"
         :: Iteration 2 SEARCH p :: rest.
Proof.
  destruct (directive_scan Scenario.searchForever Scenario.catsQuestion
              Setting.nativeContext (initialState Scenario.catsQuestion))
    as (_ & _ & _ & _ & _ & _ & _ & Hrun).
  destruct (plain_prompt (prompt Scenario.catsQuestion) eq_refl)
    as [Hshort Hvideo].
  apply (Hrun (Setting.saying "<SEARCH>more</SEARCH>") SEARCH).
  - split; [reflexivity|]. split; [reflexivity|].
    split; [split; [intros t p; eexists|intros t; eexists]; reflexivity|].
    split; [intros t; reflexivity|].
    split; [split; [reflexivity|intros t p; reflexivity]|constructor].
  - intros t p d H. injection H as <-. reflexivity.
  - exact Hshort.
  - exact Hvideo.
  - vm_compute. reflexivity.
Defined.

(** ** A search and the synthesis that follows *)

(** C6, where the claim fails: the provider asks for a search in every
    answer; the sixth iteration is a search, the research is the last
    request of the invocation, and the turn carries the text accumulated
    by the three answers of the provider: no synthesis follows the third
    search. *)
Lemma search_as_sixth_iteration_returns :
  let r := invoke Scenario.searchForever Scenario.catsQuestion in
  iterationsOf (events (snd r))
  = [Iteration 1 SIMPLE "tell me about cats";
     Iteration 2 SEARCH "more";
     Iteration 3 SIMPLE (synthesisPrompt "more" "Cats purr.");
     Iteration 4 SEARCH "more";
     Iteration 5 SIMPLE (synthesisPrompt "more" "Cats purr.");
     Iteration 6 SEARCH "more"]
  /\ (exists before,
        events (snd r)
        = before ++ [Call (CallResearch "more");
                     Sink (Str.nl ++ "*reading*")])
  /\ fst r
     = Ok (single
             (mkTurn Scenario.catsQuestion
                "<SEARCH>more</SEARCH><SEARCH>more</SEARCH><SEARCH>more</SEARCH>"
                None (Some [Scenario.catsOrg]))).
Proof.
  cbn zeta. split; [vm_compute; reflexivity|]. split.
  - exists (removelast (removelast
              (events (snd (invoke Scenario.searchForever
                              Scenario.catsQuestion))))).
    vm_compute. reflexivity.
  - vm_compute. reflexivity.
Qed.

(** C6, as the code has it.  SEARCH and DEEP_SEARCH run the same handler.
    For a state [s] of the loop whose action is one of them, before the
    bound of six and with a signal that is not aborted: (1) the iteration
    calls the research with the current prompt; when the research fails the
    loop throws its error (to the outer [catch]); when it answers, the
    handler returns no turn: the loop goes on from a state [s'] whose action
    is SIMPLE, whose prompt is the synthesis prompt and whose search context
    is the answer, the text of the turn being unchanged.  (2) The synthesis
    is the next iteration when the search is not the sixth iteration and the
    signal is not aborted at the top of the loop after it.  (3) When the
    search is the sixth iteration, or the signal is then aborted, the loop
    returns the text accumulated before the search and no synthesis runs.
    When nothing disturbs the provider and its answer to the synthesis holds
    no directive, the turn carries the text with that answer (or the search
    context when the text is blank).  (4) The synthesis prompt holds
    [SEARCH CONTEXT:], a line break and the answer, and then the instruction
    to cite with [1], [2].  (5) When the answer of an undisturbed SIMPLE
    pass, not the sixth, is [<SEARCH>cats</SEARCH>], the next iteration is a
    SEARCH with the prompt [cats].  (6) In an invocation, the iteration
    after a SEARCH or DEEP_SEARCH one is SIMPLE with the synthesis prompt of
    an answer of the research.  (7) In a routed invocation on the native path
    that nothing disturbs, with a research that answers: when the loop
    starts with a search (the choice of the router, or the prompt holds the
    address of a video), the research is asked for the prompt and the second
    iteration is the synthesis of its answer; and when the router chooses
    SIMPLE for a prompt without such an address and the answer of the
    provider is [<SEARCH>cats</SEARCH>], the second iteration is a SEARCH
    with the prompt [cats], the research is asked for [cats], and the third
    iteration is the synthesis of its answer. *)
Theorem search_then_synthesis (E : env) (input : AgentInput) (ctx : context)
    (s : state) (fuel : nat) :
  currentAction s = SEARCH \/ currentAction s = DEEP_SEARCH ->
  loopCount s < MAX_LOOPS ->
  aborted E (now s) = false ->
  let query := currentPrompt s in
  let research := deepResearch E (now s) query (apiKey input) in
  let this := Iteration (S (loopCount s)) (currentAction s) query in
  let r := loop E input ctx (S (S fuel)) s in
  dispatch E input ctx s = searchHandler E input s
  /\ In (Call (CallResearch query)) (events (snd r))
  /\ match r_result research with
     | Rejected e =>
         fst r = Throw e
         /\ iterationsOf (events (snd r)) = iterationsOf (events s) ++ [this]
     | Resolved result =>
         (exists s',
            r = loop E input ctx (S fuel) s'
            /\ currentAction s' = SIMPLE
            /\ currentPrompt s' = synthesisPrompt query (answer result)
            /\ fallbackSearchContext s' = answer result
            /\ finalResponseText s' = finalResponseText s
            /\ loopCount s' = S (loopCount s)
            /\ now s < now s'
            /\ (S (loopCount s) < MAX_LOOPS -> aborted E (now s') = false ->
                exists rest,
                  iterationsOf (events (snd r))
                  = iterationsOf (events s)
                    ++ this
                    :: Iteration (S (S (loopCount s))) SIMPLE
                         (synthesisPrompt query (answer result))
                    :: rest)
            /\ (S (loopCount s) = MAX_LOOPS \/ aborted E (now s') = true ->
                iterationsOf (events (snd r))
                = iterationsOf (events s) ++ [this]
                /\ exists payload,
                     fst r = Ok (single (mkTurn input (finalResponseText s)
                                           None payload))))
         /\ (forall st,
               undisturbed E input ctx st ->
               S (loopCount s) < MAX_LOOPS ->
               find (fun d => present d (textOf st)) precedence = None ->
               exists payload,
                 fst r
                 = Ok (single
                         (mkTurn input
                            (if negb (Str.truthy
                                        (Str.trim (finalResponseText s
                                                   ++ textOf st)))
                                && Str.truthy (answer result)
                             then answer result
                             else finalResponseText s ++ textOf st)
                            None payload)))
     end
  /\ (forall context,
        exists before after,
          synthesisPrompt query context
          = (before ++ "SEARCH CONTEXT:" ++ Str.nl ++ context ++ after)%string
          /\ Str.includes after "Cite sources using [1], [2] format" = true)
  /\ (forall s0 fuel0,
        undisturbed E input ctx (Setting.saying "<SEARCH>cats</SEARCH>") ->
        currentAction s0 = SIMPLE ->
        S (loopCount s0) < MAX_LOOPS ->
        exists rest,
          iterationsOf (events (snd (loop E input ctx (S (S fuel0)) s0)))
          = iterationsOf (events s0)
            ++ Iteration (S (loopCount s0)) SIMPLE (currentPrompt s0)
            :: Iteration (S (S (loopCount s0))) SEARCH "cats" :: rest)
  /\ (isInstant (thinkingMode input) = false ->
      forall k n a p n' a' p',
        a = SEARCH \/ a = DEEP_SEARCH ->
        nth_error (iterationsOf (events (snd (invoke E input)))) k
        = Some (Iteration n a p) ->
        nth_error (iterationsOf (events (snd (invoke E input)))) (S k)
        = Some (Iteration n' a' p') ->
        n' = S n /\ a' = SIMPLE
        /\ exists t result,
             r_result (deepResearch E t p (apiKey input)) = Resolved result
             /\ p' = synthesisPrompt p (answer result))
  /\ (forall st a,
        calmly E input st ->
        researching E input ->
        a = SEARCH \/ a = DEEP_SEARCH ->
        chooses E input a
        \/ holdsShort (prompt input) \/ holdsVideo (prompt input) ->
        exists first result rest,
          (first = SEARCH \/ first = DEEP_SEARCH)
          /\ In (Call (CallResearch (promptAfterRewrite (prompt input))))
                (events (snd (invoke E input)))
          /\ iterationsOf (events (snd (invoke E input)))
             = Iteration 1 first (promptAfterRewrite (prompt input))
               :: Iteration 2 SIMPLE
                    (synthesisPrompt (promptAfterRewrite (prompt input))
                       (answer result))
               :: rest)
  /\ (calmly E input (Setting.saying "<SEARCH>cats</SEARCH>") ->
      researching E input ->
      chooses E input SIMPLE ->
      ~ holdsShort (prompt input) -> ~ holdsVideo (prompt input) ->
      exists result rest,
        In (Call (CallResearch "cats")) (events (snd (invoke E input)))
        /\ iterationsOf (events (snd (invoke E input)))
           = Iteration 1 SIMPLE (prompt input)
             :: Iteration 2 SEARCH "cats"
             :: Iteration 3 SIMPLE (synthesisPrompt "cats" (answer result))
             :: rest).
Proof.
  intros Hact Hlt Hab. cbn zeta.
  split.
  { rewrite dispatch_runs. now destruct Hact as [-> | ->]. }
  destruct (loop_after_search E input ctx (S fuel) s Hact Hlt Hab)
    as (s1 & Hcall & Hi1 & Hc1 & _ & Ht1 & _ & _ & Hloop1).
  split.
  { destruct (r_result _) as [result|e].
    - destruct Hloop1 as (Hloop1 & _). rewrite Hloop1.
      destruct (appends_keeps (loop E input ctx (S fuel)) s1
                  (loop_appends E input ctx (S fuel))) as [new Hnew].
      unfold events. apply -> in_rev. rewrite Hnew. apply in_or_app. now right.
    - rewrite Hloop1. unfold events. now apply -> in_rev. }
  split.
  { destruct (r_result _) as [result|e] eqn:Hres.
    - split.
      + exact (search_hands_over E input ctx s fuel result Hact Hlt Hab Hres).
      + intros st Hcalm Hlt2.
        exact (proj2 (proj2 (search_runs_synthesis E input ctx st s fuel result
                               Hcalm Hact Hlt2 Hres))).
    - rewrite Hloop1. cbn [fst snd]. split; [reflexivity|].
      rewrite !iterationsOf_events, Hi1. reflexivity. }
  split; [intros context; apply synthesisPrompt_shape|].
  split.
  { intros s0 fuel0 Hcalm Hact0 Hlt0.
    destruct (loop_reroutes E input ctx _ s0 fuel0 SEARCH Hcalm
                (or_introl Hact0) Hlt0 ltac:(vm_compute; reflexivity))
      as (p & rest & Hnext & Hits).
    exists rest. rewrite Hact0 in Hits.
    replace p with "cats"%string in Hits; [exact Hits|].
    assert (Hcats : nextDirective (textOf (Setting.saying "<SEARCH>cats</SEARCH>"))
                      (promptVar s0) = Some (SEARCH, "cats"%string))
      by (vm_compute; reflexivity).
    rewrite Hcats in Hnext. now injection Hnext. }
  split.
  { intros Hmode k n a p n' a' p' Ha Hprev Hnext.
    rewrite iterationsOf_events in Hprev, Hnext.
    assert (H := chained_nth _ _ (iterations_chained E input Hmode) k _ _
                   Hprev Hnext).
    cbn [handsOver] in H. destruct H as [Hn H]. split; [exact Hn|].
    unfold follows in H. now destruct Ha as [-> | ->]. }
  split.
  { intros st a Hcalm Hres Ha Hstart.
    apply (invoke_search_first E input st Hcalm a Ha); [|exact Hres].
    destruct Hstart as [Hroute|Hholds]; [now left|right].
    destruct (videoRewrite_found (prompt input) Hholds)
      as (kind & prefix & id & _ & _ & _ & Hrw).
    now rewrite Hrw. }
  intros Hcalm Hres Hroute Hshort Hvideo.
  destruct (invoke_searches E input _ Hcalm SEARCH (or_introl eq_refl) Hroute
              Hshort Hvideo Hres ltac:(vm_compute; reflexivity))
    as (q & result & rest & Hnext & Hasked & Hits).
  assert (Hcats : nextDirective
                    (textOf (Setting.saying "<SEARCH>cats</SEARCH>"))
                    (prompt input) = Some (SEARCH, "cats"%string))
    by (vm_compute; reflexivity).
  rewrite Hcats in Hnext. injection Hnext as <-.
  now exists result, rest.
Qed.

(** C6 at a search for cats that starts the loop, with collaborators that
    answer at once: the research is asked about cats and the second
    iteration is the synthesis of its answer; and at an invocation whose
    router chooses SIMPLE and whose provider asks for a search about cats:
    the second iteration is that search and the third its synthesis. *)
Lemma search_then_synthesis_witness :
  In (Call (CallResearch "cats"))
     (events (snd (loop Scenario.calm Scenario.catsQuestion
                     Setting.nativeContext 6
                     (Setting.starting Scenario.catsQuestion SEARCH "cats"))))
  /\ (exists rest,
        iterationsOf
          (events (snd (loop Scenario.calm Scenario.catsQuestion
                          Setting.nativeContext 6
                          (Setting.starting Scenario.catsQuestion SEARCH "cats"))))
        = Iteration 1 SEARCH "cats"
          :: Iteration 2 SIMPLE (synthesisPrompt "cats" "Cats purr.") :: rest)
  /\ (exists result rest,
        In (Call (CallResearch "cats"))
           (events (snd (invoke Setting.searchingCats Scenario.catsQuestion)))
        /\ iterationsOf
             (events (snd (invoke Setting.searchingCats Scenario.catsQuestion)))
           = Iteration 1 SIMPLE "tell me about cats"
             :: Iteration 2 SEARCH "cats"
             :: Iteration 3 SIMPLE (synthesisPrompt "cats" (answer result))
             :: rest).
Proof.
  split; [|split].
  - pose proof (search_then_synthesis Scenario.calm Scenario.catsQuestion
                  Setting.nativeContext
                  (Setting.starting Scenario.catsQuestion SEARCH "cats") 4
                  (or_introl eq_refl) ltac:(vm_compute; lia) eq_refl) as H.
    cbv zeta in H. exact (proj1 (proj2 H)).
  - pose proof (search_then_synthesis Scenario.calm Scenario.catsQuestion
                  Setting.nativeContext
                  (Setting.starting Scenario.catsQuestion SEARCH "cats") 4
                  (or_introl eq_refl) ltac:(vm_compute; lia) eq_refl) as H.
    cbv zeta in H. destruct H as (_ & _ & Hruns & _).
    cbn [r_result deepResearch Scenario.calm] in Hruns.
    destruct Hruns as ((s' & _ & _ & _ & _ & _ & _ & _ & Hnext & _) & _).
    apply Hnext; [vm_compute; lia|reflexivity].
  - pose proof (search_then_synthesis Setting.searchingCats Scenario.catsQuestion
                  Setting.nativeContext
                  (Setting.starting Scenario.catsQuestion SEARCH "cats") 4
                  (or_introl eq_refl) ltac:(vm_compute; lia) eq_refl) as H.
    cbv zeta in H. destruct H as (_ & _ & _ & _ & _ & _ & _ & Hrun).
    destruct (plain_prompt (prompt Scenario.catsQuestion) eq_refl)
      as [Hshort Hvideo].
    apply Hrun.
    + split; [reflexivity|]. split; [reflexivity|].
      split; [split; [intros t p; eexists|intros t; eexists]; reflexivity|].
      split; [intros t; reflexivity|].
      split; [split; [reflexivity|intros t p; reflexivity]|constructor].
    + intros t q. eexists. reflexivity.
    + intros t p d H. injection H as <-. reflexivity.
    + exact Hshort.
    + exact Hvideo.
Defined.

(** ** The bare THINK tag and the variable prompt *)

(** C8, where the claim fails: the user's prompt holds the address of a
    video; the loop searches, and the synthesis answers with a bare opening
    THINK tag; the third iteration runs THINK with the query that replaced
    the prompt, not with the prompt of the user. *)
Lemma bare_think_after_video_rewrite :
  let r := invoke Scenario.thinksAboutVideo Scenario.videoQuestion in
  bareThink "Let me think. <THINK>" = true
  /\ nth_error (iterationsOf (events (snd r))) 2
     = Some (Iteration 3 THINK Scenario.videoAnswer)
  /\ Scenario.videoAnswer <> prompt Scenario.videoQuestion.
Proof.
  cbn zeta. split; [vm_compute; reflexivity|].
  split; [vm_compute; reflexivity|]. discriminate.
Qed.

(** C8, as the code has it.  A text with a bare THINK tag and no payload to
    extract (and no DEEP or SEARCH directive, which come first) is
    [bareThink].  (1) The scan of such a text chooses THINK with the prompt
    it is given to fall back on.  (2) A pass of SIMPLE that does not throw
    ends as the scan of a text says; when that text is a bare THINK tag the
    pass continues the loop with the action THINK and, as prompt, the value
    of the variable [prompt], not the text.  (3) On the native path, with no
    abort, a provider that streams [st] and readable attachments, a pass
    whose stream is a bare THINK tag ends so.  (4) Then, unless the pass is
    the sixth, the next iteration of the loop runs THINK with the value of
    the variable.  (5) No handler assigns the variable.  (6) In a routed
    invocation the variable holds the prompt of the user when that prompt
    holds no address of a video or of a Short, and in every case what the
    rewrite of the prompt left; a THINK iteration that follows a SIMPLE one
    has the prompt of a scan that was given that value.  (7) A provider that
    answers the question about cats with a bare THINK tag makes the second
    iteration THINK with that question.  (8) In a routed invocation on the
    native path that nothing disturbs, when the router chooses SIMPLE for a
    prompt without the address of a video and the answer of the provider is
    a bare THINK tag, the second iteration is THINK with the prompt of the
    user. *)
Theorem bare_think_uses_prompt_variable (E : env) (input : AgentInput)
    (ctx : context) (s : state) :
  (forall generated userPrompt,
     bareThink generated = true ->
     find (fun d => present d generated) precedence = Some THINK
     /\ nextDirective generated userPrompt = Some (THINK, userPrompt))
  /\ (let r := simpleHandler E input ctx s in
      match fst r with
      | Ok step =>
          exists generated,
            scanned input s generated step (snd r)
            /\ (bareThink generated = true ->
                step = Continue
                /\ currentAction (snd r) = THINK
                /\ currentPrompt (snd r) = promptVar s
                /\ finalResponseText (snd r)
                   = (finalResponseText s ++ generated)%string)
      | Throw _ => True
      | OutOfFuel => False
      end)
  /\ (forall st,
        undisturbed E input ctx st ->
        bareThink (textOf st) = true ->
        exists s',
          simpleHandler E input ctx s = (Ok Continue, s')
          /\ currentAction s' = THINK
          /\ currentPrompt s' = promptVar s
          /\ finalResponseText s' = (finalResponseText s ++ textOf st)%string)
  /\ (forall st fuel,
        undisturbed E input ctx st ->
        bareThink (textOf st) = true ->
        currentAction s = SIMPLE ->
        S (loopCount s) < MAX_LOOPS ->
        exists rest,
          iterationsOf (events (snd (loop E input ctx (S (S fuel)) s)))
          = iterationsOf (events s)
            ++ Iteration (S (loopCount s)) SIMPLE (currentPrompt s)
            :: Iteration (S (S (loopCount s))) THINK (promptVar s) :: rest)
  /\ keeps s (snd (dispatch E input ctx s))
  /\ (isInstant (thinkingMode input) = false ->
      promptVar (snd (invoke E input)) = promptAfterRewrite (prompt input)
      /\ (~ holdsShort (prompt input) -> ~ holdsVideo (prompt input) ->
          promptAfterRewrite (prompt input) = prompt input)
      /\ forall k n p n' p',
           nth_error (iterationsOf (events (snd (invoke E input)))) k
           = Some (Iteration n SIMPLE p) ->
           nth_error (iterationsOf (events (snd (invoke E input)))) (S k)
           = Some (Iteration n' THINK p') ->
           exists generated,
             nextDirective generated (promptAfterRewrite (prompt input))
             = Some (THINK, p'))
  /\ iterationsOf
       (events (snd (invoke Scenario.thinksAboutVideo Scenario.catsQuestion)))
     = [Iteration 1 SIMPLE "tell me about cats";
        Iteration 2 THINK "tell me about cats"]
  /\ (forall st,
        calmly E input st ->
        chooses E input SIMPLE ->
        ~ holdsShort (prompt input) -> ~ holdsVideo (prompt input) ->
        bareThink (textOf st) = true ->
        exists rest,
          iterationsOf (events (snd (invoke E input)))
          = Iteration 1 SIMPLE (prompt input)
            :: Iteration 2 THINK (prompt input) :: rest).
Proof.
  split; [apply bareThink_scan|]. split.
  { cbn zeta. pose proof (simpleHandler_pass E input ctx s) as H.
    destruct (fst (simpleHandler E input ctx s)) as [step| e |];
      [|exact I|exact H].
    destruct H as [generated Hscan]. exists generated.
    split; [exact Hscan|]. intros Hbare.
    exact (scanned_bareThink input s generated step _ Hscan Hbare). }
  split.
  { intros st Hcalm Hbare.
    destruct (undisturbed_pass E input ctx st s Hcalm)
      as (r & s' & Hrun & Hscan & _).
    destruct (scanned_bareThink input s _ r s' Hscan Hbare)
      as (-> & Ha & Hp & Ht).
    now exists s'. }
  split.
  { intros st fuel Hcalm Hbare Hact Hlt.
    destruct (bareThink_scan _ (promptVar s) Hbare) as [Hfind Hnext].
    destruct (loop_reroutes E input ctx st s fuel THINK Hcalm
                (or_introl Hact) Hlt Hfind) as (p & rest & Hn & Hits).
    rewrite Hnext in Hn. injection Hn as <-. rewrite Hact in Hits.
    now exists rest. }
  split; [apply steady_dispatch|]. split.
  { intros Hmode. split; [exact (proj1 (routed_first_iteration E input Hmode))|].
    split.
    - intros Hshort Hvideo. unfold promptAfterRewrite.
      now rewrite (videoRewrite_none _ Hshort Hvideo).
    - intros k n p n' p' Hprev Hnext.
      destruct (after_simple E input Hmode k n p n' THINK p' Hprev Hnext)
        as (_ & generated & _ & Hscan).
      now exists generated. }
  split; [vm_compute; reflexivity|].
  intros st Hcalm Hroute Hshort Hvideo Hbare.
  destruct (bareThink_scan _ (prompt input) Hbare) as [Hfind Hnext].
  destruct (invoke_reroutes_plain E input st Hcalm THINK Hroute Hshort Hvideo
              Hfind) as (p & rest & Hn & Hits).
  rewrite Hnext in Hn. injection Hn as <-. now exists rest.
Qed.

(** C8 at the question about cats, with a router that chooses SIMPLE and a
    provider that answers with a bare THINK tag: the second iteration of
    the invocation is THINK with the question. *)
Lemma bare_think_uses_prompt_variable_witness :
  exists rest,
    iterationsOf
      (events (snd (invoke Scenario.thinksAboutVideo Scenario.catsQuestion)))
    = Iteration 1 SIMPLE "tell me about cats"
      :: Iteration 2 THINK "tell me about cats" :: rest.
Proof.
  destruct (bare_think_uses_prompt_variable Scenario.thinksAboutVideo
              Scenario.catsQuestion Setting.nativeContext
              (initialState Scenario.catsQuestion))
    as (_ & _ & _ & _ & _ & _ & _ & Hrun).
  destruct (plain_prompt (prompt Scenario.catsQuestion) eq_refl)
    as [Hshort Hvideo].
  apply (Hrun (Setting.saying "Let me think. <THINK>")).
  - split; [reflexivity|]. split; [reflexivity|].
    split; [split; [intros t p; eexists|intros t; eexists]; reflexivity|].
    split; [intros t; reflexivity|].
    split; [split; [reflexivity|intros t p; reflexivity]|constructor].
  - intros t p d H. injection H as <-. reflexivity.
  - exact Hshort.
  - exact Hvideo.
  - vm_compute. reflexivity.
Defined.

(** ** The address of a video forces a search *)

(** C10.  In a routed mode, when the prompt holds the address of a Short
    ([youtube.com/shorts/] and an identifier of eleven characters) or of a
    video (a prefix of the shapes of [videoPrefix] and such an identifier),
    the address found is in the prompt, and the query made of it names its
    kind and its identifier, asks for title, channel and summary and ends
    with the address.  The query replaces the prompt: the router is asked
    about the query, and whatever it answers the preparation leaves the
    action SEARCH, empty parameters and the query as the prompt; the first
    iteration of the loop, if the loop starts one, is a SEARCH for the
    query.  When the router and the memory answer and the signal is never
    aborted, the preparation succeeds, the loop starts with that SEARCH and
    the research is asked for the query. *)
Theorem youtube_forces_search (E : env) (input : AgentInput) :
  isInstant (thinkingMode input) = false ->
  holdsShort (prompt input) \/ holdsVideo (prompt input) ->
  exists kind prefix id,
    isVideoId id = true
    /\ holds (prefix ++ id)%string (prompt input)
    /\ ((holdsShort (prompt input) /\ kind = "Short"%string
         /\ prefix = shortPrefix)
        \/ (~ holdsShort (prompt input) /\ kind = "Video"%string
            /\ videoPrefix prefix))
    /\ let query :=
         ("Find details for YouTube " ++ kind ++ " ID: " ++ id
          ++ ". Title, Channel, and Summary. URL: " ++ prefix ++ id)%string in
       videoRewrite (prompt input) = Some query
       /\ promptVar (snd (invoke E input)) = query
       /\ In (Call (CallRoute query)) (events (snd (invoke E input)))
       /\ (iterationsOf (events (snd (invoke E input))) = []
           \/ exists rest,
                iterationsOf (events (snd (invoke E input)))
                = Iteration 1 SEARCH query :: rest)
       /\ (forall budget s,
             promptVar s = prompt input ->
             let r := prepare E input budget s in
             (answering E input -> exists ctx, fst r = Ok ctx)
             /\ match fst r with
                | Ok _ =>
                    currentAction (snd r) = SEARCH
                    /\ routingParameters (snd r) = []
                    /\ currentPrompt (snd r) = query
                    /\ promptVar (snd r) = query
                | Throw _ => True
                | OutOfFuel => False
                end)
       /\ (answering E input -> neverAborted E ->
           In (Call (CallResearch query)) (events (snd (invoke E input)))
           /\ exists rest,
                iterationsOf (events (snd (invoke E input)))
                = Iteration 1 SEARCH query :: rest).
Proof.
  intros Hmode Hholds.
  destruct (videoRewrite_found (prompt input) Hholds)
    as (kind & prefix & id & Hid & Hh & Hkind & Hrw).
  exists kind, prefix, id.
  split; [exact Hid|]. split; [exact Hh|]. split; [exact Hkind|].
  cbv zeta. unfold videoQuery in Hrw.
  set (query := ("Find details for YouTube " ++ kind ++ " ID: " ++ id
                 ++ ". Title, Channel, and Summary. URL: " ++ prefix ++ id)%string)
    in *.
  split; [exact Hrw|].
  destruct (routed_first_iteration E input Hmode) as [Hvar Hfirst].
  cbn zeta in Hvar, Hfirst. unfold promptAfterRewrite in Hvar, Hfirst.
  rewrite Hrw in Hvar, Hfirst.
  split; [exact Hvar|]. split.
  { pose proof (routed_asks_router E input Hmode) as H.
    unfold promptAfterRewrite in H. now rewrite Hrw in H. }
  split.
  { destruct Hfirst as [Hnone|(a & rest & Heq & ->)]; [now left|right].
    now exists rest. }
  split.
  { intros budget s Hp. cbn zeta. split.
    - intros Hans. destruct (prepare_runs E input budget s Hans)
        as (ctx & s' & Hprep).
      exists ctx. now rewrite Hprep.
    - destruct (prepare_spec E input budget s) as (_ & _ & Hout).
      cbn zeta in Hout. rewrite Hp, Hrw in Hout.
      destruct (fst (prepare E input budget s)); [|exact I|exact Hout].
      destruct Hout as (d & _ & _ & Hst). exact Hst. }
  intros Hans Hnever.
  destruct (forced_search_runs E input query Hmode Hrw Hans Hnever)
    as (_ & Hcall & Hits).
  now split.
Qed.

(** C10 at a prompt with the short address of a video, at a prompt with
    the address of a Short and at a prompt with the address of the page of
    a video, with a router that wants an image: the query is the prompt of
    the run, the first iteration is a SEARCH for it and the research is
    asked for it. *)
Lemma youtube_forces_search_witness :
  (promptVar (snd (invoke Scenario.imageRouter Scenario.videoQuestion))
   = Scenario.videoAnswer
   /\ In (Call (CallResearch Scenario.videoAnswer))
         (events (snd (invoke Scenario.imageRouter Scenario.videoQuestion)))
   /\ exists rest,
        iterationsOf
          (events (snd (invoke Scenario.imageRouter Scenario.videoQuestion)))
        = Iteration 1 SEARCH Scenario.videoAnswer :: rest)
  /\ (promptVar (snd (invoke Scenario.imageRouter Setting.shortsQuestion))
      = Setting.shortsAnswer
      /\ In (Call (CallResearch Setting.shortsAnswer))
            (events (snd (invoke Scenario.imageRouter Setting.shortsQuestion)))
      /\ exists rest,
           iterationsOf
             (events (snd (invoke Scenario.imageRouter Setting.shortsQuestion)))
           = Iteration 1 SEARCH Setting.shortsAnswer :: rest)
  /\ (promptVar (snd (invoke Scenario.imageRouter Setting.watchQuestion))
      = Setting.watchAnswer
      /\ In (Call (CallResearch Setting.watchAnswer))
            (events (snd (invoke Scenario.imageRouter Setting.watchQuestion)))
      /\ exists rest,
           iterationsOf
             (events (snd (invoke Scenario.imageRouter Setting.watchQuestion)))
           = Iteration 1 SEARCH Setting.watchAnswer :: rest).
Proof.
  assert (Hans : forall input, answering Scenario.imageRouter input).
  { intros input. split; [intros t p; eexists|intros t; eexists]; reflexivity. }
  assert (Hnever : neverAborted Scenario.imageRouter) by (intros t; reflexivity).
  split; [|split].
  - destruct (youtube_forces_search Scenario.imageRouter Scenario.videoQuestion
                eq_refl)
      as (kind & prefix & id & _ & _ & _ & Hrun).
    { right. exists "youtu.be/"%string, "dQw4w9WgXcQ"%string.
      split; [constructor|]. split; [reflexivity|].
      now exists "watch https://"%string, EmptyString. }
    match type of Hrun with
    | let _ := ?q in _ => remember q as query eqn:Hquery
    end.
    cbv zeta in Hrun. destruct Hrun as (Hrw & Hvar & _ & _ & _ & Hpos).
    assert (Hq : videoRewrite (prompt Scenario.videoQuestion)
                 = Some Scenario.videoAnswer) by (vm_compute; reflexivity).
    rewrite Hq in Hrw. injection Hrw as Heq. clear Hquery. subst query.
    split; [exact Hvar|]. exact (Hpos (Hans _) Hnever).
  - destruct (youtube_forces_search Scenario.imageRouter Setting.shortsQuestion
                eq_refl)
      as (kind & prefix & id & _ & _ & _ & Hrun).
    { left. exists "abcdefghijk"%string. split; [reflexivity|].
      now exists "see https://www."%string, " now"%string. }
    match type of Hrun with
    | let _ := ?q in _ => remember q as query eqn:Hquery
    end.
    cbv zeta in Hrun. destruct Hrun as (Hrw & Hvar & _ & _ & _ & Hpos).
    assert (Hq : videoRewrite (prompt Setting.shortsQuestion)
                 = Some Setting.shortsAnswer) by (vm_compute; reflexivity).
    rewrite Hq in Hrw. injection Hrw as Heq. clear Hquery. subst query.
    split; [exact Hvar|]. exact (Hpos (Hans _) Hnever).
  - destruct (youtube_forces_search Scenario.imageRouter Setting.watchQuestion
                eq_refl)
      as (kind & prefix & id & _ & _ & _ & Hrun).
    { right. exists "youtube.com/watch?v="%string, "dQw4w9WgXcQ"%string.
      split; [exact (@VP_query "watch" "?" eq_refl (or_introl eq_refl))|].
      split; [reflexivity|].
      now exists "https://www."%string, "&t=1"%string. }
    match type of Hrun with
    | let _ := ?q in _ => remember q as query eqn:Hquery
    end.
    cbv zeta in Hrun. destruct Hrun as (Hrw & Hvar & _ & _ & _ & Hpos).
    assert (Hq : videoRewrite (prompt Setting.watchQuestion)
                 = Some Setting.watchAnswer) by (vm_compute; reflexivity).
    rewrite Hq in Hrw. injection Hrw as Heq. clear Hquery. subst query.
    split; [exact Hvar|]. exact (Hpos (Hans _) Hnever).
Defined.

(** ** Cancellation before the synthesis *)

(** C7, the code at the failing input: the router chooses SEARCH, the
    research answers [Cats purr.], and the user stops the turn while the
    stream of the synthesis is awaited (the signal is aborted from time 5
    on).  The abort is observed at the first chunk of the synthesis, when
    the text of the turn is empty, and no request follows; yet the end of
    the SIMPLE pass then hands the search context to the sink, as the last
    event of the run, and the turn carries that context as its text, not
    the empty text accumulated so far.  For the same abort seen as an
    exception the outer [catch] builds the turn of a stopped generation;
    and when the signal goes up one chunk into a plain answer the turn
    carries the text accumulated so far. *)
Theorem abort_before_synthesis_returns_context :
  let E := Scenario.stoppedBeforeSynthesis in
  let r := invoke E Scenario.catsQuestion in
  monotone (aborted E)
  /\ firstAbort (events (snd r)) = Some EmptyString
  /\ quietAfterAbort (events (snd r)) = true
  /\ last (events (snd r)) Read = Sink "Cats purr."
  /\ fst r = Ok (single (mkTurn Scenario.catsQuestion "Cats purr." None
                           (Some [Scenario.catsOrg])))
  /\ (forall s,
        finalResponseText s = EmptyString ->
        fst (catchBlock E Scenario.catsQuestion Cases.abortError s)
        = Ok (single (mkTurn Scenario.catsQuestion
                        "(Generation stopped by user)" None None)))
  /\ (let r' := invoke Scenario.stoppedMidStream Scenario.catsQuestion in
      firstAbort (events (snd r')) = Some "Hello "%string
      /\ fst r' = Ok (single (mkTurn Scenario.catsQuestion "Hello " None None))).
Proof.
  cbn zeta. split; [apply (monotone_from 5)|].
  split; [vm_compute; reflexivity|]. split; [vm_compute; reflexivity|].
  split; [vm_compute; reflexivity|]. split; [vm_compute; reflexivity|].
  split.
  - intros s Hs. unfold catchBlock, bind, get, ret. cbn [fst].
    rewrite Hs. reflexivity.
  - split; vm_compute; reflexivity.
Qed.

(** ** The citations *)

(** C9, the code at the failing input: the first answer of the provider
    carries the citation [earlier] and asks for a search; the research
    finds one source.  The turn carries that source only: the citation
    gathered by the first iteration is gone.  (With a research that finds
    no source the turn carries [earlier].)  The search handler replaces the
    list, whatever it holds, by the sources of a research that found one,
    where a chunk of SIMPLE that carries citations appends them to the
    list. *)
Theorem search_replaces_citations :
  (exists t, fst (invoke Scenario.groundedThenSearch Scenario.catsQuestion)
             = Ok (single t)
             /\ t_groundingMetadata t = Some [Scenario.catsOrg]
             /\ ~ In Scenario.earlier [Scenario.catsOrg])
  /\ (exists t, fst (invoke Scenario.groundedThenBareSearch Scenario.catsQuestion)
                = Ok (single t)
                /\ t_groundingMetadata t = Some [Scenario.earlier])
  /\ (forall E input s a url urls,
        r_result (deepResearch E (now s) (currentPrompt s) (apiKey input))
        = Resolved {| answer := a; sources := url :: urls |} ->
        metadataPayload (snd (searchHandler E input s))
        = Some (map (toGrounding E) (url :: urls)))
  /\ (forall E ctx acc c s citations,
        aborted E (now s) = false ->
        Str.truthy (c_text c) = true ->
        isNative ctx = true ->
        c_grounding c = Some citations ->
        metadataPayload (snd (simpleChunk E ctx false acc c s))
        = Some (match metadataPayload s with
                | Some l => l
                | None => []
                end ++ citations)).
Proof.
  split.
  { eexists. split; [vm_compute; reflexivity|]. split; [reflexivity|].
    intros [H|[]]. discriminate. }
  split.
  { eexists. split; [vm_compute; reflexivity|reflexivity]. }
  split.
  { intros E input s a url urls Hres.
    destruct (searchHandler_runs E input s) as (t & added & Hrun).
    cbn zeta in Hrun. rewrite Hrun, Hres. reflexivity. }
  intros E ctx acc c s citations Hab Htext Hnative Hcit.
  unfold simpleChunk, signalAborted, sink, bind, get, emit, modify, ret.
  rewrite Hab, Htext, Hnative, Hcit. reflexivity.
Qed.

(** ** Cancellation, where the source looks at the signal *)

(** With a signal that is aborted from the start, a routed invocation
    asks the router and the memory, and nothing else. *)
Lemma stopped_from_the_start (E : env) (input : AgentInput) :
  (forall t, aborted E t = true) ->
  isInstant (thinkingMode input) = false ->
  callsIn preparing (events (snd (invoke E input))).
Proof.
  intros Hstop Hmode. apply callsIn_events.
  destruct (chooseModel_returns input (initialState input))
    as (budget & s1 & Hc & _).
  assert (H1 := emits_keeps preparing (chooseModel input) (initialState input)
                  (emits_chooseModel preparing input) (Forall_nil _)).
  rewrite Hc in H1. cbn [snd] in H1.
  set (s2 := set_finalResponseText EmptyString s1).
  assert (Hrun : invoke E input
                 = tryCatch (tryBlock E input budget) (catchBlock E input) s2).
  { unfold invoke, runAutonomousAgent.
    destruct (thinkingMode input); try discriminate Hmode;
      rewrite (bind_ok _ _ _ _ _ Hc); reflexivity. }
  rewrite Hrun. unfold tryCatch, tryBlock.
  assert (H3 := emits_keeps preparing (prepare E input budget) s2
                  (emits_prepare E input budget preparing (fun _ => I) I) H1).
  destruct (prepare_counts E input budget s2) as [_ Hcount].
  cbn zeta in Hcount.
  destruct (prepare E input budget s2) as [[ctx| e |] s3] eqn:Hprep;
    cbn [fst snd] in *.
  - rewrite (bind_ok _ _ _ _ _ Hprep).
    rewrite (loop_aborted E input ctx MAX_LOOPS s3)
      by (rewrite ?Hcount; first [unfold MAX_LOOPS; lia | apply Hstop]).
    cbn [fst snd trace set_trace]. constructor; [exact I|exact H3].
  - rewrite (bind_throw _ _ _ _ _ Hprep).
    now apply emits_keeps; [apply emits_catchBlock|].
  - contradiction.
Qed.

(** X26.  Cancellation, as the code has it.  The signal is looked at where
    the source looks at it: at the top of the loop, where an aborted signal
    makes the loop return the turn at once; at every chunk of a stream,
    where it makes the chunk loop stop without reading the chunk, whatever
    chunks are left; and at every read of the relay reader.  With a signal
    aborted from the start a routed invocation asks the router and the
    memory and nothing else.  And in a routed mode, with a signal that
    never goes back, from the first time
    the signal is seen aborted the invocation issues no request, reads no
    stream, waits for no retry and starts no iteration, and it returns one
    ordinary turn with the current text and payload, where the text is the
    one accumulated when the abort was first seen, or the search context
    put in the place of that text when it was blank. *)
Theorem abort_stops_the_turn (E : env) (input : AgentInput) :
  monotone (aborted E) ->
  isInstant (thinkingMode input) = false ->
  let r := invoke E input in
  quietAfterAbort (events (snd r)) = true
  /\ match firstAbort (events (snd r)) with
     | Some soFar =>
         fst r = Ok (single (mkTurn input (finalResponseText (snd r)) None
                               (metadataPayload (snd r))))
         /\ stoppedText soFar (snd r)
     | None => True
     end
  /\ (forall ctx fuel s,
        loopCount s < MAX_LOOPS ->
        aborted E (now s) = true ->
        loop E input ctx (S fuel) s
        = (Ok (single (mkTurn input (finalResponseText s) None
                         (metadataPayload s))),
           set_trace (AbortSeen (finalResponseText s) :: trace s) s))
  /\ (forall ctx usedFallback c cs failure acc s,
        aborted E (S (now s)) = true ->
        overChunks (simpleChunk E ctx usedFallback) (c :: cs) failure acc s
        = (Ok acc,
           set_now (S (S (now s)))
             (set_trace (AbortSeen (finalResponseText s) :: trace s) s)))
  /\ (forall c cs failure s,
        aborted E (S (now s)) = true ->
        overChunks (appendChunk E) (c :: cs) failure tt s
        = (Ok tt,
           set_now (S (S (now s)))
             (set_trace (AbortSeen (finalResponseText s) :: trace s) s)))
  /\ (forall A (body : A -> Chunk -> M (flow A)) reads buffer acc s,
        aborted E (now s) = true ->
        overReads E body reads buffer acc s
        = (Ok acc, set_trace (AbortSeen (finalResponseText s) :: trace s) s))
  /\ ((forall t, aborted E t = true) ->
      callsIn preparing (events (snd (invoke E input)))).
Proof.
  intros Hmono Hmode. cbn zeta.
  assert (Hok : exists t, fst (invoke E input) = Ok (single t)).
  { assert (Hshape := proj2 (proj2 (invoke_shape E input))). cbn zeta in Hshape.
    destruct (thinkingMode input); try exact Hshape. discriminate Hmode. }
  destruct (chooseModel_returns input (initialState input))
    as (budget & s1 & Hc & _).
  assert (H1 : unseen s1).
  { assert (Hinv := unseen_chooseModel E input (initialState input) eq_refl).
    rewrite Hc in Hinv. exact Hinv. }
  assert (Hrun : invoke E input
                 = tryCatch (tryBlock E input budget) (catchBlock E input)
                     (set_finalResponseText EmptyString s1)).
  { unfold invoke, runAutonomousAgent.
    destruct (thinkingMode input); try discriminate Hmode;
      rewrite (bind_ok _ _ _ _ _ Hc); reflexivity. }
  destruct Hok as [t Ht]. rewrite Hrun in Ht |- *.
  destruct (guarded_stops E input budget (set_finalResponseText EmptyString s1)
              Hmono H1) as [Hq Hf].
  { rewrite Ht. discriminate. }
  cbn zeta in Hq, Hf. split; [exact Hq|]. split.
  { destruct (firstAbort _) as [soFar|]; [|exact I].
    destruct Hf as (Hr & Hk & _). now split. }
  split; [intros ctx fuel s; apply loop_aborted|]. split.
  { intros ctx usedFallback c cs failure acc s Hab. cbn [overChunks].
    unfold simpleChunk, signalAborted, bind, tick, modify, get, emit, ret.
    cbn [now set_now]. rewrite Hab. reflexivity. }
  split.
  { intros c cs failure s Hab. cbn [overChunks].
    unfold appendChunk, signalAborted, bind, tick, modify, get, emit, ret.
    cbn [now set_now]. rewrite Hab. reflexivity. }
  split.
  { intros A body reads buffer acc s Hab.
    destruct reads; cbn [overReads];
      unfold signalAborted, bind, get, emit, modify, ret; rewrite Hab;
      reflexivity. }
  intros Hstop. rewrite <- Hrun. now apply stopped_from_the_start.
Qed.

(** X26 at a stream stopped after its first chunk: the abort is seen when
    the text is that chunk, nothing is requested or read after, and the
    turn carries that chunk; and at a signal aborted from the start: the
    router and the memory are asked and the abort is seen at the top of
    the loop. *)
Lemma abort_stops_the_turn_witness :
  quietAfterAbort
    (events (snd (invoke Scenario.stoppedMidStream Scenario.catsQuestion)))
  = true
  /\ firstAbort
       (events (snd (invoke Scenario.stoppedMidStream Scenario.catsQuestion)))
     = Some "Hello "%string
  /\ fst (invoke Scenario.stoppedMidStream Scenario.catsQuestion)
     = Ok (single (mkTurn Scenario.catsQuestion "Hello " None None))
  /\ events (snd (invoke Cases.stoppedAtOnce Scenario.catsQuestion))
     = [Call (CallRoute "tell me about cats"); Call CallMemory;
        AbortSeen EmptyString].
Proof.
  pose proof (abort_stops_the_turn Scenario.stoppedMidStream
                Scenario.catsQuestion (monotone_from 5) eq_refl) as H.
  cbv zeta in H. destruct H as [H _].
  split; [exact H|]. repeat split; vm_compute; reflexivity.
Defined.

(** ** The citations through the handlers *)

Section Citations.
Variable E : env.
Variable input : AgentInput.
Variable ctx : context.
Variable base : list Grounding.

(** The citations extend [base]. *)
Let extends (s : state) : Prop := exists added, citations s = base ++ added.

Lemma extends_now s v : extends s -> extends (set_now v s).
Proof. intros H. exact H. Qed.

Lemma extends_trace s v : extends s -> extends (set_trace v s).
Proof. intros H. exact H. Qed.

Lemma extends_text s v : extends s -> extends (set_finalResponseText v s).
Proof. intros H. exact H. Qed.

Lemma extends_more s more :
  extends s -> extends (set_metadataPayload (Some (citations s ++ more)) s).
Proof.
  intros [added H]. exists (added ++ more). unfold citations at 1.
  cbn [metadataPayload set_metadataPayload]. now rewrite H, app_assoc.
Qed.

Ltac cite_side :=
  idtac;
  let s := fresh "s" in
  let H := fresh "H" in
  intros s H;
  first [ exact H | exact (extends_more s _ H) ].

Lemma extends_signalAborted : inv extends (signalAborted E).
Proof. apply frame_signalAborted. exact extends_trace. Qed.

Lemma extends_await {A} (c : call) (answer : nat -> settled A) :
  inv extends (await c answer).
Proof. apply frame_await; [exact extends_now|exact extends_trace]. Qed.

Lemma extends_retry params :
  inv extends (generateContentStreamWithRetry E params 3 onRetry).
Proof. apply frame_retry; [exact extends_now|exact extends_trace]. Qed.

Lemma extends_encodeFiles fs userParts :
  inv extends (encodeFiles fs userParts).
Proof. apply (frame_encodeFiles E). exact extends_now. Qed.

Lemma extends_currentTurn : inv extends (currentTurn input).
Proof. unfold currentTurn. inv_walk cite_side. Qed.

Lemma extends_appendChunk u c : inv extends (appendChunk E u c).
Proof. apply frame_appendChunk; [exact extends_trace|exact extends_text]. Qed.

Lemma extends_simpleChunk usedFallback acc c :
  inv extends (simpleChunk E ctx usedFallback acc c).
Proof.
  pose proof extends_signalAborted as Hsig.
  unfold simpleChunk. inv_walk cite_side.
Qed.

Lemma extends_forAwait {A} (body : A -> Chunk -> M (flow A)) g acc :
  (forall a c, inv extends (body a c)) ->
  inv extends (forAwait E body g acc).
Proof.
  intros H. apply frame_forAwait; [exact extends_now|exact extends_trace|exact H].
Qed.

Hint Resolve extends_signalAborted extends_await extends_retry
  extends_encodeFiles extends_currentTurn : inv.

Lemma extends_thinkHandler : inv extends (thinkHandler E input ctx).
Proof.
  pose proof (fun g acc => extends_forAwait (appendChunk E) g acc
                             extends_appendChunk) as Hloop.
  unfold thinkHandler. inv_walk cite_side.
Qed.

Lemma extends_studyHandler : inv extends (studyHandler E input).
Proof.
  pose proof (fun g acc => extends_forAwait (appendChunk E) g acc
                             extends_appendChunk) as Hloop.
  unfold studyHandler. inv_walk cite_side.
Qed.

Lemma extends_imageHandler : inv extends (imageHandler E input).
Proof. unfold imageHandler. inv_walk cite_side. Qed.

Lemma extends_canvasHandler : inv extends (canvasHandler E input).
Proof. unfold canvasHandler. inv_walk cite_side. Qed.

Lemma extends_projectHandler : inv extends (projectHandler E input).
Proof. unfold projectHandler. inv_walk cite_side. Qed.

Lemma extends_simpleHandler : inv extends (simpleHandler E input ctx).
Proof.
  pose proof (fun uf g acc =>
                extends_forAwait (simpleChunk E ctx uf) g acc
                  (extends_simpleChunk uf)) as Hloop.
  unfold simpleHandler. inv_walk cite_side.
Qed.
End Citations.

Lemma inv_holds {A} (J : state -> Prop) (m : M A) (s : state) :
  inv J m -> J s -> fst (m s) <> OutOfFuel -> J (snd (m s)).
Proof.
  intros Hinv Hs Hfuel. specialize (Hinv s Hs).
  destruct (fst (m s)); cbn [post] in Hinv; [exact Hinv|exact Hinv|].
  now contradiction Hfuel.
Qed.

(** A pass of any action but the two searches keeps the citations gathered
    so far, in front of those it adds. *)
Lemma dispatch_keeps_citations (E : env) (input : AgentInput) (ctx : context)
    (s : state) :
  currentAction s <> SEARCH -> currentAction s <> DEEP_SEARCH ->
  exists added,
    citations (snd (dispatch E input ctx s)) = citations s ++ added.
Proof.
  intros Hs Hd.
  assert (Hstart : exists added, citations s = citations s ++ added)
    by (exists []; now rewrite app_nil_r).
  assert (Hfuel : fst (dispatch E input ctx s) <> OutOfFuel).
  { destruct (steady_dispatch E input ctx s) as [_ H].
    intros Heq. now rewrite Heq in H. }
  rewrite dispatch_runs in Hfuel |- *.
  destruct (currentAction s); try contradiction;
    apply (inv_holds (fun s0 => exists added,
                        citations s0 = citations s ++ added));
    try assumption;
    first [ apply extends_simpleHandler | apply extends_thinkHandler
          | apply extends_imageHandler | apply extends_canvasHandler
          | apply extends_projectHandler | apply extends_studyHandler ].
Qed.

(** ** The turn carries the payload *)

Section Carries.
Variable E : env.
Variable input : AgentInput.
Variable ctx : context.

Lemma hoare_any {A} (P : state -> Prop) (m : M A) :
  hoare always P m (fun _ => always).
Proof.
  intros s _. destruct (fst (m s)); exact I.
Qed.

Lemma currentTurn_carries (P : state -> Prop) :
  hoare always P (r <- currentTurn input ;; ret (Return r)) carriesPayload.
Proof.
  intros s _. unfold currentTurn, bind, get, ret. cbn [post fst snd carriesPayload].
  eexists. split; reflexivity.
Qed.

Ltac carries_walk :=
  repeat first
    [ match goal with |- forall _, _ => intro end
    | progress cbv zeta
    | match goal with
      | |- hoare _ _ (bind (currentTurn _) _) _ => apply currentTurn_carries
      | |- hoare _ _ (bind get _) _ =>
          eapply hoare_bind; [apply hoare_get|]
      | |- hoare _ _ (bind _ _) _ =>
          eapply hoare_bind; [apply hoare_any|]
      | |- hoare _ _ (tryCatch _ _) _ =>
          eapply hoare_tryCatch with (X0 := always)
      | |- hoare _ _ (ret Continue) _ =>
          apply hoare_ret; intros; exact I
      | |- hoare _ _ (ret (Return _)) _ =>
          apply hoare_ret;
          let s := fresh "s" in
          intros s [<- _]; eexists; split; reflexivity
      | |- hoare _ _ (throw _) _ => apply hoare_throw; intros; exact I
      | |- hoare _ _ (if ?c then _ else _) _ => destruct c
      | |- hoare _ _ (match ?x with _ => _ end) _ => destruct x
      end ].

Lemma searchHandler_carries P :
  hoare always P (searchHandler E input) carriesPayload.
Proof. unfold searchHandler. carries_walk. Qed.

Lemma thinkHandler_carries P :
  hoare always P (thinkHandler E input ctx) carriesPayload.
Proof. unfold thinkHandler. carries_walk. Qed.

Lemma imageHandler_carries P :
  hoare always P (imageHandler E input) carriesPayload.
Proof. unfold imageHandler. carries_walk. Qed.

Lemma canvasHandler_carries P :
  hoare always P (canvasHandler E input) carriesPayload.
Proof. unfold canvasHandler. carries_walk. Qed.

Lemma projectHandler_carries P :
  hoare always P (projectHandler E input) carriesPayload.
Proof. unfold projectHandler. carries_walk. Qed.

Lemma studyHandler_carries P :
  hoare always P (studyHandler E input) carriesPayload.
Proof. unfold studyHandler. carries_walk. Qed.

Lemma simpleHandler_carries P :
  hoare always P (simpleHandler E input ctx) carriesPayload.
Proof. unfold simpleHandler. carries_walk. Qed.

Lemma dispatch_carries P :
  hoare always P (dispatch E input ctx) carriesPayload.
Proof.
  unfold dispatch. eapply hoare_bind; [apply hoare_get|]. intros s.
  destruct (currentAction s);
    first [ apply simpleHandler_carries | apply searchHandler_carries
          | apply thinkHandler_carries | apply imageHandler_carries
          | apply canvasHandler_carries | apply projectHandler_carries
          | apply studyHandler_carries ].
Qed.

Lemma loop_carries :
  forall fuel P,
    hoare always P (loop E input ctx fuel)
          (fun result s => carriesPayload (Return result) s).
Proof.
  induction fuel as [|fuel IH]; intros P; [intros s _; exact I|].
  rewrite loop_unfold.
  assert (Hturn : forall Q,
            hoare always Q (currentTurn input)
                  (fun result s => carriesPayload (Return result) s)).
  { intros Q s _. unfold currentTurn, bind, get, ret.
    cbn [post fst snd carriesPayload]. eexists. split; reflexivity. }
  eapply hoare_bind; [apply hoare_get|]. intros s0.
  destruct (loopCount s0 <? MAX_LOOPS)%nat; [|apply Hturn].
  eapply hoare_bind; [apply hoare_any|]. intros b.
  destruct b; [apply Hturn|].
  eapply hoare_bind; [apply hoare_any|]. intros u.
  eapply hoare_bind; [apply hoare_any|]. intros s1.
  eapply hoare_bind; [apply hoare_any|]. intros u1.
  eapply hoare_bind; [apply dispatch_carries|]. intros [|result].
  - apply IH.
  - apply hoare_ret. intros s H. exact H.
Qed.
End Carries.

(** A run of the loop in which no iteration is a search keeps the
    citations gathered before it, in front of those it adds. *)
Lemma loop_keeps_citations (E : env) (input : AgentInput) (ctx : context) :
  forall fuel s later,
    iterationsOf (trace (snd (loop E input ctx fuel s)))
    = later ++ iterationsOf (trace s) ->
    Forall notSearch later ->
    exists added,
      citations (snd (loop E input ctx fuel s)) = citations s ++ added.
Proof.
  induction fuel as [|fuel IH]; intros s later Hits Hlater.
  { exists []. now rewrite app_nil_r. }
  destruct (Nat.lt_ge_cases (loopCount s) MAX_LOOPS) as [Hlt|Hge].
  2:{ rewrite (loop_exhausted E input ctx fuel s Hge). exists [].
      now rewrite app_nil_r. }
  destruct (aborted E (now s)) eqn:Hab.
  { rewrite (loop_aborted E input ctx fuel s Hlt Hab). exists [].
    now rewrite app_nil_r. }
  rewrite (loop_iteration E input ctx fuel s Hlt Hab) in Hits |- *.
  cbn zeta in Hits |- *.
  set (this := Iteration (S (loopCount s)) (currentAction s) (currentPrompt s))
    in *.
  set (s2 := set_trace (this :: trace s) (set_loopCount (S (loopCount s)) s))
    in *.
  destruct (steady_dispatch E input ctx s2) as [(_ & Hi3 & _) _].
  change (iterationsOf (trace s2)) with (this :: iterationsOf (trace s)) in Hi3.
  assert (Hnext : forall s3 later',
            iterationsOf (trace s3) = later' ++ this :: iterationsOf (trace s) ->
            iterationsOf (trace s3) = later ++ iterationsOf (trace s) ->
            later = later' ++ [this]).
  { intros s3 later' H1 H2. rewrite H1 in H2.
    change (this :: iterationsOf (trace s))
      with ([this] ++ iterationsOf (trace s)) in H2.
    rewrite app_assoc in H2. apply app_inv_tail in H2. now symmetry. }
  assert (Hkeep : currentAction s <> SEARCH /\ currentAction s <> DEEP_SEARCH ->
                  exists added,
                    citations (snd (dispatch E input ctx s2))
                    = citations s ++ added).
  { intros [Hs Hd]. exact (dispatch_keeps_citations E input ctx s2 Hs Hd). }
  unfold bind in Hits |- *.
  destruct (dispatch E input ctx s2) as [[[|result]| e |] s3] eqn:Hrun;
    cbn [fst snd] in *.
  - destruct (loop_records E input ctx fuel s3) as (later' & Hl & _).
    rewrite Hi3 in Hl.
    pose proof (Hnext _ later' Hl Hits) as ->.
    apply Forall_app in Hlater. destruct Hlater as [Hlater' Hthis].
    apply Forall_inv in Hthis. destruct (Hkeep Hthis) as [added1 H1].
    destruct (IH s3 later') as [added2 H2].
    + now rewrite Hl, Hi3.
    + exact Hlater'.
    + exists (added1 ++ added2). now rewrite H2, H1, app_assoc.
  - pose proof (Hnext s3 [] Hi3 Hits) as ->.
    apply Forall_inv in Hlater. exact (Hkeep Hlater).
  - pose proof (Hnext s3 [] Hi3 Hits) as ->.
    apply Forall_inv in Hlater. exact (Hkeep Hlater).
  - pose proof (Hnext s3 [] Hi3 Hits) as ->.
    apply Forall_inv in Hlater. exact (Hkeep Hlater).
Qed.

(** X27.  The citations, as the code has them.  A pass of any action but
    SEARCH and DEEP_SEARCH keeps the citations gathered so far, in front of
    those it adds, and so does a run of the loop none of whose iterations
    is a search.  The search handler replaces them by the sources of a
    research that found at least one, and keeps them otherwise.  A step
    that returns a turn returns one turn, which carries the payload of that
    moment, and so does the loop when it returns. *)
Theorem citations_survive_all_but_search (E : env) (input : AgentInput)
    (ctx : context) (s : state) :
  (currentAction s <> SEARCH -> currentAction s <> DEEP_SEARCH ->
   exists added,
     citations (snd (dispatch E input ctx s)) = citations s ++ added)
  /\ (forall fuel later,
        iterationsOf (trace (snd (loop E input ctx fuel s)))
        = later ++ iterationsOf (trace s) ->
        Forall notSearch later ->
        exists added,
          citations (snd (loop E input ctx fuel s)) = citations s ++ added)
  /\ metadataPayload (snd (searchHandler E input s))
     = match r_result (deepResearch E (now s) (currentPrompt s) (apiKey input)) with
       | Resolved {| answer := _; sources := url :: urls |} =>
           Some (map (toGrounding E) (url :: urls))
       | _ => metadataPayload s
       end
  /\ match fst (dispatch E input ctx s) with
     | Ok r => carriesPayload r (snd (dispatch E input ctx s))
     | _ => True
     end
  /\ (forall fuel,
        match fst (loop E input ctx fuel s) with
        | Ok result =>
            exists t, result = single t
                      /\ t_groundingMetadata t
                         = metadataPayload (snd (loop E input ctx fuel s))
        | _ => True
        end).
Proof.
  split; [apply dispatch_keeps_citations|].
  split; [intros fuel later; apply loop_keeps_citations|]. split.
  { destruct (searchHandler_runs E input s) as (t & added & Hrun).
    cbn zeta in Hrun. rewrite Hrun.
    destruct (r_result _) as [[a [|url urls]]|e]; reflexivity. }
  split.
  { pose proof (dispatch_carries E input ctx always s I) as H.
    destruct (fst (dispatch E input ctx s)); [exact H|exact I|exact I]. }
  intros fuel.
  pose proof (loop_carries E input ctx fuel always s I) as H.
  destruct (fst (loop E input ctx fuel s)); [exact H|exact I|exact I].
Qed.

(** X27 at the run whose first answer carries a citation and asks for a
    search that finds no source: the turn carries the citation. *)
Lemma citations_survive_all_but_search_witness :
  exists t,
    fst (loop Scenario.groundedThenBareSearch Scenario.catsQuestion
           Setting.nativeContext 7
           (Setting.starting Scenario.catsQuestion SIMPLE "tell me about cats"))
    = Ok (single t)
    /\ t_groundingMetadata t = Some [Scenario.earlier].
Proof.
  destruct (citations_survive_all_but_search Scenario.groundedThenBareSearch
              Scenario.catsQuestion Setting.nativeContext
              (Setting.starting Scenario.catsQuestion SIMPLE
                 "tell me about cats"))
    as (_ & _ & _ & _ & Hloop).
  specialize (Hloop 7).
  destruct (fst (loop _ _ _ 7 _)) as [result| e |] eqn:Hrun.
  - destruct Hloop as (t & -> & Hmeta). exists t. split; [reflexivity|].
    rewrite Hmeta. vm_compute. reflexivity.
  - vm_compute in Hrun. discriminate.
  - vm_compute in Hrun. discriminate.
Defined.
